(** * The aeroref remark plugins: heading sections, table of contents, code boxes

  A shallow embedding of [src/remark-section-transform.mjs] and
  [src/remark-code-transform.mjs], followed by the properties of the
  specification proved (or refuted) on it.

  Conventions of the embedding.
  - A JavaScript string is a [string]: a sequence of 8-bit code units read
    as the code points U+0000 to U+00FF.  Code units above U+00FF are outside
    the model.
  - A syntax-tree node is a record of the fields the two plugins read or
    write; a field the code reads through [x || ''] is a [string] that is
    empty when the property is absent.
  - In-place mutation is explicit state passing: the children of the parent
    being walked, the ToC accumulator and the console are threaded through
    the traversal.  A [throw] is an abrupt [completion]. *)

From Stdlib Require Import ZArith List String Ascii Bool Lia DecimalString Sorted.
From stdpp Require Import gmap strings list fin_maps sorting.
Import ListNotations.

Set Warnings "-register-all".

Open Scope string_scope.
Open Scope list_scope.

(** ** Characters and strings of JavaScript *)

Module Js.

(** The code units of a string. *)
Abbreviation chars := (list ascii).

Definition code (c : ascii) : N := N_of_ascii c.

Definition between (lo hi : N) (c : ascii) : bool :=
  ((lo <=? code c) && (code c <=? hi))%N.

(** LineTerminator of ECMAScript, on code units below U+0100: LF, CR. *)
Definition isLineTerminator (c : ascii) : bool :=
  ((code c =? 10) || (code c =? 13))%N.

(** WhiteSpace of ECMAScript, on code units below U+0100:
    TAB, VT, FF, SP, NBSP. *)
Definition isWhiteSpace (c : ascii) : bool :=
  ((code c =? 9) || (code c =? 11) || (code c =? 12) || (code c =? 32)
   || (code c =? 160))%N.

(** The class [\s], also the characters removed by [trim]. *)
Definition isSpace (c : ascii) : bool := isWhiteSpace c || isLineTerminator c.

(** The class [.] (without the [s] flag). *)
Definition isDot (c : ascii) : bool := negb (isLineTerminator c).

Definition isDigit (c : ascii) : bool := between 48 57 c.
Definition isUpper (c : ascii) : bool := between 65 90 c.
Definition isLower (c : ascii) : bool := between 97 122 c.

(** The class [\w]. *)
Definition isWord (c : ascii) : bool :=
  isUpper c || isLower c || isDigit c || (code c =? 95)%N.

(** The part of a list after, and the part up to, its longest prefix whose
    elements all pass [p]. *)
Fixpoint dropWhile {A : Type} (p : A -> bool) (s : list A) : list A :=
  match s with
  | a :: s' => if p a then dropWhile p s' else s
  | [] => []
  end.

Fixpoint takeWhile {A : Type} (p : A -> bool) (s : list A) : list A :=
  match s with
  | a :: s' => if p a then a :: takeWhile p s' else []
  | [] => []
  end.

Definition trimStartL (s : chars) : chars := dropWhile isSpace s.
Definition trimEndL (s : chars) : chars := rev (dropWhile isSpace (rev s)).
Definition trimL (s : chars) : chars := trimEndL (trimStartL s).

Definition of_string : string -> chars := list_ascii_of_string.
Definition to_string : chars -> string := string_of_list_ascii.

(** [String.prototype.trimEnd] and [String.prototype.trim]. *)
Definition trimEnd (s : string) : string := to_string (trimEndL (of_string s)).
Definition trim (s : string) : string := to_string (trimL (of_string s)).

(** [String.prototype.toLowerCase] on one code unit below U+0100: the
    letters A-Z and the Latin-1 capitals U+00C0-U+00DE except U+00D7. *)
Definition lowerChar (c : ascii) : ascii :=
  if isUpper c || (between 192 222 c && negb (code c =? 215)%N)
  then ascii_of_N (code c + 32) else c.

Definition toLowerCaseL (s : chars) : chars := List.map lowerChar s.

(** [Array.prototype.join] on strings. *)
Fixpoint join (sep : string) (l : list string) : string :=
  match l with
  | [] => ""
  | [x] => x
  | x :: rest => x +:+ sep +:+ join sep rest
  end.

(** Template-literal conversion of an integer. *)
Definition string_of_Z (z : Z) : string := NilZero.string_of_int (Z.to_int z).

End Js.

(** ** A backtracking matcher for the regular expressions of the plugins

  The matcher follows the ECMAScript semantics: alternatives are tried left
  to right, a greedy quantifier tries the longest repetition first and a
  lazy one the shortest, and the first success along that order is the
  match.  The quantifiers of the modelled expressions all range over a
  single character class, so [Star] takes a class; [x+] is [x x*]. *)

Module Regex.
Import Js.

Inductive regex : Type :=
| Eps
| Chr (c : ascii)
| Cls (p : ascii -> bool)
| Cat (r1 r2 : regex)
| Alt (r1 r2 : regex)
| Star (greedy : bool) (p : ascii -> bool)
| Opt (r : regex)
| Grp (n : nat) (r : regex)
| Look (positive : bool) (r : regex)
| Bos
| Eos
| WordB.

Definition Plus (greedy : bool) (p : ascii -> bool) : regex :=
  Cat (Cls p) (Star greedy p).

(** The literal string [s]. *)
Fixpoint Lit (s : chars) : regex :=
  match s with
  | [] => Eps
  | [a] => Chr a
  | a :: s' => Cat (Chr a) (Lit s')
  end.

(** Captures: group number to captured text; a group that did not take part
    is absent ([undefined]). *)
Definition caps := list (nat * chars).

Fixpoint cap_get (n : nat) (c : caps) : option chars :=
  match c with
  | [] => None
  | (k, v) :: c' => if Nat.eqb k n then Some v else cap_get n c'
  end.

Definition cap_set (n : nat) (v : chars) (c : caps) : caps := (n, v) :: c.

(** A continuation gets the character before the position, the rest of the
    input and the captures; it answers with the input left after the whole
    match and the final captures. *)
Definition cont := option ascii -> chars -> caps -> option (chars * caps).

Fixpoint star_greedy (p : ascii -> bool) (k : cont)
    (prev : option ascii) (s : chars) (c : caps) : option (chars * caps) :=
  match s with
  | a :: s' =>
      if p a then
        match star_greedy p k (Some a) s' c with
        | Some r => Some r
        | None => k prev s c
        end
      else k prev s c
  | [] => k prev s c
  end.

Fixpoint star_lazy (p : ascii -> bool) (k : cont)
    (prev : option ascii) (s : chars) (c : caps) : option (chars * caps) :=
  match k prev s c with
  | Some r => Some r
  | None =>
      match s with
      | a :: s' => if p a then star_lazy p k (Some a) s' c else None
      | [] => None
      end
  end.

Definition isWordOpt (o : option ascii) : bool :=
  match o with Some a => isWord a | None => false end.

Fixpoint m (r : regex) (k : cont)
    (prev : option ascii) (s : chars) (c : caps) : option (chars * caps) :=
  match r with
  | Eps => k prev s c
  | Chr a =>
      match s with
      | b :: s' => if Ascii.eqb a b then k (Some b) s' c else None
      | [] => None
      end
  | Cls p =>
      match s with
      | b :: s' => if p b then k (Some b) s' c else None
      | [] => None
      end
  | Cat r1 r2 => m r1 (m r2 k) prev s c
  | Alt r1 r2 =>
      match m r1 k prev s c with
      | Some x => Some x
      | None => m r2 k prev s c
      end
  | Star g p => (if g then star_greedy else star_lazy) p k prev s c
  | Opt r1 =>
      match m r1 k prev s c with
      | Some x => Some x
      | None => k prev s c
      end
  | Grp n r1 =>
      m r1 (fun prev' s' c' =>
              k prev' s' (cap_set n (firstn (length s - length s') s) c'))
        prev s c
  | Look positive r1 =>
      match m r1 (fun _ _ c' => Some ([], c')) prev s c with
      | Some (_, c') => if positive then k prev s c' else None
      | None => if positive then None else k prev s c
      end
  | Bos => match prev with None => k prev s c | Some _ => None end
  | Eos => match s with [] => k prev s c | _ :: _ => None end
  | WordB =>
      if xorb (isWordOpt prev) (isWordOpt (head s)) then k prev s c else None
  end.

Definition accept : cont := fun _ s c => Some (s, c).

(** A match: where it starts, its text, the input after it, the captures. *)
Record found := Found {
  f_index : nat;
  f_text : chars;
  f_rest : chars;
  f_caps : caps
}.

(** One attempt at the current position. *)
Definition attempt (r : regex) (i : nat) (prev : option ascii) (s : chars)
  : option found :=
  match m r accept prev s [] with
  | Some (s', c) => Some (Found i (firstn (length s - length s') s) s' c)
  | None => None
  end.

(** The leftmost match at or after the current position. *)
Fixpoint search (r : regex) (i : nat) (prev : option ascii) (s : chars)
  : option found :=
  match attempt r i prev s with
  | Some f => Some f
  | None =>
      match s with
      | a :: s' => search r (S i) (Some a) s'
      | [] => None
      end
  end.

(** [RegExp.prototype.exec] of a regular expression without flags. *)
Definition exec (r : regex) (s : chars) : option found := search r 0 None s.

(** [RegExp.prototype.test]. *)
Definition test (r : regex) (s : chars) : bool :=
  match exec r s with Some _ => true | None => false end.

Definition last_of (prev : option ascii) (t : chars) : option ascii :=
  match rev t with a :: _ => Some a | [] => prev end.

(** The matches of a regular expression with the [g] flag, left to right:
    after a match the search resumes where it ended, one code unit further
    when the match was empty. *)
Fixpoint all_from (fuel : nat) (r : regex) (i : nat) (prev : option ascii)
    (s : chars) : list chars :=
  match fuel with
  | O => []
  | S fuel' =>
      match search r i prev s with
      | None => []
      | Some f =>
          match f_text f, f_rest f with
          | [], a :: rest' =>
              [] :: all_from fuel' r (S (f_index f)) (Some a) rest'
          | [], [] => [[]]
          | t, rest' =>
              t :: all_from fuel' r (f_index f + length t)
                     (last_of prev t) rest'
          end
      end
  end.

(** [String.prototype.match] with a [g] expression: the matched texts, or
    [null] when there is none. *)
Definition match_all (r : regex) (s : chars) : option (list chars) :=
  match all_from (S (length s)) r 0 None s with
  | [] => None
  | l => Some l
  end.

(** What a match can take.  [consumes P r]: every code unit that a match of
    [r] takes passes [P]; what a lookahead reads is not taken.  [eats r]: a
    match of [r] takes at least one code unit. *)
Fixpoint consumes (P : ascii -> bool) (r : regex) : Prop :=
  match r with
  | Chr a => P a = true
  | Cls p | Star _ p => forall x, p x = true -> P x = true
  | Cat r1 r2 | Alt r1 r2 => consumes P r1 /\ consumes P r2
  | Opt r1 | Grp _ r1 => consumes P r1
  | Eps | Look _ _ | Bos | Eos | WordB => True
  end.

Fixpoint eats (r : regex) : bool :=
  match r with
  | Chr _ | Cls _ => true
  | Cat r1 r2 => eats r1 || eats r2
  | Alt r1 r2 => eats r1 && eats r2
  | Grp _ r1 => eats r1
  | Eps | Star _ _ | Opt _ | Look _ _ | Bos | Eos | WordB => false
  end.

End Regex.

(** ** lodash [kebabCase]

    lodash is a dependency, not code of the repository.  This is its
    [kebabCase] (version 4.17) on strings of code units below U+0100:
    [words(deburr(string).replace(reApos, ''))], each word in lower
    case, joined by ["-"].  The emoji alternative of [reUnicodeWord] needs
    code units above U+00FF and is left out. *)

Module Lodash.
Import Js Regex.

Definition chr (n : N) : ascii := ascii_of_N n.

(** [deburrLetter] on the Latin-1 Supplement letters. *)
Definition deburrLetter (c : ascii) : chars :=
  let n := code c in
  if ((192 <=? n) && (n <=? 197))%N then ["A"%char]
  else if ((224 <=? n) && (n <=? 229))%N then ["a"%char]
  else if (n =? 199)%N then ["C"%char]
  else if (n =? 231)%N then ["c"%char]
  else if (n =? 208)%N then ["D"%char]
  else if (n =? 240)%N then ["d"%char]
  else if ((200 <=? n) && (n <=? 203))%N then ["E"%char]
  else if ((232 <=? n) && (n <=? 235))%N then ["e"%char]
  else if ((204 <=? n) && (n <=? 207))%N then ["I"%char]
  else if ((236 <=? n) && (n <=? 239))%N then ["i"%char]
  else if (n =? 209)%N then ["N"%char]
  else if (n =? 241)%N then ["n"%char]
  else if (((210 <=? n) && (n <=? 214)) || (n =? 216))%N then ["O"%char]
  else if (((242 <=? n) && (n <=? 246)) || (n =? 248))%N then ["o"%char]
  else if ((217 <=? n) && (n <=? 220))%N then ["U"%char]
  else if ((249 <=? n) && (n <=? 252))%N then ["u"%char]
  else if (n =? 221)%N then ["Y"%char]
  else if ((n =? 253) || (n =? 255))%N then ["y"%char]
  else if (n =? 198)%N then ["A"%char; "e"%char]
  else if (n =? 230)%N then ["a"%char; "e"%char]
  else if (n =? 222)%N then ["T"%char; "h"%char]
  else if (n =? 254)%N then ["t"%char; "h"%char]
  else if (n =? 223)%N then ["s"%char; "s"%char]
  else [c].

Definition deburr (s : chars) : chars := flat_map deburrLetter s.

(** [replace(reApos, '')]. *)
Definition isApos (c : ascii) : bool := (code c =? 39)%N.
Definition removeApos (s : chars) : chars :=
  List.filter (fun c => negb (isApos c)) s.

Definition isAlpha (c : ascii) : bool := isUpper c || isLower c.
Definition isAlnum (c : ascii) : bool := isAlpha c || isDigit c.

(** [/[a-z][A-Z]|[A-Z]{2}[a-z]|[0-9][a-zA-Z]|[a-zA-Z][0-9]|[^a-zA-Z0-9 ]/] *)
Definition reHasUnicodeWord : regex :=
  Alt (Cat (Cls isLower) (Cls isUpper))
 (Alt (Cat (Cls isUpper) (Cat (Cls isUpper) (Cls isLower)))
 (Alt (Cat (Cls isDigit) (Cls isAlpha))
 (Alt (Cat (Cls isAlpha) (Cls isDigit))
      (Cls (fun c => negb (isAlnum c || (code c =? 32)%N)))))).

(** [/[^\x00-\x2f\x3a-\x40\x5b-\x60\x7b-\x7f]+/g] *)
Definition isAsciiWordChar (c : ascii) : bool :=
  negb (between 0 47 c || between 58 64 c || between 91 96 c
        || between 123 127 c).
Definition reAsciiWord : regex := Plus true isAsciiWordChar.

(** The classes of [reUnicodeWord], on code units below U+0100. *)
Definition rsBreak (c : ascii) : bool :=
  ((code c =? 172) || (code c =? 177) || (code c =? 215) || (code c =? 247))%N
  || between 0 47 c || between 58 64 c || between 91 96 c || between 123 191 c
  || isSpace c.
Definition rsLower (c : ascii) : bool :=
  isLower c || between 223 246 c || between 248 255 c.
Definition rsUpper (c : ascii) : bool :=
  isUpper c || between 192 214 c || between 216 222 c.
Definition rsMisc (c : ascii) : bool :=
  negb (rsBreak c || isDigit c || (code c =? 43)%N || rsLower c || rsUpper c).
Definition rsMiscLower (c : ascii) : bool := rsLower c || rsMisc c.
Definition rsMiscUpper (c : ascii) : bool := rsUpper c || rsMisc c.

Definition alts (l : list regex) : regex :=
  match l with
  | [] => Cls (fun _ => false)
  | r :: rest => fold_left (fun acc x => Alt acc x) rest r
  end.

Definition word (s : string) : regex := Lit (of_string s).

(** [(?:A(?:d|ll|m|re|s|t|ve))?], with A the apostrophe class, and its
    upper-case twin. *)
Definition rsOptContrLower : regex :=
  Opt (Cat (Cls isApos)
         (alts [word "d"; word "ll"; word "m"; word "re"; word "s"; word "t";
                word "ve"])).
Definition rsOptContrUpper : regex :=
  Opt (Cat (Cls isApos)
         (alts [word "D"; word "LL"; word "M"; word "RE"; word "S"; word "T";
                word "VE"])).

Definition is123 (c : ascii) : bool := between 49 51 c.
Definition isUnderscore (c : ascii) : bool := (code c =? 95)%N.

(** [\d*(?:1st|2nd|3rd|(?![123])\dth)(?=\b|[A-Z_])] and its twin. *)
Definition rsOrdLower : regex :=
  Cat (Star true isDigit)
 (Cat (alts [word "1st"; word "2nd"; word "3rd";
             Cat (Look false (Cls is123)) (Cat (Cls isDigit) (word "th"))])
      (Look true (Alt WordB (Cls (fun c => isUpper c || isUnderscore c))))).
Definition rsOrdUpper : regex :=
  Cat (Star true isDigit)
 (Cat (alts [word "1ST"; word "2ND"; word "3RD";
             Cat (Look false (Cls is123)) (Cat (Cls isDigit) (word "TH"))])
      (Look true (Alt WordB (Cls (fun c => isLower c || isUnderscore c))))).

Definition reUnicodeWord : regex :=
  alts
    [ Cat (Opt (Cls rsUpper)) (Cat (Plus true rsLower) (Cat rsOptContrLower
        (Look true (alts [Cls rsBreak; Cls rsUpper; Eos]))));
      Cat (Plus true rsMiscUpper) (Cat rsOptContrUpper
        (Look true (alts [Cls rsBreak; Cat (Cls rsUpper) (Cls rsMiscLower);
                          Eos])));
      Cat (Opt (Cls rsUpper)) (Cat (Plus true rsMiscLower) rsOptContrLower);
      Cat (Plus true rsUpper) rsOptContrUpper;
      rsOrdUpper;
      rsOrdLower;
      Plus true isDigit ].

Definition from_null (o : option (list chars)) : list chars :=
  match o with Some l => l | None => [] end.

Definition asciiWords (s : chars) : list chars :=
  from_null (match_all reAsciiWord s).
Definition unicodeWords (s : chars) : list chars :=
  from_null (match_all reUnicodeWord s).
Definition hasUnicodeWord (s : chars) : bool := test reHasUnicodeWord s.

Definition words (s : chars) : list chars :=
  if hasUnicodeWord s then unicodeWords s else asciiWords s.

Definition kebabCase (text : string) : string :=
  join "-"
    (List.map (fun w => to_string (toLowerCaseL w))
       (words (removeApos (deburr (of_string text))))).

(** *** Titles of plain words

    A plain word is made of letters of which at most the first is a capital,
    or of digits; [spaced ws] is the title that holds the words [ws]
    separated by single spaces, [hyphenated ws] the words in lower case
    joined by hyphens. *)
Definition plain_word (w : chars) : bool :=
  match w with
  | [] => false
  | c :: rest => (isAlpha c && forallb isLower rest) || forallb isDigit w
  end.

Definition spaced (ws : list chars) : string :=
  join " " (List.map to_string ws).

Definition hyphenated (ws : list chars) : string :=
  join "-" (List.map (fun w => to_string (toLowerCaseL w)) ws).

(** A text in which [reHasUnicodeWord] finds nothing: letters, digits and
    spaces only, a capital only after a space, and no digit next to a
    letter. *)
Definition is_space (c : ascii) : bool := (code c =? 32)%N.

Definition calm_char (c : ascii) : bool := isAlpha c || isDigit c || is_space c.

Definition calm_pair (a b : ascii) : bool :=
  (negb (isUpper b) || is_space a)
  && negb (isDigit a && isAlpha b)
  && negb (isAlpha a && isDigit b).

Fixpoint calm (s : chars) : bool :=
  match s with
  | [] => true
  | a :: rest =>
      calm_char a
      && match rest with
         | [] => true
         | b :: _ => calm_pair a b
         end
      && calm rest
  end.

(** A word of a slug: not empty, of lower-case letters and digits. *)
Definition slug_char (c : ascii) : bool := isLower c || isDigit c.

Definition slug_word (w : chars) : bool :=
  match w with
  | [] => false
  | _ :: _ => forallb slug_char w
  end.

End Lodash.

(** ** The Text/ID parser ([parseTextWithId]) *)

Module TextId.
Import Js Regex.

(** The result object [{title, id}]. *)
Record parsed := Parsed { p_title : string; p_id : string }.

Definition notParen (c : ascii) : bool := negb (Ascii.eqb c ")").

(** [\s*\(#([^)]+)\)$], the part of the expression after its first group. *)
Definition reSuffix : regex :=
  Cat (Star true isSpace)
 (Cat (Chr "(")
 (Cat (Chr "#")
 (Cat (Grp 2 (Plus true notParen))
 (Cat (Chr ")")
      Eos)))).

(** [/^(.+?)\s*\(#([^)]+)\)$/] *)
Definition reTextWithId : regex :=
  Cat Bos (Cat (Grp 1 (Plus false isDot)) reSuffix).

(** [match[n]] as a string.  Both groups of [reTextWithId] take part in each
    of its matches ([exec_reTextWithId_groups]), so the default is not read. *)
Definition group (n : nat) (f : found) : string :=
  match cap_get n (f_caps f) with
  | Some v => to_string v
  | None => ""
  end.

Definition parseTextWithId (text : string) : parsed :=
  match exec reTextWithId (of_string text) with
  | Some f => Parsed (trim (group 1 f)) (group 2 f)
  | None => Parsed text (Lodash.kebabCase text)
  end.

(** *** The pattern in the words of the specification

    [reads text t ws lit]: the string is the title text [t], then the white
    space [ws], then the suffix made of an opening parenthesis, a hash sign,
    the literal [lit] and a closing parenthesis, at the very end.  The title
    text is not empty and has no line terminator; the literal is not empty and
    has no closing parenthesis. *)
Definition reads (text t ws lit : string) : Prop :=
  text = t +:+ ws +:+ "(#" +:+ lit +:+ ")"
  /\ t <> "" /\ forallb isDot (of_string t) = true
  /\ forallb isSpace (of_string ws) = true
  /\ lit <> "" /\ forallb notParen (of_string lit) = true.

(** [earliest text t ws]: no reading of [text] has its suffix start before
    the one after [t] and [ws]. *)
Definition earliest (text t ws : string) : Prop :=
  forall t' ws' lit',
    reads text t' ws' lit' ->
    String.length (t +:+ ws) <= String.length (t' +:+ ws').

(** [opens s t ws lit]: the string is the title text [t], then the white
    space [ws], then an opening parenthesis, a hash sign, and the text [lit]
    without a closing parenthesis, up to the end. *)
Definition opens (s t ws lit : string) : Prop :=
  s = t +:+ ws +:+ "(#" +:+ lit
  /\ t <> "" /\ forallb isDot (of_string t) = true
  /\ forallb isSpace (of_string ws) = true
  /\ forallb notParen (of_string lit) = true.

(** The same on lists of code units. *)
Definition readsL (s t ws lit : chars) : Prop :=
  s = t ++ ws ++ of_string "(#" ++ lit ++ of_string ")"
  /\ t <> [] /\ forallb isDot t = true
  /\ forallb isSpace ws = true
  /\ lit <> [] /\ forallb notParen lit = true.

(** [reSuffix] as a function: the literal, when the input is white space
    followed by the suffix. *)
Definition suffix_id (s : chars) : option chars :=
  match dropWhile isSpace s with
  | a :: b :: s2 =>
      if Ascii.eqb "(" a && Ascii.eqb "#" b then
        match takeWhile notParen s2, dropWhile notParen s2 with
        | x :: lit, [y] => if Ascii.eqb ")" y then Some (x :: lit) else None
        | _, _ => None
        end
      else None
  | _ => None
  end.

(** Whether the two code units of the marker occur next to each other. *)
Fixpoint has_marker (s : chars) : bool :=
  match s with
  | a :: (b :: _) as s' =>
      (Ascii.eqb "(" a && Ascii.eqb "#" b) || has_marker s'
  | _ => false
  end.

End TextId.

(** ** The ToC nester ([nestHeadings]) *)

Module Toc.
Import Js.

(** A normal return or a [throw new Error(msg)]. *)
Inductive result (A : Type) : Type :=
| Return (a : A)
| Throw (msg : string).
Arguments Return {A} a.
Arguments Throw {A} msg.

(** The section record [{depth, title, id}] pushed for each heading. *)
Record SectionRecord := MkRecord {
  r_depth : Z;
  r_title : string;
  r_id : string
}.

(** The ToC node [{depth, title, id, children}] of the output. *)
Inductive toc_node : Type :=
| TocNode (depth : Z) (title id : string) (children : list toc_node).

(** The object [{ ...heading, children: [] }] in the store: its children are
    held by address, since the object is shared between [parents], the
    [children] array of its parent and [nestedHeadings], and is mutated by
    [parent.children.push] after it was created.  An address is the position
    in the store, that is the order of creation. *)
Record hnode := MkHnode {
  h_rec : SectionRecord;
  h_children : list nat
}.

Record nest_state := MkNest {
  store : list hnode;
  nestedHeadings : list nat;
  parents : gmap Z nat
}.

Definition nest_init : nest_state := MkNest [] [] ∅.

(** [for (let d = heading.depth - 1; d >= 1; d--) if (parents.has(d)) ...]
    with [n] the first [d]. *)
Fixpoint find_parent (ps : gmap Z nat) (n : nat) : option nat :=
  match n with
  | O => None
  | S n' =>
      match ps !! Z.of_nat n with
      | Some a => Some a
      | None => find_parent ps n'
      end
  end.

Definition push_child (child : nat) (h : hnode) : hnode :=
  MkHnode (h_rec h) (h_children h ++ [child]).

(** One turn of [for (const heading of filteredHeadings)]. *)
Definition nest_step (st : nest_state) (heading : SectionRecord) : nest_state :=
  let nested := length (store st) in
  let store1 := store st ++ [MkHnode heading []] in
  let parents1 := <[r_depth heading := nested]> (parents st) in
  match find_parent parents1 (Z.to_nat (r_depth heading - 1)) with
  | Some parent =>
      MkNest (alter (push_child nested) parent store1) (nestedHeadings st)
        parents1
  | None => MkNest store1 (nestedHeadings st ++ [nested]) parents1
  end.

Definition nest_loop (filteredHeadings : list SectionRecord) : nest_state :=
  fold_left nest_step filteredHeadings nest_init.

(** The returned array read as a tree.  The children of an object are
    created after it, so the trees are built from the last address down:
    [trees_from base hs] are the trees of the addresses [base], [base+1], ...
    when [hs] are the objects from [base] on. *)
Fixpoint trees_from (base : nat) (hs : list hnode) : list toc_node :=
  match hs with
  | [] => []
  | h :: rest =>
      let later := trees_from (S base) rest in
      TocNode (r_depth (h_rec h)) (r_title (h_rec h)) (r_id (h_rec h))
        (omap (fun a => if (base <? a)%nat then later !! (a - S base)%nat
                        else None)
           (h_children h))
      :: later
  end.

Definition read_forest (hs : list hnode) (roots : list nat) : list toc_node :=
  omap (fun a => trees_from 0 hs !! a) roots.

(** The records of a tree of the output, the root first. *)
Fixpoint toc_records (t : toc_node) : list SectionRecord :=
  match t with
  | TocNode depth title id children =>
      MkRecord depth title id :: flat_map toc_records children
  end.

(** The tree of an address among those of [trees_from base hs]. *)
Definition tree_at (base : nat) (hs : list hnode) (a : nat) : option toc_node :=
  if (base <=? a)%nat then trees_from base hs !! (a - base)%nat else None.

(** No record is more than one level deeper than the record before it. *)
Fixpoint gentle (l : list SectionRecord) : bool :=
  match l with
  | r :: rest =>
      match rest with
      | r' :: _ => (r_depth r' <=? r_depth r + 1)%Z
      | [] => true
      end
      && gentle rest
  | [] => true
  end.

Definition toc_depth (t : toc_node) : Z :=
  match t with TocNode depth _ _ _ => depth end.

(** Every child in the tree is deeper than its parent. *)
Fixpoint deeper (t : toc_node) : bool :=
  match t with
  | TocNode depth _ _ children =>
      forallb (fun c => (depth <? toc_depth c)%Z && deeper c) children
  end.

Definition isDepth1 (h : SectionRecord) : bool := (r_depth h =? 1)%Z.

(** [nestHeadings(flatHeadings)]; [None] is an absent argument. *)
Definition nestHeadings (flatHeadings : option (list SectionRecord))
  : result (list toc_node) :=
  match flatHeadings with
  | None | Some [] => Return []
  | Some flat =>
      let depth1Headings := List.filter isDepth1 flat in
      if (length depth1Headings =? 0)%nat then
        Throw "No heading of depth 1 found"
      else if (1 <? length depth1Headings)%nat then
        Throw ("Found " +:+ string_of_Z (Z.of_nat (length depth1Headings))
               +:+ " headings of depth 1, expected exactly 1")
      else
        let filteredHeadings := List.filter (fun h => negb (isDepth1 h)) flat in
        let st := nest_loop filteredHeadings in
        Return (read_forest (store st) (nestedHeadings st))
  end.

(** *** The nesting rule in the words of the specification

    For a record at depth [d] that comes after the records [prev]: its parent
    is the most recent record at the greatest depth below [d] among [prev];
    positions count from 0 in [prev]. *)

Definition greatest_below (prev : list SectionRecord) (d : Z) : option Z :=
  fold_left
    (fun best r =>
       if (r_depth r <? d)%Z then
         match best with
         | Some g => Some (Z.max g (r_depth r))
         | None => Some (r_depth r)
         end
       else best)
    prev None.

Fixpoint most_recent_at (prev : list SectionRecord) (g : Z) : option nat :=
  match prev with
  | [] => None
  | r :: rest =>
      match most_recent_at rest g with
      | Some i => Some (S i)
      | None => if (r_depth r =? g)%Z then Some 0%nat else None
      end
  end.

Definition stated_parent (prev : list SectionRecord) (d : Z) : option nat :=
  match greatest_below prev d with
  | Some g => most_recent_at prev g
  | None => None
  end.

(** The parent of the record at position [j] of [kept]. *)
Definition parent_of (kept : list SectionRecord) (j : nat) : option nat :=
  match kept !! j with
  | Some r => stated_parent (firstn j kept) (r_depth r)
  | None => None
  end.

(** The positions below [j] whose stated parent is [p], in input order. *)
Definition positions_upto (kept : list SectionRecord) (j : nat)
    (p : option nat) : list nat :=
  List.filter (fun j' => bool_decide (parent_of kept j' = p)) (seq 0 j).

(** The store and the roots the rule describes once the first [j] records
    are placed: one object per record, with the records that name it as
    parent as its children. *)
Definition stated_store_upto (kept : list SectionRecord) (j : nat)
  : list hnode :=
  imap (fun i r => MkHnode r (positions_upto kept j (Some i))) (firstn j kept).

Definition stated_store (kept : list SectionRecord) : list hnode :=
  stated_store_upto kept (length kept).

Definition stated_roots (kept : list SectionRecord) : list nat :=
  positions_upto kept (length kept) None.

Definition stated_forest (kept : list SectionRecord) : list toc_node :=
  read_forest (stated_store kept) (stated_roots kept).

End Toc.

(** ** Syntax trees and their traversal ([unist-util-visit]) *)

Module Unist.
Import Js.

(** The value of a JSX attribute: a string, or the expression object
    [{type: 'mdxJsxAttributeValueExpression', value, data: {estree}}] whose
    program is the one literal with the fields [value] and [raw]. *)
Inductive attr_value : Type :=
| AStr (s : string)
| AExpr (value : string) (literal_value : string) (literal_raw : string).

(** [{type: 'mdxJsxAttribute', name, value}] *)
Record attribute := Attribute {
  a_type : string;
  a_name : string;
  a_value : attr_value
}.

(** A node: the properties the plugins read or write.  [n_depth] is the
    integer depth of a heading; [n_value], [n_lang] and [n_meta] are empty
    when the property is absent or null (the code reads them through
    [x || ''] or joins them); a node without children has none. *)
Inductive node : Type := Node {
  n_type : string;
  n_depth : Z;
  n_value : string;
  n_lang : string;
  n_meta : string;
  n_name : string;
  n_attributes : list attribute;
  n_children : list node
}.

Definition set_children (n : node) (cs : list node) : node :=
  Node (n_type n) (n_depth n) (n_value n) (n_lang n) (n_meta n) (n_name n)
    (n_attributes n) cs.

Fixpoint node_size (n : node) : nat :=
  S (list_sum (List.map node_size (n_children n))).

Definition nodes_size (l : list node) : nat := list_sum (List.map node_size l).

(** How a call ends: normally, or by a [throw]. *)
Inductive completion : Type :=
| Normal
| Abrupt (msg : string).

Section Visit.

(** The state the visitor works on besides the tree. *)
Context {S : Type}.

(** [visit(tree, test, visitor)].  The visitor is called with the node, and
    with its index and its parent when it has one; it returns nothing (so the
    traversal always continues with the children of the node, then with the
    next index).  [visitor node ctx st] gives the children of the parent after
    the call.  Both plugins take the visited node out of its parent; what the
    traversal then does to the children of that node (it still walks them)
    no longer shows in the tree, only in the state. *)
Variable test : node -> bool.
Variable visitor :
  node -> option (nat * node) -> S -> list node * S * completion.

(** The loop [while (offset < parent.children.length)] of the traversal,
    with the visit of the child at [offset] inlined.  The result is the
    parent after the loop.  [None]: not enough fuel. *)
Fixpoint visit_children (fuel : nat) (parent : node) (offset : nat) (st : S)
  : option (node * S * completion) :=
  match fuel with
  | O => None
  | Datatypes.S fuel' =>
      match n_children parent !! offset with
      | None => Some (parent, st, Normal)
      | Some child =>
          if test child then
            match visitor child (Some (offset, parent)) st with
            | (children1, st1, Abrupt e) =>
                Some (set_children parent children1, st1, Abrupt e)
            | (children1, st1, Normal) =>
                match visit_children fuel' child 0 st1 with
                | None => None
                | Some (_, st2, Abrupt e) =>
                    Some (set_children parent children1, st2, Abrupt e)
                | Some (_, st2, Normal) =>
                    visit_children fuel' (set_children parent children1)
                      (Datatypes.S offset) st2
                end
            end
          else
            match visit_children fuel' child 0 st with
            | None => None
            | Some (child', st1, c) =>
                let parent1 :=
                  set_children parent (<[offset := child']> (n_children parent)) in
                match c with
                | Abrupt e => Some (parent1, st1, Abrupt e)
                | Normal => visit_children fuel' parent1 (Datatypes.S offset) st1
                end
            end
      end
  end.

(** The traversal from the root, which has no parent. *)
Definition visit_fuel (fuel : nat) (tree : node) (st : S)
  : option (node * S * completion) :=
  if test tree then
    match visitor tree None st with
    | (_, st1, Abrupt e) => Some (tree, st1, Abrupt e)
    | (_, st1, Normal) => visit_children fuel tree 0 st1
    end
  else visit_children fuel tree 0 st.

(** Fuel for the whole tree ([visit_children_total]). *)
Definition visit (tree : node) (st : S) : option (node * S * completion) :=
  visit_fuel (Datatypes.S (node_size tree)) tree st.

End Visit.

(** The nodes of a tree in document order. *)
Fixpoint preorder (n : node) : list node :=
  n :: flat_map preorder (n_children n).

End Unist.

(** ** The heading-to-section transform ([remark-section-transform.mjs]) *)

Module SectionTransform.
Import Js Toc Unist TextId.

(** The ToC accumulator [toc] and what [console.warn] has printed. *)
Record state := MkState {
  toc : list SectionRecord;
  console : list string
}.

Definition isHeading (n : node) : bool := String.eqb (n_type n) "heading".

(** [node => node.type === 'heading' && node.depth >= 1 && node.depth <= 4] *)
Definition test (n : node) : bool :=
  isHeading n && (1 <=? n_depth n)%Z && (n_depth n <=? 4)%Z.

(** [node => node.type === 'heading' || node.type === 'export'] *)
Definition isEnd (n : node) : bool :=
  String.eqb (n_type n) "heading" || String.eqb (n_type n) "export".

(** The first position after [index] whose node passes [t]. *)
Fixpoint find_from (t : node -> bool) (l : list node) (i : nat)
  : option (nat * node) :=
  match l with
  | [] => None
  | n :: rest => if t n then Some (i, n) else find_from t rest (S i)
  end.

(** [findAfter(parent, start, test)] of [unist-util-find-after], with [index]
    the position of [start] in the parent: the first later child that passes
    the test, with its position, or [undefined].  It throws for a parent
    that is absent or has no type. *)
Definition findAfter (parent : option node) (index : nat) (t : node -> bool)
  : result (option (nat * node)) :=
  match parent with
  | None => Throw "Expected parent node"
  | Some p =>
      if String.eqb (n_type p) "" then Throw "Expected parent node"
      else Return (find_from t (skipn (S index) (n_children p)) (S index))
  end.

(** [parent.children.indexOf(end)]: the nodes of a tree are distinct objects,
    so the first position of [end] is where [findAfter] found it, and the
    position of [undefined] is -1. *)
Definition indexOf_end (e : option (nat * node)) : Z :=
  match e with
  | Some (i, _) => Z.of_nat i
  | None => (-1)%Z
  end.

(** The relative index of [slice] and [splice]. *)
Definition relative (len : nat) (z : Z) : nat :=
  if (z <? 0)%Z then Z.to_nat (Z.max (Z.of_nat len + z) 0)
  else Nat.min (Z.to_nat z) len.

(** [Array.prototype.slice(start, end)]; [None] is [undefined]. *)
Definition slice {A : Type} (l : list A) (start : Z) (e : option Z) : list A :=
  let len := length l in
  let k := relative len start in
  let final := match e with Some z => relative len z | None => len end in
  firstn (final - k) (skipn k l).

(** [Array.prototype.splice(start, deleteCount, item)], the array after it. *)
Definition splice {A : Type} (l : list A) (start : Z) (deleteCount : Z)
    (item : A) : list A :=
  let len := length l in
  let k := relative len start in
  let dc := Nat.min (Z.to_nat (Z.max deleteCount 0)) (len - k) in
  firstn k l ++ [item] ++ skipn (k + dc) l.

Definition isText (n : node) : bool := String.eqb (n_type n) "text".

(** [extractTextFromHeading]: the values of the text children, joined. *)
Definition extractTextFromHeading (headingNode : node) : string :=
  join "" (List.map n_value (List.filter isText (n_children headingNode))).

(** [getComponentNameForDepth]; [depth in componentMap] holds for 1 to 4. *)
Definition bug_message (depth : Z) : string :=
  "BUG: Unexpected heading depth " +:+ string_of_Z depth
  +:+ " encountered in remark-section-transform plugin. "
  +:+ "This should never happen since the plugin only processes depths 1-4. "
  +:+ "Please report this as a bug.".

Definition getComponentNameForDepth (depth : Z) : result string :=
  if (depth =? 1)%Z then Return "Section"
  else if (depth =? 2)%Z then Return "SubSection"
  else if (depth =? 3)%Z then Return "SubSubSection"
  else if (depth =? 4)%Z then Return "SubSubSubSection"
  else Throw (bug_message depth).

Definition nl : string := String "010" "".

(** The text given to [console.warn] for a heading of depth 1. *)
Definition warning (title id : string) : string :=
  nl +:+ "WARNING:" +:+ "Section with title" +:+ nl
  +:+ " " +:+ title +:+ nl
  +:+ "will be given the generic id" +:+ nl
  +:+ " page_title" +:+ nl
  +:+ "instead of the custom id" +:+ nl
  +:+ " " +:+ id +:+ "." +:+ nl.

(** The element [sectionComponent]. *)
Definition sectionComponent (componentName title id : string)
    (contentWithoutHeading : list node) : node :=
  Node "mdxJsxFlowElement" 0 "" "" "" componentName
    [Attribute "mdxJsxAttribute" "title" (AStr title);
     Attribute "mdxJsxAttribute" "id" (AStr id)]
    contentWithoutHeading.

(** [sectionizeToComponent(node, index, parent, toc)]: the children of the
    parent after the call, the accumulator and the console. *)
Definition sectionizeToComponent (node : node) (ctx : option (nat * Unist.node))
    (st : state) : list Unist.node * state * completion :=
  let index := match ctx with Some (i, _) => i | None => O end in
  let parent := match ctx with Some (_, p) => Some p | None => None end in
  let children := match ctx with Some (_, p) => n_children p | None => [] end in
  let depth := n_depth node in
  match findAfter parent index isEnd with
  | Throw e => (children, st, Abrupt e)
  | Return e =>
      let endIndex := indexOf_end e in
      let between :=
        slice children (Z.of_nat index)
          (if (0 <? endIndex)%Z then Some endIndex else None) in
      let text := trimEnd (extractTextFromHeading node) in
      let p := parseTextWithId text in
      let title := p_title p in
      let id := p_id p in
      let console1 :=
        if (depth =? 1)%Z then console st ++ [warning title id]
        else console st in
      let contentWithoutHeading := slice between 1 None in
      match getComponentNameForDepth depth with
      | Throw e => (children, MkState (toc st) console1, Abrupt e)
      | Return componentName =>
          let children1 :=
            splice children (Z.of_nat index) (Z.of_nat (length between))
              (sectionComponent componentName title id contentWithoutHeading) in
          (children1,
           MkState (toc st ++ [MkRecord depth title id]) console1,
           Normal)
      end
  end.

(** *** The build metadata [file.data]

    A value is a primitive, a plain object, or an array with its elements and
    its other own properties.  The properties read here ([astro],
    [frontmatter], [toc]) are not inherited from a prototype. *)
Inductive jsval : Type :=
| JUndefined
| JNull
| JBool (b : bool)
| JNum (n : Z)
| JStr (s : string)
| JArr (items : list jsval) (props : gmap string jsval)
| JObj (o : gmap string jsval).

Definition truthy (v : jsval) : bool :=
  match v with
  | JUndefined | JNull => false
  | JBool b => b
  | JNum n => negb (n =? 0)%Z
  | JStr s => negb (String.eqb s "")
  | JArr _ _ | JObj _ => true
  end.

Definition from_option (o : option jsval) : jsval :=
  match o with Some v => v | None => JUndefined end.

(** [v.key]; reading a property of [undefined] or [null] throws. *)
Definition get_prop (v : jsval) (key : string) : result jsval :=
  match v with
  | JObj o => Return (from_option (o !! key))
  | JArr _ ps => Return (from_option (ps !! key))
  | JBool _ | JNum _ | JStr _ => Return JUndefined
  | JUndefined | JNull => Throw "TypeError"
  end.

(** [v.key = x] in strict mode (a module): it throws on a primitive. *)
Definition set_prop (v : jsval) (key : string) (x : jsval) : result jsval :=
  match v with
  | JObj o => Return (JObj (<[key := x]> o))
  | JArr items ps => Return (JArr items (<[key := x]> ps))
  | _ => Throw "TypeError"
  end.

(** The holder [v] of an object that was mutated in place into [x]: the
    assignment [file.data.astro.frontmatter.toc = ...] changes the frontmatter
    object, which [file.data.astro] keeps holding under [key]. *)
Definition holding (v : jsval) (key : string) (x : jsval) : jsval :=
  match v with
  | JObj o => JObj (<[key := x]> o)
  | JArr items ps => JArr items (<[key := x]> ps)
  | _ => v
  end.

(** The nested ToC as a value: an array of [{depth, title, id, children}]. *)
Fixpoint toc_value (t : toc_node) : jsval :=
  match t with
  | TocNode depth title id children =>
      JObj (<["depth" := JNum depth]>
           (<["title" := JStr title]>
           (<["id" := JStr id]>
           (<["children" := JArr (List.map toc_value children) ∅]> ∅))))
  end.

Definition toc_array (l : list toc_node) : jsval := JArr (List.map toc_value l) ∅.

(** What one run leaves behind: the tree and [file.data] as mutated, the
    console, and how the run ended. *)
Record outcome := MkOutcome {
  out_tree : node;
  out_data : gmap string jsval;
  out_console : list string;
  out_completion : completion
}.

(** The traversal of [remarkSectionTransform], from an empty accumulator. *)
Definition state0 : state := MkState [] [].

Definition traverse (tree : node) : option (node * state * completion) :=
  visit test sectionizeToComponent tree state0.

(** [if (!file.data.astro) file.data.astro = {}]: [file.data] afterwards. *)
Definition ensure_astro (data : gmap string jsval) : gmap string jsval :=
  if truthy (from_option (data !! "astro")) then data
  else <["astro" := JObj ∅]> data.

(** [if (!file.data.astro.frontmatter) file.data.astro.frontmatter = {}]:
    the container afterwards. *)
Definition ensure_frontmatter (astro : jsval) : result jsval :=
  match get_prop astro "frontmatter" with
  | Throw e => Throw e
  | Return fm =>
      if truthy fm then Return astro else set_prop astro "frontmatter" (JObj ∅)
  end.

(** The transformer returned by [remarkSectionTransform()], applied to
    [tree] and to a file whose [data] is [data].  [None]: the traversal ran
    out of fuel, which does not happen ([remarkSectionTransform_total]). *)
Definition remarkSectionTransform (tree : node) (data : gmap string jsval)
  : option outcome :=
  let data1 := ensure_astro data in
  match ensure_frontmatter (from_option (data1 !! "astro")) with
  | Throw e => Some (MkOutcome tree data1 [] (Abrupt e))
  | Return astro2 =>
      let data2 := <["astro" := astro2]> data1 in
      match traverse tree with
      | None => None
      | Some (tree1, st, Abrupt e) =>
          Some (MkOutcome tree1 data2 (console st) (Abrupt e))
      | Some (tree1, st, Normal) =>
          (* file.data.astro.frontmatter.toc = nestHeadings(toc) *)
          match get_prop astro2 "frontmatter" with
          | Throw e => Some (MkOutcome tree1 data2 (console st) (Abrupt e))
          | Return fm =>
              match nestHeadings (Some (toc st)) with
              | Throw e => Some (MkOutcome tree1 data2 (console st) (Abrupt e))
              | Return nested =>
                  match set_prop fm "toc" (toc_array nested) with
                  | Throw e =>
                      Some (MkOutcome tree1 data2 (console st) (Abrupt e))
                  | Return fm1 =>
                      Some (MkOutcome tree1
                              (<["astro" := holding astro2 "frontmatter" fm1]> data2)
                              (console st) Normal)
                  end
              end
          end
      end
  end.

(** *** The traversal as a function on trees

    A second description of what the traversal leaves behind, by recursion on
    the tree; [visit_children_sectioned] shows that the traversal computes
    it. *)

Definition notEnd (n : node) : bool := negb (isEnd n).

Definition parsed_heading (n : node) : parsed :=
  parseTextWithId (trimEnd (extractTextFromHeading n)).

(** The record pushed for a heading, and the warning printed for it. *)
Definition record_of (n : node) : SectionRecord :=
  MkRecord (n_depth n) (p_title (parsed_heading n)) (p_id (parsed_heading n)).

Definition warning_of (r : SectionRecord) : string :=
  warning (r_title r) (r_id r).

(** The console after the call for the heading [node]. *)
Definition console_after (node : Unist.node) (st : state) : list string :=
  if (n_depth node =? 1)%Z then console st ++ [warning_of (record_of node)]
  else console st.

Definition componentName (depth : Z) : string :=
  match getComponentNameForDepth depth with
  | Return name => name
  | Throw _ => ""
  end.

(** The element that replaces the heading [n] and the [content] after it. *)
Definition section_of (n : node) (content : list node) : node :=
  sectionComponent (componentName (n_depth n)) (p_title (parsed_heading n))
    (p_id (parsed_heading n)) content.

(** The children of a walked parent after the traversal.  [absorbing] holds
    while the nodes belong to the section of a heading on their left: they
    are in that section, not in the list. *)
Definition sectioned_list (walk : node -> node)
  : bool -> list node -> list node :=
  fix go (absorbing : bool) (l : list node) : list node :=
    match l with
    | [] => []
    | c :: rest =>
        if test c then section_of c (takeWhile notEnd rest) :: go true rest
        else if isEnd c then walk c :: go false rest
        else if absorbing then go true rest
        else walk c :: go false rest
    end.

Fixpoint sectioned (n : node) : node :=
  match n with
  | Node ty d v la me na at_ cs =>
      Node ty d v la me na at_ (sectioned_list sectioned false cs)
  end.

(** The headings the visitor is called on, in the order of the calls: those
    that are not in the section of a heading on their left.  The children of
    a heading are walked too, after the heading has left the tree. *)
Definition walked_list (walk : node -> list node)
  : bool -> list node -> list node :=
  fix go (absorbing : bool) (l : list node) : list node :=
    match l with
    | [] => []
    | c :: rest =>
        if test c then c :: walk c ++ go true rest
        else if isEnd c then walk c ++ go false rest
        else if absorbing then go true rest
        else walk c ++ go false rest
    end.

Fixpoint walked (n : node) : list node :=
  match n with
  | Node _ _ _ _ _ _ _ cs => walked_list walked false cs
  end.

(** The accumulator and the console after the calls for the headings [w]. *)
Definition after_calls (st : state) (w : list node) : state :=
  MkState (toc st ++ List.map record_of w)
    (console st
     ++ List.map warning_of (List.filter isDepth1 (List.map record_of w))).

(** Every node has a type. *)
Definition typed (n : node) : bool :=
  forallb (fun x => negb (String.eqb (n_type x) "")) (preorder n).

(** The heading nodes of a tree, in document order. *)
Definition headings (n : node) : list node := List.filter isHeading (preorder n).

(** Every heading has a depth from 1 to 4, so is offered to the visitor. *)
Definition in_range (h : node) : bool :=
  (1 <=? n_depth h)%Z && (n_depth h <=? 4)%Z.

Definition depths_in_range (n : node) : bool := forallb in_range (headings n).

(** No node of the tree would be offered to the visitor. *)
Definition quiet (n : node) : bool := forallb (fun x => negb (test x)) (preorder n).

(** No offered heading lies in the section of a heading on its left, or
    inside a heading. *)
Definition placed_list (placed : node -> bool) : bool -> list node -> bool :=
  fix go (absorbing : bool) (l : list node) : bool :=
    match l with
    | [] => true
    | c :: rest =>
        if test c then forallb quiet (n_children c) && go true rest
        else if isEnd c then placed c && go false rest
        else if absorbing then quiet c && go true rest
        else placed c && go false rest
    end.

Fixpoint well_placed (n : node) : bool :=
  match n with
  | Node _ _ _ _ _ _ _ cs => placed_list well_placed false cs
  end.

(** A structured block: its component name and its attributes. *)
Definition block : Type := string * list attribute.

Definition isBlock (n : node) : bool := String.eqb (n_type n) "mdxJsxFlowElement".

Definition own_block (n : node) : list block :=
  if isBlock n then [(n_name n, n_attributes n)] else [].

(** The structured blocks of a tree, in document order. *)
Fixpoint blocks (n : node) : list block :=
  own_block n ++ flat_map blocks (n_children n).

(** The block a heading is due. *)
Definition block_of (n : node) : block :=
  (componentName (n_depth n),
   [Attribute "mdxJsxAttribute" "title" (AStr (p_title (parsed_heading n)));
    Attribute "mdxJsxAttribute" "id" (AStr (p_id (parsed_heading n)))]).

(** The blocks due to a tree, in document order: one for each offered
    heading, and the blocks the tree has outside its headings. *)
Fixpoint blocks_due (n : node) : list block :=
  if test n then [block_of n]
  else own_block n ++ flat_map blocks_due (n_children n).

(** The own named properties of a value. *)
Definition fields (v : jsval) : gmap string jsval :=
  match v with
  | JObj o => o
  | JArr _ ps => ps
  | _ => ∅
  end.

Definition isObject (v : jsval) : bool :=
  match v with
  | JObj _ | JArr _ _ => true
  | _ => false
  end.

(** The metadata container is usable: an object, or absent (or falsy). *)
Definition usable (v : jsval) : bool := isObject v || negb (truthy v).

(** What a guard [if (!x) x = {}] leaves in [x]: the value that was there, or
    a new empty object. *)
Definition guarded (v : jsval) : jsval := if truthy v then v else JObj ∅.

(** The own property [toc] of [data.astro.frontmatter], as a later reader of
    the metadata finds it; [None] when there is none. *)
Definition toc_of (data : gmap string jsval) : option jsval :=
  fields (from_option (fields (from_option (data !! "astro")) !! "frontmatter"))
    !! "toc".

(** The content of a tree outside its headings, in document order: the type
    and the value of every node that is neither a heading, nor inside a
    heading, nor a structured block. *)
Fixpoint outside_headings (n : node) : list (string * string) :=
  match n with
  | Node ty _ v _ _ _ _ cs =>
      if String.eqb ty "heading" then []
      else (if String.eqb ty "mdxJsxFlowElement" then [] else [(ty, v)])
           ++ flat_map outside_headings cs
  end.

(** The number of records of depth 1 among those of the headings [w]. *)
Definition titles (w : list node) : nat :=
  length (List.filter isDepth1 (List.map record_of w)).

End SectionTransform.

(** ** The code-block transform ([remark-code-transform.mjs]) *)

Module CodeTransform.
Import Js Regex Toc Unist.

(** A value of the [attributes] object of [parseMeta]: a string, or
    [undefined]. *)
Inductive meta_value : Type :=
| MUndefined
| MStr (s : string).

(** The double quote. *)
Definition dq : ascii := "034"%char.

Definition isQuote (c : ascii) : bool := Ascii.eqb c dq.
Definition notQuote (c : ascii) : bool := negb (isQuote c).
Definition notSpace (c : ascii) : bool := negb (isSpace c).

(** The expression of [parseMeta]: [(\w+)=(?:Q([^Q]{0,})Q|([^\s]+))], where Q
    stands for the double quote and [{0,}] for the star. *)
Definition reMeta : regex :=
  Cat (Grp 1 (Plus true isWord))
 (Cat (Chr "=")
      (Alt (Cat (Chr dq) (Cat (Grp 2 (Star true notQuote)) (Chr dq)))
           (Grp 3 (Plus true notSpace)))).

(** The text of an entry whose quoted value is empty: the key, the equals
    sign and two double quotes. *)
Definition empty_entry (key : string) : string :=
  key +:+ "=" +:+ String dq (String dq "").

(** A captured group: a string, or [undefined] when it did not take part. *)
Definition group (n : nat) (f : found) : meta_value :=
  match cap_get n (f_caps f) with
  | Some v => MStr (to_string v)
  | None => MUndefined
  end.

(** [a || b] on these values: the empty string and [undefined] are falsy. *)
Definition or_else (a b : meta_value) : meta_value :=
  match a with
  | MStr s => if String.eqb s "" then b else a
  | MUndefined => b
  end.

(** [attributes[key] = v] on an object literal: an ordinary key becomes an
    own property; ["__proto__"] reaches the setter of [Object.prototype],
    which ignores a value that is neither an object nor [null]. *)
Definition assign (attributes : gmap string meta_value) (key : string)
    (v : meta_value) : gmap string meta_value :=
  if String.eqb key "__proto__" then attributes else <[key := v]> attributes.

(** The body of [matches.forEach]: [match.match(re)] destructured into
    [key], [quotedValue], [unquotedValue].  Each element of [matches] is a
    match of the same expression, so the inner match does not fail. *)
Definition each_match (attributes : gmap string meta_value) (match_ : chars)
  : gmap string meta_value :=
  match exec reMeta match_ with
  | Some f =>
      match group 1 f with
      | MStr key => assign attributes key (or_else (group 2 f) (group 3 f))
      | MUndefined => attributes
      end
  | None => attributes
  end.

(** [parseMeta(meta)] *)
Definition parseMeta (meta : string) : gmap string meta_value :=
  if String.eqb meta "" then ∅
  else
    match match_all reMeta (of_string meta) with
    | Some matches => fold_left each_match matches ∅
    | None => ∅
    end.

(** [meta.id] and its truth value. *)
Definition meta_id (attributes : gmap string meta_value) : meta_value :=
  match attributes !! "id" with Some v => v | None => MUndefined end.

Definition truthy (v : meta_value) : bool :=
  match v with
  | MStr s => negb (String.eqb s "")
  | MUndefined => false
  end.

(** [JSON.stringify] of a string of code units below U+0100. *)
Definition hex_digit (n : N) : ascii :=
  if (n <? 10)%N then ascii_of_N (48 + n) else ascii_of_N (87 + n).

Definition json_escape (c : ascii) : chars :=
  let n := code c in
  if (n =? 34)%N then ["\"%char; dq]
  else if (n =? 92)%N then ["\"%char; "\"%char]
  else if (n =? 8)%N then ["\"%char; "b"%char]
  else if (n =? 12)%N then ["\"%char; "f"%char]
  else if (n =? 10)%N then ["\"%char; "n"%char]
  else if (n =? 13)%N then ["\"%char; "r"%char]
  else if (n =? 9)%N then ["\"%char; "t"%char]
  else if (n <? 32)%N then
    ["\"%char; "u"%char; "0"%char; "0"%char; hex_digit (n / 16); hex_digit (n mod 16)]
  else [c].

Definition JSON_stringify (s : string) : string :=
  to_string ([dq] ++ flat_map json_escape (of_string s) ++ [dq]).

(** The element [codeBoxElement] built by the visitor for a code node. *)
Definition codeBoxElement (node : Unist.node) : Unist.node :=
  let code := n_value node in
  let language := n_lang node in
  let meta := parseMeta (n_meta node) in
  let attributes :=
    [Attribute "mdxJsxAttribute" "code"
       (AExpr (JSON_stringify code) code (JSON_stringify code));
     Attribute "mdxJsxAttribute" "language" (AStr language)] in
  let attributes1 :=
    match meta_id meta with
    | MStr id =>
        if truthy (MStr id) then
          attributes ++ [Attribute "mdxJsxAttribute" "id" (AStr id)]
        else attributes
    | MUndefined => attributes
    end in
  Node "mdxJsxFlowElement" 0 "" "" "" "CodeBox" attributes1 [].

(** The two attributes every CodeBox has. *)
Definition base_attributes (node : Unist.node) : list attribute :=
  [Attribute "mdxJsxAttribute" "code"
     (AExpr (JSON_stringify (n_value node)) (n_value node)
        (JSON_stringify (n_value node)));
   Attribute "mdxJsxAttribute" "language" (AStr (n_lang node))].

(** The node with another meta string. *)
Definition with_meta (n : Unist.node) (meta : string) : Unist.node :=
  Node (n_type n) (n_depth n) (n_value n) (n_lang n) meta (n_name n)
    (n_attributes n) (n_children n).

Definition isCode (n : Unist.node) : bool := String.eqb (n_type n) "code".

(** The visitor: [parent.children[index] = codeBoxElement].  Without a parent
    the assignment throws. *)
Definition codeVisitor (node : Unist.node) (ctx : option (nat * Unist.node))
    (st : unit) : list Unist.node * unit * completion :=
  match ctx with
  | Some (index, parent) =>
      (<[index := codeBoxElement node]> (n_children parent), st, Normal)
  | None => ([], st, Abrupt "TypeError")
  end.

(** The transformer returned by [remarkCodeTransform()]. *)
Definition remarkCodeTransform (tree : Unist.node)
  : option (Unist.node * completion) :=
  match visit isCode codeVisitor tree tt with
  | Some (tree1, _, c) => Some (tree1, c)
  | None => None
  end.

(** *** The traversal as a function on trees

    A code node becomes its CodeBox; another node keeps its properties and
    gets the transformed children.  [remarkCodeTransform_boxed] shows that
    the traversal computes it. *)
Fixpoint boxed (n : Unist.node) : Unist.node :=
  match n with
  | Node ty d v la me na at_ cs =>
      if String.eqb ty "code" then codeBoxElement n
      else Node ty d v la me na at_ (List.map boxed cs)
  end.

(** The code nodes of the tree are literals: they have no children. *)
Definition code_leaves (n : Unist.node) : bool :=
  forallb (fun x => negb (isCode x) || (length (n_children x) =? 0)%nat)
    (preorder n).

(** The text of an entry with a quoted value, and of one with a bare
    value. *)
Definition quoted_entry (key value : string) : string :=
  key +:+ "=" +:+ String dq (value +:+ String dq "").

Definition bare_entry (key value : string) : string :=
  key +:+ "=" +:+ value.

(** The value [attributes[key]] gets from an entry whose value text is
    [value]: the empty text gives [undefined]. *)
Definition entry_value (value : string) : meta_value :=
  if String.eqb value "" then MUndefined else MStr value.

(** An entry of a meta text: its key, its value and whether the value is
    quoted. *)
Record entry := Entry {
  e_key : string;
  e_value : string;
  e_quoted : bool
}.

Definition entry_text (e : entry) : string :=
  if e_quoted e then quoted_entry (e_key e) (e_value e)
  else bare_entry (e_key e) (e_value e).

(** The entry is written as the comment of [parseMeta] shows: the key is a
    non-empty run of word characters; a quoted value holds no double quote;
    a bare value is not empty, holds no white space and does not start with
    a double quote. *)
Definition well_formed (e : entry) : bool :=
  negb (String.eqb (e_key e) "")
  && forallb isWord (of_string (e_key e))
  && (if e_quoted e then forallb notQuote (of_string (e_value e))
      else forallb notSpace (of_string (e_value e))
           && match of_string (e_value e) with
              | [] => false
              | c :: _ => notQuote c
              end).

(** A meta text: the entries separated by single spaces. *)
Definition meta_text (es : list entry) : string :=
  join " " (List.map entry_text es).

(** The object the entries describe: each key holds the value of its last
    entry. *)
Definition entries_object (es : list entry) : gmap string meta_value :=
  fold_left (fun a e => assign a (e_key e) (entry_value (e_value e))) es ∅.

End CodeTransform.

(** ** Sample documents *)

Module Samples.
Import Js Toc Unist SectionTransform.

Definition leaf (type value : string) : node :=
  Node type 0 value "" "" "" [] [].
Definition text (value : string) : node := leaf "text" value.
Definition parent_node (type : string) (children : list node) : node :=
  Node type 0 "" "" "" "" [] children.
Definition heading (depth : Z) (title : string) : node :=
  Node "heading" depth "" "" "" "" [] [text title].
Definition paragraph (value : string) : node :=
  parent_node "paragraph" [text value].
Definition blockquote (children : list node) : node :=
  parent_node "blockquote" children.
Definition export : node := leaf "export" "export const x = 1".
Definition root (children : list node) : node := parent_node "root" children.
Definition code_block (lang meta value : string) : node :=
  Node "code" 0 value lang meta "" [] [].

(** A page: a title, an introduction, two sections. *)
Definition page : node :=
  root [heading 1 "Wing loading (#wl)"; paragraph "intro";
        heading 2 "Definition"; paragraph "a"; paragraph "b";
        heading 3 "Units"; export; paragraph "after";
        heading 2 "Use"].

(** A page whose first section is followed by a quoted heading. *)
Definition quoted : node :=
  root [heading 1 "Title"; blockquote [heading 2 "Quoted"]].

(** Build metadata that an earlier pass has filled. *)
Definition sample_data : gmap string jsval :=
  <["astro" :=
      JObj (<["frontmatter" := JObj (<["title" := JStr "Wing loading"]> ∅)]>
           (<["layout" := JStr "page"]> ∅))]>
  (<["path" := JStr "wing.mdx"]> ∅).

End Samples.

(** * Properties *)

Module MatcherFacts.
Import Js Regex.

(** ** Facts on lists of code units *)

Lemma takeWhile_dropWhile {A} (p : A -> bool) s : takeWhile p s ++ dropWhile p s = s.
Proof. induction s as [|a s IH]; simpl; [done|]. destruct (p a); simpl; congruence. Qed.

Lemma forallb_takeWhile {A} (p : A -> bool) s : forallb p (takeWhile p s) = true.
Proof. induction s as [|a s IH]; simpl; [done|]. destruct (p a) eqn:E; simpl; [rewrite E|]; done. Qed.

Lemma dropWhile_head {A} (p : A -> bool) s a s' : dropWhile p s = a :: s' -> p a = false.
Proof.
  induction s as [|b s IH]; simpl; [done|].
  destruct (p b) eqn:E; [done|]. intros [= -> ->]. done.
Qed.

Lemma dropWhile_app_all {A} (p : A -> bool) t s : forallb p t = true -> dropWhile p (t ++ s) = dropWhile p s.
Proof. induction t as [|a t IH]; simpl; [done|]. destruct (p a); simpl; [done|discriminate]. Qed.

Lemma takeWhile_app_all {A} (p : A -> bool) t s : forallb p t = true -> takeWhile p (t ++ s) = t ++ takeWhile p s.
Proof. induction t as [|a t IH]; simpl; [done|]. destruct (p a); simpl; [|discriminate]. intros H. by rewrite IH. Qed.

Lemma dropWhile_stop {A} (p : A -> bool) a s : p a = false -> dropWhile p (a :: s) = a :: s.
Proof. simpl. by intros ->. Qed.

Lemma takeWhile_stop {A} (p : A -> bool) a s : p a = false -> takeWhile p (a :: s) = [].
Proof. simpl. by intros ->. Qed.

Lemma dropWhile_all {A} (p : A -> bool) s : forallb p s = true -> dropWhile p s = [].
Proof. induction s as [|a s IH]; simpl; [done|]. destruct (p a); simpl; [done|discriminate]. Qed.

Lemma length_dropWhile {A} (p : A -> bool) s : length (dropWhile p s) <= length s.
Proof. induction s as [|a s IH]; simpl; [lia|]. destruct (p a); simpl; lia. Qed.

Lemma firstn_dropWhile {A} (p : A -> bool) (s : list A) :
  firstn (length s - length (dropWhile p s)) s = takeWhile p s.
Proof.
  rewrite <- (takeWhile_dropWhile p s) at 1 3.
  rewrite length_app.
  replace (_ + _ - _) with (length (takeWhile p s)) by lia.
  by rewrite take_app_length.
Qed.

(** ** All the code units *)

Lemma ascii_enumerated (c : ascii) : In c (List.map ascii_of_nat (seq 0 256)).
Proof.
  apply in_map_iff. exists (nat_of_ascii c). split; [apply ascii_nat_embedding|].
  apply in_seq. pose proof (nat_ascii_bounded c). lia.
Qed.

Lemma for_all_ascii (p : ascii -> bool) :
  forallb p (List.map ascii_of_nat (seq 0 256)) = true -> forall c, p c = true.
Proof.
  intros H c. rewrite forallb_forall in H. apply H, ascii_enumerated.
Qed.

(** ** Facts on the matcher *)

Lemma last_of_nil prev : last_of prev [] = prev.
Proof. reflexivity. Qed.

Lemma last_of_cons prev a t : last_of prev (a :: t) = last_of (Some a) t.
Proof.
  unfold last_of. simpl. destruct (rev t) eqn:E; simpl; done.
Qed.

(** A greedy star whose continuation cannot start on a character of the
    class takes the longest repetition. *)
Lemma star_greedy_skip p (k : cont) :
  (forall a s prev c, p a = true -> k prev (a :: s) c = None) ->
  forall s prev c,
    star_greedy p k prev s c
    = k (last_of prev (takeWhile p s)) (dropWhile p s) c.
Proof.
  intros Hk. induction s as [|a s IH]; intros prev c; simpl; [done|].
  destruct (p a) eqn:E; [|done].
  rewrite IH, last_of_cons.
  destruct (k _ _ c) eqn:Ek; [done|]. by apply Hk.
Qed.

(** A greedy star succeeds with the longest repetition when the continuation
    succeeds after it. *)
Lemma star_greedy_longest p (k : cont) s prev c r :
  k (last_of prev (takeWhile p s)) (dropWhile p s) c = Some r ->
  star_greedy p k prev s c = Some r.
Proof.
  revert prev. induction s as [|a s IH]; intros prev; simpl; [done|].
  destruct (p a) eqn:E; [|done].
  rewrite last_of_cons. intros H. by rewrite (IH _ H).
Qed.

(** A lazy star fails exactly when the continuation fails after every
    repetition. *)
Lemma star_lazy_None p (k : cont) s prev c :
  star_lazy p k prev s c = None <->
  (forall t rest, s = t ++ rest -> forallb p t = true ->
                  k (last_of prev t) rest c = None).
Proof.
  revert prev. induction s as [|a s IH]; intros prev; simpl.
  - destruct (k prev [] c) eqn:E; split; try done.
    + intros H. specialize (H [] [] eq_refl eq_refl).
      rewrite last_of_nil in H. congruence.
    + intros _ t rest Ht _. symmetry in Ht. apply app_eq_nil in Ht as [-> ->].
      exact E.
  - destruct (k prev (a :: s) c) eqn:E.
    + split; [done|]. intros H. specialize (H [] (a :: s) eq_refl eq_refl).
      rewrite last_of_nil in H. congruence.
    + destruct (p a) eqn:Ea.
      * rewrite IH. split.
        -- intros H t rest Ht Hp. destruct t as [|b t]; simpl in Ht.
           ++ subst. exact E.
           ++ injection Ht as <- ->. simpl in Hp. rewrite Ea in Hp.
              rewrite last_of_cons. by apply H.
        -- intros H t rest -> Hp. rewrite <- (last_of_cons prev).
           apply H; [done|]. simpl. by rewrite Ea.
      * split; [|done]. intros _ t rest Ht Hp.
        destruct t as [|b t]; simpl in Ht.
        -- subst. exact E.
        -- injection Ht as <- ->. simpl in Hp. by rewrite Ea in Hp.
Qed.

(** When it succeeds, it does so after the shortest repetition that lets the
    continuation succeed. *)
Lemma star_lazy_Some p (k : cont) s prev c r :
  star_lazy p k prev s c = Some r ->
  exists t rest,
    s = t ++ rest /\ forallb p t = true
    /\ k (last_of prev t) rest c = Some r
    /\ (forall t' rest', s = t' ++ rest' -> length t' < length t ->
                         k (last_of prev t') rest' c = None).
Proof.
  revert prev. induction s as [|a s IH]; intros prev; simpl.
  - destruct (k prev [] c) eqn:E; [|done]. intros [= <-].
    exists [], []. repeat split; try done. intros t' rest' _ Hl. simpl in Hl. lia.
  - destruct (k prev (a :: s) c) eqn:E.
    + intros [= <-]. exists [], (a :: s). repeat split; try done.
      intros t' rest' _ Hl. simpl in Hl. lia.
    + destruct (p a) eqn:Ea; [|done]. intros H.
      destruct (IH _ H) as (t & rest & Hs & Hp & Hk & Hmin).
      exists (a :: t), rest. split; [by rewrite Hs|]. split; [|split].
      * simpl. by rewrite Ea.
      * by rewrite last_of_cons.
      * intros t' rest' Ht Hl. destruct t' as [|b t']; simpl in Ht.
        -- rewrite <- Ht. exact E.
        -- injection Ht as <- Ht. rewrite last_of_cons. apply Hmin; [done|].
           simpl in Hl. lia.
Qed.

(** ** The search *)

Lemma length_sub_app {A} (t s : list A) : length (t ++ s) - length s = length t.
Proof. rewrite length_app. lia. Qed.

Lemma take_matched {A} (t s : list A) :
  firstn (length (t ++ s) - length s) (t ++ s) = t.
Proof. rewrite length_sub_app. apply take_app_length. Qed.

Lemma search_attempt r i prev s f :
  attempt r i prev s = Some f -> search r i prev s = Some f.
Proof. intros H. destruct s; simpl; by rewrite H. Qed.

Lemma search_skip r i prev a s :
  attempt r i prev (a :: s) = None ->
  search r i prev (a :: s) = search r (S i) (Some a) s.
Proof. intros H. simpl. by rewrite H. Qed.

Lemma all_from_nil fuel r i prev :
  attempt r i prev [] = None -> all_from fuel r i prev [] = [].
Proof. intros H. destruct fuel; [done|]. simpl. by rewrite H. Qed.

Lemma star_greedy_fails p (k : cont) s : forall prev c,
  (forall s' prev' c', s' `suffix_of` s -> k prev' s' c' = None) ->
  star_greedy p k prev s c = None.
Proof.
  induction s as [|a s IH]; intros prev c Hk.
  - simpl. by apply Hk.
  - cbn [star_greedy]. destruct (p a).
    + rewrite IH; [by apply Hk|].
      intros s' prev' c' Hs. apply Hk. by apply suffix_cons_r.
    + by apply Hk.
Qed.

(** A greedy star that succeeds took a repetition after which the
    continuation succeeds. *)
Lemma star_greedy_Some p (k : cont) s : forall prev c r,
  star_greedy p k prev s c = Some r ->
  exists t rest,
    s = t ++ rest /\ forallb p t = true /\ k (last_of prev t) rest c = Some r.
Proof.
  induction s as [|a s IH]; intros prev c r; cbn [star_greedy].
  - intros H. by exists [], [].
  - destruct (p a) eqn:Ea; [|intros H; by exists [], (a :: s)].
    destruct (star_greedy p k (Some a) s c) eqn:E;
      [|intros H; by exists [], (a :: s)].
    intros [= <-]. destruct (IH _ _ _ E) as (t & rest & -> & Hp & Hk).
    exists (a :: t), rest. rewrite last_of_cons. simpl. by rewrite Ea.
Qed.

(** A greedy star succeeds when its continuation always does. *)
Lemma star_greedy_total p (k : cont) :
  (forall prev s c, is_Some (k prev s c)) ->
  forall s prev c, is_Some (star_greedy p k prev s c).
Proof.
  intros Hk. induction s as [|a s IH]; intros prev c; cbn [star_greedy]; [done|].
  destruct (p a); [|done].
  by destruct (star_greedy p k (Some a) s c).
Qed.

Lemma m_Opt_total r (k : cont) :
  (forall prev s c, is_Some (k prev s c)) ->
  forall prev s c, is_Some (m (Opt r) k prev s c).
Proof.
  intros Hk prev s c. cbn [m]. by destruct (m r k prev s c).
Qed.

Lemma m_Plus_total p (k : cont) prev a s c :
  (forall prev s c, is_Some (k prev s c)) ->
  p a = true -> is_Some (m (Plus true p) k prev (a :: s) c).
Proof.
  intros Hk Ha. unfold Plus. cbn [m]. rewrite Ha. by apply star_greedy_total.
Qed.

Lemma m_Alt_l r1 r2 (k : cont) prev s c :
  is_Some (m r1 k prev s c) -> is_Some (m (Alt r1 r2) k prev s c).
Proof. intros [x Hx]. cbn [m]. by rewrite Hx. Qed.

Lemma m_Alt_r r1 r2 (k : cont) prev s c :
  is_Some (m r2 k prev s c) -> is_Some (m (Alt r1 r2) k prev s c).
Proof. intros H. cbn [m]. by destruct (m r1 k prev s c). Qed.

Lemma attempt_None r i prev s :
  attempt r i prev s = None -> m r accept prev s [] = None.
Proof. unfold attempt. by destruct (m r accept prev s []) as [[? ?]|]. Qed.

(** What a match takes: a prefix of the input whose code units pass [P], not
    empty when the expression eats; the continuation succeeds on what is
    left. *)
Lemma m_takes P r :
  consumes P r ->
  forall (k : cont) prev s c res,
    m r k prev s c = Some res ->
    exists t s' prev' c',
      s = t ++ s' /\ forallb P t = true /\ (eats r = true -> t <> [])
      /\ k prev' s' c' = Some res.
Proof.
  induction r as [|a|p|r1 IH1 r2 IH2|r1 IH1 r2 IH2|g p|r1 IH1|n r1 IH1
                  |positive r1 _| | |];
    intros HP k prev s c res; cbn [m consumes eats] in *.
  - intros H. by exists [], s, prev, c.
  - destruct s as [|b s]; [done|]. destruct (Ascii.eqb a b) eqn:E; [|done].
    apply Ascii.eqb_eq in E as <-. intros H.
    exists [a], s, (Some a), c. simpl. by rewrite HP.
  - destruct s as [|b s]; [done|]. destruct (p b) eqn:E; [|done]. intros H.
    exists [b], s, (Some b), c. simpl. by rewrite (HP _ E).
  - destruct HP as [HP1 HP2]. intros H.
    destruct (IH1 HP1 _ _ _ _ _ H) as (t1 & s1 & prev1 & c1 & -> & Ht1 & He1 & H1).
    destruct (IH2 HP2 _ _ _ _ _ H1) as (t2 & s2 & prev2 & c2 & -> & Ht2 & He2 & H2).
    exists (t1 ++ t2), s2, prev2, c2. rewrite <- app_assoc.
    split; [done|]. split; [by rewrite forallb_app, Ht1, Ht2|]. split; [|done].
    intros [E|E]%orb_prop Hn; apply app_eq_nil in Hn as [Hn1 Hn2];
      [exact (He1 E Hn1)|exact (He2 E Hn2)].
  - destruct HP as [HP1 HP2].
    destruct (m r1 k prev s c) eqn:E.
    + intros [= <-].
      destruct (IH1 HP1 _ _ _ _ _ E) as (t & s' & prev' & c' & ? & ? & He & ?).
      exists t, s', prev', c'. repeat split; try done.
      intros [? ?]%andb_prop. auto.
    + intros H.
      destruct (IH2 HP2 _ _ _ _ _ H) as (t & s' & prev' & c' & ? & ? & He & ?).
      exists t, s', prev', c'. repeat split; try done.
      intros [? ?]%andb_prop. auto.
  - intros H.
    assert (exists t rest, s = t ++ rest /\ forallb p t = true
                           /\ k (last_of prev t) rest c = Some res)
      as (t & rest & -> & Hp & Hk).
    { destruct g; [by apply star_greedy_Some|].
      destruct (star_lazy_Some _ _ _ _ _ _ H) as (t & rest & ? & ? & ? & _).
      by exists t, rest. }
    exists t, rest, (last_of prev t), c. repeat split; try done.
    apply forallb_forall. intros x Hx. apply HP.
    rewrite forallb_forall in Hp. by apply Hp.
  - destruct (m r1 k prev s c) eqn:E.
    + intros [= <-].
      destruct (IH1 HP _ _ _ _ _ E) as (t & s' & prev' & c' & ? & ? & _ & ?).
      by exists t, s', prev', c'.
    + intros H. by exists [], s, prev, c.
  - intros H.
    destruct (IH1 HP _ _ _ _ _ H) as (t & s' & prev' & c' & ? & ? & ? & ?).
    by eexists t, s', prev', _.
  - destruct (m r1 _ prev s c) as [[? c']|]; destruct positive; try done;
      intros H; by eexists [], s, prev, _.
  - destruct prev; [done|]. intros H. by exists [], s, None, c.
  - destruct s; [|done]. intros H. by exists [], [], prev, c.
  - destruct (xorb _ _); [|done]. intros H. by exists [], s, prev, c.
Qed.

(** A match found at a position: its text and what is left make up the
    input. *)
Lemma attempt_takes P r i prev s f :
  consumes P r -> attempt r i prev s = Some f ->
  s = f_text f ++ f_rest f /\ forallb P (f_text f) = true
  /\ (eats r = true -> f_text f <> []).
Proof.
  intros HP. unfold attempt.
  destruct (m r accept prev s []) as [[s' c]|] eqn:E; [|done]. intros [= <-].
  destruct (m_takes P r HP _ _ _ _ _ E) as (t & s1 & prev' & c' & -> & Ht & He & Ha).
  injection Ha as -> _. cbn [f_text f_rest]. by rewrite take_matched.
Qed.

(** The search skips the code units at which no match starts. *)
Lemma search_None (G : ascii -> bool) r :
  (forall i prev a rest, attempt r i prev (a :: rest) = None -> G a = true) ->
  forall s i prev, search r i prev s = None -> forallb G s = true.
Proof.
  intros HG. induction s as [|a s IH]; intros i prev; [done|].
  cbn [search]. destruct (attempt r i prev (a :: s)) eqn:E; [done|].
  intros H. simpl. by rewrite (HG _ _ _ _ E), (IH _ _ H).
Qed.

Lemma search_takes P (G : ascii -> bool) r :
  consumes P r ->
  (forall i prev a rest, attempt r i prev (a :: rest) = None -> G a = true) ->
  forall s i prev f,
    search r i prev s = Some f ->
    exists gap,
      s = gap ++ f_text f ++ f_rest f /\ forallb G gap = true
      /\ forallb P (f_text f) = true /\ (eats r = true -> f_text f <> []).
Proof.
  intros HP HG. induction s as [|a s IH]; intros i prev f.
  - cbn [search]. destruct (attempt r i prev []) eqn:E; [|done]. intros [= <-].
    destruct (attempt_takes P _ _ _ _ _ HP E) as (? & ? & ?). by exists [].
  - cbn [search]. destruct (attempt r i prev (a :: s)) eqn:E.
    + intros [= <-].
      destruct (attempt_takes P _ _ _ _ _ HP E) as (? & ? & ?). by exists [].
    + intros H. destruct (IH _ _ _ H) as (gap & -> & Hg & ? & ?).
      exists (a :: gap). simpl. by rewrite (HG _ _ _ _ E), Hg.
Qed.

(** All the matches of an expression that eats: each is a run of code units
    that pass [P]; with fuel enough, the code units that pass [keep] are those
    of the matches, in order, when what is matched passes [keep] and what is
    skipped does not. *)
Lemma all_from_takes P (G R keep : ascii -> bool) r :
  consumes P r -> eats r = true ->
  (forall i prev a rest, attempt r i prev (a :: rest) = None -> G a = true) ->
  (forall c, P c = true -> R c = true -> keep c = true) ->
  (forall c, G c = true -> keep c = false) ->
  forall fuel s i prev,
    forallb R s = true ->
    Forall (fun w => w <> [] /\ forallb keep w = true) (all_from fuel r i prev s)
    /\ (length s < fuel ->
        concat (all_from fuel r i prev s) = List.filter keep s).
Proof.
  intros HP He HG Hin Hout.
  assert (Hskip : forall gap, forallb G gap = true -> List.filter keep gap = []).
  { induction gap as [|a gap IH]; [done|]. simpl.
    intros [Ha Hg]%andb_prop. by rewrite (Hout _ Ha), IH. }
  assert (Hword : forall w, forallb P w = true -> forallb R w = true ->
                            forallb keep w = true /\ List.filter keep w = w).
  { induction w as [|a w IH]; [done|]. simpl.
    intros [Ha Hw]%andb_prop [Ra Rw]%andb_prop.
    destruct (IH Hw Rw) as [-> ->]. by rewrite (Hin _ Ha Ra). }
  induction fuel as [|fuel IH]; intros s i prev HR; cbn [all_from].
  { split; [constructor|]. simpl. lia. }
  destruct (search r i prev s) as [f|] eqn:E.
  2:{ split; [constructor|]. intros _. simpl.
      symmetry. apply Hskip. by apply (search_None G r HG s i prev). }
  destruct (search_takes P G r HP HG _ _ _ _ E) as (gap & Hs & Hg & Ht & Hne).
  specialize (Hne He). rewrite Hs in HR.
  rewrite !forallb_app in HR.
  apply andb_prop in HR as [_ [Rt Rrest]%andb_prop].
  destruct (Hword _ Ht Rt) as [Hk Hf].
  destruct (f_text f) as [|a t] eqn:Et; [done|].
  specialize (IH (f_rest f) (f_index f + length (a :: t))
                (last_of prev (a :: t)) Rrest) as [IH1 IH2].
  split.
  - constructor; [done|]. exact IH1.
  - intros Hl. rewrite Hs, !List.filter_app, (Hskip _ Hg), Hf. cbn [concat app].
    rewrite IH2; [done|]. rewrite Hs, !length_app in Hl. simpl in Hl. lia.
Qed.

End MatcherFacts.

Module StringFacts.
Import Js Regex TextId MatcherFacts.

(** ** Strings and lists of code units *)

Lemma of_string_app a b : of_string (a +:+ b) = of_string a ++ of_string b.
Proof.
  unfold of_string. induction a as [|x a IH]; [done|].
  change (String x a +:+ b) with (String x (a +:+ b)). simpl. by rewrite IH.
Qed.

Lemma to_of_string s : to_string (of_string s) = s.
Proof. apply string_of_list_ascii_of_string. Qed.

Lemma of_to_string l : of_string (to_string l) = l.
Proof. apply list_ascii_of_string_of_list_ascii. Qed.

Lemma of_string_inj a b : of_string a = of_string b -> a = b.
Proof. intros H. rewrite <- (to_of_string a), <- (to_of_string b). by rewrite H. Qed.

Lemma to_string_app a b : to_string (a ++ b) = to_string a +:+ to_string b.
Proof. apply of_string_inj. by rewrite of_string_app, !of_to_string. Qed.

Lemma of_string_nil s : of_string s = [] <-> s = "".
Proof.
  split; [|by intros ->]. intros H. apply of_string_inj. by rewrite H.
Qed.

Lemma forallb_lookup {A} (p : A -> bool) (l : list A) i x :
  forallb p l = true -> l !! i = Some x -> p x = true.
Proof.
  intros H Hi. rewrite forallb_forall in H. apply H.
  apply list_elem_of_In. by eapply list_elem_of_lookup_2.
Qed.

(** ** [trim] *)

Lemma forallb_rev' {A} (p : A -> bool) l : forallb p (rev l) = forallb p l.
Proof.
  induction l as [|a l IH]; simpl; [done|].
  rewrite forallb_app, IH. simpl. rewrite andb_true_r. apply andb_comm.
Qed.

Lemma trimEndL_app_space t ws :
  forallb isSpace ws = true -> trimEndL (t ++ ws) = trimEndL t.
Proof.
  intros H. unfold trimEndL. rewrite rev_app_distr.
  rewrite dropWhile_app_all; [done|]. by rewrite forallb_rev'.
Qed.

Lemma trimL_app_space t ws :
  forallb isSpace ws = true -> trimL (t ++ ws) = trimL t.
Proof.
  intros H. unfold trimL, trimStartL.
  destruct (forallb isSpace t) eqn:Et.
  - rewrite dropWhile_app_all by done. rewrite !dropWhile_all by done. done.
  - assert (Hd : dropWhile isSpace (t ++ ws) = dropWhile isSpace t ++ ws).
    { clear H. induction t as [|a t IH]; simpl in *; [done|].
      destruct (isSpace a); simpl in *; [by apply IH|done]. }
    rewrite Hd. by apply trimEndL_app_space.
Qed.

Lemma trim_app_space t ws :
  forallb isSpace (of_string ws) = true -> trim (t +:+ ws) = trim t.
Proof.
  intros H. unfold trim. rewrite of_string_app. by rewrite trimL_app_space.
Qed.

End StringFacts.

Module SlugFacts.
Import Js Regex Lodash MatcherFacts StringFacts.

(** ** The words of the slug

    What [words] finds in a text from which [deburr] and the removal of the
    apostrophes have taken every letter with a diacritic and every
    apostrophe: runs of letters and digits, which together are the letters
    and digits of the text. *)

(** A fact on the classes, checked on each of the 256 code units. *)
Ltac by_code_units c :=
  match goal with
  | |- ?lhs = true =>
      let p := eval pattern c in lhs in
      match p with
      | ?f _ => exact (for_all_ascii f ltac:(vm_compute; reflexivity) c)
      end
  end.

Lemma class_implies (p q : ascii -> bool) :
  (forall c, implb (p c) (q c) = true) -> forall x, p x = true -> q x = true.
Proof. intros H x Hx. specialize (H x). by rewrite Hx in H. Qed.

(** What [reUnicodeWord] can take. *)
Lemma consumes_reUnicodeWord :
  consumes (fun c => rsUpper c || rsLower c || rsMisc c || isDigit c || isApos c)
    reUnicodeWord.
Proof.
  unfold reUnicodeWord, rsOrdUpper, rsOrdLower, rsOptContrLower,
    rsOptContrUpper, Plus, word, alts.
  cbn [fold_left consumes of_string list_ascii_of_string Lit].
  repeat match goal with
         | |- _ /\ _ => split
         | |- True => exact I
         | |- forall x, _ = true -> _ = true =>
             apply class_implies; intros c; by_code_units c
         | |- _ = true => reflexivity
         end.
Qed.

Lemma accept_total prev s c : is_Some (accept prev s c).
Proof. by eexists. Qed.

(** A word starts at every letter and at every digit. *)
Lemma attempt_reUnicodeWord_None i prev a rest :
  attempt reUnicodeWord i prev (a :: rest) = None ->
  negb (rsUpper a || rsLower a || isDigit a) = true.
Proof.
  intros H%attempt_None. apply negb_true_iff.
  destruct (rsUpper a || rsLower a || isDigit a) eqn:E; [|done].
  assert (is_Some (m reUnicodeWord accept prev (a :: rest) [])) as [x Hx];
    [|congruence].
  clear H. unfold reUnicodeWord, alts. cbn [fold_left].
  destruct (isDigit a) eqn:Ed.
  { apply m_Alt_r, m_Plus_total; [apply accept_total|done]. }
  destruct (rsUpper a) eqn:Eu.
  { do 3 apply m_Alt_l. apply m_Alt_r.
    change (is_Some (m (Plus true rsUpper) (m rsOptContrUpper accept)
                       prev (a :: rest) [])).
    apply m_Plus_total; [|done]. apply m_Opt_total, accept_total. }
  destruct (rsLower a) eqn:El; [|done].
  do 4 apply m_Alt_l. apply m_Alt_r.
  change (is_Some (m (Opt (Cls rsUpper))
                     (m (Plus true rsMiscLower) (m rsOptContrLower accept))
                     prev (a :: rest) [])).
  cbn [m]. rewrite Eu.
  apply m_Plus_total; [apply m_Opt_total, accept_total|].
  unfold rsMiscLower. by rewrite El.
Qed.

Lemma attempt_reAsciiWord_None i prev a rest :
  attempt reAsciiWord i prev (a :: rest) = None ->
  negb (isAsciiWordChar a) = true.
Proof.
  intros H%attempt_None. apply negb_true_iff.
  destruct (isAsciiWordChar a) eqn:E; [|done].
  destruct (m_Plus_total isAsciiWordChar accept prev a rest []
              accept_total E) as [x Hx].
  unfold reAsciiWord in H. congruence.
Qed.

(** Where [reHasUnicodeWord] finds nothing there are letters, digits and
    spaces only. *)
Lemma attempt_reHasUnicodeWord_None i prev a rest :
  attempt reHasUnicodeWord i prev (a :: rest) = None ->
  isAlnum a || is_space a = true.
Proof.
  intros H%attempt_None.
  destruct (isAlnum a || is_space a) eqn:E; [done|].
  assert (is_Some (m reHasUnicodeWord accept prev (a :: rest) [])) as [x Hx];
    [|congruence].
  unfold reHasUnicodeWord. do 4 apply m_Alt_r. cbn [m].
  unfold is_space in E. by rewrite E.
Qed.

Lemma hasUnicodeWord_false s :
  hasUnicodeWord s = false -> forallb (fun c => isAlnum c || is_space c) s = true.
Proof.
  unfold hasUnicodeWord, test, exec.
  destruct (search reHasUnicodeWord 0 None s) eqn:E; [done|]. intros _.
  exact (search_None _ _ attempt_reHasUnicodeWord_None _ _ _ E).
Qed.

Lemma from_null_match_all r s :
  from_null (match_all r s) = all_from (S (length s)) r 0 None s.
Proof. unfold match_all. by destruct (all_from _ r 0 None s). Qed.

(** After [deburr] and the removal of the apostrophes no apostrophe is left,
    and no letter other than A-Z and a-z. *)
Lemma deburr_plain s :
  forallb (fun c => negb (isApos c) && implb (rsUpper c || rsLower c) (isAlpha c))
    (removeApos (deburr s)) = true.
Proof.
  unfold removeApos, deburr. induction s as [|a s IH]; [done|].
  cbn [flat_map]. rewrite List.filter_app, forallb_app, IH, andb_true_r.
  clear IH.
  assert (H : forallb (fun c => implb (rsUpper c || rsLower c) (isAlpha c))
                (deburrLetter a) = true) by by_code_units a.
  induction (deburrLetter a) as [|b l IHl]; [done|].
  cbn [forallb] in H. apply andb_prop in H as [Hb Hl]. cbn [List.filter].
  destruct (isApos b) eqn:E; cbn [negb]; [by apply IHl|].
  cbn [forallb]. by rewrite E, Hb, IHl.
Qed.

(** The words: runs of letters and digits, which together are the letters and
    digits of the text. *)
Lemma words_alnum s :
  let s0 := removeApos (deburr s) in
  Forall (fun w => w <> [] /\ forallb isAlnum w = true) (words s0)
  /\ concat (words s0) = List.filter isAlnum s0.
Proof.
  intros s0. unfold words.
  destruct (hasUnicodeWord s0) eqn:Eh.
  - unfold unicodeWords. rewrite from_null_match_all.
    set (P := fun c => rsUpper c || rsLower c || rsMisc c || isDigit c || isApos c).
    set (G := fun a => negb (rsUpper a || rsLower a || isDigit a)).
    set (R := fun c => negb (isApos c)
                       && implb (rsUpper c || rsLower c) (isAlpha c)).
    assert (Hin : forall c, P c = true -> R c = true -> isAlnum c = true).
    { intros c Hc Rc.
      assert (H : implb (P c && R c) (isAlnum c) = true) by by_code_units c.
      by rewrite Hc, Rc in H. }
    assert (Hout : forall c, G c = true -> isAlnum c = false).
    { intros c Hc.
      assert (H : implb (G c) (negb (isAlnum c)) = true) by by_code_units c.
      rewrite Hc in H. by apply negb_true_iff. }
    destruct (all_from_takes P G R isAlnum reUnicodeWord
                consumes_reUnicodeWord eq_refl attempt_reUnicodeWord_None
                Hin Hout (S (length s0)) s0 0 None (deburr_plain s))
      as [H1 H2].
    split; [exact H1|]. apply H2. lia.
  - unfold asciiWords. rewrite from_null_match_all.
    set (G := fun a => negb (isAsciiWordChar a)).
    set (R := fun c => isAlnum c || is_space c).
    assert (Hin : forall c, isAsciiWordChar c = true -> R c = true ->
                            isAlnum c = true).
    { intros c Hc Rc.
      assert (H : implb (isAsciiWordChar c && R c) (isAlnum c) = true)
        by by_code_units c.
      by rewrite Hc, Rc in H. }
    assert (Hout : forall c, G c = true -> isAlnum c = false).
    { intros c Hc.
      assert (H : implb (G c) (negb (isAlnum c)) = true) by by_code_units c.
      rewrite Hc in H. by apply negb_true_iff. }
    assert (HP : consumes isAsciiWordChar reAsciiWord).
    { unfold reAsciiWord, Plus. cbn [consumes]. by split. }
    destruct (all_from_takes isAsciiWordChar G R isAlnum reAsciiWord
                HP eq_refl attempt_reAsciiWord_None
                Hin Hout (S (length s0)) s0 0 None (hasUnicodeWord_false _ Eh))
      as [H1 H2].
    split; [exact H1|]. apply H2. lia.
Qed.

Lemma filter_alnum_removeApos s :
  List.filter isAlnum (removeApos s) = List.filter isAlnum s.
Proof.
  unfold removeApos. induction s as [|a s IH]; [done|]. cbn [List.filter].
  assert (H : implb (isApos a) (negb (isAlnum a)) = true) by by_code_units a.
  destruct (isApos a); cbn [negb].
  - apply negb_true_iff in H. by rewrite H.
  - cbn [List.filter]. by rewrite IH.
Qed.

Lemma lowerChar_alnum w :
  forallb isAlnum w = true -> forallb slug_char (toLowerCaseL w) = true.
Proof.
  induction w as [|a w IH]; [done|]. cbn [forallb toLowerCaseL List.map].
  intros [Ha Hw]%andb_prop. fold (toLowerCaseL w). rewrite (IH Hw), andb_true_r.
  assert (H : implb (isAlnum a) (slug_char (lowerChar a)) = true)
    by by_code_units a.
  by rewrite Ha in H.
Qed.

Lemma concat_toLowerCaseL ws :
  concat (List.map toLowerCaseL ws) = toLowerCaseL (concat ws).
Proof.
  unfold toLowerCaseL. induction ws as [|w ws IH]; [done|].
  cbn [List.map concat]. by rewrite IH, List.map_app.
Qed.

(** The slug: words of lower-case letters and digits, none empty, joined by
    single hyphens; the words together are the letters and digits of the
    text, in lower case, the letters with a diacritic replaced by
    [deburr]. *)
Lemma kebabCase_shape text :
  exists ws,
    kebabCase text = join "-" (List.map to_string ws)
    /\ forallb slug_word ws = true
    /\ concat ws
       = toLowerCaseL (List.filter isAlnum (deburr (of_string text))).
Proof.
  destruct (words_alnum (of_string text)) as [H1 H2]. cbv zeta in H1, H2.
  exists (List.map toLowerCaseL (words (removeApos (deburr (of_string text))))).
  split; [|split].
  - unfold kebabCase. by rewrite List.map_map.
  - clear H2. induction H1 as [|w ws [Hn Hw] _ IH]; [done|].
    cbn [List.map forallb]. rewrite IH, andb_true_r.
    unfold slug_word. destruct w as [|a w]; [done|].
    exact (lowerChar_alnum _ Hw).
  - by rewrite concat_toLowerCaseL, H2, filter_alnum_removeApos.
Qed.

End SlugFacts.

Module TextIdFacts.
Import Js Regex TextId MatcherFacts StringFacts SlugFacts.

Section Expression.

(** ** The expression of the Text/ID parser *)

#[local] Arguments Ascii.eqb : simpl never.
#[local] Arguments isSpace : simpl never.
#[local] Arguments isDot : simpl never.
#[local] Arguments notParen : simpl never.

Lemma space_not_paren a : isSpace a = true -> Ascii.eqb "(" a = false.
Proof.
  intros H. destruct (Ascii.eqb_spec "(" a) as [<-|]; [discriminate H|done].
Qed.

Lemma notParen_false a : notParen a = false -> a = ")"%char.
Proof.
  unfold notParen. destruct (Ascii.eqb_spec a ")"); [done|discriminate].
Qed.

(** [reSuffix] computes [suffix_id]; its group is the literal. *)
Lemma m_reSuffix prev s c :
  m reSuffix accept prev s c
  = match suffix_id s with
    | Some lit => Some ([], cap_set 2 lit c)
    | None => None
    end.
Proof.
  unfold reSuffix, suffix_id.
  change (m (Cat (Star true isSpace) ?r) accept prev s c)
    with (star_greedy isSpace (m r accept) prev s c).
  rewrite star_greedy_skip.
  2:{ intros a s' prev' c' Ha. simpl. by rewrite (space_not_paren a Ha). }
  generalize (last_of prev (takeWhile isSpace s)) as prev1.
  generalize (dropWhile isSpace s) as s1. clear s prev.
  intros [|a [|b s2]] prev1; simpl; [done| by destruct (Ascii.eqb "(" a) |].
  destruct (Ascii.eqb "(" a); simpl; [|done].
  destruct (Ascii.eqb "#" b); simpl; [|done].
  destruct s2 as [|x s3]; simpl; [done|].
  destruct (notParen x) eqn:Ex; simpl; [|done].
  rewrite star_greedy_skip.
  2:{ intros y s' prev' c' Hy. simpl.
      destruct (Ascii.eqb_spec ")" y) as [<-|]; [discriminate Hy|done]. }
  pose proof (length_dropWhile notParen s3) as Hlen.
  pose proof (firstn_dropWhile notParen s3) as Hfirst.
  destruct (dropWhile notParen s3) as [|y [|z s4]] eqn:Ed; simpl.
  - done.
  - destruct (Ascii.eqb ")" y); [|done].
    unfold accept. do 3 f_equal.
    simpl in Hlen, Hfirst.
    replace (length s3 - 0) with (S (length s3 - 1)) by lia.
    simpl. by rewrite Hfirst.
  - by destruct (Ascii.eqb ")" y).
Qed.

Lemma suffix_id_Some s lit :
  suffix_id s = Some lit <->
  exists ws, s = ws ++ of_string "(#" ++ lit ++ of_string ")"
             /\ forallb isSpace ws = true
             /\ lit <> [] /\ forallb notParen lit = true.
Proof.
  unfold suffix_id. split.
  - intros H.
    pose proof (takeWhile_dropWhile isSpace s) as Hs.
    pose proof (forallb_takeWhile isSpace s) as Hws.
    remember (takeWhile isSpace s) as ws eqn:Heq. clear Heq.
    destruct (dropWhile isSpace s) as [|a [|b s2]]; [done|done|].
    destruct (Ascii.eqb_spec "(" a) as [Ha|]; [subst a|done].
    destruct (Ascii.eqb_spec "#" b) as [Hb|]; [subst b|done]. simpl in H.
    pose proof (takeWhile_dropWhile notParen s2) as Hs2.
    pose proof (forallb_takeWhile notParen s2) as Hall.
    remember (takeWhile notParen s2) as l eqn:Heq. clear Heq.
    destruct l as [|x l]; [done|].
    destruct (dropWhile notParen s2) as [|y [|z s4]]; [done| |done].
    destruct (Ascii.eqb_spec ")" y) as [Hy|]; [subst y|done].
    injection H as <-. exists ws. rewrite <- Hs, <- Hs2.
    repeat split; done.
  - intros (ws & -> & Hws & Hne & Hlit).
    rewrite dropWhile_app_all by done.
    destruct lit as [|x lit]; [done|]. simpl in *.
    apply andb_prop in Hlit as [Hx Hlit]. rewrite Hx.
    rewrite takeWhile_app_all by done. rewrite dropWhile_app_all by done.
    simpl. rewrite app_nil_r. done.
Qed.

Lemma search_bos_Some r (k : regex) i a s :
  search (Cat Bos r) i (Some a) s = None.
Proof.
  revert i a. induction s as [|b s IH]; intros i a; simpl; unfold attempt; simpl; [done|].
  apply IH.
Qed.

Lemma exec_reTextWithId s :
  exec reTextWithId s
  = match s with
    | b :: s1 =>
        if isDot b then
          match
            star_lazy isDot
              (fun prev' s' c' =>
                 m reSuffix accept prev' s'
                   (cap_set 1 (firstn (length s - length s') s) c'))
              (Some b) s1 []
          with
          | Some (s', c) => Some (Found 0 (firstn (length s - length s') s) s' c)
          | None => None
          end
        else None
    | [] => None
    end.
Proof.
  unfold exec, reTextWithId. destruct s as [|b s1]; [done|].
  unfold search; fold search. unfold attempt at 1.
  change (m (Cat Bos ?r) accept None ?s [])
    with (m r accept None s []).
  change (m (Cat (Grp 1 (Plus false isDot)) reSuffix) accept None (b :: s1) [])
    with (if isDot b then
            star_lazy isDot
              (fun prev' s' c' =>
                 m reSuffix accept prev' s'
                   (cap_set 1 (firstn (length (b :: s1) - length s') (b :: s1)) c'))
              (Some b) s1 []
          else None).
  destruct (isDot b); [|by rewrite (search_bos_Some _ Eps)].
  destruct (star_lazy _ _ _ _ _) as [[s' c]|]; [done|].
  by rewrite (search_bos_Some _ Eps).
Qed.

Lemma length_app_suffix {A} (t rest : list A) :
  firstn (length (t ++ rest) - length rest) (t ++ rest) = t.
Proof.
  rewrite length_app. replace (_ + _ - _) with (length t) by lia.
  apply take_app_length.
Qed.

(** A match is a reading of the input with the shortest title text; its
    groups are the title text and the literal. *)
Lemma exec_reTextWithId_Some s f :
  exec reTextWithId s = Some f ->
  exists t ws lit,
    readsL s t ws lit
    /\ cap_get 1 (f_caps f) = Some t /\ cap_get 2 (f_caps f) = Some lit
    /\ (forall t' ws' lit', readsL s t' ws' lit' -> length t <= length t').
Proof.
  rewrite exec_reTextWithId. destruct s as [|b s1]; [done|].
  destruct (isDot b) eqn:Eb; [|done].
  destruct (star_lazy _ _ _ _ _) as [[s' c]|] eqn:El; [|done].
  intros [= <-]. simpl.
  apply star_lazy_Some in El as (t1 & rest & -> & Hdot & Hk & Hmin).
  rewrite m_reSuffix in Hk.
  destruct (suffix_id rest) as [lit|] eqn:Es; [|done].
  injection Hk as <- <-.
  apply suffix_id_Some in Es as (ws & -> & Hws & Hne & Hlit).
  exists (b :: t1), ws, lit. split; [|split; [|split]].
  - repeat split; try done. simpl. by rewrite Eb.
  - simpl. f_equal.
    exact (length_app_suffix (b :: t1)
             (ws ++ of_string "(#" ++ lit ++ of_string ")")).
  - done.
  - intros t' ws' lit' (Hs & Hne' & Hdot' & Hws' & Hlne' & Hlit').
    destruct (decide (length (b :: t1) <= length t')) as [|Hlt]; [done|].
    exfalso. destruct t' as [|b' t1']; [done|].
    simpl in Hs. injection Hs as <- Hs.
    assert (Hl : length t1' < length t1) by (simpl in Hlt; lia).
    specialize (Hmin t1' _ Hs Hl). rewrite m_reSuffix in Hmin.
    assert (Hsome : suffix_id (ws' ++ of_string "(#" ++ lit' ++ of_string ")") = Some lit').
    { apply suffix_id_Some. by exists ws'. }
    simpl in Hsome, Hmin. by rewrite Hsome in Hmin.
Qed.

(** There is a match exactly when the input has a reading. *)
Lemma exec_reTextWithId_None s :
  exec reTextWithId s = None <->
  (forall t ws lit, ~ readsL s t ws lit).
Proof.
  split.
  - intros H t ws lit (Hs & Hne & Hdot & Hws & Hlne & Hlit).
    rewrite exec_reTextWithId in H.
    destruct t as [|b t1]; [done|]. rewrite Hs in H.
    change ((b :: t1) ++ ?r) with (b :: t1 ++ r) in H.
    cbv beta iota in H. simpl in Hdot. apply andb_prop in Hdot as [Hb Hdot].
    rewrite Hb in H.
    destruct (star_lazy _ _ _ _ _) as [[s' c]|] eqn:El; [done|].
    rewrite star_lazy_None in El. specialize (El t1 _ eq_refl Hdot).
    rewrite m_reSuffix in El.
    assert (Hsome : suffix_id (ws ++ of_string "(#" ++ lit ++ of_string ")") = Some lit).
    { apply suffix_id_Some. by exists ws. }
    simpl in Hsome, El. by rewrite Hsome in El.
  - intros H. destruct (exec reTextWithId s) as [f|] eqn:E; [|done].
    apply exec_reTextWithId_Some in E as (t & ws & lit & Hr & _).
    by destruct (H t ws lit).
Qed.

End Expression.

(** ** Readings of a heading text *)

Lemma reads_readsL text t ws lit :
  reads text t ws lit <->
  readsL (of_string text) (of_string t) (of_string ws) (of_string lit).
Proof.
  unfold reads, readsL. rewrite !of_string_nil.
  split; intros (Hs & H); split; try done.
  - rewrite Hs. by rewrite !of_string_app.
  - apply of_string_inj. by rewrite !of_string_app.
Qed.

Lemma readsL_reads s t ws lit :
  readsL s t ws lit ->
  reads (to_string s) (to_string t) (to_string ws) (to_string lit).
Proof. intros H. apply reads_readsL. by rewrite !of_to_string. Qed.

(** The position of the opening parenthesis of a reading. *)
Lemma readsL_paren s t ws lit :
  readsL s t ws lit -> s !! length (t ++ ws) = Some "("%char.
Proof.
  intros (-> & _). rewrite app_assoc.
  rewrite lookup_app_r by lia. by rewrite Nat.sub_diag.
Qed.

Lemma readsL_hash s t ws lit :
  readsL s t ws lit -> s !! S (length (t ++ ws)) = Some "#"%char.
Proof.
  intros (-> & _). rewrite app_assoc.
  rewrite lookup_app_r by lia.
  by replace (S _ - _) with 1 by lia.
Qed.

(** Before that position there is the title text, then white space. *)
Lemma readsL_before s t ws lit i x :
  readsL s t ws lit -> s !! i = Some x -> length t <= i < length (t ++ ws) ->
  isSpace x = true.
Proof.
  intros (-> & _ & _ & Hws & _) Hi [Hl Hr]. rewrite length_app in Hr.
  rewrite lookup_app_r in Hi by done.
  rewrite lookup_app_l in Hi by lia.
  by eapply forallb_lookup.
Qed.

Lemma readsL_title s t ws lit i :
  readsL s t ws lit -> i < length t -> s !! i = t !! i.
Proof. intros (-> & _) Hi. by rewrite lookup_app_l. Qed.

(** Two readings whose parentheses open at the same position differ only in
    where the title text ends. *)
Lemma readsL_same_position s t ws lit t' ws' lit' :
  readsL s t ws lit -> readsL s t' ws' lit' ->
  length (t ++ ws) = length (t' ++ ws') ->
  t ++ ws = t' ++ ws' /\ lit = lit'.
Proof.
  intros (Hs & _) (Hs' & _) Hlen. rewrite Hs in Hs'.
  rewrite !(app_assoc t), !(app_assoc t') in Hs'.
  apply app_inj_1 in Hs' as [H1 H2]; [|done].
  split; [done|]. simpl in H2. injection H2 as H2.
  by apply app_inj_tail in H2 as [H2 _].
Qed.

(** The reading with the shortest title text is also the one whose
    parenthesis opens first. *)
Lemma readsL_shortest_first s t0 ws0 lit0 t ws lit :
  readsL s t0 ws0 lit0 -> readsL s t ws lit ->
  length t0 <= length t ->
  length (t0 ++ ws0) <= length (t ++ ws).
Proof.
  intros H0 H Hle.
  destruct (decide (length (t0 ++ ws0) <= length (t ++ ws))) as [|Hn]; [done|].
  exfalso. pose proof (readsL_paren _ _ _ _ H) as Hp.
  assert (Hsp : isSpace "(" = true).
  { eapply (readsL_before _ _ _ _ _ _ H0 Hp). rewrite !length_app in *. lia. }
  discriminate Hsp.
Qed.

(** A title text without the marker gives the reading that opens first. *)
Lemma has_marker_lookup t i :
  t !! i = Some "("%char -> t !! S i = Some "#"%char -> has_marker t = true.
Proof.
  revert i. induction t as [|a t IH]; intros i; [done|].
  destruct i as [|i]; simpl.
  - intros [= ->]. destruct t as [|b t]; [done|]. intros [= ->]. done.
  - intros H1 H2. destruct t as [|b t]; [done|].
    rewrite (IH i H1 H2). apply orb_true_r.
Qed.

Lemma marker_free_first s t ws lit t' ws' lit' :
  readsL s t ws lit -> has_marker t = false -> readsL s t' ws' lit' ->
  length (t ++ ws) <= length (t' ++ ws').
Proof.
  intros H Hm H'.
  destruct (decide (length (t ++ ws) <= length (t' ++ ws'))) as [|Hn]; [done|].
  exfalso.
  pose proof (readsL_paren _ _ _ _ H') as Hp.
  pose proof (readsL_hash _ _ _ _ H') as Hh.
  pose proof (readsL_paren _ _ _ _ H) as Hq.
  set (p' := length (t' ++ ws')) in *. set (p := length (t ++ ws)) in *.
  assert (H1 : p' < length t).
  { destruct (decide (p' < length t)) as [|Hge]; [done|].
    assert (Hsp : isSpace "(" = true)
      by (eapply (readsL_before _ _ _ _ _ _ H Hp); fold p; lia).
    discriminate Hsp. }
  assert (H2 : S p' < length t).
  { destruct (decide (S p' < length t)) as [|Hge]; [done|].
    destruct (decide (S p' = p)) as [E|].
    - rewrite E in Hh. congruence.
    - assert (Hsp : isSpace "#" = true)
        by (eapply (readsL_before _ _ _ _ _ _ H Hh); fold p; lia).
      discriminate Hsp. }
  rewrite (readsL_title _ _ _ _ _ H H1) in Hp.
  rewrite (readsL_title _ _ _ _ _ H H2) in Hh.
  by rewrite (has_marker_lookup _ _ Hp Hh) in Hm.
Qed.

Lemma length_of_string s : length (of_string s) = String.length s.
Proof. unfold of_string. induction s; simpl; congruence. Qed.

(** A title text without the marker gives the earliest reading. *)
Lemma marker_free_earliest text t ws lit :
  reads text t ws lit -> has_marker (of_string t) = false -> earliest text t ws.
Proof.
  intros H Hm t' ws' lit' H'.
  apply reads_readsL in H, H'.
  pose proof (marker_free_first _ _ _ _ _ _ _ H Hm H') as Hle.
  by rewrite <- !of_string_app, !length_of_string in Hle.
Qed.

(** A string without the marker opens no suffix. *)
Lemma marker_free_not_opens s :
  has_marker (of_string s) = false -> forall t ws lit, ~ opens s t ws lit.
Proof.
  intros Hm t ws lit (Hs & _).
  apply (f_equal of_string) in Hs. rewrite !of_string_app in Hs.
  rewrite app_assoc in Hs.
  assert (H1 : of_string s !! length (of_string t ++ of_string ws) = Some "("%char).
  { rewrite Hs. rewrite lookup_app_r by lia. by rewrite Nat.sub_diag. }
  assert (H2 : of_string s !! S (length (of_string t ++ of_string ws)) = Some "#"%char).
  { rewrite Hs. rewrite lookup_app_r by lia. by replace (S _ - _) with 1 by lia. }
  by rewrite (has_marker_lookup _ _ H1 H2) in Hm.
Qed.

(** What the parser returns in its two branches. *)
Lemma parseTextWithId_match text f :
  exec reTextWithId (of_string text) = Some f ->
  parseTextWithId text = Parsed (trim (group 1 f)) (group 2 f).
Proof. unfold parseTextWithId. by intros ->. Qed.

Lemma parseTextWithId_no_match text :
  exec reTextWithId (of_string text) = None ->
  parseTextWithId text = Parsed text (Lodash.kebabCase text).
Proof. unfold parseTextWithId. by intros ->. Qed.

(** Both groups take part in every match. *)
Lemma exec_reTextWithId_groups s f :
  exec reTextWithId s = Some f ->
  is_Some (cap_get 1 (f_caps f)) /\ is_Some (cap_get 2 (f_caps f)).
Proof.
  intros H. apply exec_reTextWithId_Some in H as (t & ws & lit & _ & -> & -> & _).
  by split.
Qed.

Lemma parseTextWithId_earliest text t ws lit :
  reads text t ws lit -> earliest text t ws ->
  parseTextWithId text = Parsed (trim (t +:+ ws)) lit.
Proof.
  intros H He.
  destruct (exec reTextWithId (of_string text)) as [f|] eqn:E.
  2:{ rewrite exec_reTextWithId_None in E.
      apply reads_readsL in H. by destruct (E _ _ _ H). }
  rewrite (parseTextWithId_match _ _ E).
  apply exec_reTextWithId_Some in E as (t0 & ws0 & lit0 & H0 & G1 & G2 & Hmin).
  unfold group. rewrite G1, G2.
  pose proof H as HL. apply reads_readsL in HL.
  assert (Hlen : length (t0 ++ ws0) = length (of_string t ++ of_string ws)).
  { apply Nat.le_antisymm.
    - eapply readsL_shortest_first; eauto.
    - pose proof (readsL_reads _ _ _ _ H0) as H0'.
      rewrite to_of_string in H0'. specialize (He _ _ _ H0').
      rewrite <- !length_of_string, !of_string_app, !of_to_string in He. done. }
  destruct (readsL_same_position _ _ _ _ _ _ _ H0 HL Hlen) as [Happ ->].
  rewrite to_of_string. f_equal.
  destruct H0 as (_ & _ & _ & Hws0 & _).
  unfold trim. rewrite of_to_string, of_string_app, <- Happ.
  by rewrite trimL_app_space.
Qed.

Lemma parseTextWithId_unread text :
  (forall t ws lit, ~ reads text t ws lit) ->
  parseTextWithId text = Parsed text (Lodash.kebabCase text).
Proof.
  intros H. apply parseTextWithId_no_match. apply exec_reTextWithId_None.
  intros t ws lit HL. apply readsL_reads in HL. rewrite to_of_string in HL.
  by eapply H.
Qed.

(** A reading of a string that ends with the empty marker opens its suffix
    within the part before that marker. *)
Lemma readsL_empty_marker s t ws lit :
  readsL (s ++ of_string "(#)") t ws lit ->
  exists lit', s = t ++ ws ++ of_string "(#" ++ lit'
               /\ forallb notParen lit' = true.
Proof.
  intros (Hs & _ & _ & _ & Hne & Hlit).
  change (of_string "(#)") with (["("; "#"] ++ [")"])%char in Hs.
  change (of_string ")") with [")"%char] in Hs.
  rewrite !app_assoc in Hs. apply app_inj_tail in Hs as [Hs _].
  destruct (exists_last Hne) as (l1 & x & ->).
  rewrite forallb_app in Hlit. apply andb_prop in Hlit as [Hl1 _].
  change ["("; "#"]%char with (["("] ++ ["#"])%char in Hs.
  rewrite !app_assoc in Hs. apply app_inj_tail in Hs as [Hs _].
  destruct l1 as [|y l1] using rev_ind.
  - rewrite app_nil_r in Hs. change (of_string "(#") with (["("] ++ ["#"])%char in Hs.
    rewrite !app_assoc in Hs. by apply app_inj_tail in Hs as [_ Hs].
  - clear IHl1. rewrite forallb_app in Hl1. apply andb_prop in Hl1 as [Hl1 _].
    rewrite !app_assoc in Hs. apply app_inj_tail in Hs as [Hs _].
    exists l1. split; [|done]. by rewrite Hs, <- !app_assoc.
Qed.

Lemma parseTextWithId_empty_marker s :
  (forall t ws lit, ~ opens s t ws lit) ->
  parseTextWithId (s +:+ "(#)")
  = Parsed (s +:+ "(#)") (Lodash.kebabCase (s +:+ "(#)")).
Proof.
  intros H. apply parseTextWithId_no_match. apply exec_reTextWithId_None.
  intros t ws lit HL. rewrite of_string_app in HL.
  pose proof HL as (_ & Hne & Hdot & Hws & _).
  apply readsL_empty_marker in HL as (lit' & Hs & Hlit').
  apply (H (to_string t) (to_string ws) (to_string lit')).
  unfold opens. rewrite !of_to_string.
  repeat split; try done.
  - apply of_string_inj. by rewrite !of_string_app, !of_to_string.
  - intros E. apply (f_equal of_string) in E. by rewrite of_to_string in E.
Qed.

(** ** The slug and the parser on concrete inputs *)

Example kebabCase_words :
  Lodash.kebabCase "My Great Section" = "my-great-section"
  /\ Lodash.kebabCase "fooBar  baz_qux" = "foo-bar-baz-qux"
  /\ Lodash.kebabCase "Overview (#)" = "overview".
Proof. vm_compute. repeat split. Qed.

Example parseTextWithId_examples :
  parseTextWithId "A  (#x) (#y z)" = Parsed "A  (#x)" "y z"
  /\ parseTextWithId " (#x)" = Parsed "" "x"
  /\ parseTextWithId "(#x)" = Parsed "(#x)" "x".
Proof. vm_compute. repeat split. Qed.

(** A string without the marker has no reading. *)
Lemma marker_free_unread text :
  has_marker (of_string text) = false -> forall t ws lit, ~ reads text t ws lit.
Proof.
  intros Hm t ws lit H%reads_readsL.
  by rewrite (has_marker_lookup _ _ (readsL_paren _ _ _ _ H)
                (readsL_hash _ _ _ _ H)) in Hm.
Qed.

(** C4, as amended.  If the string reads as a title text that is not empty
    and has no line terminator (on code units below U+0100: LF and CR), then
    white space, then a suffix made of an opening parenthesis, a hash sign, a
    literal that is not empty and has no closing parenthesis, and a closing
    parenthesis at the very end, and no other such reading has its suffix
    start earlier, the result is the text before the suffix, trimmed, as
    title and the literal as id.  If the string has no such reading, the
    result is the input as title and its kebab-case slug as id.  The slug of
    a string is made of words of lower-case letters and digits, none of them
    empty, joined by single hyphens; put together, the words are the letters
    and digits of the string, in order and in lower case, a letter with a
    diacritic written as [deburr] writes it: every other character only
    separates words.  The two examples of the specification hold. *)
Theorem parseTextWithId_reading :
  (forall text t ws lit,
     reads text t ws lit -> earliest text t ws ->
     parseTextWithId text = Parsed (trim (t +:+ ws)) lit)
  /\ (forall text,
        (forall t ws lit, ~ reads text t ws lit) ->
        parseTextWithId text = Parsed text (Lodash.kebabCase text))
  /\ (forall text,
        exists ws,
          Lodash.kebabCase text = join "-" (List.map to_string ws)
          /\ forallb Lodash.slug_word ws = true
          /\ concat ws
             = toLowerCaseL
                 (List.filter Lodash.isAlnum (Lodash.deburr (of_string text))))
  /\ parseTextWithId "Overview (#custom-id)" = Parsed "Overview" "custom-id"
  /\ parseTextWithId "My Great Section"
     = Parsed "My Great Section" "my-great-section".
Proof.
  split; [exact parseTextWithId_earliest|].
  split; [exact parseTextWithId_unread|].
  split; [exact kebabCase_shape|].
  split; vm_compute; reflexivity.
Qed.

(** The theorem of C4 on a heading text with an id and on one without. *)
Lemma parseTextWithId_reading_witness :
  reads "Wing loading  (#wl)" "Wing loading" "  " "wl"
  /\ earliest "Wing loading  (#wl)" "Wing loading" "  "
  /\ parseTextWithId "Wing loading  (#wl)" = Parsed "Wing loading" "wl"
  /\ (forall t ws lit, ~ reads "Stall speed" t ws lit)
  /\ parseTextWithId "Stall speed" = Parsed "Stall speed" "stall-speed".
Proof.
  assert (H1 : reads "Wing loading  (#wl)" "Wing loading" "  " "wl").
  { repeat split; try reflexivity; discriminate. }
  assert (H2 : earliest "Wing loading  (#wl)" "Wing loading" "  ").
  { eapply marker_free_earliest; [exact H1|reflexivity]. }
  assert (H3 : forall t ws lit, ~ reads "Stall speed" t ws lit).
  { apply marker_free_unread. reflexivity. }
  split; [exact H1|]. split; [exact H2|]. split.
  - exact (proj1 parseTextWithId_reading _ _ _ _ H1 H2).
  - split; [exact H3|].
    exact (proj1 (proj2 parseTextWithId_reading) "Stall speed" H3).
Defined.

(** C4 fails on a title text with a line terminator: the string is a title
    text, a space and the suffix with the literal [wl], yet the parser takes
    the other branch and returns the whole string as title. *)
Lemma parseTextWithId_two_lines :
  let t := "Wing" +:+ String "010" "loading" in
  let text := t +:+ " " +:+ "(#" +:+ "wl" +:+ ")" in
  t <> "" /\ forallb isSpace (of_string " ") = true
  /\ "wl" <> "" /\ forallb notParen (of_string "wl") = true
  /\ parseTextWithId text = Parsed text "wing-loading-wl"
  /\ parseTextWithId text <> Parsed (trim (t +:+ " ")) "wl".
Proof.
  repeat split; try reflexivity; try discriminate.
Qed.

(** C9, as amended.  For a string that ends with the empty marker, an
    opening parenthesis, a hash sign and a closing parenthesis, and whose
    part [s] before that marker opens no suffix of its own (it does not read
    as a title text, white space, an opening parenthesis, a hash sign and
    then only characters other than the closing parenthesis), the parser does
    not take the explicit-id branch: the title is the whole input and the id
    its kebab-case slug. *)
Theorem parseTextWithId_empty_id (s : string) :
  (forall t ws lit, ~ opens s t ws lit) ->
  parseTextWithId (s +:+ "(#)")
  = Parsed (s +:+ "(#)") (Lodash.kebabCase (s +:+ "(#)")).
Proof. apply parseTextWithId_empty_marker. Qed.

(** The theorem of C9 on a title followed by the empty marker. *)
Lemma parseTextWithId_empty_id_witness :
  (forall t ws lit, ~ opens "Overview " t ws lit)
  /\ parseTextWithId "Overview (#)" = Parsed "Overview (#)" "overview".
Proof.
  assert (H : forall t ws lit, ~ opens "Overview " t ws lit).
  { apply marker_free_not_opens. reflexivity. }
  split; [exact H|]. exact (parseTextWithId_empty_id "Overview " H).
Defined.

(** C9 fails when an earlier marker opens an id that runs up to the closing
    parenthesis of the empty one: the input ends with the empty marker and
    the parser takes the explicit-id branch. *)
Lemma parseTextWithId_earlier_marker :
  let s := "Drag (#cd" in
  parseTextWithId (s +:+ "(#)") = Parsed "Drag" "cd(#"
  /\ parseTextWithId (s +:+ "(#)")
     <> Parsed (s +:+ "(#)") (Lodash.kebabCase (s +:+ "(#)")).
Proof. split; [reflexivity|discriminate]. Qed.

End TextIdFacts.

Module TocFacts.
Import Js Toc.

(** ** The nesting rule *)

Section Nesting.

Implicit Types (prev kept : list SectionRecord) (ps : gmap Z nat).

Lemma most_recent_at_app_last prev r g :
  most_recent_at (prev ++ [r]) g
  = if (r_depth r =? g)%Z then Some (length prev) else most_recent_at prev g.
Proof.
  induction prev as [|x prev IH]; simpl.
  - by destruct (r_depth r =? g)%Z.
  - rewrite IH. destruct (r_depth r =? g)%Z; [done|].
    by destruct (most_recent_at prev g).
Qed.

Lemma most_recent_at_Some prev g i :
  most_recent_at prev g = Some i ->
  exists r, prev !! i = Some r /\ r_depth r = g.
Proof.
  revert i. induction prev as [|x prev IH]; intros i; simpl; [done|].
  destruct (most_recent_at prev g) as [i'|].
  - intros [= <-]. by apply IH.
  - destruct (Z.eqb_spec (r_depth x) g); [|done]. intros [= <-]. by exists x.
Qed.

Lemma most_recent_at_None prev g r :
  most_recent_at prev g = None -> r ∈ prev -> r_depth r <> g.
Proof.
  induction prev as [|x prev IH]; simpl; [by intros _ ?%elem_of_nil|].
  destruct (most_recent_at prev g) as [i'|]; [done|].
  destruct (Z.eqb_spec (r_depth x) g); [done|].
  intros _ [Heq|Hin]%elem_of_cons; [by subst r|]. by apply IH.
Qed.

Lemma greatest_below_app_last prev r d :
  greatest_below (prev ++ [r]) d
  = if (r_depth r <? d)%Z then
      match greatest_below prev d with
      | Some g => Some (Z.max g (r_depth r))
      | None => Some (r_depth r)
      end
    else greatest_below prev d.
Proof. unfold greatest_below. by rewrite fold_left_app. Qed.

(** [greatest_below] is the greatest depth below [d], if there is one. *)
Lemma greatest_below_spec prev d :
  match greatest_below prev d with
  | Some g =>
      (g < d)%Z /\ (exists r, r ∈ prev /\ r_depth r = g)
      /\ (forall r, r ∈ prev -> (r_depth r < d)%Z -> (r_depth r <= g)%Z)
  | None => forall r, r ∈ prev -> ~ (r_depth r < d)%Z
  end.
Proof.
  induction prev as [|x prev IH] using rev_ind.
  - simpl. by intros r ?%elem_of_nil.
  - rewrite greatest_below_app_last.
    destruct (Z.ltb_spec (r_depth x) d) as [Hlt|Hge].
    + destruct (greatest_below prev d) as [g|].
      * destruct IH as (Hg & (r0 & Hin0 & Hr0) & Hmax). split; [lia|]. split.
        -- destruct (Z.max_spec g (r_depth x)) as [[_ ->]|[_ ->]].
           ++ exists x. split; [|done]. apply elem_of_app. right. by apply list_elem_of_singleton.
           ++ exists r0. split; [|done]. apply elem_of_app. by left.
        -- intros r [Hin|Heq%list_elem_of_singleton]%elem_of_app Hr; [|subst r; lia].
           specialize (Hmax r Hin Hr). lia.
      * split; [done|]. split.
        -- exists x. split; [|done]. apply elem_of_app. right. by apply list_elem_of_singleton.
        -- intros r [Hin|Heq%list_elem_of_singleton]%elem_of_app Hr; [|subst r; lia].
           by destruct (IH r Hin).
    + destruct (greatest_below prev d) as [g|].
      * destruct IH as (Hg & (r0 & Hin0 & Hr0) & Hmax). split; [done|]. split.
        -- exists r0. split; [|done]. apply elem_of_app. by left.
        -- intros r [Hin|Heq%list_elem_of_singleton]%elem_of_app Hr; [|subst r; lia].
           by apply Hmax.
      * intros r [Hin|Heq%list_elem_of_singleton]%elem_of_app; [|subst r; lia]. by apply IH.
Qed.

Lemma find_parent_Some ps n a :
  find_parent ps n = Some a ->
  exists g, 1 <= g <= n /\ ps !! Z.of_nat g = Some a
            /\ forall g', g < g' <= n -> ps !! Z.of_nat g' = None.
Proof.
  induction n as [|n IH]; [done|]. cbn [find_parent].
  destruct (ps !! Z.of_nat (S n)) as [b|] eqn:E.
  - intros [= ->]. exists (S n). split; [lia|]. split; [done|]. intros; lia.
  - intros (g & Hg & Hps & Hmax)%IH. exists g. split; [lia|]. split; [done|].
    intros g' Hg'. destruct (decide (g' = S n)) as [->|]; [done|]. apply Hmax. lia.
Qed.

Lemma find_parent_None ps n :
  find_parent ps n = None -> forall g, 1 <= g <= n -> ps !! Z.of_nat g = None.
Proof.
  induction n as [|n IH]; [intros; lia|]. cbn [find_parent].
  destruct (ps !! Z.of_nat (S n)) as [b|] eqn:E; [done|].
  intros H g Hg. destruct (decide (g = S n)) as [->|]; [done|]. apply IH; [done|lia].
Qed.

Lemma find_parent_insert ps d a n :
  n = 0 \/ (Z.of_nat n < d)%Z ->
  find_parent (<[d := a]> ps) n = find_parent ps n.
Proof.
  induction n as [|n IH]; [done|]. intros Hn. cbn [find_parent].
  rewrite lookup_insert_ne by lia. rewrite IH by lia. done.
Qed.

(** The loop over [d] finds the parent the rule states, when [parents] holds
    the most recent object of each depth and no depth is below 1. *)
Lemma find_parent_stated prev ps d a :
  (forall g, ps !! g = most_recent_at prev g) ->
  Forall (fun r => (1 <= r_depth r)%Z) prev ->
  find_parent (<[d := a]> ps) (Z.to_nat (d - 1)) = stated_parent prev d.
Proof.
  intros Hps Hpos. rewrite find_parent_insert by lia.
  rewrite Forall_forall in Hpos.
  unfold stated_parent. pose proof (greatest_below_spec prev d) as Hg.
  destruct (greatest_below prev d) as [g|].
  - destruct Hg as (Hlt & (r0 & Hin0 & Hr0) & Hmax).
    assert (Hg1 : (1 <= g)%Z) by (rewrite <- Hr0; by apply Hpos).
    assert (Hsome : is_Some (most_recent_at prev g)).
    { destruct (most_recent_at prev g) eqn:E; [done|].
      by destruct (most_recent_at_None _ _ _ E Hin0). }
    destruct (find_parent ps _) as [b|] eqn:E.
    + apply find_parent_Some in E as (g0 & Hg0 & Hb & Hmax0).
      rewrite Hps in Hb.
      destruct (most_recent_at_Some _ _ _ Hb) as (r1 & Hr1 & Hd1).
      assert (Hle : (Z.of_nat g0 <= g)%Z).
      { rewrite <- Hd1. apply Hmax; [by eapply list_elem_of_lookup_2|lia]. }
      destruct (decide (Z.of_nat g0 = g)) as [<-|Hne]; [done|].
      specialize (Hmax0 (Z.to_nat g)). rewrite Z2Nat.id in Hmax0 by lia.
      rewrite Hps in Hmax0. rewrite Hmax0 in Hsome by lia. by destruct Hsome.
    + apply find_parent_None with (g := Z.to_nat g) in E; [|lia].
      rewrite Z2Nat.id, Hps in E by lia. rewrite E in Hsome. by destruct Hsome.
  - destruct (find_parent ps _) as [b|] eqn:E; [|done].
    apply find_parent_Some in E as (g0 & Hg0 & Hb & _).
    rewrite Hps in Hb. destruct (most_recent_at_Some _ _ _ Hb) as (r1 & Hr1 & Hd1).
    destruct (Hg r1); [by eapply list_elem_of_lookup_2|lia].
Qed.

Lemma stated_parent_lt prev d p : stated_parent prev d = Some p -> p < length prev.
Proof.
  unfold stated_parent. destruct (greatest_below prev d); [|done].
  intros (r & Hr & _)%most_recent_at_Some. by eapply lookup_lt_Some.
Qed.

Lemma parent_of_lt kept j p : parent_of kept j = Some p -> p < j.
Proof.
  unfold parent_of. destruct (kept !! j); [|done].
  intros H%stated_parent_lt. rewrite length_take in H. lia.
Qed.

(** Registering overwrites the tracked object of the depth and nothing
    else. *)
Lemma nest_step_parents st r :
  parents (nest_step st r) = <[r_depth r := length (store st)]> (parents st).
Proof. unfold nest_step. by destruct (find_parent _ _). Qed.

End Nesting.

Section Loop.

Implicit Types (prev kept : list SectionRecord) (ps : gmap Z nat).

Lemma positions_upto_S kept j p :
  positions_upto kept (S j) p
  = positions_upto kept j p
    ++ (if bool_decide (parent_of kept j = p) then [j] else []).
Proof.
  unfold positions_upto. rewrite seq_S, List.filter_app. simpl.
  by destruct (bool_decide _).
Qed.

Lemma positions_upto_none_yet kept j i :
  j <= S i -> positions_upto kept j (Some i) = [].
Proof.
  induction j as [|j IH]; [done|]. intros Hj.
  rewrite positions_upto_S, IH by lia.
  rewrite bool_decide_false; [done|].
  intros H%parent_of_lt. lia.
Qed.

Lemma parent_of_lookup kept j r :
  kept !! j = Some r -> parent_of kept j = stated_parent (firstn j kept) (r_depth r).
Proof. unfold parent_of. by intros ->. Qed.

(** After [j] turns the loop has built the store, the roots and the tracking
    that the rule states for the first [j] records. *)
Lemma nest_loop_upto kept j :
  Forall (fun r => (1 <= r_depth r)%Z) kept ->
  j <= length kept ->
  let st := fold_left nest_step (firstn j kept) nest_init in
  store st = stated_store_upto kept j
  /\ nestedHeadings st = positions_upto kept j None
  /\ (forall g, parents st !! g = most_recent_at (firstn j kept) g).
Proof.
  intros Hpos. induction j as [|j IH]; intros Hj.
  - simpl. repeat split; try done.
  - destruct (lookup_lt_is_Some_2 kept j) as [r Hr]; [lia|].
    rewrite (take_S_r _ _ _ Hr), fold_left_app. simpl.
    destruct IH as (Hstore & Hroots & Htrack); [lia|].
    set (st := fold_left nest_step (firstn j kept) nest_init) in *.
    assert (Hlen : length (store st) = j).
    { rewrite Hstore. unfold stated_store_upto. rewrite length_imap, length_take. lia. }
    assert (Hfind : find_parent (<[r_depth r := j]> (parents st))
                      (Z.to_nat (r_depth r - 1)) = parent_of kept j).
    { rewrite (parent_of_lookup _ _ _ Hr). apply find_parent_stated; [done|].
      apply Forall_take. done. }
    assert (Htrack' : forall g,
      <[r_depth r := j]> (parents st) !! g = most_recent_at (firstn j kept ++ [r]) g).
    { intros g. rewrite most_recent_at_app_last, length_take.
      replace (j `min` length kept) with j by lia.
      destruct (Z.eqb_spec (r_depth r) g) as [<-|Hne].
      - by rewrite lookup_insert_eq.
      - by rewrite lookup_insert_ne. }
    unfold nest_step. rewrite Hlen, Hfind.
    unfold stated_store_upto at 1.
    rewrite <- (take_S_r _ _ _ Hr), (take_S_r _ _ _ Hr).
    rewrite imap_app, length_take. replace (j `min` length kept) with j by lia.
    simpl. rewrite Nat.add_0_r.
    rewrite (positions_upto_none_yet kept (S j) j) by lia.
    destruct (parent_of kept j) as [p|] eqn:Ep; simpl.
    + split; [|split; [|done]].
      * pose proof (parent_of_lt _ _ _ Ep) as Hp.
        rewrite Hstore. unfold stated_store_upto.
        rewrite alter_app_l by (rewrite length_imap, length_take; lia).
        f_equal. apply list_eq. intros i.
        rewrite list_lookup_imap.
        destruct (decide (i = p)) as [->|Hne].
        -- rewrite list_lookup_alter_eq, list_lookup_imap.
           destruct (firstn j kept !! p); [|done]. simpl.
           unfold push_child. simpl. rewrite positions_upto_S, Ep.
           by rewrite bool_decide_true.
        -- rewrite list_lookup_alter_ne by done. rewrite list_lookup_imap.
           destruct (firstn j kept !! i); [|done]. simpl.
           rewrite positions_upto_S, Ep. rewrite bool_decide_false by congruence.
           by rewrite app_nil_r.
      * rewrite Hroots, positions_upto_S, Ep. rewrite bool_decide_false by done.
        by rewrite app_nil_r.
    + split; [|split; [|done]].
      * rewrite Hstore. f_equal. unfold stated_store_upto. apply imap_ext.
        intros i x Hi. simpl. rewrite positions_upto_S, Ep.
        rewrite bool_decide_false by done. by rewrite app_nil_r.
      * rewrite Hroots, positions_upto_S, Ep. by rewrite bool_decide_true.
Qed.

Lemma nest_loop_stated kept :
  Forall (fun r => (1 <= r_depth r)%Z) kept ->
  store (nest_loop kept) = stated_store kept
  /\ nestedHeadings (nest_loop kept) = stated_roots kept.
Proof.
  intros Hpos. destruct (nest_loop_upto kept (length kept) Hpos) as (H1 & H2 & _); [done|].
  rewrite firstn_all in H1, H2. done.
Qed.

End Loop.

Section Forest.

Implicit Types (hs : list hnode) (st : nest_state).

Lemma flat_map_children_alter hs p j h :
  hs !! p = Some h ->
  flat_map h_children (alter (push_child j) p hs) ≡ₚ j :: flat_map h_children hs.
Proof.
  revert p. induction hs as [|x hs IH]; intros [|p] Hp; try done; simpl.
  - rewrite <- app_assoc. simpl. symmetry. apply Permutation_middle.
  - simpl in Hp. rewrite (IH _ Hp). symmetry. apply Permutation_middle.
Qed.

Lemma map_rec_alter hs p j :
  map h_rec (alter (push_child j) p hs) = map h_rec hs.
Proof.
  revert p. induction hs as [|x hs IH]; intros [|p]; simpl; try done.
  f_equal. apply IH.
Qed.

(** The shape of the store that every turn of the loop keeps: each object
    is held exactly once, by the roots or by the children of one object;
    the children of an object were created after it; the tracked objects
    exist. *)
Lemma nest_step_shape st r :
  nestedHeadings st ++ flat_map h_children (store st)
    ≡ₚ seq 0 (length (store st)) ->
  (forall i h, store st !! i = Some h -> Forall (fun c => i < c) (h_children h)) ->
  (forall d a, parents st !! d = Some a -> a < length (store st)) ->
  let st' := nest_step st r in
  nestedHeadings st' ++ flat_map h_children (store st')
    ≡ₚ seq 0 (length (store st'))
  /\ (forall i h, store st' !! i = Some h -> Forall (fun c => i < c) (h_children h))
  /\ (forall d a, parents st' !! d = Some a -> a < length (store st'))
  /\ map h_rec (store st') = map h_rec (store st) ++ [r].
Proof.
  intros Hperm Hlater Htrack st'.
  assert (Hlen : length (store st') = S (length (store st))).
  { subst st'. unfold nest_step. destruct (find_parent _ _); simpl;
      rewrite ?length_alter, length_app; simpl; lia. }
  assert (Hps : forall d a, parents st' !! d = Some a -> a < length (store st')).
  { intros d a. subst st'. rewrite Hlen, nest_step_parents.
    destruct (decide (d = r_depth r)) as [->|Hne].
    - rewrite lookup_insert_eq. intros [= <-]. lia.
    - rewrite lookup_insert_ne by done. intros H%Htrack. lia. }
  subst st'. unfold nest_step in *.
  rewrite find_parent_insert in * by lia.
  destruct (find_parent (parents st) _) as [p|] eqn:Ep; cbn [store nestedHeadings parents] in *.
  - apply find_parent_Some in Ep as (g & _ & Hp%Htrack & _).
    destruct (lookup_lt_is_Some_2 (store st) p Hp) as [h Hh].
    split; [|split; [|split; [done|]]].
    + rewrite Hlen, seq_S. simpl.
      rewrite (flat_map_children_alter _ p _ h)
        by (rewrite lookup_app_l by done; done).
      rewrite flat_map_app. simpl. rewrite app_nil_r.
      rewrite <- Permutation_middle, Hperm. apply Permutation_cons_append.
    + intros i h'. destruct (decide (i = p)) as [->|Hne].
      * rewrite list_lookup_alter_eq, lookup_app_l, Hh by done. simpl.
        intros [= <-]. simpl. apply Forall_app. split; [by eapply Hlater|].
        constructor; [done|constructor].
      * rewrite list_lookup_alter_ne by done.
        intros [Hi|[_ Hi]]%lookup_app_Some; [by eapply Hlater|].
        apply list_lookup_singleton_Some in Hi as [_ <-]. constructor.
    + rewrite map_rec_alter, map_app. done.
  - split; [|split; [|split; [done|]]].
    + rewrite Hlen, seq_S. simpl. rewrite flat_map_app. simpl.
      rewrite app_nil_r, <- app_assoc. simpl.
      rewrite <- Permutation_middle, Hperm. apply Permutation_cons_append.
    + intros i h' [Hi|[_ Hi]]%lookup_app_Some; [by eapply Hlater|].
      apply list_lookup_singleton_Some in Hi as [_ <-]. constructor.
    + by rewrite map_app.
Qed.

Lemma nest_loop_shape_from st rs :
  nestedHeadings st ++ flat_map h_children (store st)
    ≡ₚ seq 0 (length (store st)) ->
  (forall i h, store st !! i = Some h -> Forall (fun c => i < c) (h_children h)) ->
  (forall d a, parents st !! d = Some a -> a < length (store st)) ->
  let st' := fold_left nest_step rs st in
  nestedHeadings st' ++ flat_map h_children (store st')
    ≡ₚ seq 0 (length (store st'))
  /\ (forall i h, store st' !! i = Some h -> Forall (fun c => i < c) (h_children h))
  /\ map h_rec (store st') = map h_rec (store st) ++ rs.
Proof.
  revert st. induction rs as [|r rs IH]; intros st H1 H2 H3; simpl.
  - by rewrite app_nil_r.
  - destruct (nest_step_shape st r H1 H2 H3) as (H1' & H2' & H3' & H4').
    destruct (IH _ H1' H2' H3') as (K1 & K2 & K3).
    split; [done|]. split; [done|]. rewrite K3, H4', <- app_assoc. done.
Qed.

Lemma nest_loop_shape rs :
  let st := nest_loop rs in
  nestedHeadings st ++ flat_map h_children (store st)
    ≡ₚ seq 0 (length (store st))
  /\ (forall i h, store st !! i = Some h -> Forall (fun c => i < c) (h_children h))
  /\ map h_rec (store st) = rs.
Proof.
  apply (nest_loop_shape_from nest_init rs); simpl; try done.
Qed.

Lemma tree_at_here base h rest :
  tree_at base (h :: rest) base
  = Some (TocNode (r_depth (h_rec h)) (r_title (h_rec h)) (r_id (h_rec h))
            (omap (tree_at (S base) rest) (h_children h))).
Proof.
  unfold tree_at at 1. rewrite Nat.leb_refl, Nat.sub_diag. done.
Qed.

Lemma tree_at_later base h rest a :
  base < a -> tree_at base (h :: rest) a = tree_at (S base) rest a.
Proof.
  intros Ha. unfold tree_at.
  replace (base <=? a)%nat with true by (symmetry; apply Nat.leb_le; lia).
  destruct (Nat.leb_spec (S base) a); [|lia].
  replace (a - base) with (S (a - S base)) by lia. done.
Qed.

Lemma omap_agree {A B} (f g : A -> option B) l :
  Forall (fun x => f x = g x) l -> omap f l = omap g l.
Proof.
  induction 1 as [|x l Hx _ IH]; [done|].
  cbn [omap list_omap]. fold (omap f l). fold (omap g l). by rewrite Hx, IH.
Qed.

Lemma flat_map_perm {A B} (f : A -> list B) l k :
  l ≡ₚ k -> flat_map f l ≡ₚ flat_map f k.
Proof. intros H. by apply Permutation_flat_map. Qed.

(** The trees of the addresses that enter a suffix of the store from outside
    hold each record of the suffix once. *)
Lemma trees_from_records hs : forall base R,
  (forall i h, hs !! i = Some h -> Forall (fun c => base + i < c) (h_children h)) ->
  R ++ flat_map h_children hs ≡ₚ seq base (length hs) ->
  flat_map toc_records (omap (tree_at base hs) R) ≡ₚ map h_rec hs.
Proof.
  induction hs as [|h rest IH]; intros base R Hlater Hperm.
  - simpl in Hperm. rewrite app_nil_r in Hperm.
    apply Permutation_nil_r in Hperm. by subst R.
  - simpl in Hperm.
    assert (Hh : Forall (fun c => base < c) (h_children h)).
    { specialize (Hlater 0 h eq_refl). by rewrite Nat.add_0_r in Hlater. }
    assert (Hrest : forall i h', rest !! i = Some h' ->
                      Forall (fun c => S base + i < c) (h_children h')).
    { intros i h' Hi. specialize (Hlater (S i) h' Hi).
      eapply Forall_impl; [exact Hlater|]. simpl. intros; lia. }
    assert (Hin : base ∈ R).
    { assert (H : base ∈ R ++ h_children h ++ flat_map h_children rest).
      { rewrite Hperm. left. }
      apply elem_of_app in H as [H|H]; [done|]. exfalso.
      apply elem_of_app in H as [H|H].
      - rewrite Forall_forall in Hh. specialize (Hh _ H). lia.
      - apply list_elem_of_In, in_flat_map in H as (h' & Hh' & Hc).
        apply list_elem_of_In, list_elem_of_lookup in Hh' as [i Hi].
        specialize (Hrest i h' Hi). rewrite Forall_forall in Hrest.
        apply list_elem_of_In in Hc. specialize (Hrest _ Hc). lia. }
    apply elem_of_Permutation in Hin as [R' HR].
    rewrite HR in Hperm. simpl in Hperm. apply Permutation_cons_inv in Hperm.
    assert (HR' : Forall (fun a => base < a) R').
    { apply Forall_forall. intros a Ha.
      assert (H : a ∈ seq (S base) (length rest)).
      { rewrite <- Hperm. apply elem_of_app. by left. }
      apply list_elem_of_In, in_seq in H. lia. }
    etransitivity.
    { apply flat_map_perm. apply omap_Permutation. exact HR. }
    cbn [omap list_omap]. rewrite tree_at_here. cbn [flat_map toc_records].
    replace (MkRecord (r_depth (h_rec h)) (r_title (h_rec h)) (r_id (h_rec h)))
      with (h_rec h) by by destruct (h_rec h).
    simpl. constructor.
    rewrite (omap_agree (tree_at base (h :: rest)) (tree_at (S base) rest) R').
    2:{ eapply Forall_impl; [exact HR'|]. intros a Ha. by apply tree_at_later. }
    rewrite <- flat_map_app, <- omap_app.
    apply IH; [done|].
    rewrite <- Hperm. rewrite <- !app_assoc.
    apply Permutation_app_swap_app.
Qed.

Lemma read_forest_tree_at hs roots :
  read_forest hs roots = omap (tree_at 0 hs) roots.
Proof.
  unfold read_forest. apply omap_agree, Forall_forall. intros a _.
  unfold tree_at. simpl. by rewrite Nat.sub_0_r.
Qed.

(** The forest read from the state of the loop holds each record once. *)
Lemma nest_loop_records rs :
  let st := nest_loop rs in
  flat_map toc_records (read_forest (store st) (nestedHeadings st)) ≡ₚ rs.
Proof.
  intros st. destruct (nest_loop_shape rs) as (H1 & H2 & H3). fold st in H1, H2, H3.
  rewrite read_forest_tree_at.
  transitivity (map h_rec (store st)); [|by rewrite H3].
  apply trees_from_records; [|done].
  intros i h Hi. simpl. by eapply H2.
Qed.

End Forest.

(** ** The nester on the example of the specification *)

Example nestHeadings_example :
  nestHeadings (Some [MkRecord 1 "T" "t"; MkRecord 2 "A" "a";
                      MkRecord 3 "B" "b"; MkRecord 2 "C" "c"])
  = Return [TocNode 2 "A" "a" [TocNode 3 "B" "b" []]; TocNode 2 "C" "c" []].
Proof. vm_compute. reflexivity. Qed.

Lemma Forall_filter_keep {A} (P : A -> Prop) (f : A -> bool) l :
  Forall P l -> Forall P (List.filter f l).
Proof.
  induction 1 as [|x l Hx Hl IH]; simpl; [constructor|].
  destruct (f x); [by constructor|done].
Qed.

Lemma nestHeadings_valid flat :
  length (List.filter isDepth1 flat) = 1 ->
  nestHeadings (Some flat)
  = let st := nest_loop (List.filter (fun h => negb (isDepth1 h)) flat) in
    Return (read_forest (store st) (nestedHeadings st)).
Proof.
  intros H. unfold nestHeadings. destruct flat as [|x flat]; [done|].
  by rewrite H.
Qed.

(** C2.  For a flat list with exactly one record of depth 1 (and, as for
    every record the sectionizer pushes, no depth below 1), the nester returns
    the forest that the rule of the specification describes over the records
    other than the one of depth 1: the parent of a record at depth [d] is the
    most recent earlier record at the greatest depth below [d], and a record
    without one is a root.  The forest holds each of these records once and
    no record of depth 1.  Turn by turn: the object of the record at
    position [j] gets address [j]; it is pushed onto the children of its
    stated parent, or onto the roots; the tracking of its own depth becomes
    [j] and the tracking of every other depth, the deeper ones included, is
    left as it was. *)
Theorem nestHeadings_nesting (flat : list SectionRecord) :
  length (List.filter isDepth1 flat) = 1 ->
  Forall (fun r => (1 <= r_depth r)%Z) flat ->
  let kept := List.filter (fun h => negb (isDepth1 h)) flat in
  nestHeadings (Some flat) = Return (stated_forest kept)
  /\ flat_map toc_records (stated_forest kept) ≡ₚ kept
  /\ Forall (fun r => r_depth r <> 1%Z) (flat_map toc_records (stated_forest kept))
  /\ forall j r, kept !! j = Some r ->
       let before := fold_left nest_step (firstn j kept) nest_init in
       let after := nest_step before r in
       length (store before) = j
       /\ match stated_parent (firstn j kept) (r_depth r) with
          | Some p =>
              p < j
              /\ store after
                 = alter (push_child j) p (store before ++ [MkHnode r []])
              /\ nestedHeadings after = nestedHeadings before
          | None =>
              store after = store before ++ [MkHnode r []]
              /\ nestedHeadings after = nestedHeadings before ++ [j]
          end
       /\ parents after !! r_depth r = Some j
       /\ forall d, d <> r_depth r -> parents after !! d = parents before !! d.
Proof.
  intros Hone Hpos kept.
  assert (Hkept : Forall (fun r => (1 <= r_depth r)%Z) kept)
    by by apply Forall_filter_keep.
  assert (Hread : read_forest (store (nest_loop kept)) (nestedHeadings (nest_loop kept))
                  = stated_forest kept).
  { destruct (nest_loop_stated kept Hkept) as [-> ->]. done. }
  assert (Hrecords : flat_map toc_records (stated_forest kept) ≡ₚ kept).
  { rewrite <- Hread. apply nest_loop_records. }
  split; [|split; [done|split]].
  - rewrite (nestHeadings_valid _ Hone). cbv zeta. fold kept. by rewrite Hread.
  - rewrite Hrecords. apply Forall_forall. intros r Hr.
    apply list_elem_of_In, filter_In in Hr as [_ Hr]. unfold isDepth1 in Hr.
    destruct (Z.eqb_spec (r_depth r) 1); [done|done].
  - intros j r Hr before after.
    assert (Hj : j <= length kept) by (apply lookup_lt_Some in Hr; lia).
    destruct (nest_loop_upto kept j Hkept Hj) as (Hstore & Hroots & Htrack).
    fold before in Hstore, Hroots, Htrack.
    assert (Hlen : length (store before) = j).
    { rewrite Hstore. unfold stated_store_upto. rewrite length_imap, length_take. lia. }
    assert (Hfind : find_parent (<[r_depth r := j]> (parents before))
                      (Z.to_nat (r_depth r - 1))
                    = stated_parent (firstn j kept) (r_depth r)).
    { apply find_parent_stated; [done|]. by apply Forall_take. }
    split; [done|]. split; [|split].
    + subst after. unfold nest_step. rewrite Hlen, Hfind.
      destruct (stated_parent _ _) as [p|] eqn:Ep; simpl; [|done].
      split; [|done]. apply stated_parent_lt in Ep. rewrite length_take in Ep. lia.
    + subst after. rewrite nest_step_parents, Hlen. apply lookup_insert_eq.
    + intros d Hd. subst after. rewrite nest_step_parents.
      by apply lookup_insert_ne.
Qed.

(** The theorem of C2 on a list whose depths go down and up again: the
    record of depth 4 lands under the stale record of depth 3. *)
Lemma nestHeadings_nesting_witness :
  let flat := [MkRecord 1 "T" "t"; MkRecord 3 "A" "a"; MkRecord 2 "B" "b";
               MkRecord 4 "C" "c"] in
  length (List.filter isDepth1 flat) = 1
  /\ Forall (fun r => (1 <= r_depth r)%Z) flat
  /\ nestHeadings (Some flat)
     = Return [TocNode 3 "A" "a" [TocNode 4 "C" "c" []]; TocNode 2 "B" "b" []].
Proof.
  intros flat.
  assert (H1 : length (List.filter isDepth1 flat) = 1) by reflexivity.
  assert (H2 : Forall (fun r => (1 <= r_depth r)%Z) flat)
    by (repeat constructor; simpl; lia).
  split; [exact H1|]. split; [exact H2|].
  exact (proj1 (nestHeadings_nesting flat H1 H2)).
Defined.

(** C3.  The nester returns the empty array for an absent or empty list;
    on a non-empty list without a record of depth 1 it throws the error of
    the missing title; on a list with more than one it throws an error whose
    message carries their number in decimal. *)
Theorem nestHeadings_validation :
  nestHeadings None = Return []
  /\ nestHeadings (Some []) = Return []
  /\ (forall flat, flat <> [] -> length (List.filter isDepth1 flat) = 0 ->
        nestHeadings (Some flat) = Throw "No heading of depth 1 found")
  /\ (forall flat, 1 < length (List.filter isDepth1 flat) ->
        nestHeadings (Some flat)
        = Throw ("Found "
                 +:+ string_of_Z (Z.of_nat (length (List.filter isDepth1 flat)))
                 +:+ " headings of depth 1, expected exactly 1"))
  /\ nestHeadings (Some [MkRecord 1 "A" "a"; MkRecord 2 "B" "b"; MkRecord 1 "C" "c"])
     = Throw "Found 2 headings of depth 1, expected exactly 1".
Proof.
  split; [done|]. split; [done|]. split; [|split; [|done]].
  - intros flat Hne H0. unfold nestHeadings.
    destruct flat as [|x flat]; [done|]. by rewrite H0.
  - intros flat H1. unfold nestHeadings.
    destruct flat as [|x flat]; [simpl in H1; lia|].
    destruct (length _) as [|[|n]] eqn:E; [lia|lia|]. done.
Qed.

(** The theorem of C3 on a list without a title and on one with two. *)
Lemma nestHeadings_validation_witness :
  [MkRecord 2 "B" "b"] <> []
  /\ length (List.filter isDepth1 [MkRecord 2 "B" "b"]) = 0
  /\ nestHeadings (Some [MkRecord 2 "B" "b"]) = Throw "No heading of depth 1 found"
  /\ 1 < length (List.filter isDepth1 [MkRecord 1 "A" "a"; MkRecord 1 "C" "c"])
  /\ nestHeadings (Some [MkRecord 1 "A" "a"; MkRecord 1 "C" "c"])
     = Throw "Found 2 headings of depth 1, expected exactly 1".
Proof.
  split; [discriminate|]. split; [reflexivity|]. split.
  - apply (proj1 (proj2 (proj2 nestHeadings_validation))); [discriminate|reflexivity].
  - split; [simpl; lia|].
    apply (proj1 (proj2 (proj2 (proj2 nestHeadings_validation)))
             [MkRecord 1 "A" "a"; MkRecord 1 "C" "c"]).
    simpl; lia.
Defined.

End TocFacts.

Module SectionFacts.
Import Js Toc Unist TextId SectionTransform Samples MatcherFacts.

(** ** [slice] and [splice] inside the array *)

Lemma relative_nat len k : relative len (Z.of_nat k) = Nat.min k len.
Proof.
  unfold relative. destruct (Z.ltb_spec (Z.of_nat k) 0); [lia|].
  by rewrite Nat2Z.id.
Qed.

Lemma slice_mid {A} (pre mid post : list A) :
  slice (pre ++ mid ++ post) (Z.of_nat (length pre))
    (Some (Z.of_nat (length pre + length mid))) = mid.
Proof.
  unfold slice. rewrite !relative_nat, !length_app.
  replace (length pre `min` _) with (length pre) by lia.
  replace ((length pre + length mid) `min` _ - length pre) with (length mid) by lia.
  rewrite drop_app_length. apply take_app_length.
Qed.

Lemma slice_tail {A} (pre mid : list A) :
  slice (pre ++ mid) (Z.of_nat (length pre)) None = mid.
Proof.
  unfold slice. rewrite relative_nat, !length_app.
  replace (length pre `min` _) with (length pre) by lia.
  rewrite drop_app_length. apply firstn_all2. lia.
Qed.

Lemma slice_1 {A} (x : A) (l : list A) : slice (x :: l) 1 None = l.
Proof. exact (slice_tail [x] l). Qed.

Lemma splice_mid {A} (pre mid post : list A) (item : A) :
  splice (pre ++ mid ++ post) (Z.of_nat (length pre)) (Z.of_nat (length mid)) item
  = pre ++ [item] ++ post.
Proof.
  unfold splice. rewrite relative_nat, !length_app.
  replace (length pre `min` _) with (length pre) by lia.
  replace (Z.to_nat (Z.of_nat (length mid) `max` 0)) with (length mid) by lia.
  replace (length mid `min` _) with (length mid) by lia.
  rewrite take_app_length. f_equal. f_equal.
  rewrite <- drop_drop, drop_app_length. apply drop_app_length.
Qed.

Lemma drop_S_app {A} (pre : list A) x post :
  skipn (S (length pre)) (pre ++ x :: post) = post.
Proof. induction pre as [|y pre IH]; simpl; [done|]. exact IH. Qed.

(** ** The end of a section *)

Lemma find_from_isEnd post i :
  find_from isEnd post i
  = match dropWhile notEnd post with
    | [] => None
    | b :: _ => Some (i + length (takeWhile notEnd post), b)
    end.
Proof.
  revert i. induction post as [|x post IH]; intros i; simpl; [done|].
  unfold notEnd at 1 3. destruct (isEnd x); simpl.
  - by rewrite Nat.add_0_r.
  - rewrite IH. destruct (dropWhile notEnd post); [done|].
    do 2 f_equal. lia.
Qed.

Lemma test_isEnd n : test n = true -> isEnd n = true.
Proof.
  unfold test, isEnd, isHeading. intros H.
  apply andb_prop in H as [H _]. apply andb_prop in H as [H _]. by rewrite H.
Qed.

Lemma test_componentName n :
  test n = true ->
  getComponentNameForDepth (n_depth n) = Return (componentName (n_depth n)).
Proof.
  unfold test, componentName, getComponentNameForDepth. intros H.
  apply andb_prop in H as [H H4]. apply andb_prop in H as [_ H1].
  apply Z.leb_le in H1, H4.
  destruct (Z.eqb_spec (n_depth n) 1); [done|].
  destruct (Z.eqb_spec (n_depth n) 2); [done|].
  destruct (Z.eqb_spec (n_depth n) 3); [done|].
  destruct (Z.eqb_spec (n_depth n) 4); [done|]. lia.
Qed.

(** ** One call of the visitor *)

Lemma sectionizeToComponent_at node parent pre post st :
  n_type parent <> "" ->
  n_children parent = pre ++ node :: post ->
  sectionizeToComponent node (Some (length pre, parent)) st
  = match getComponentNameForDepth (n_depth node) with
    | Return name =>
        (pre ++ sectionComponent name (p_title (parsed_heading node))
                  (p_id (parsed_heading node)) (takeWhile notEnd post)
             :: dropWhile notEnd post,
         MkState (toc st ++ [record_of node]) (console_after node st),
         Normal)
    | Throw e =>
        (pre ++ node :: post, MkState (toc st) (console_after node st), Abrupt e)
    end.
Proof.
  intros Hty Hcs. unfold sectionizeToComponent, findAfter.
  destruct (String.eqb_spec (n_type parent) ""); [done|].
  rewrite Hcs.
  rewrite drop_S_app.
  fold (parsed_heading node).
  rewrite find_from_isEnd.
  pose proof (takeWhile_dropWhile notEnd post) as Hpost.
  set (tk := takeWhile notEnd post) in *. set (dr := dropWhile notEnd post) in *.
  set (e := match dr with
            | [] => None
            | b :: _ => Some (S (length pre) + length tk, b)
            end).
  assert (Hbetween :
    slice (pre ++ node :: post) (Z.of_nat (length pre))
      (if (0 <? indexOf_end e)%Z then Some (indexOf_end e) else None)
    = node :: tk).
  { subst e. destruct dr as [|b dr'] eqn:Edr; simpl.
    - rewrite app_nil_r in Hpost. rewrite <- Hpost. apply slice_tail.
    - destruct (Z.ltb_spec 0 (Z.of_nat (S (length pre + length tk)))); [|lia].
      rewrite <- Hpost.
      change (pre ++ node :: tk ++ b :: dr') with (pre ++ (node :: tk) ++ b :: dr').
      replace (S (length pre + length tk)) with (length pre + length (node :: tk))
        by (simpl; lia).
      apply slice_mid. }
  rewrite Hbetween. rewrite slice_1.
  unfold console_after, warning_of, record_of. simpl.
  destruct (getComponentNameForDepth (n_depth node)) as [name|msg]; [|done].
  do 2 f_equal.
  rewrite <- Hpost at 1.
  change (pre ++ node :: tk ++ dr) with (pre ++ (node :: tk) ++ dr).
  exact (splice_mid pre (node :: tk) dr _).
Qed.

(** ** Sizes and children *)

Lemma n_children_set_children n cs : n_children (set_children n cs) = cs.
Proof. done. Qed.

Lemma n_type_set_children n cs : n_type (set_children n cs) = n_type n.
Proof. done. Qed.

Lemma set_children_set_children n cs cs' :
  set_children (set_children n cs) cs' = set_children n cs'.
Proof. done. Qed.

Lemma set_children_id n : set_children n (n_children n) = n.
Proof. by destruct n. Qed.

Lemma node_size_children n : node_size n = S (nodes_size (n_children n)).
Proof. by destruct n. Qed.

Lemma nodes_size_cons n l : nodes_size (n :: l) = node_size n + nodes_size l.
Proof. done. Qed.

Lemma nodes_size_app l1 l2 : nodes_size (l1 ++ l2) = nodes_size l1 + nodes_size l2.
Proof.
  induction l1 as [|n l1 IH]; [done|].
  rewrite <- app_comm_cons, !nodes_size_cons, IH. lia.
Qed.

Lemma nodes_size_drop l k : nodes_size (skipn k l) <= nodes_size l.
Proof.
  rewrite <- (take_drop k l) at 2. rewrite nodes_size_app. lia.
Qed.

Lemma lookup_split {A} (l : list A) i x :
  l !! i = Some x -> l = firstn i l ++ x :: skipn (S i) l /\ length (firstn i l) = i.
Proof.
  intros H. split.
  - by rewrite (take_drop_middle l i x H).
  - rewrite length_take. apply lookup_lt_Some in H. lia.
Qed.

Lemma nodes_size_lookup l i x :
  l !! i = Some x ->
  nodes_size (skipn i l) = node_size x + nodes_size (skipn (S i) l).
Proof.
  intros H. by rewrite (drop_S l x i H), nodes_size_cons.
Qed.

(** ** The traversal ends *)

Section Total.

Context {S : Type}.
Variable test : node -> bool.
Variable visitor : node -> option (nat * node) -> S -> list node * S * completion.

(** A visitor that leaves no more to walk after the visited index than there
    was. *)
Hypothesis visitor_shrinks :
  forall node off parent st cs st' c,
    n_children parent !! off = Some node ->
    visitor node (Some (off, parent)) st = (cs, st', c) ->
    nodes_size (skipn (Datatypes.S off) cs)
    <= nodes_size (skipn (Datatypes.S off) (n_children parent)).

Lemma visit_children_total fuel parent off st :
  nodes_size (skipn off (n_children parent)) < fuel ->
  is_Some (visit_children test visitor fuel parent off st).
Proof.
  revert parent off st. induction fuel as [|fuel IH]; intros parent off st Hf; [lia|].
  cbn [visit_children].
  destruct (n_children parent !! off) as [child|] eqn:Hc; [|done].
  rewrite (nodes_size_lookup _ _ _ Hc), node_size_children in Hf.
  destruct (test child).
  - destruct (visitor child (Some (off, parent)) st) as [[cs st1] c] eqn:Hv.
    pose proof (visitor_shrinks _ _ _ _ _ _ _ Hc Hv) as Hs.
    destruct c; [|done].
    destruct (IH child 0 st1) as [[[c' st2] co] ->]; [rewrite drop_0; lia|].
    destruct co; [|done]. apply IH. rewrite n_children_set_children. lia.
  - destruct (IH child 0 st) as [[[c' st1] co] ->]; [rewrite drop_0; lia|].
    destruct co; [|done]. apply IH. rewrite n_children_set_children.
    rewrite drop_insert_lt by lia. lia.
Qed.

Lemma visit_total tree st : is_Some (visit test visitor tree st).
Proof.
  unfold visit, visit_fuel.
  assert (H : forall st', is_Some (visit_children test visitor
                                     (Datatypes.S (node_size tree)) tree 0 st')).
  { intros st'. apply visit_children_total. rewrite drop_0.
    rewrite node_size_children. lia. }
  destruct (test tree); [|done].
  destruct (visitor tree None st) as [[cs st1] c]. destruct c; [done|done].
Qed.

(** ** What every call keeps, the traversal keeps *)

Variable P : S -> Prop.
Variable Q : string -> Prop.

Hypothesis visitor_keeps :
  forall node ctx st cs st' c,
    test node = true -> P st -> visitor node ctx st = (cs, st', c) ->
    P st' /\ forall e, c = Abrupt e -> Q e.

Lemma visit_children_keeps fuel parent off st p' st' c :
  visit_children test visitor fuel parent off st = Some (p', st', c) ->
  P st -> P st' /\ forall e, c = Abrupt e -> Q e.
Proof.
  revert parent off st p' st' c.
  induction fuel as [|fuel IH]; intros parent off st p' st' c; [done|].
  cbn [visit_children].
  destruct (n_children parent !! off) as [child|] eqn:Hc.
  2:{ intros [= <- <- <-] HP. by split. }
  destruct (test child) eqn:Ht.
  - destruct (visitor child (Some (off, parent)) st) as [[cs st1] c1] eqn:Hv.
    intros H HP. destruct (visitor_keeps _ _ _ _ _ _ Ht HP Hv) as [HP1 HQ1].
    destruct c1 as [|e1].
    2:{ injection H as <- <- <-. split; [done|]. intros e [= <-]. by apply HQ1. }
    destruct (visit_children test visitor fuel child 0 st1) as [[[c2 st2] co]|] eqn:Hd;
      [|done].
    destruct (IH _ _ _ _ _ _ Hd HP1) as [HP2 HQ2].
    destruct co as [|e2].
    + by eapply IH.
    + injection H as <- <- <-. split; [done|]. intros e [= <-]. by apply HQ2.
  - destruct (visit_children test visitor fuel child 0 st) as [[[c2 st2] co]|] eqn:Hd;
      [|done].
    intros H HP. destruct (IH _ _ _ _ _ _ Hd HP) as [HP2 HQ2].
    destruct co as [|e2].
    + by eapply IH.
    + injection H as <- <- <-. split; [done|]. intros e [= <-]. by apply HQ2.
Qed.

Lemma visit_keeps tree st p' st' c :
  visit test visitor tree st = Some (p', st', c) ->
  P st -> P st' /\ forall e, c = Abrupt e -> Q e.
Proof.
  unfold visit, visit_fuel. destruct (test tree) eqn:Ht.
  - destruct (visitor tree None st) as [[cs st1] c1] eqn:Hv.
    intros H HP. destruct (visitor_keeps _ _ _ _ _ _ Ht HP Hv) as [HP1 HQ1].
    destruct c1 as [|e1].
    + by eapply visit_children_keeps.
    + injection H as <- <- <-. split; [done|]. intros e [= <-]. by apply HQ1.
  - apply visit_children_keeps.
Qed.

End Total.

(** ** The visitor of the section transform *)

Lemma sectionizeToComponent_untyped node off parent st :
  n_type parent = "" ->
  sectionizeToComponent node (Some (off, parent)) st
  = (n_children parent, st, Abrupt "Expected parent node").
Proof.
  intros H. unfold sectionizeToComponent, findAfter. by rewrite H.
Qed.

Lemma sectionizeToComponent_root node st :
  sectionizeToComponent node None st = ([], st, Abrupt "Expected parent node").
Proof. done. Qed.

(** The call at a child of the parent. *)
Lemma sectionizeToComponent_child node off parent st :
  n_type parent <> "" ->
  n_children parent !! off = Some node ->
  let pre := firstn off (n_children parent) in
  let post := skipn (S off) (n_children parent) in
  sectionizeToComponent node (Some (off, parent)) st
  = match getComponentNameForDepth (n_depth node) with
    | Return name =>
        (pre ++ sectionComponent name (p_title (parsed_heading node))
                  (p_id (parsed_heading node)) (takeWhile notEnd post)
             :: dropWhile notEnd post,
         MkState (toc st ++ [record_of node]) (console_after node st),
         Normal)
    | Throw e =>
        (n_children parent, MkState (toc st) (console_after node st), Abrupt e)
    end.
Proof.
  intros Hty Hc pre post. destruct (lookup_split _ _ _ Hc) as [Hcs Hlen].
  fold pre post in Hcs, Hlen.
  rewrite <- Hlen at 1. rewrite (sectionizeToComponent_at _ _ pre post st Hty Hcs).
  destruct (getComponentNameForDepth _); [done|]. by rewrite <- Hcs.
Qed.

Lemma nodes_size_dropWhile p l : nodes_size (dropWhile p l) <= nodes_size l.
Proof.
  rewrite <- (takeWhile_dropWhile p l) at 2. rewrite nodes_size_app. lia.
Qed.

Lemma sectionizeToComponent_shrinks node off parent st cs st' c :
  n_children parent !! off = Some node ->
  sectionizeToComponent node (Some (off, parent)) st = (cs, st', c) ->
  nodes_size (skipn (S off) cs) <= nodes_size (skipn (S off) (n_children parent)).
Proof.
  intros Hc. destruct (String.eqb_spec (n_type parent) "") as [Hty|Hty].
  - rewrite (sectionizeToComponent_untyped _ _ _ _ Hty). by intros [= <- _ _].
  - rewrite (sectionizeToComponent_child _ _ _ _ Hty Hc).
    destruct (getComponentNameForDepth _); intros [= <- _ _]; [|done].
    destruct (lookup_split _ _ _ Hc) as [_ Hlen].
    rewrite <- Hlen at 1. rewrite drop_S_app. apply nodes_size_dropWhile.
Qed.

(** The traversal of the transform ends, on every tree. *)
Lemma traverse_total tree : is_Some (traverse tree).
Proof. apply visit_total. apply sectionizeToComponent_shrinks. Qed.

Lemma remarkSectionTransform_total tree data :
  is_Some (remarkSectionTransform tree data).
Proof.
  unfold remarkSectionTransform.
  destruct (ensure_frontmatter _); [|done].
  destruct (traverse_total tree) as [[[t st] c] ->].
  destruct c; [|done].
  destruct (get_prop _ _); [|done].
  destruct (nestHeadings _); [|done].
  by destruct (set_prop _ _ _).
Qed.

(** What a call does to the accumulator and to the console. *)
Lemma sectionizeToComponent_state node ctx st cs st' c :
  sectionizeToComponent node ctx st = (cs, st', c) ->
  (c = Normal /\ toc st' = toc st ++ [record_of node]
   /\ console st' = console_after node st
   /\ exists name, getComponentNameForDepth (n_depth node) = Return name)
  \/ (c = Abrupt "Expected parent node" /\ st' = st)
  \/ (c = Abrupt (bug_message (n_depth node)) /\ toc st' = toc st
      /\ console st' = console st
      /\ getComponentNameForDepth (n_depth node) = Throw (bug_message (n_depth node))).
Proof.
  destruct ctx as [[off parent]|].
  2:{ rewrite sectionizeToComponent_root. intros [= <- <- <-]. right. by left. }
  unfold sectionizeToComponent, findAfter.
  destruct (String.eqb (n_type parent) "").
  { intros [= <- <- <-]. right. by left. }
  fold (parsed_heading node).
  change (if (n_depth node =? 1)%Z
          then console st ++ [warning (p_title (parsed_heading node)) (p_id (parsed_heading node))]
          else console st) with (console_after node st).
  destruct (getComponentNameForDepth (n_depth node)) as [name|e] eqn:Hn.
  - intros [= <- <- <-]. left. repeat split; try done. by exists name.
  - intros [= <- <- <-]. right. right.
    revert Hn. unfold getComponentNameForDepth, console_after.
    destruct (Z.eqb_spec (n_depth node) 1); [done|].
    destruct (n_depth node =? 2)%Z; [done|].
    destruct (n_depth node =? 3)%Z; [done|].
    destruct (n_depth node =? 4)%Z; [done|]. intros [= <-]. done.
Qed.

(** ** The traversal computes [sectioned] and [walked] *)

Lemma notEnd_test c : notEnd c = true -> test c = false.
Proof.
  unfold notEnd. destruct (test c) eqn:E; [|done].
  by rewrite (test_isEnd _ E).
Qed.

Lemma sectioned_list_absorb walk l :
  sectioned_list walk true l = sectioned_list walk false (dropWhile notEnd l).
Proof.
  induction l as [|c l IH]; [done|]. simpl.
  destruct (notEnd c) eqn:En.
  - rewrite (notEnd_test _ En). unfold notEnd in En.
    destruct (isEnd c); [done|]. exact IH.
  - simpl. unfold notEnd in En. destruct (isEnd c); [|done].
    by destruct (test c).
Qed.

Lemma walked_list_absorb walk l :
  walked_list walk true l = walked_list walk false (dropWhile notEnd l).
Proof.
  induction l as [|c l IH]; [done|]. simpl.
  destruct (notEnd c) eqn:En.
  - rewrite (notEnd_test _ En). unfold notEnd in En.
    destruct (isEnd c); [done|]. exact IH.
  - simpl. unfold notEnd in En. destruct (isEnd c); [|done].
    by destruct (test c).
Qed.

Lemma placed_list_absorb placed l :
  placed_list placed true l
  = forallb quiet (takeWhile notEnd l) && placed_list placed false (dropWhile notEnd l).
Proof.
  induction l as [|c l IH]; [done|]. simpl.
  destruct (notEnd c) eqn:En.
  - rewrite (notEnd_test _ En). unfold notEnd in En.
    destruct (isEnd c); [done|]. simpl. rewrite IH. by rewrite andb_assoc.
  - simpl. unfold notEnd in En. destruct (isEnd c); [|done].
    by destruct (test c).
Qed.

Lemma sectioned_unfold n :
  sectioned n = set_children n (sectioned_list sectioned false (n_children n)).
Proof. by destruct n. Qed.

Lemma walked_unfold n : walked n = walked_list walked false (n_children n).
Proof. by destruct n. Qed.

Lemma well_placed_unfold n :
  well_placed n = placed_list well_placed false (n_children n).
Proof. by destruct n. Qed.

Lemma preorder_unfold n : preorder n = n :: flat_map preorder (n_children n).
Proof. by destruct n. Qed.

Lemma forallb_flat_map {A B} (p : B -> bool) (f : A -> list B) l :
  forallb p (flat_map f l) = forallb (fun x => forallb p (f x)) l.
Proof.
  induction l as [|x l IH]; [done|]. simpl. by rewrite forallb_app, IH.
Qed.

Lemma typed_unfold n :
  typed n = negb (String.eqb (n_type n) "") && forallb typed (n_children n).
Proof.
  unfold typed at 1. rewrite preorder_unfold. simpl. by rewrite forallb_flat_map.
Qed.

Lemma typed_type n : typed n = true -> n_type n <> "".
Proof.
  rewrite typed_unfold. intros [H _]%andb_prop.
  by destruct (String.eqb_spec (n_type n) "").
Qed.

Lemma typed_children n : typed n = true -> forallb typed (n_children n) = true.
Proof. rewrite typed_unfold. by intros [_ H]%andb_prop. Qed.

Lemma after_calls_nil st : after_calls st [] = st.
Proof. destruct st. unfold after_calls. simpl. by rewrite !app_nil_r. Qed.

Lemma after_calls_app st w1 w2 :
  after_calls (after_calls st w1) w2 = after_calls st (w1 ++ w2).
Proof.
  unfold after_calls. simpl.
  by rewrite !map_app, List.filter_app, map_app, !app_assoc.
Qed.

Lemma after_calls_one st c :
  MkState (toc st ++ [record_of c]) (console_after c st) = after_calls st [c].
Proof.
  unfold after_calls, console_after. simpl. unfold isDepth1 at 1. simpl.
  destruct (n_depth c =? 1)%Z; simpl; [done|]. by rewrite app_nil_r.
Qed.

Lemma take_S_middle {A} (pre : list A) x post off :
  length pre = off -> firstn (S off) (pre ++ x :: post) = pre ++ [x].
Proof.
  intros <-. rewrite (cons_middle x pre post), app_assoc.
  apply take_app_length'. rewrite length_app. simpl. lia.
Qed.

Lemma drop_S_middle {A} (pre : list A) x post off :
  length pre = off -> skipn (S off) (pre ++ x :: post) = post.
Proof. intros <-. apply drop_S_app. Qed.

Lemma visit_children_sectioned fuel parent off st r :
  visit_children test sectionizeToComponent fuel parent off st = Some r ->
  n_type parent <> "" ->
  forallb typed (skipn off (n_children parent)) = true ->
  r = (set_children parent
         (firstn off (n_children parent)
          ++ sectioned_list sectioned false (skipn off (n_children parent))),
       after_calls st (walked_list walked false (skipn off (n_children parent))),
       Normal).
Proof.
  revert parent off st r.
  induction fuel as [|fuel IH]; intros parent off st r; [done|].
  cbn [visit_children].
  destruct (n_children parent !! off) as [child|] eqn:Hc.
  2:{ intros [= <-] _ _. apply lookup_ge_None in Hc.
      rewrite firstn_all2, skipn_all2 by lia. simpl.
      by rewrite app_nil_r, set_children_id, after_calls_nil. }
  intros Hr Hty Htyped.
  destruct (lookup_split _ _ _ Hc) as [Hcs Hlen].
  rewrite (drop_S _ _ _ Hc) in Htyped |- *.
  simpl in Htyped. apply andb_prop in Htyped as [Hchild Hpost].
  set (pre := firstn off (n_children parent)) in *.
  set (post := skipn (S off) (n_children parent)) in *.
  cbn [sectioned_list walked_list].
  destruct (test child) eqn:Ht.
  - rewrite (sectionizeToComponent_child _ _ _ _ Hty Hc) in Hr.
    rewrite (test_componentName _ Ht) in Hr. fold pre post in Hr.
    rewrite after_calls_one in Hr.
    destruct (visit_children test sectionizeToComponent fuel child 0
                (after_calls st [child])) as [[[c2 st2] co]|] eqn:Hd; [|done].
    apply IH in Hd; [|by apply typed_type|by (rewrite drop_0; apply typed_children)].
    rewrite drop_0 in Hd. injection Hd as _ -> ->.
    apply IH in Hr; [|done|].
    2:{ rewrite n_children_set_children, (drop_S_middle _ _ _ _ Hlen).
        rewrite <- (takeWhile_dropWhile notEnd post), forallb_app in Hpost.
        by apply andb_prop in Hpost as [_ ?]. }
    rewrite Hr. rewrite n_children_set_children, set_children_set_children.
    rewrite (drop_S_middle _ _ _ _ Hlen), (take_S_middle _ _ _ _ Hlen).
    rewrite after_calls_app, after_calls_app, <- walked_unfold.
    rewrite sectioned_list_absorb, walked_list_absorb.
    rewrite <- app_assoc. done.
  - destruct (visit_children test sectionizeToComponent fuel child 0 st)
      as [[[c2 st2] co]|] eqn:Hd; [|done].
    apply IH in Hd; [|by apply typed_type|by (rewrite drop_0; apply typed_children)].
    rewrite drop_0 in Hd. injection Hd as -> -> ->.
    rewrite <- sectioned_unfold, <- walked_unfold in Hr.
    assert (Hins : <[off := sectioned child]> (n_children parent)
                   = pre ++ sectioned child :: post).
    { apply insert_take_drop. by eapply lookup_lt_Some. }
    rewrite Hins in Hr.
    apply IH in Hr; [|done|].
    2:{ by rewrite n_children_set_children, (drop_S_middle _ _ _ _ Hlen). }
    rewrite Hr. rewrite n_children_set_children, set_children_set_children.
    rewrite (drop_S_middle _ _ _ _ Hlen), (take_S_middle _ _ _ _ Hlen).
    rewrite after_calls_app, <- app_assoc.
    by destruct (isEnd child).
Qed.

(** ** The whole traversal *)

Lemma traverse_sectioned tree :
  typed tree = true -> test tree = false ->
  traverse tree = Some (sectioned tree, after_calls state0 (walked tree), Normal).
Proof.
  intros Hty Ht. destruct (traverse_total tree) as [r Hr]. rewrite Hr.
  unfold traverse, visit, visit_fuel in Hr. rewrite Ht in Hr.
  apply visit_children_sectioned in Hr;
    [|by apply typed_type|by (rewrite drop_0; apply typed_children)].
  rewrite drop_0 in Hr. simpl in Hr.
  by rewrite <- sectioned_unfold, <- walked_unfold in Hr; subst r.
Qed.

Lemma traverse_root_heading tree :
  test tree = true ->
  traverse tree = Some (tree, state0, Abrupt "Expected parent node").
Proof.
  intros Ht. unfold traverse, visit, visit_fuel. by rewrite Ht.
Qed.

(** ** Induction on trees *)

Lemma node_children_ind (P : node -> Prop) :
  (forall n, Forall P (n_children n) -> P n) -> forall n, P n.
Proof.
  intros H. fix IH 1. intros n. apply H.
  destruct n as [ty d v la me na at_ cs]. simpl.
  induction cs as [|c cs IHcs]; constructor; [apply IH|exact IHcs].
Qed.

Lemma quiet_unfold n :
  quiet n = negb (test n) && forallb quiet (n_children n).
Proof.
  unfold quiet at 1. rewrite preorder_unfold. simpl. by rewrite forallb_flat_map.
Qed.

Lemma blocks_unfold n : blocks n = own_block n ++ flat_map blocks (n_children n).
Proof. by destruct n. Qed.

Lemma blocks_due_unfold n :
  blocks_due n
  = if test n then [block_of n]
    else own_block n ++ flat_map blocks_due (n_children n).
Proof. by destruct n. Qed.

Lemma flat_map_ext_Forall {A B} (f g : A -> list B) l :
  Forall (fun x => f x = g x) l -> flat_map f l = flat_map g l.
Proof. induction 1 as [|x l Hx _ IH]; simpl; [done|]. by rewrite Hx, IH. Qed.

(** A quiet tree is due the blocks it has. *)
Lemma quiet_blocks_due n : quiet n = true -> blocks_due n = blocks n.
Proof.
  induction n as [n IH] using node_children_ind.
  rewrite quiet_unfold. intros [Ht Hq]%andb_prop.
  rewrite blocks_due_unfold, blocks_unfold.
  destruct (test n); [done|]. f_equal.
  apply flat_map_ext_Forall. rewrite forallb_forall in Hq.
  rewrite Forall_forall in IH |- *. intros c Hc. apply IH; [done|].
  apply Hq. by apply list_elem_of_In.
Qed.

Lemma quiet_list_blocks_due l :
  forallb quiet l = true -> flat_map blocks_due l = flat_map blocks l.
Proof.
  intros H. apply flat_map_ext_Forall. rewrite Forall_forall.
  rewrite forallb_forall in H. intros c Hc. apply quiet_blocks_due, H.
  by apply list_elem_of_In.
Qed.

Lemma own_block_sectioned n : own_block (sectioned n) = own_block n.
Proof. by destruct n. Qed.

Lemma blocks_section_of c content :
  blocks (section_of c content) = block_of c :: flat_map blocks content.
Proof. done. Qed.

(** The blocks of the walked children are the blocks due to them. *)
Lemma blocks_sectioned_list l :
  Forall (fun c => well_placed c = true -> test c = false ->
                   blocks (sectioned c) = blocks_due c) l ->
  forall absorbing,
    placed_list well_placed absorbing l = true ->
    flat_map blocks (sectioned_list sectioned absorbing l)
    = flat_map blocks_due (if absorbing then dropWhile notEnd l else l).
Proof.
  induction 1 as [|c rest Hc _ IH]; intros absorbing; [by destruct absorbing|].
  cbn [placed_list sectioned_list].
  destruct (test c) eqn:Ht.
  - intros [Hq Hrest]%andb_prop.
    assert (Hdrop : (if absorbing then dropWhile notEnd (c :: rest) else c :: rest)
                    = c :: rest).
    { destruct absorbing; [|done]. simpl. unfold notEnd.
      by rewrite (test_isEnd _ Ht). }
    rewrite Hdrop. cbn [flat_map]. rewrite blocks_section_of.
    rewrite (IH true Hrest), blocks_due_unfold, Ht. simpl. f_equal.
    rewrite placed_list_absorb in Hrest. apply andb_prop in Hrest as [Htk _].
    rewrite <- (takeWhile_dropWhile notEnd rest) at 3.
    rewrite flat_map_app. f_equal. symmetry. by apply quiet_list_blocks_due.
  - destruct (isEnd c) eqn:He.
    + intros [Hp Hrest]%andb_prop.
      assert (Hdrop : (if absorbing then dropWhile notEnd (c :: rest) else c :: rest)
                      = c :: rest).
      { destruct absorbing; [|done]. simpl. unfold notEnd. by rewrite He. }
      rewrite Hdrop. cbn [flat_map]. by rewrite (Hc Hp eq_refl), (IH false Hrest).
    + destruct absorbing.
      * intros [Hq Hrest]%andb_prop. simpl. unfold notEnd at 1. rewrite He. simpl.
        by apply IH.
      * intros [Hp Hrest]%andb_prop. cbn [flat_map].
        by rewrite (Hc Hp eq_refl), (IH false Hrest).
Qed.

Lemma blocks_sectioned n :
  well_placed n = true -> test n = false -> blocks (sectioned n) = blocks_due n.
Proof.
  induction n as [n IH] using node_children_ind. intros Hp Ht.
  rewrite blocks_unfold, own_block_sectioned, blocks_due_unfold, Ht.
  rewrite sectioned_unfold, n_children_set_children. f_equal.
  rewrite well_placed_unfold in Hp.
  exact (blocks_sectioned_list _ IH false Hp).
Qed.

(** ** Headings *)

Lemma filter_flat_map {A B} (p : B -> bool) (f : A -> list B) l :
  List.filter p (flat_map f l) = flat_map (fun x => List.filter p (f x)) l.
Proof.
  induction l as [|x l IH]; [done|]. simpl. by rewrite List.filter_app, IH.
Qed.

Lemma headings_unfold n :
  headings n
  = (if isHeading n then [n] else []) ++ flat_map headings (n_children n).
Proof.
  unfold headings at 1. rewrite preorder_unfold. simpl.
  rewrite filter_flat_map. by destruct (isHeading n).
Qed.

Lemma depths_in_range_unfold n :
  depths_in_range n
  = (if isHeading n then in_range n else true)
    && forallb depths_in_range (n_children n).
Proof.
  unfold depths_in_range at 1. rewrite headings_unfold, forallb_app.
  f_equal.
  - destruct (isHeading n); simpl; [|done]. by rewrite andb_true_r.
  - by rewrite forallb_flat_map.
Qed.

Lemma test_heading n : test n = isHeading n && in_range n.
Proof. unfold test, in_range. by rewrite andb_assoc. Qed.

(** Where every heading is in range, a node that is not offered is not a
    heading. *)
Lemma depths_in_range_not_heading n :
  depths_in_range n = true -> test n = false -> isHeading n = false.
Proof.
  rewrite depths_in_range_unfold, test_heading.
  intros [H _]%andb_prop. destruct (isHeading n); [|done]. by rewrite H.
Qed.

Lemma depths_in_range_children n :
  depths_in_range n = true -> forallb depths_in_range (n_children n) = true.
Proof. rewrite depths_in_range_unfold. by intros [_ H]%andb_prop. Qed.

Lemma flat_map_nil_Forall {A B} (f : A -> list B) l :
  Forall (fun x => f x = []) l -> flat_map f l = [].
Proof. induction 1 as [|x l Hx _ IH]; simpl; [done|]. by rewrite Hx, IH. Qed.

Lemma quiet_headings n :
  quiet n = true -> depths_in_range n = true -> headings n = [].
Proof.
  induction n as [n IH] using node_children_ind.
  rewrite quiet_unfold. intros [Ht Hq]%andb_prop Hd.
  apply negb_true_iff in Ht.
  rewrite headings_unfold, (depths_in_range_not_heading _ Hd Ht). simpl.
  apply flat_map_nil_Forall. apply depths_in_range_children in Hd.
  rewrite forallb_forall in Hq, Hd. rewrite Forall_forall in IH |- *.
  intros c Hc. pose proof Hc as Hc'%list_elem_of_In. by apply IH; auto.
Qed.

Lemma quiet_list_headings l :
  forallb quiet l = true -> forallb depths_in_range l = true ->
  flat_map headings l = [].
Proof.
  intros Hq Hd. apply flat_map_nil_Forall. rewrite Forall_forall.
  rewrite forallb_forall in Hq, Hd. intros c Hc%list_elem_of_In.
  by apply quiet_headings; auto.
Qed.

Lemma quiet_walked_list l :
  Forall (fun c => quiet c = true -> walked c = []) l ->
  forall absorbing, forallb quiet l = true -> walked_list walked absorbing l = [].
Proof.
  induction 1 as [|c rest Hc _ IH]; intros absorbing; [done|].
  simpl. intros [Hq Hrest]%andb_prop.
  pose proof Hq as Hq'. rewrite quiet_unfold in Hq'.
  apply andb_prop in Hq' as [Ht%negb_true_iff _]. rewrite Ht.
  destruct (isEnd c); [by rewrite (Hc Hq), IH|].
  destruct absorbing; [by apply IH|]. by rewrite (Hc Hq), IH.
Qed.

Lemma quiet_walked n : quiet n = true -> walked n = [].
Proof.
  induction n as [n IH] using node_children_ind.
  rewrite quiet_unfold. intros [_ Hq]%andb_prop.
  rewrite walked_unfold. by apply quiet_walked_list.
Qed.

Lemma heading_alone c :
  test c = true -> forallb quiet (n_children c) = true ->
  depths_in_range c = true -> headings c = [c].
Proof.
  intros Ht Hq Hd. rewrite headings_unfold.
  rewrite test_heading in Ht. apply andb_prop in Ht as [-> _].
  rewrite quiet_list_headings; [done|done|by apply depths_in_range_children].
Qed.

(** On a well-placed tree the visitor is called on every heading, in
    document order. *)
Lemma walked_list_headings l :
  Forall (fun c => well_placed c = true -> depths_in_range c = true ->
                   test c = false -> walked c = headings c) l ->
  forall absorbing,
    placed_list well_placed absorbing l = true ->
    forallb depths_in_range l = true ->
    walked_list walked absorbing l = flat_map headings l.
Proof.
  induction 1 as [|c rest Hc _ IH]; intros absorbing; [done|].
  cbn [placed_list walked_list forallb flat_map].
  intros Hp [Hdc Hdr]%andb_prop.
  destruct (test c) eqn:Ht.
  - apply andb_prop in Hp as [Hq Hrest].
    rewrite (heading_alone _ Ht Hq Hdc), (IH true Hrest Hdr).
    rewrite walked_unfold, (quiet_walked_list (n_children c)); [done| |done].
    rewrite Forall_forall. intros x _. apply quiet_walked.
  - destruct (isEnd c).
    + apply andb_prop in Hp as [Hpc Hrest].
      by rewrite (Hc Hpc Hdc eq_refl), (IH false Hrest Hdr).
    + destruct absorbing; apply andb_prop in Hp as [Hpc Hrest].
      * by rewrite (quiet_headings _ Hpc Hdc), (IH true Hrest Hdr).
      * by rewrite (Hc Hpc Hdc eq_refl), (IH false Hrest Hdr).
Qed.

Lemma walked_headings n :
  well_placed n = true -> depths_in_range n = true -> test n = false ->
  walked n = headings n.
Proof.
  induction n as [n IH] using node_children_ind. intros Hp Hd Ht.
  rewrite walked_unfold, headings_unfold.
  rewrite (depths_in_range_not_heading _ Hd Ht). simpl.
  rewrite well_placed_unfold in Hp.
  apply (walked_list_headings _ IH false Hp).
  by apply depths_in_range_children.
Qed.

(** ** Blocks and headings *)

Lemma blocks_nil_children n :
  blocks n = [] -> own_block n = [] /\ flat_map blocks (n_children n) = [].
Proof. rewrite blocks_unfold. by intros [? ?]%app_eq_nil. Qed.

(** On a well-placed tree without blocks of its own, the blocks due are the
    blocks of its headings, in document order. *)
Lemma blocks_due_list_headings l :
  Forall (fun c => well_placed c = true -> depths_in_range c = true ->
                   blocks c = [] -> test c = false ->
                   blocks_due c = List.map block_of (headings c)) l ->
  forall absorbing,
    placed_list well_placed absorbing l = true ->
    forallb depths_in_range l = true ->
    flat_map blocks l = [] ->
    flat_map blocks_due l = List.map block_of (flat_map headings l).
Proof.
  induction 1 as [|c rest Hc _ IH]; intros absorbing; [done|].
  cbn [placed_list forallb flat_map].
  intros Hp [Hdc Hdr]%andb_prop [Hbc Hbr]%app_eq_nil.
  rewrite map_app.
  destruct (test c) eqn:Ht.
  - apply andb_prop in Hp as [Hq Hrest].
    rewrite (heading_alone _ Ht Hq Hdc), (IH true Hrest Hdr Hbr).
    by rewrite blocks_due_unfold, Ht.
  - destruct (isEnd c).
    + apply andb_prop in Hp as [Hpc Hrest].
      by rewrite (Hc Hpc Hdc Hbc eq_refl), (IH false Hrest Hdr Hbr).
    + destruct absorbing; apply andb_prop in Hp as [Hpc Hrest].
      * rewrite (quiet_headings _ Hpc Hdc), (IH true Hrest Hdr Hbr).
        by rewrite (quiet_blocks_due _ Hpc), Hbc.
      * by rewrite (Hc Hpc Hdc Hbc eq_refl), (IH false Hrest Hdr Hbr).
Qed.

Lemma blocks_due_headings n :
  well_placed n = true -> depths_in_range n = true -> blocks n = [] ->
  test n = false ->
  blocks_due n = List.map block_of (headings n).
Proof.
  induction n as [n IH] using node_children_ind. intros Hp Hd Hb Ht.
  destruct (blocks_nil_children _ Hb) as [Hown Hcs].
  rewrite blocks_due_unfold, Ht, Hown, headings_unfold.
  rewrite (depths_in_range_not_heading _ Hd Ht). simpl.
  rewrite well_placed_unfold in Hp.
  apply (blocks_due_list_headings _ IH false Hp); [|done].
  by apply depths_in_range_children.
Qed.

(** ** The run of the transform *)

Lemma append_String a s t : String a s +:+ t = String a (s +:+ t).
Proof. done. Qed.

Lemma bug_message_first d : exists s, bug_message d = String "B" s.
Proof. unfold bug_message. rewrite append_String. by eexists. Qed.

Lemma bug_message_not e d :
  (forall s, e <> String "B" s) -> e <> bug_message d.
Proof.
  intros H E. destruct (bug_message_first d) as [s Hs].
  apply (H s). by rewrite E.
Qed.

Lemma nestHeadings_Throw o e :
  nestHeadings o = Throw e -> forall s, e <> String "B" s.
Proof.
  unfold nestHeadings. destruct o as [[|x l]|]; try done.
  destruct (_ =? 0)%nat; [by intros [= <-]|].
  destruct (1 <? _)%nat; [|done]. intros [= <-] s. by rewrite append_String.
Qed.

Lemma get_prop_Throw v k e : get_prop v k = Throw e -> e = "TypeError".
Proof. destruct v; simpl; congruence. Qed.

Lemma set_prop_Throw v k x e : set_prop v k x = Throw e -> e = "TypeError".
Proof. destruct v; simpl; congruence. Qed.

Lemma ensure_frontmatter_Throw v e :
  ensure_frontmatter v = Throw e -> e = "TypeError".
Proof.
  unfold ensure_frontmatter. destruct (get_prop v "frontmatter") eqn:Hg.
  - destruct (truthy a); [done|]. apply set_prop_Throw.
  - intros [= <-]. by eapply get_prop_Throw.
Qed.

(** The run ends before the traversal, or after it with the tree and the
    console the traversal left. *)
Lemma remarkSectionTransform_cases tree data out :
  remarkSectionTransform tree data = Some out ->
  (out_tree out = tree /\ out_console out = []
   /\ out_completion out = Abrupt "TypeError"
   /\ ensure_frontmatter (from_option (ensure_astro data !! "astro"))
      = Throw "TypeError")
  \/ exists t st c,
       traverse tree = Some (t, st, c)
       /\ out_tree out = t /\ out_console out = console st
       /\ (out_completion out = c
           \/ (c = Normal /\ exists e, out_completion out = Abrupt e
                                      /\ forall s, e <> String "B" s)).
Proof.
  unfold remarkSectionTransform.
  destruct (ensure_frontmatter _) as [astro2|e] eqn:Hprep.
  2:{ intros [= <-]. left. simpl.
      by rewrite (ensure_frontmatter_Throw _ _ Hprep). }
  destruct (traverse tree) as [[[t st] c]|] eqn:Htr; [|done].
  intros H. right. exists t, st, c. split; [done|].
  destruct c as [|e].
  2:{ injection H as <-. simpl. repeat split. by left. }
  destruct (get_prop astro2 "frontmatter") as [fm|e] eqn:Hg.
  2:{ injection H as <-. simpl. repeat split. right. split; [done|].
      exists e. split; [done|]. by rewrite (get_prop_Throw _ _ _ Hg). }
  destruct (nestHeadings (Some (toc st))) as [nested|e] eqn:Hn.
  2:{ injection H as <-. simpl. repeat split. right. split; [done|].
      exists e. split; [done|]. by eapply nestHeadings_Throw. }
  destruct (set_prop fm "toc" (toc_array nested)) as [fm1|e] eqn:Hs.
  2:{ injection H as <-. simpl. repeat split. right. split; [done|].
      exists e. split; [done|]. by rewrite (set_prop_Throw _ _ _ _ Hs). }
  injection H as <-. simpl. repeat split. by left.
Qed.

(** ** Objects of the metadata *)

Lemma fields_falsy v : truthy v = false -> fields v = ∅.
Proof. by destruct v. Qed.

Lemma get_prop_object v k :
  isObject v = true -> get_prop v k = Return (from_option (fields v !! k)).
Proof. by destruct v. Qed.

Lemma set_prop_object v k x :
  isObject v = true -> set_prop v k x = Return (holding v k x).
Proof. by destruct v. Qed.

Lemma set_prop_Return v k x v' :
  set_prop v k x = Return v' -> isObject v = true /\ v' = holding v k x.
Proof. destruct v; simpl; try done; by intros [= <-]. Qed.

Lemma fields_holding v k x :
  isObject v = true -> fields (holding v k x) = <[k := x]> (fields v).
Proof. by destruct v. Qed.

Lemma isObject_holding v k x : isObject (holding v k x) = isObject v.
Proof. by destruct v. Qed.

Lemma holding_holding v k x y : holding (holding v k x) k y = holding v k y.
Proof. destruct v; simpl; try done; by rewrite insert_insert_eq. Qed.

Lemma isObject_truthy v : isObject v = true -> truthy v = true.
Proof. by destruct v. Qed.

(** The container after the two guards: the one that was there, or a new
    one; with the frontmatter that was there, or a new one. *)
Lemma ensure_frontmatter_Return astro astro2 :
  ensure_frontmatter astro = Return astro2 ->
  isObject astro = true
  /\ astro2 = if truthy (from_option (fields astro !! "frontmatter")) then astro
              else holding astro "frontmatter" (JObj ∅).
Proof.
  unfold ensure_frontmatter.
  destruct (isObject astro) eqn:Ho.
  - rewrite (get_prop_object _ _ Ho), (set_prop_object _ _ _ Ho).
    destruct (truthy _); by intros [= <-].
  - destruct astro; try done; simpl; done.
Qed.

Lemma ensure_astro_lookup data :
  from_option (ensure_astro data !! "astro")
  = if truthy (from_option (data !! "astro")) then from_option (data !! "astro")
    else JObj ∅.
Proof.
  unfold ensure_astro. destruct (truthy _); [done|]. by rewrite lookup_insert_eq.
Qed.

(** A usable container gets its frontmatter. *)
Lemma ensure_frontmatter_usable data :
  usable (from_option (data !! "astro")) = true ->
  exists astro2,
    ensure_frontmatter (from_option (ensure_astro data !! "astro")) = Return astro2.
Proof.
  intros Hu. rewrite ensure_astro_lookup.
  assert (Ho : isObject (if truthy (from_option (data !! "astro"))
                         then from_option (data !! "astro") else JObj ∅) = true).
  { unfold usable in Hu. destruct (truthy _); [|done].
    by rewrite orb_false_r in Hu. }
  unfold ensure_frontmatter.
  rewrite (get_prop_object _ _ Ho), (set_prop_object _ _ _ Ho).
  destruct (truthy (from_option (fields _ !! "frontmatter"))); by eexists.
Qed.

(** With a usable container the run reaches the traversal. *)
Lemma remarkSectionTransform_usable tree data :
  usable (from_option (data !! "astro")) = true ->
  exists out t st c,
    remarkSectionTransform tree data = Some out
    /\ traverse tree = Some (t, st, c)
    /\ out_tree out = t /\ out_console out = console st.
Proof.
  intros Hu. destruct (remarkSectionTransform_total tree data) as [out Hout].
  exists out. destruct (remarkSectionTransform_cases _ _ _ Hout)
    as [(_ & _ & _ & Hc)|(t & st & c & Htr & Ht & Hco & _)].
  - destruct (ensure_frontmatter_usable data Hu) as [a Ha]. congruence.
  - by exists t, st, c.
Qed.

(** ** What the traversal keeps *)

(** No call on an offered heading ends in the internal error. *)
Lemma sectionizeToComponent_no_bug node ctx st cs st' c :
  test node = true ->
  sectionizeToComponent node ctx st = (cs, st', c) ->
  forall e, c = Abrupt e -> forall s, e <> String "B" s.
Proof.
  intros Ht H e -> s.
  destruct (sectionizeToComponent_state _ _ _ _ _ _ H)
    as [(Hc & _)|[(Hc & _)|(_ & _ & _ & Hn)]].
  - done.
  - by injection Hc as ->.
  - by rewrite (test_componentName _ Ht) in Hn.
Qed.

Lemma traverse_no_bug tree t st c :
  traverse tree = Some (t, st, c) ->
  forall e, c = Abrupt e -> forall s, e <> String "B" s.
Proof.
  intros H.
  refine (proj2 (visit_keeps test sectionizeToComponent (fun _ => True)
                   (fun e => forall s, e <> String "B" s) _ _ _ _ _ _ H I)).
  intros node ctx st0 cs st' c0 Ht _ Hv. split; [done|].
  by eapply sectionizeToComponent_no_bug.
Qed.

(** The accumulator and the console are those after the calls on some
    offered headings. *)
Lemma sectionizeToComponent_calls node ctx st cs st' c :
  test node = true ->
  sectionizeToComponent node ctx st = (cs, st', c) ->
  st' = after_calls st [node] \/ st' = st.
Proof.
  intros Ht H.
  destruct (sectionizeToComponent_state _ _ _ _ _ _ H)
    as [(_ & Htoc & Hcon & _)|[(_ & ->)|(_ & _ & _ & Hn)]].
  - left. rewrite <- after_calls_one. destruct st'. simpl in *. by subst.
  - by right.
  - by rewrite (test_componentName _ Ht) in Hn.
Qed.

Lemma traverse_calls tree t st c :
  traverse tree = Some (t, st, c) ->
  exists processed,
    Forall (fun h => test h = true) processed
    /\ st = after_calls state0 processed.
Proof.
  intros H.
  refine (proj1 (visit_keeps test sectionizeToComponent
                   (fun st => exists processed,
                        Forall (fun h => test h = true) processed
                        /\ st = after_calls state0 processed)
                   (fun _ => True) _ _ _ _ _ _ H _)).
  - intros node ctx st0 cs st' c0 Ht (w & Hw & ->) Hv. split; [|done].
    destruct (sectionizeToComponent_calls _ _ _ _ _ _ Ht Hv) as [->| ->].
    + exists (w ++ [node]). split.
      * apply Forall_app. split; [done|]. by constructor.
      * by rewrite after_calls_app.
    + by exists w.
  - exists []. split; [constructor|]. by rewrite after_calls_nil.
Qed.

Lemma isHeading_test n : isHeading n = false -> test n = false.
Proof. unfold test. by intros ->. Qed.

Lemma walked_list_test l :
  Forall (fun c => Forall (fun h => test h = true) (walked c)) l ->
  forall absorbing,
    Forall (fun h => test h = true) (walked_list walked absorbing l).
Proof.
  induction 1 as [|c rest Hc _ IH]; intros absorbing; [constructor|].
  cbn [walked_list]. destruct (test c) eqn:Ht.
  - constructor; [done|]. apply Forall_app. by split.
  - destruct (isEnd c); [apply Forall_app; by split|].
    destruct absorbing; [done|]. apply Forall_app. by split.
Qed.

Lemma walked_test n : Forall (fun h => test h = true) (walked n).
Proof.
  induction n as [n IH] using node_children_ind.
  rewrite walked_unfold. by apply walked_list_test.
Qed.

Lemma warnings_of_headings w :
  List.map warning_of (List.filter isDepth1 (List.map record_of w))
  = List.map (fun h => warning (p_title (parsed_heading h)) (p_id (parsed_heading h)))
      (List.filter (fun h => (n_depth h =? 1)%Z) w).
Proof.
  induction w as [|h w IH]; [done|]. simpl. unfold isDepth1 at 1. simpl.
  destruct (n_depth h =? 1)%Z; simpl; by rewrite IH.
Qed.

Lemma append_assoc' a b c : (a +:+ b) +:+ c = a +:+ (b +:+ c).
Proof. induction a as [|x a IH]; [done|]. by rewrite !append_String, IH. Qed.

(** C5.  For a heading that the traversal offers, at position [length pre]
    of a parent whose later children [post] hold no boundary (no heading, no
    export), the call replaces the heading and all of [post] by one
    structured block whose children are exactly [post]. *)
Theorem section_runs_to_end (node parent : Unist.node)
    (pre post : list Unist.node) (st : state) :
  test node = true ->
  n_type parent <> "" ->
  n_children parent = pre ++ node :: post ->
  forallb notEnd post = true ->
  sectionizeToComponent node (Some (length pre, parent)) st
  = (pre ++ [section_of node post], after_calls st [node], Normal)
  /\ n_type (section_of node post) = "mdxJsxFlowElement"
  /\ n_children (section_of node post) = post.
Proof.
  intros Ht Hty Hcs Hpost. split; [|done].
  rewrite (sectionizeToComponent_at _ _ _ _ _ Hty Hcs), (test_componentName _ Ht).
  rewrite after_calls_one.
  rewrite (dropWhile_all _ _ Hpost).
  rewrite <- (takeWhile_dropWhile notEnd post) at 2.
  rewrite (dropWhile_all _ _ Hpost), app_nil_r. done.
Qed.

(** The theorem of C5 on the last heading of a parent. *)
Lemma section_runs_to_end_witness :
  let node := heading 2 "Use" in
  let parent := root [paragraph "intro"; node; paragraph "a"; paragraph "b"] in
  test node = true /\ n_type parent <> ""
  /\ forallb notEnd [paragraph "a"; paragraph "b"] = true
  /\ sectionizeToComponent node (Some (1, parent)) state0
     = ([paragraph "intro";
         sectionComponent "SubSection" "Use" "use" [paragraph "a"; paragraph "b"]],
        MkState [MkRecord 2 "Use" "use"] [], Normal).
Proof.
  intros node parent.
  assert (H1 : test node = true) by reflexivity.
  assert (H2 : n_type parent <> "") by discriminate.
  assert (H3 : forallb notEnd [paragraph "a"; paragraph "b"] = true) by reflexivity.
  split; [exact H1|]. split; [exact H2|]. split; [exact H3|].
  exact (proj1 (section_runs_to_end node parent [paragraph "intro"]
                  [paragraph "a"; paragraph "b"] state0 H1 H2 eq_refl H3)).
Defined.

(** C6.  For a node that passes the test of the traversal the mapping from
    depth to component name returns; it maps 1 to 4 to the four names; it
    throws the internal error exactly for the depths outside 1 to 4; and no
    run of the transform, on any tree and metadata, ends in that error. *)
Theorem component_name_for_offered_depth :
  (forall n, test n = true ->
             exists name, getComponentNameForDepth (n_depth n) = Return name)
  /\ getComponentNameForDepth 1 = Return "Section"
  /\ getComponentNameForDepth 2 = Return "SubSection"
  /\ getComponentNameForDepth 3 = Return "SubSubSection"
  /\ getComponentNameForDepth 4 = Return "SubSubSubSection"
  /\ (forall d, getComponentNameForDepth d = Throw (bug_message d)
                <-> (d < 1 \/ 4 < d)%Z)
  /\ (forall tree data,
        exists out,
          remarkSectionTransform tree data = Some out
          /\ forall d, out_completion out <> Abrupt (bug_message d)).
Proof.
  split; [|split; [done|split; [done|split; [done|split; [done|split]]]]].
  - intros n Ht. eexists. by apply test_componentName.
  - intros d. unfold getComponentNameForDepth.
    destruct (Z.eqb_spec d 1); [split; [done|intros; lia]|].
    destruct (Z.eqb_spec d 2); [split; [done|intros; lia]|].
    destruct (Z.eqb_spec d 3); [split; [done|intros; lia]|].
    destruct (Z.eqb_spec d 4); [split; [done|intros; lia]|].
    split; [intros; lia|done].
  - intros tree data.
    destruct (remarkSectionTransform_total tree data) as [out Hout].
    exists out. split; [done|]. intros d.
    destruct (remarkSectionTransform_cases _ _ _ Hout)
      as [(_ & _ & -> & _)|(t & st & c & Htr & _ & _ & [Hc|(_ & e & -> & He)])].
    + intros E. apply (bug_message_not "TypeError" d); [done|congruence].
    + rewrite Hc. intros E.
      apply (bug_message_not (bug_message d) d); [|done].
      by apply (traverse_no_bug _ _ _ _ Htr).
    + intros E. apply (bug_message_not e d); [done|congruence].
Qed.

(** The theorem of C6 on a heading of depth 3. *)
Lemma component_name_for_offered_depth_witness :
  test (heading 3 "Units") = true
  /\ exists name, getComponentNameForDepth (n_depth (heading 3 "Units")) = Return name.
Proof.
  split; [reflexivity|].
  exact (proj1 component_name_for_offered_depth (heading 3 "Units") eq_refl).
Defined.

(** C7.  A call of the sectionizer prints one warning when it completes on
    a heading of depth 1 and none otherwise.  Every run of the transform
    returns, and its console holds, in order, one warning for each heading of
    depth 1 among the headings the visitor was called on, and nothing else;
    on a tree whose nodes have a type and whose root is not a heading, with a
    usable metadata container, these headings are [walked tree].  The text of
    the warning contains the parsed title and the parsed id. *)
Theorem warning_per_title_heading :
  (forall node ctx st cs st' c,
     sectionizeToComponent node ctx st = (cs, st', c) ->
     console st'
     = console st
       ++ (if (n_depth node =? 1)%Z
           then match c with
                | Normal => [warning (p_title (parsed_heading node))
                               (p_id (parsed_heading node))]
                | Abrupt _ => []
                end
           else []))
  /\ (forall tree data,
        exists out processed,
          remarkSectionTransform tree data = Some out
          /\ Forall (fun h => test h = true) processed
          /\ out_console out
             = List.map (fun h => warning (p_title (parsed_heading h))
                                    (p_id (parsed_heading h)))
                 (List.filter (fun h => (n_depth h =? 1)%Z) processed)
          /\ (typed tree = true -> isHeading tree = false ->
              usable (from_option (data !! "astro")) = true ->
              processed = walked tree))
  /\ (forall title id,
        exists a b c, warning title id = a +:+ title +:+ b +:+ id +:+ c).
Proof.
  split; [|split].
  - intros node ctx st cs st' c H.
    destruct (sectionizeToComponent_state _ _ _ _ _ _ H)
      as [(-> & _ & -> & _)|[(-> & ->)|(-> & _ & -> & Hn)]].
    + unfold console_after. destruct (n_depth node =? 1)%Z; [done|].
      by rewrite app_nil_r.
    + destruct (n_depth node =? 1)%Z; by rewrite app_nil_r.
    + destruct (n_depth node =? 1)%Z; by rewrite app_nil_r.
  - intros tree data.
    destruct (remarkSectionTransform_total tree data) as [out Hout].
    exists out.
    destruct (remarkSectionTransform_cases _ _ _ Hout)
      as [(_ & Hcon & _ & Hthrow)|(t & st & c & Htr & _ & Hcon & _)].
    + exists []. repeat split; try done.
      intros _ _ Hu. destruct (ensure_frontmatter_usable data Hu). congruence.
    + destruct (typed tree) eqn:Hty; [destruct (isHeading tree) eqn:Hh|].
      2:{ exists (walked tree). split; [done|]. split; [apply walked_test|].
          split; [|done].
          rewrite (traverse_sectioned _ Hty (isHeading_test _ Hh)) in Htr.
          injection Htr as _ <- _. rewrite Hcon. simpl.
          apply warnings_of_headings. }
      all: destruct (traverse_calls _ _ _ _ Htr) as (w & Hw & ->);
        exists w; split; [done|]; split; [done|]; split; [|done];
        rewrite Hcon; simpl; apply warnings_of_headings.
  - intros title id. unfold warning.
    exists (nl +:+ "WARNING:" +:+ "Section with title" +:+ nl +:+ " "),
      (nl +:+ "will be given the generic id" +:+ nl +:+ " page_title" +:+ nl
       +:+ "instead of the custom id" +:+ nl +:+ " "),
      ("." +:+ nl).
    by rewrite !append_assoc'.
Qed.

(** The theorem of C7 on the sample page. *)
Lemma warning_per_title_heading_witness :
  typed page = true /\ isHeading page = false
  /\ usable (from_option ((∅ : gmap string jsval) !! "astro")) = true
  /\ exists out processed,
       remarkSectionTransform page ∅ = Some out
       /\ out_console out
          = List.map (fun h => warning (p_title (parsed_heading h))
                                 (p_id (parsed_heading h)))
              (List.filter (fun h => (n_depth h =? 1)%Z) processed)
       /\ processed = walked page.
Proof.
  split; [reflexivity|]. split; [reflexivity|]. split; [reflexivity|].
  destruct (proj1 (proj2 warning_per_title_heading) page ∅)
    as (out & processed & H1 & _ & H2 & H3).
  exists out, processed. split; [exact H1|]. split; [exact H2|].
  apply H3; reflexivity.
Defined.

Lemma isObject_guarded v : isObject (guarded v) = usable v.
Proof.
  unfold guarded, usable.
  destruct (truthy v); simpl; [by rewrite orb_false_r|by rewrite orb_true_r].
Qed.

Lemma holding_same v k x :
  isObject v = true -> fields v !! k = Some x -> holding v k x = v.
Proof. destruct v; simpl; try done; intros _ H; by rewrite insert_id. Qed.

Lemma truthy_lookup (o : gmap string jsval) k :
  truthy (from_option (o !! k)) = true -> o !! k = Some (from_option (o !! k)).
Proof. by destruct (o !! k). Qed.

(** The second guard throws on a container that is a primitive, only. *)
Lemma ensure_frontmatter_Throw_primitive astro e :
  ensure_frontmatter astro = Throw e ->
  isObject astro = false /\ e = "TypeError".
Proof.
  unfold ensure_frontmatter.
  destruct astro; simpl; try (by intros [= <-]);
    by destruct (truthy _).
Qed.

(** C8.  After every run of the transform, also one that an error ends,
    every property of [file.data] other than [astro], every property of the
    container other than [frontmatter] and every property of the frontmatter
    other than [toc] is as it was before the run.  When the run completes,
    [file.data.astro] holds an object whose [frontmatter] holds an object
    whose [toc] is the nested ToC of the records of the traversal; a
    container that was there is the one kept (it is not replaced), and so is
    a frontmatter that was there.

    The guards: when the container is absent (or falsy) or an object, after
    every run, also one that an error ends, [file.data.astro] holds an
    object, the container that was there or else a new one, and its
    [frontmatter] holds the frontmatter that was there or else a new object.
    The write: when moreover the frontmatter is absent or an object, the
    traversal completes and the nester returns, the run completes and the
    frontmatter, otherwise as the guards left it, holds the nested ToC as
    [toc].  A container that is a primitive other than a falsy one ends the
    run with a TypeError before the traversal, the tree and the metadata
    untouched. *)
Theorem metadata_frame (tree : node) (data : gmap string jsval) (out : outcome) :
  remarkSectionTransform tree data = Some out ->
  let astro0 := from_option (data !! "astro") in
  let fm0 := from_option (fields astro0 !! "frontmatter") in
  let astro' := from_option (out_data out !! "astro") in
  let fm' := from_option (fields astro' !! "frontmatter") in
  (forall k, k <> "astro" -> out_data out !! k = data !! k)
  /\ (forall k, k <> "frontmatter" -> fields astro' !! k = fields astro0 !! k)
  /\ (forall k, k <> "toc" -> fields fm' !! k = fields fm0 !! k)
  /\ (out_completion out = Normal ->
      exists nested,
        out_data out !! "astro" = Some astro'
        /\ fields astro' !! "frontmatter" = Some fm'
        /\ fields fm' !! "toc" = Some (toc_array nested)
        /\ (exists t st, traverse tree = Some (t, st, Normal)
                         /\ nestHeadings (Some (toc st)) = Return nested)
        /\ (truthy astro0 = true -> astro' = holding astro0 "frontmatter" fm')
        /\ (truthy fm0 = true -> fm' = holding fm0 "toc" (toc_array nested)))
  /\ (usable astro0 = true ->
      out_data out !! "astro" = Some astro'
      /\ isObject astro' = true
      /\ astro' = holding (guarded astro0) "frontmatter" fm'
      /\ fields astro' !! "frontmatter" = Some fm'
      /\ (usable fm0 = true -> isObject fm' = true)
      /\ (out_completion out <> Normal -> fm' = guarded fm0))
  /\ (usable astro0 = true -> usable fm0 = true ->
      forall t st nested,
        traverse tree = Some (t, st, Normal) ->
        nestHeadings (Some (toc st)) = Return nested ->
        out_completion out = Normal
        /\ fm' = holding (guarded fm0) "toc" (toc_array nested)
        /\ fields fm' !! "toc" = Some (toc_array nested))
  /\ (usable astro0 = false ->
      out = MkOutcome tree data [] (Abrupt "TypeError")).
Proof.
  intros Hout astro0 fm0. revert Hout.
  unfold remarkSectionTransform.
  set (astro1 := from_option (ensure_astro data !! "astro")) in *.
  (* the container that the first guard leaves *)
  assert (Hastro1 : astro1 = guarded astro0) by apply ensure_astro_lookup.
  assert (Hf1 : fields astro1 = fields astro0).
  { rewrite Hastro1. unfold guarded. destruct (truthy astro0) eqn:E; [done|].
    by rewrite (fields_falsy _ E). }
  assert (Hd1 : forall k, k <> "astro" -> ensure_astro data !! k = data !! k).
  { intros k Hk. unfold ensure_astro.
    destruct (truthy (from_option (data !! "astro"))); [done|].
    by rewrite lookup_insert_ne. }
  assert (Hu1 : isObject astro1 = usable astro0)
    by (rewrite Hastro1; apply isObject_guarded).
  destruct (ensure_frontmatter _) as [astro2|e] eqn:Hprep.
  2:{ apply ensure_frontmatter_Throw_primitive in Hprep as [Hno ->].
      rewrite Hu1 in Hno. intros [= <-]. cbn [out_data out_completion].
      fold astro1.
      split; [done|]. split; [by rewrite Hf1|]. split; [by rewrite Hf1|].
      split; [done|]. split; [congruence|]. split; [congruence|].
      intros _. f_equal. unfold ensure_astro. fold astro0.
      unfold usable in Hno. apply orb_false_elim in Hno as [_ Ht].
      apply negb_false_iff in Ht. by rewrite Ht. }
  apply ensure_frontmatter_Return in Hprep as [Ho1 Hastro2].
  rewrite Hf1 in Hastro2. fold fm0 in Hastro2.
  assert (Hu : usable astro0 = true) by congruence.
  assert (Ho2 : isObject astro2 = true).
  { rewrite Hastro2. destruct (truthy fm0); [done|]. by rewrite isObject_holding. }
  set (fm := from_option (fields astro2 !! "frontmatter")).
  assert (Hfm : fm = guarded fm0).
  { subst fm. rewrite Hastro2. unfold guarded. destruct (truthy fm0) eqn:E.
    - by rewrite Hf1.
    - by rewrite (fields_holding _ _ _ Ho1), lookup_insert_eq. }
  assert (Hffm : fields fm = fields fm0).
  { rewrite Hfm. unfold guarded. destruct (truthy fm0) eqn:E; [done|].
    by rewrite (fields_falsy _ E). }
  assert (Hf2 : forall k, k <> "frontmatter" ->
                          fields astro2 !! k = fields astro0 !! k).
  { intros k Hk. rewrite Hastro2. destruct (truthy fm0); [by rewrite Hf1|].
    by rewrite (fields_holding _ _ _ Ho1), lookup_insert_ne, Hf1. }
  (* the container that the second guard leaves holds the frontmatter *)
  assert (Hlook : fields astro2 !! "frontmatter" = Some fm).
  { subst fm. rewrite Hastro2. destruct (truthy fm0) eqn:E.
    - rewrite Hf1. by apply truthy_lookup.
    - by rewrite (fields_holding _ _ _ Ho1), lookup_insert_eq. }
  assert (Hhold : astro2 = holding astro1 "frontmatter" fm).
  { destruct (truthy fm0) eqn:E.
    - transitivity (holding astro2 "frontmatter" fm);
        [symmetry; by apply holding_same|].
      f_equal. exact Hastro2.
    - rewrite Hfm. unfold guarded. rewrite E. exact Hastro2. }
  (* a run that an error ends after the guards *)
  assert (Hstop : forall t c e,
    let out := MkOutcome t (<["astro" := astro2]> (ensure_astro data)) c (Abrupt e) in
    let astro' := from_option (out_data out !! "astro") in
    let fm' := from_option (fields astro' !! "frontmatter") in
    (forall k, k <> "astro" -> out_data out !! k = data !! k)
    /\ (forall k, k <> "frontmatter" -> fields astro' !! k = fields astro0 !! k)
    /\ (forall k, k <> "toc" -> fields fm' !! k = fields fm0 !! k)
    /\ (out_data out !! "astro" = Some astro'
        /\ isObject astro' = true
        /\ astro' = holding (guarded astro0) "frontmatter" fm'
        /\ fields astro' !! "frontmatter" = Some fm'
        /\ (usable fm0 = true -> isObject fm' = true)
        /\ (out_completion out <> Normal -> fm' = guarded fm0))).
  { intros t c e. cbn [out_data]. rewrite lookup_insert_eq. cbn [from_option].
    fold fm. split; [|split; [done|split; [by rewrite Hffm|]]].
    - intros k Hk. rewrite lookup_insert_ne by done. by apply Hd1.
    - split; [done|]. split; [done|]. split; [by rewrite <- Hastro1|].
      split; [done|]. split; [|done].
      intros Hufm. by rewrite Hfm, isObject_guarded. }
  destruct (traverse tree) as [[[t st] c]|] eqn:Htr; [|done].
  destruct c as [|e].
  2:{ intros [= <-]. destruct (Hstop t (console st) e) as (?&?&?&?).
      split; [done|]. split; [done|]. split; [done|]. split; [done|].
      split; [done|]. split; [|congruence].
      intros _ _ t' st' nested' [= _ _]. }
  rewrite (get_prop_object _ _ Ho2). fold fm.
  destruct (nestHeadings (Some (toc st))) as [nested|e] eqn:Hn.
  2:{ intros [= <-]. destruct (Hstop t (console st) e) as (?&?&?&?).
      split; [done|]. split; [done|]. split; [done|]. split; [done|].
      split; [done|]. split; [|congruence].
      intros _ _ t' st' nested' [= _ <-]. congruence. }
  destruct (set_prop fm "toc" (toc_array nested)) as [fm1|e] eqn:Hs.
  2:{ intros [= <-]. destruct (Hstop t (console st) e) as (?&?&?&?).
      split; [done|]. split; [done|]. split; [done|]. split; [done|].
      split; [done|]. split; [|congruence].
      intros _ Hufm. exfalso.
      assert (Hofm : isObject fm = true) by by rewrite Hfm, isObject_guarded.
      by rewrite (set_prop_object _ _ _ Hofm) in Hs. }
  intros [= <-]. cbn [out_data out_completion].
  apply set_prop_Return in Hs as [Hofm ->].
  rewrite lookup_insert_eq. cbn [from_option].
  rewrite (fields_holding _ _ _ Ho2), lookup_insert_eq. cbn [from_option].
  split.
  { intros k Hk. rewrite !lookup_insert_ne by done. by apply Hd1. }
  split.
  { intros k Hk. rewrite lookup_insert_ne by done. by apply Hf2. }
  split.
  { intros k Hk. rewrite (fields_holding _ _ _ Hofm), lookup_insert_ne by done.
    by rewrite Hffm. }
  split.
  { intros _. exists nested.
    split; [done|]. split; [done|].
    split; [by rewrite (fields_holding _ _ _ Hofm), lookup_insert_eq|].
    split; [by exists t, st|].
    split.
    { intros Ha. rewrite Hhold, holding_holding, Hastro1. unfold guarded.
      by rewrite Ha. }
    intros Hf. rewrite Hfm. unfold guarded. by rewrite Hf. }
  split.
  { intros _. split; [done|]. split; [by rewrite isObject_holding|].
    split; [by rewrite Hhold, holding_holding, Hastro1|].
    split; [done|]. split; [by rewrite isObject_holding|done]. }
  split; [|congruence].
  intros _ _ t' st' nested' [= _ <-] Hn'.
  assert (nested' = nested) as -> by congruence.
  split; [done|]. split; [by rewrite Hfm|].
  by rewrite (fields_holding _ _ _ Hofm), lookup_insert_eq.
Qed.

(** The theorem of C8 on a page whose metadata an earlier pass has filled:
    [path], [layout] and the frontmatter [title] are kept; and on the same
    page without metadata: the container and the frontmatter are created,
    the run completes and the ToC is written. *)
Lemma metadata_frame_witness :
  (exists out,
     remarkSectionTransform page sample_data = Some out
     /\ out_completion out = Normal
     /\ (forall k, k <> "astro" -> out_data out !! k = sample_data !! k)
     /\ exists astro' fm' nested,
          out_data out !! "astro" = Some astro'
          /\ fields astro' !! "frontmatter" = Some fm'
          /\ fields fm' !! "toc" = Some (toc_array nested)
          /\ fields astro' !! "layout" = Some (JStr "page")
          /\ fields fm' !! "title" = Some (JStr "Wing loading"))
  /\ usable (from_option ((∅ : gmap string jsval) !! "astro")) = true
  /\ usable (from_option
               (fields (from_option ((∅ : gmap string jsval) !! "astro"))
                  !! "frontmatter")) = true
  /\ exists out t st nested,
       remarkSectionTransform page ∅ = Some out
       /\ traverse page = Some (t, st, Normal)
       /\ nestHeadings (Some (toc st)) = Return nested
       /\ out_completion out = Normal
       /\ out_data out !! "astro"
          = Some (holding (JObj ∅) "frontmatter"
                    (holding (JObj ∅) "toc" (toc_array nested))).
Proof.
  split.
  { destruct (remarkSectionTransform page sample_data) as [out|] eqn:E;
      [|vm_compute in E; discriminate E].
    assert (Hn : out_completion out = Normal).
    { vm_compute in E. injection E as <-. reflexivity. }
    exists out. split; [reflexivity|]. split; [exact Hn|].
    destruct (metadata_frame page sample_data out E) as (H5 & H6 & H7 & Hdone & _).
    destruct (Hdone Hn) as (nested & H1 & H2 & H3 & _).
    split; [exact H5|].
    eexists _, _, nested. split; [exact H1|]. split; [exact H2|].
    split; [exact H3|]. split.
    - rewrite H6 by discriminate. reflexivity.
    - rewrite H7 by discriminate. reflexivity. }
  assert (Hu : usable (from_option ((∅ : gmap string jsval) !! "astro")) = true)
    by reflexivity.
  assert (Hf : usable (from_option
                         (fields (from_option ((∅ : gmap string jsval) !! "astro"))
                            !! "frontmatter")) = true)
    by reflexivity.
  split; [exact Hu|]. split; [exact Hf|].
  assert (Hrun : exists t st nested,
             traverse page = Some (t, st, Normal)
             /\ nestHeadings (Some (toc st)) = Return nested).
  { eexists _, _, _. split; vm_compute; reflexivity. }
  destruct Hrun as (t & st & nested & Htr & Hn).
  destruct (remarkSectionTransform page ∅) as [out|] eqn:E;
    [|vm_compute in E; discriminate E].
  exists out, t, st, nested.
  split; [reflexivity|]. split; [exact Htr|]. split; [exact Hn|].
  destruct (metadata_frame page ∅ out E) as (_ & _ & _ & _ & Hg & Hw & _).
  destruct (Hg Hu) as (Ha & _ & Hh & _).
  destruct (Hw Hu Hf t st nested Htr Hn) as (Hc & Hfm & _).
  split; [exact Hc|].
  rewrite Ha. f_equal. rewrite Hh, Hfm. reflexivity.
Defined.

(** A run that an error ends leaves the metadata an earlier pass has filled:
    the page has two titles. *)
Lemma interrupted_run_keeps_metadata :
  let tree := root [heading 1 "A"; heading 1 "B"] in
  exists out,
    remarkSectionTransform tree sample_data = Some out
    /\ out_completion out = Abrupt "Found 2 headings of depth 1, expected exactly 1"
    /\ out_data out = sample_data.
Proof. eexists. split; [vm_compute; reflexivity|]. split; reflexivity. Qed.

(** C1, as amended.  Take a document tree in which every node has a type,
    the root is not a heading, every heading has a depth from 1 to 4, and no
    heading lies in the section of a heading on its left or inside a heading;
    let the metadata container be absent or an object.  Then the transform
    returns, the tree it leaves is [sectioned tree], and the structured
    blocks of that tree, in document order, are the blocks due: one for each
    heading, and the blocks the document already had, each at its place.
    When the document had no structured block, the blocks are exactly those
    of the headings in document order, so there are as many as headings. *)
Theorem blocks_follow_headings (tree : node) (data : gmap string jsval) :
  typed tree = true ->
  isHeading tree = false ->
  depths_in_range tree = true ->
  well_placed tree = true ->
  usable (from_option (data !! "astro")) = true ->
  exists out,
    remarkSectionTransform tree data = Some out
    /\ out_tree out = sectioned tree
    /\ blocks (out_tree out) = blocks_due tree
    /\ (blocks tree = [] ->
        blocks (out_tree out) = List.map block_of (headings tree)
        /\ length (blocks (out_tree out)) = length (headings tree)).
Proof.
  intros Hty Hh Hd Hp Hu. pose proof (isHeading_test _ Hh) as Ht.
  destruct (remarkSectionTransform_usable tree data Hu)
    as (out & t & st & c & Hout & Htr & Htree & _).
  rewrite (traverse_sectioned _ Hty Ht) in Htr. injection Htr as <- _ _.
  exists out. split; [done|]. split; [done|].
  rewrite Htree, (blocks_sectioned _ Hp Ht). split; [done|].
  intros Hb. rewrite (blocks_due_headings _ Hp Hd Hb Ht).
  split; [done|]. by rewrite length_map.
Qed.

(** The theorem of C1 on the sample page, which has four headings. *)
Lemma blocks_follow_headings_witness :
  typed page = true /\ isHeading page = false /\ depths_in_range page = true
  /\ well_placed page = true
  /\ usable (from_option ((∅ : gmap string jsval) !! "astro")) = true
  /\ blocks page = []
  /\ exists out,
       remarkSectionTransform page ∅ = Some out
       /\ blocks (out_tree out) = List.map block_of (headings page)
       /\ length (blocks (out_tree out)) = length (headings page).
Proof.
  assert (H1 : typed page = true) by reflexivity.
  assert (H2 : isHeading page = false) by reflexivity.
  assert (H3 : depths_in_range page = true) by reflexivity.
  assert (H4 : well_placed page = true) by reflexivity.
  assert (H5 : usable (from_option ((∅ : gmap string jsval) !! "astro")) = true)
    by reflexivity.
  assert (H6 : blocks page = []) by reflexivity.
  repeat (split; [assumption|]).
  destruct (blocks_follow_headings page ∅ H1 H2 H3 H4 H5)
    as (out & Hout & _ & _ & Hb).
  exists out. split; [exact Hout|]. exact (Hb H6).
Defined.

(** C1 fails where a heading lies in the section of another one: in
    [quoted] every heading has a depth from 1 to 4 and there are two of them,
    yet the transform leaves one structured block, and the quoted heading is
    still a heading. *)
Lemma quoted_heading_keeps_heading :
  typed quoted = true /\ isHeading quoted = false
  /\ depths_in_range quoted = true /\ blocks quoted = []
  /\ length (headings quoted) = 2
  /\ exists out,
       remarkSectionTransform quoted ∅ = Some out
       /\ out_completion out = Normal
       /\ length (blocks (out_tree out)) = 1
       /\ length (headings (out_tree out)) = 1.
Proof.
  repeat (split; [reflexivity|]).
  eexists. split; [reflexivity|]. repeat split.
Qed.

End SectionFacts.

Module CodeFacts.
Import Js Regex Toc Unist CodeTransform Samples MatcherFacts StringFacts.

Section MetaExpression.

(** ** The expression of [parseMeta] on an entry with an empty value *)

#[local] Arguments Ascii.eqb : simpl never.
#[local] Arguments isWord : simpl never.
#[local] Arguments notQuote : simpl never.
#[local] Arguments notSpace : simpl never.

Lemma word_not_equals a : isWord a = true -> Ascii.eqb "=" a = false.
Proof.
  intros H. destruct (Ascii.eqb_spec "=" a) as [<-|]; [discriminate H|done].
Qed.

Lemma attempt_empty_entry key i prev :
  key <> [] -> forallb isWord key = true ->
  let s := key ++ ["="%char; dq; dq] in
  attempt reMeta i prev s = Some (Found i s [] [(2, []); (1, key)]).
Proof.
  intros Hne Hw s. destruct key as [|a key']; [done|].
  simpl in Hw. apply andb_prop in Hw as [Ha Hw].
  unfold attempt, reMeta, Plus.
  change (m (Cat (Grp 1 (Cat (Cls isWord) (Star true isWord))) ?r) accept prev s [])
    with (m (Cls isWord)
            (star_greedy isWord
               (fun prev' s' c' =>
                  m r accept prev' s'
                    (cap_set 1 (firstn (length s - length s') s) c')))
            prev s []).
  subst s. cbn [m app]. rewrite Ha.
  rewrite star_greedy_skip.
  2:{ intros b s' prev' c' Hb. cbn [m]. by rewrite (word_not_equals b Hb). }
  rewrite dropWhile_app_all by done.
  assert (Hcap : firstn (length (a :: key' ++ ["="%char; dq; dq]) - 3)
                   (a :: key' ++ ["="%char; dq; dq]) = a :: key').
  { change (a :: key' ++ ?r) with ((a :: key') ++ r).
    rewrite length_app.
    replace (length (a :: key') + length ["="%char; dq; dq] - 3)
      with (length (a :: key')) by (simpl; lia).
    apply take_app_length. }
  assert (Hall : firstn (length (a :: key' ++ ["="%char; dq; dq]) - 0)
                   (a :: key' ++ ["="%char; dq; dq])
                 = a :: key' ++ ["="%char; dq; dq]).
  { rewrite Nat.sub_0_r. apply firstn_all. }
  change (dropWhile isWord ["="%char; dq; dq]) with ["="%char; dq; dq].
  change (length ["="%char; dq; dq]) with 3.
  rewrite Hcap.
  remember (a :: key' ++ ["="%char; dq; dq]) as full eqn:Hfull.
  remember (a :: key') as key eqn:Hkey.
  vm_compute. vm_compute in Hall. by rewrite Hall.
Qed.

Lemma exec_empty_entry key :
  key <> [] -> forallb isWord key = true ->
  exec reMeta (key ++ ["="%char; dq; dq])
  = Some (Found 0 (key ++ ["="%char; dq; dq]) [] [(2, []); (1, key)]).
Proof.
  intros Hne Hw. unfold exec.
  destruct key as [|a key']; [done|].
  change ((a :: key') ++ ?r) with (a :: (key' ++ r)).
  cbn [search].
  change (a :: (key' ++ ?r)) with ((a :: key') ++ r).
  by rewrite (attempt_empty_entry (a :: key') 0 None Hne Hw).
Qed.

Lemma of_string_empty_entry key :
  of_string (empty_entry key) = of_string key ++ ["="%char; dq; dq].
Proof. unfold empty_entry. by rewrite of_string_app. Qed.

Lemma each_match_empty_entry attributes key :
  key <> "" -> forallb isWord (of_string key) = true -> key <> "__proto__" ->
  each_match attributes (of_string (empty_entry key))
  = <[key := MUndefined]> attributes.
Proof.
  intros Hne Hw Hproto. unfold each_match.
  rewrite of_string_empty_entry, exec_empty_entry; [|by rewrite of_string_nil|done].
  unfold group. simpl. rewrite to_of_string. unfold assign.
  by destruct (String.eqb_spec key "__proto__").
Qed.

Lemma match_all_empty_entry key :
  key <> [] -> forallb isWord key = true ->
  match_all reMeta (key ++ ["="%char; dq; dq]) = Some [key ++ ["="%char; dq; dq]].
Proof.
  intros Hne Hw. unfold match_all. cbn [all_from].
  destruct key as [|a key']; [done|].
  change ((a :: key') ++ ?r) with (a :: (key' ++ r)).
  cbn [search].
  change (a :: (key' ++ ?r)) with ((a :: key') ++ r).
  rewrite (attempt_empty_entry (a :: key') 0 None Hne Hw).
  cbn [f_text f_rest f_index app length].
  by destruct (length (key' ++ ["="%char; dq; dq])).
Qed.

Lemma parseMeta_empty_entry key :
  key <> "" -> forallb isWord (of_string key) = true -> key <> "__proto__" ->
  parseMeta (empty_entry key) = {[ key := MUndefined ]}.
Proof.
  intros Hne Hw Hproto. unfold parseMeta.
  assert (Hnil : String.eqb (empty_entry key) "" = false).
  { apply String.eqb_neq. intros E%(f_equal of_string).
    rewrite of_string_empty_entry in E. by destruct (of_string key). }
  rewrite Hnil.
  pose proof (each_match_empty_entry ∅ key Hne Hw Hproto) as Hstep.
  rewrite of_string_empty_entry in Hstep |- *.
  rewrite match_all_empty_entry; [|by rewrite of_string_nil|done].
  simpl. by rewrite Hstep.
Qed.

Lemma codeBoxElement_no_id node :
  meta_id (parseMeta (n_meta node)) = MUndefined ->
  codeBoxElement node
  = Node "mdxJsxFlowElement" 0 "" "" "" "CodeBox" (base_attributes node) [].
Proof. unfold codeBoxElement. by intros ->. Qed.

(** C10.  An entry whose quoted value is empty sets its key to [undefined]
    in the parsed meta (for a key other than [__proto__], which an object
    literal does not store).  So a code node whose last meta entry is an
    empty [id] gets a CodeBox with the two attributes [code] and [language]
    and no [id], the same element as without meta. *)
Theorem empty_quoted_value_is_undefined :
  (forall attributes key,
     key <> "" -> forallb isWord (of_string key) = true -> key <> "__proto__" ->
     each_match attributes (of_string (empty_entry key))
     = <[key := MUndefined]> attributes)
  /\ (forall key,
        key <> "" -> forallb isWord (of_string key) = true ->
        key <> "__proto__" ->
        parseMeta (empty_entry key) !! key = Some MUndefined)
  /\ (forall node matches,
        match_all reMeta (of_string (n_meta node))
        = Some (matches ++ [of_string (empty_entry "id")]) ->
        meta_id (parseMeta (n_meta node)) = MUndefined
        /\ n_attributes (codeBoxElement node) = base_attributes node)
  /\ (forall node,
        n_meta node = empty_entry "id" ->
        n_attributes (codeBoxElement node) = base_attributes node
        /\ codeBoxElement node = codeBoxElement (with_meta node "")).
Proof.
  split; [exact each_match_empty_entry|]. split; [|split].
  - intros key Hne Hw Hproto.
    by rewrite (parseMeta_empty_entry key Hne Hw Hproto), lookup_singleton_eq.
  - intros node matches Hm.
    assert (Hid : meta_id (parseMeta (n_meta node)) = MUndefined).
    { unfold parseMeta. destruct (String.eqb_spec (n_meta node) "") as [E|_].
      - rewrite E in Hm. vm_compute in Hm. discriminate Hm.
      - rewrite Hm, fold_left_app. cbn [fold_left].
        rewrite each_match_empty_entry by done.
        unfold meta_id. by rewrite lookup_insert_eq. }
    split; [done|]. by rewrite (codeBoxElement_no_id _ Hid).
  - intros node Hmeta.
    assert (Hid : meta_id (parseMeta (n_meta node)) = MUndefined).
    { rewrite Hmeta, parseMeta_empty_entry by done.
      unfold meta_id. by rewrite lookup_singleton_eq. }
    rewrite (codeBoxElement_no_id _ Hid). split; [done|].
    by rewrite (codeBoxElement_no_id (with_meta node "")).
Qed.

(** The theorem of C10 on a code block whose meta is an empty [id], and on
    one whose meta ends in an empty [id] after another entry. *)
Lemma empty_quoted_value_is_undefined_witness :
  let lone := code_block "js" (empty_entry "id") "let x" in
  let last := code_block "js" ("show=all " +:+ empty_entry "id") "let x" in
  "id" <> "" /\ forallb isWord (of_string "id") = true /\ "id" <> "__proto__"
  /\ parseMeta (empty_entry "id") !! "id" = Some MUndefined
  /\ n_meta lone = empty_entry "id"
  /\ n_attributes (codeBoxElement lone) = base_attributes lone
  /\ match_all reMeta (of_string (n_meta last))
     = Some ([of_string "show=all"] ++ [of_string (empty_entry "id")])
  /\ meta_id (parseMeta (n_meta last)) = MUndefined
  /\ n_attributes (codeBoxElement last) = base_attributes last.
Proof.
  intros lone last.
  assert (H1 : "id" <> "") by discriminate.
  assert (H2 : forallb isWord (of_string "id") = true) by reflexivity.
  assert (H3 : "id" <> "__proto__") by discriminate.
  assert (H4 : match_all reMeta (of_string (n_meta last))
               = Some ([of_string "show=all"] ++ [of_string (empty_entry "id")]))
    by (vm_compute; reflexivity).
  split; [exact H1|]. split; [exact H2|]. split; [exact H3|].
  split; [exact (proj1 (proj2 empty_quoted_value_is_undefined) "id" H1 H2 H3)|].
  split; [reflexivity|].
  split; [exact (proj1 (proj2 (proj2 (proj2 empty_quoted_value_is_undefined))
                          lone eq_refl))|].
  split; [exact H4|].
  exact (proj1 (proj2 (proj2 empty_quoted_value_is_undefined)) last _ H4).
Defined.

End MetaExpression.

End CodeFacts.

Module SectionProperties.
Import Js Toc Unist TextId SectionTransform Samples MatcherFacts StringFacts TocFacts SectionFacts.

(** ** One call of the visitor *)

(** X1.  A heading the traversal offers, under a parent that has a type,
    followed by [content] without a heading or an export and then by a
    boundary [b] (a heading of any depth, or an export): the call replaces the
    heading and [content] by one section element whose children are
    [content]; the siblings before the heading, the boundary and everything
    after it stay where they are. *)
Theorem section_stops_at_boundary (node parent : Unist.node)
    (pre content rest : list Unist.node) (b : Unist.node) (st : state) :
  test node = true ->
  n_type parent <> "" ->
  n_children parent = pre ++ node :: content ++ b :: rest ->
  forallb notEnd content = true ->
  isEnd b = true ->
  sectionizeToComponent node (Some (length pre, parent)) st
  = (pre ++ section_of node content :: b :: rest, after_calls st [node], Normal)
  /\ n_children (section_of node content) = content.
Proof.
  intros Ht Hp Hc Hcontent Hb. split; [|done].
  rewrite (sectionizeToComponent_at node parent pre (content ++ b :: rest) st Hp Hc).
  rewrite (test_componentName _ Ht).
  assert (Hnb : notEnd b = false) by (unfold notEnd; by rewrite Hb).
  rewrite (takeWhile_app_all _ _ _ Hcontent), (takeWhile_stop _ _ _ Hnb), app_nil_r.
  rewrite (dropWhile_app_all _ _ _ Hcontent), (dropWhile_stop _ _ _ Hnb).
  by rewrite after_calls_one.
Qed.

(** The theorem of X1 on a section that a heading of depth 5 ends. *)
Lemma section_stops_at_boundary_witness :
  let node := heading 2 "Use" in
  let minor := heading 5 "Note" in
  let parent := root [paragraph "intro"; node; paragraph "a"; minor; paragraph "b"] in
  test node = true /\ n_type parent <> "" /\ isEnd minor = true
  /\ sectionizeToComponent node (Some (1, parent)) state0
     = ([paragraph "intro";
         sectionComponent "SubSection" "Use" "use" [paragraph "a"];
         minor; paragraph "b"],
        MkState [MkRecord 2 "Use" "use"] [], Normal).
Proof.
  intros node minor parent.
  assert (H1 : test node = true) by reflexivity.
  assert (H2 : n_type parent <> "") by discriminate.
  assert (H3 : isEnd minor = true) by reflexivity.
  split; [exact H1|]. split; [exact H2|]. split; [exact H3|].
  exact (proj1 (section_stops_at_boundary node parent [paragraph "intro"]
                  [paragraph "a"] [paragraph "b"] minor state0 H1 H2 eq_refl
                  eq_refl H3)).
Defined.

Lemma find_from_Some (t : Unist.node -> bool) l i j e :
  find_from t l i = Some (j, e) ->
  i <= j /\ l !! (j - i) = Some e /\ t e = true
  /\ forall k x, k < j - i -> l !! k = Some x -> t x = false.
Proof.
  revert i. induction l as [|a l IH]; intros i; simpl; [done|].
  destruct (t a) eqn:Ea.
  - intros [= <- <-]. rewrite Nat.sub_diag.
    split; [lia|]. split; [done|]. split; [done|]. intros; lia.
  - intros (Hle & Hl & He & Hbefore)%IH.
    split; [lia|]. replace (j - i) with (S (j - S i)) by lia.
    split; [done|]. split; [done|].
    intros [|k] x Hk; simpl; [by intros [= <-]|]. apply Hbefore. lia.
Qed.

Lemma find_from_None (t : Unist.node -> bool) l i :
  find_from t l i = None -> forall k x, l !! k = Some x -> t x = false.
Proof.
  revert i. induction l as [|a l IH]; intros i; simpl; [done|].
  destruct (t a) eqn:Ea; [done|].
  intros H [|k] x; simpl; [by intros [= <-]|]. by eapply IH.
Qed.

(** X2.  Under a parent that has a type, [findAfter] returns the first
    child after the index that passes the test: it lies after the index and
    inside the children, and no child between passes the test; it returns
    nothing exactly when no later child passes.  So a boundary that is found
    has a position above 0, and the guard [endIndex > 0] of the slice drops
    no boundary; for none, [indexOf] gives -1 and the slice runs to the
    end. *)
Theorem boundary_lies_after_heading (parent : Unist.node) (index : nat)
    (t : Unist.node -> bool) :
  n_type parent <> "" ->
  exists found,
    findAfter (Some parent) index t = Return found
    /\ match found with
       | Some (j, e) =>
           index < j < length (n_children parent)
           /\ n_children parent !! j = Some e
           /\ t e = true
           /\ (forall k x, index < k < j -> n_children parent !! k = Some x ->
                           t x = false)
           /\ (0 <? indexOf_end found)%Z = true
       | None =>
           (forall k x, index < k -> n_children parent !! k = Some x ->
                        t x = false)
           /\ (0 <? indexOf_end found)%Z = false
       end.
Proof.
  intros Hp. unfold findAfter.
  destruct (String.eqb_spec (n_type parent) "") as [E|_]; [done|].
  eexists. split; [reflexivity|].
  destruct (find_from t _ _) as [[j e]|] eqn:Hf.
  - apply find_from_Some in Hf as (Hle & Hl & He & Hbefore).
    rewrite lookup_drop in Hl. replace (S index + (j - S index)) with j in Hl by lia.
    split; [apply lookup_lt_Some in Hl; lia|]. split; [done|]. split; [done|].
    split; [|simpl; apply Z.ltb_lt; lia].
    intros k x Hk Hx. apply (Hbefore (k - S index) x); [lia|].
    rewrite lookup_drop. by replace (S index + (k - S index)) with k by lia.
  - split; [|done]. intros k x Hk Hx.
    apply (find_from_None _ _ _ Hf (k - S index) x).
    rewrite lookup_drop. by replace (S index + (k - S index)) with k by lia.
Qed.

(** The theorem of X2 on the children of the sample page, after the title. *)
Lemma boundary_lies_after_heading_witness :
  n_type page <> ""
  /\ exists found,
       findAfter (Some page) 0 isEnd = Return found
       /\ found = Some (2, heading 2 "Definition").
Proof.
  assert (H : n_type page <> "") by discriminate.
  split; [exact H|].
  destruct (boundary_lies_after_heading page 0 isEnd H) as (found & Hf & _).
  exists found. split; [exact Hf|].
  vm_compute in Hf. injection Hf as <-. reflexivity.
Defined.

(** X3.  A call that completes pushes one record, and the element it puts
    at the position of the heading carries that record: its [title] and [id]
    attributes are the title and the id of the record, its component is the
    one of the depth of the record, which is the depth of the heading.  The
    children of the parent do not get more. *)
Theorem toc_record_matches_section (node parent : Unist.node) (index : nat)
    (st st' : state) (cs : list Unist.node) :
  n_children parent !! index = Some node ->
  sectionizeToComponent node (Some (index, parent)) st = (cs, st', Normal) ->
  exists r name content,
    toc st' = toc st ++ [r]
    /\ r_depth r = n_depth node
    /\ getComponentNameForDepth (r_depth r) = Return name
    /\ cs !! index
       = Some (sectionComponent name (r_title r) (r_id r) content)
    /\ firstn index cs = firstn index (n_children parent)
    /\ length cs <= length (n_children parent).
Proof.
  intros Hnode Hcall.
  destruct (String.eqb_spec (n_type parent) "") as [E|Hp].
  { rewrite (sectionizeToComponent_untyped _ _ _ _ E) in Hcall. by inversion Hcall. }
  pose proof (sectionizeToComponent_child node index parent st Hp Hnode) as Hc.
  cbv zeta in Hc. rewrite Hc in Hcall. clear Hc.
  destruct (lookup_split _ _ _ Hnode) as [Hsplit Hlen].
  set (pre := firstn index (n_children parent)) in *.
  set (post := skipn (S index) (n_children parent)) in *.
  destruct (getComponentNameForDepth (n_depth node)) as [name|e] eqn:Hn;
    [|by inversion Hcall].
  injection Hcall as <- <-.
  exists (record_of node), name, (takeWhile notEnd post).
  split; [done|]. split; [done|]. split; [done|].
  split; [|split].
  - rewrite lookup_app_r by lia. by rewrite Hlen, Nat.sub_diag.
  - rewrite take_app_length'; done.
  - rewrite Hsplit, !length_app. simpl.
    pose proof (length_dropWhile notEnd post). lia.
Qed.

(** The theorem of X3 on the second section of the sample page. *)
Lemma toc_record_matches_section_witness :
  exists cs st' r name content,
    n_children page !! 2 = Some (heading 2 "Definition")
    /\ sectionizeToComponent (heading 2 "Definition") (Some (2, page)) state0
       = (cs, st', Normal)
    /\ toc st' = toc state0 ++ [r]
    /\ cs !! 2 = Some (sectionComponent name (r_title r) (r_id r) content)
    /\ r = MkRecord 2 "Definition" "definition".
Proof.
  destruct (sectionizeToComponent (heading 2 "Definition") (Some (2, page)) state0)
    as [[cs st'] c] eqn:E.
  assert (Hc : c = Normal) by (vm_compute in E; by injection E as _ _ <-).
  subst c.
  destruct (toc_record_matches_section _ page 2 state0 st' cs eq_refl E)
    as (r & name & content & H1 & _ & _ & H4 & _).
  exists cs, st', r, name, content.
  split; [reflexivity|]. split; [reflexivity|]. split; [exact H1|].
  split; [exact H4|].
  vm_compute in E. injection E as _ <-. simpl in H1. by injection H1 as <-.
Defined.

Lemma append_empty a : a +:+ "" = a.
Proof. induction a as [|c a IH]; [done|]. by rewrite append_String, IH. Qed.

Lemma join_empty_cons x l : join "" (x :: l) = x +:+ join "" l.
Proof. destruct l; simpl; [by rewrite append_empty|done]. Qed.

Lemma join_empty_app l1 l2 : join "" (l1 ++ l2) = join "" l1 +:+ join "" l2.
Proof.
  induction l1 as [|x l1 IH]; [done|].
  change ((x :: l1) ++ l2) with (x :: (l1 ++ l2)).
  by rewrite !join_empty_cons, IH, append_assoc'.
Qed.

(** X4.  The text of a heading is made of its own text children only, in
    their order: a child of another type (emphasis, inline code, a link)
    adds nothing, whatever it holds, and the text of two runs of children is
    the text of the first followed by the text of the second. *)
Theorem heading_text_skips_formatting (h : Unist.node) (l1 l2 : list Unist.node) :
  extractTextFromHeading (set_children h (l1 ++ l2))
  = extractTextFromHeading (set_children h l1)
    +:+ extractTextFromHeading (set_children h l2)
  /\ (forall x, isText x = false ->
        extractTextFromHeading (set_children h (l1 ++ x :: l2))
        = extractTextFromHeading (set_children h (l1 ++ l2)))
  /\ (forall x, isText x = true ->
        extractTextFromHeading (set_children h (l1 ++ x :: l2))
        = extractTextFromHeading (set_children h l1) +:+ n_value x
          +:+ extractTextFromHeading (set_children h l2)).
Proof.
  unfold extractTextFromHeading.
  split; [|split].
  - by rewrite !n_children_set_children, List.filter_app, List.map_app,
      join_empty_app.
  - intros x Hx. rewrite !n_children_set_children, !List.filter_app.
    cbn [List.filter]. by rewrite Hx.
  - intros x Hx.
    rewrite !n_children_set_children, !List.filter_app, List.map_app,
      join_empty_app.
    cbn [List.filter]. rewrite Hx. cbn [List.map]. by rewrite join_empty_cons.
Qed.

(** The theorem of X4 on a heading with an emphasized word. *)
Lemma heading_text_skips_formatting_witness :
  let em := parent_node "emphasis" [text "drag"] in
  let h := Node "heading" 2 "" "" "" "" [] [text "Lift and "; em; text " (#ld)"] in
  isText em = false
  /\ extractTextFromHeading h = "Lift and  (#ld)"
  /\ parseTextWithId (trimEnd (extractTextFromHeading h)) = Parsed "Lift and" "ld".
Proof.
  intros em h.
  assert (H : isText em = false) by reflexivity.
  split; [exact H|]. split; [|vm_compute; reflexivity].
  change h with (set_children h ([text "Lift and "] ++ em :: [text " (#ld)"])).
  rewrite (proj1 (proj2 (heading_text_skips_formatting h [text "Lift and "]
                           [text " (#ld)"])) em H).
  reflexivity.
Defined.

(** ** The traversal of a tree without a node to visit *)

Section Untested.

Context {S : Type}.
Variable test : node -> bool.
Variable visitor : node -> option (nat * node) -> S -> list node * S * completion.

Lemma visit_children_untested fuel parent off st :
  nodes_size (skipn off (n_children parent)) < fuel ->
  forallb (fun c => forallb (fun x => negb (test x)) (preorder c))
    (skipn off (n_children parent)) = true ->
  visit_children test visitor fuel parent off st = Some (parent, st, Normal).
Proof.
  revert parent off st. induction fuel as [|fuel IH]; intros parent off st Hsize Hq;
    [lia|].
  cbn [visit_children].
  destruct (n_children parent !! off) as [child|] eqn:Hchild; [|done].
  pose proof (nodes_size_lookup _ _ _ Hchild) as Hs.
  pose proof (node_size_children child) as Hsc.
  rewrite (drop_S _ _ _ Hchild) in Hq. cbn [forallb] in Hq.
  apply andb_prop in Hq as [Hc Hrest].
  rewrite preorder_unfold in Hc. cbn [forallb] in Hc.
  apply andb_prop in Hc as [Ht Hcs]. apply negb_true_iff in Ht. rewrite Ht.
  rewrite forallb_flat_map in Hcs.
  rewrite (IH child 0 st).
  - rewrite list_insert_id by done. rewrite set_children_id.
    apply IH; [lia|done].
  - rewrite drop_0. lia.
  - by rewrite drop_0.
Qed.

Lemma visit_untested tree st :
  forallb (fun x => negb (test x)) (preorder tree) = true ->
  visit test visitor tree st = Some (tree, st, Normal).
Proof.
  intros Hq. rewrite preorder_unfold in Hq. cbn [forallb] in Hq.
  apply andb_prop in Hq as [Ht Hcs]. apply negb_true_iff in Ht.
  unfold visit, visit_fuel. rewrite Ht.
  apply visit_children_untested.
  - rewrite drop_0, node_size_children. lia.
  - rewrite drop_0. by rewrite forallb_flat_map in Hcs.
Qed.

End Untested.

(** ** The transform once the metadata can take the ToC *)

Lemma usable_object v :
  usable v = true -> isObject (if truthy v then v else JObj ∅) = true.
Proof.
  unfold usable. destruct (truthy v); [|done]. by rewrite orb_false_r.
Qed.

(** With a container and a frontmatter that are absent or objects, the
    guards and the final assignment do not throw: the run ends as the
    traversal and the nester end, and the ToC is written exactly when both
    complete. *)
Lemma remarkSectionTransform_prepared tree data t st c :
  usable (from_option (data !! "astro")) = true ->
  usable (from_option (fields (from_option (data !! "astro")) !! "frontmatter"))
  = true ->
  traverse tree = Some (t, st, c) ->
  exists out,
    remarkSectionTransform tree data = Some out
    /\ out_tree out = t
    /\ out_console out = console st
    /\ usable (from_option (out_data out !! "astro")) = true
    /\ usable (from_option
                 (fields (from_option (out_data out !! "astro")) !! "frontmatter"))
       = true
    /\ match c with
       | Abrupt e =>
           out_completion out = Abrupt e /\ toc_of (out_data out) = toc_of data
       | Normal =>
           match nestHeadings (Some (toc st)) with
           | Return nested =>
               out_completion out = Normal
               /\ toc_of (out_data out) = Some (toc_array nested)
           | Throw e =>
               out_completion out = Abrupt e
               /\ toc_of (out_data out) = toc_of data
           end
       end.
Proof.
  intros Hua Huf Htr.
  set (astro0 := from_option (data !! "astro")) in *.
  set (fm0 := from_option (fields astro0 !! "frontmatter")) in *.
  unfold remarkSectionTransform.
  set (astro1 := from_option (ensure_astro data !! "astro")).
  assert (Hastro1 : astro1 = if truthy astro0 then astro0 else JObj ∅)
    by apply ensure_astro_lookup.
  assert (Ho1 : isObject astro1 = true) by (rewrite Hastro1; by apply usable_object).
  assert (Hf1 : fields astro1 = fields astro0).
  { rewrite Hastro1. destruct (truthy astro0) eqn:E; [done|].
    by rewrite (fields_falsy _ E). }
  set (astro2 := if truthy fm0 then astro1
                 else holding astro1 "frontmatter" (JObj ∅)).
  assert (Hprep : ensure_frontmatter astro1 = Return astro2).
  { unfold ensure_frontmatter.
    rewrite (get_prop_object _ _ Ho1), (set_prop_object _ _ _ Ho1), Hf1.
    fold fm0. subst astro2. by destruct (truthy fm0). }
  rewrite Hprep, Htr.
  assert (Ho2 : isObject astro2 = true).
  { subst astro2. destruct (truthy fm0); [done|]. by rewrite isObject_holding. }
  set (fm := from_option (fields astro2 !! "frontmatter")).
  assert (Hfm : fm = if truthy fm0 then fm0 else JObj ∅).
  { subst fm astro2. destruct (truthy fm0) eqn:E.
    - by rewrite Hf1.
    - by rewrite (fields_holding _ _ _ Ho1), lookup_insert_eq. }
  assert (Hofm : isObject fm = true) by (rewrite Hfm; by apply usable_object).
  assert (Hffm : fields fm = fields fm0).
  { rewrite Hfm. destruct (truthy fm0) eqn:E; [done|]. by rewrite (fields_falsy _ E). }
  assert (Hstop : forall e,
    let out := MkOutcome t (<["astro" := astro2]> (ensure_astro data)) (console st)
                 (Abrupt e) in
    out_tree out = t /\ out_console out = console st
    /\ usable (from_option (out_data out !! "astro")) = true
    /\ usable (from_option
                 (fields (from_option (out_data out !! "astro")) !! "frontmatter"))
       = true
    /\ out_completion out = Abrupt e /\ toc_of (out_data out) = toc_of data).
  { intros e. cbn [out_data out_tree out_console out_completion]. unfold toc_of.
    rewrite lookup_insert_eq. cbn [from_option]. fold fm.
    unfold usable. rewrite Ho2, Hofm. fold astro0. fold fm0. by rewrite Hffm. }
  destruct c as [|e]; [|eexists; split; [reflexivity|]; apply Hstop].
  rewrite (get_prop_object _ _ Ho2). fold fm.
  destruct (nestHeadings (Some (toc st))) as [nested|e];
    [|eexists; split; [reflexivity|]; apply Hstop].
  rewrite (set_prop_object _ _ _ Hofm).
  eexists. split; [reflexivity|].
  cbn [out_data out_tree out_console out_completion]. unfold toc_of.
  rewrite lookup_insert_eq. cbn [from_option].
  rewrite (fields_holding _ _ _ Ho2), lookup_insert_eq. cbn [from_option].
  rewrite (fields_holding _ _ _ Hofm), lookup_insert_eq.
  unfold usable. by rewrite !isObject_holding, Ho2, Hofm.
Qed.

Lemma toc_state0 w : toc (after_calls state0 w) = List.map record_of w.
Proof. done. Qed.

Lemma console_state0_nil : console (after_calls state0 []) = [].
Proof. done. Qed.

(** X5.  A tree in which no node is a heading of depth 1 to 4 (no heading
    at all, or headings of depth 5 and 6 only), with a container and a
    frontmatter that are absent or objects: the run completes, leaves the
    tree as it is, prints nothing, and writes the empty ToC; the missing
    title is no error here. *)
Theorem page_without_offered_headings (tree : node) (data : gmap string jsval) :
  quiet tree = true ->
  usable (from_option (data !! "astro")) = true ->
  usable (from_option (fields (from_option (data !! "astro")) !! "frontmatter"))
  = true ->
  exists out,
    remarkSectionTransform tree data = Some out
    /\ out_tree out = tree
    /\ out_console out = []
    /\ out_completion out = Normal
    /\ toc_of (out_data out) = Some (toc_array []).
Proof.
  intros Hq Hua Huf.
  assert (Htr : traverse tree = Some (tree, state0, Normal))
    by (by apply visit_untested).
  destruct (remarkSectionTransform_prepared _ _ _ _ _ Hua Huf Htr)
    as (out & Hout & Ht & Hc & _ & _ & Hn & Htoc).
  by exists out.
Qed.

(** The theorem of X5 on a page that has only a heading of depth 5. *)
Lemma page_without_offered_headings_witness :
  let tree := root [paragraph "intro"; heading 5 "Note"; paragraph "a"] in
  quiet tree = true
  /\ usable (from_option (sample_data !! "astro")) = true
  /\ exists out,
       remarkSectionTransform tree sample_data = Some out
       /\ out_tree out = tree
       /\ out_completion out = Normal
       /\ toc_of (out_data out) = Some (toc_array []).
Proof.
  intros tree.
  assert (H1 : quiet tree = true) by reflexivity.
  assert (H2 : usable (from_option (sample_data !! "astro")) = true) by reflexivity.
  split; [exact H1|]. split; [exact H2|].
  destruct (page_without_offered_headings tree sample_data H1 H2 eq_refl)
    as (out & Ho & Ht & _ & Hn & Htoc).
  exists out. split; [exact Ho|]. split; [exact Ht|]. split; [exact Hn|exact Htoc].
Defined.

(** X6.  A tree whose nodes all have a type and whose root is not a
    heading, with a container and a frontmatter that are absent or objects.
    The run always leaves the tree with its sections made, also when it ends
    in an error: the requirement of one title is checked after the traversal
    has rewritten the tree.  The run completes exactly when the visitor was
    called on no heading or on exactly one of depth 1; with headings but no
    title it ends in the error of the missing title, with several titles in
    the error that carries their number; in both cases the ToC of the
    metadata is left as it was. *)
Theorem title_checked_after_rewrite (tree : node) (data : gmap string jsval) :
  typed tree = true ->
  isHeading tree = false ->
  usable (from_option (data !! "astro")) = true ->
  usable (from_option (fields (from_option (data !! "astro")) !! "frontmatter"))
  = true ->
  exists out,
    remarkSectionTransform tree data = Some out
    /\ out_tree out = sectioned tree
    /\ (out_completion out = Normal
        <-> walked tree = [] \/ titles (walked tree) = 1)
    /\ (out_completion out = Normal ->
        exists nested,
          nestHeadings (Some (List.map record_of (walked tree))) = Return nested
          /\ toc_of (out_data out) = Some (toc_array nested))
    /\ (walked tree <> [] -> titles (walked tree) = 0 ->
        out_completion out = Abrupt "No heading of depth 1 found"
        /\ toc_of (out_data out) = toc_of data)
    /\ (1 < titles (walked tree) ->
        out_completion out
        = Abrupt ("Found " +:+ string_of_Z (Z.of_nat (titles (walked tree)))
                  +:+ " headings of depth 1, expected exactly 1")
        /\ toc_of (out_data out) = toc_of data).
Proof.
  intros Hty Hh Hua Huf.
  pose proof (traverse_sectioned tree Hty (isHeading_test _ Hh)) as Htr.
  destruct (remarkSectionTransform_prepared _ _ _ _ _ Hua Huf Htr)
    as (out & Hout & Ht & _ & _ & _ & Hend).
  exists out. split; [done|]. split; [done|].
  rewrite toc_state0 in Hend. unfold titles.
  set (flat := List.map record_of (walked tree)) in *.
  assert (Hnil : walked tree = [] <-> flat = []).
  { subst flat. destruct (walked tree); [done|]. split; discriminate. }
  unfold nestHeadings in *.
  destruct flat as [|r flat'] eqn:Eflat.
  { destruct Hend as [Hn Htoc]. split; [split; [intros _; left; by apply Hnil|done]|].
    split; [intros _; by exists []|].
    split; [intros Hne; by destruct Hne; apply Hnil|simpl; lia]. }
  set (n := length (List.filter isDepth1 (r :: flat'))) in *.
  assert (Hw : walked tree <> []) by (intros H%Hnil; discriminate).
  destruct (Nat.eqb_spec n 0) as [H0|H0].
  { destruct Hend as [Hn Htoc]. rewrite Hn, H0.
    split; [split; [done|intros [H|H]; [done|lia]]|].
    split; [done|]. split; [done|lia]. }
  destruct (Nat.ltb_spec 1 n) as [H1|H1].
  { destruct Hend as [Hn Htoc]. rewrite Hn.
    split; [split; [done|intros [H|H]; [done|lia]]|].
    split; [done|]. split; [lia|done]. }
  destruct Hend as [Hn Htoc]. rewrite Hn.
  split; [split; [intros _; right; lia|done]|].
  split; [intros _; by eexists|]. split; intros; lia.
Qed.

(** The theorem of X6 on a page with two sections and no title. *)
Lemma title_checked_after_rewrite_witness :
  let tree := root [heading 2 "A"; paragraph "a"; heading 2 "B"] in
  typed tree = true /\ isHeading tree = false
  /\ usable (from_option (sample_data !! "astro")) = true
  /\ walked tree <> [] /\ titles (walked tree) = 0
  /\ exists out,
       remarkSectionTransform tree sample_data = Some out
       /\ out_tree out
          = root [sectionComponent "SubSection" "A" "a" [paragraph "a"];
                  sectionComponent "SubSection" "B" "b" []]
       /\ out_completion out = Abrupt "No heading of depth 1 found"
       /\ toc_of (out_data out) = None.
Proof.
  intros tree.
  assert (H1 : typed tree = true) by reflexivity.
  assert (H2 : isHeading tree = false) by reflexivity.
  assert (H3 : usable (from_option (sample_data !! "astro")) = true) by reflexivity.
  assert (H4 : walked tree <> []) by discriminate.
  assert (H5 : titles (walked tree) = 0) by reflexivity.
  split; [exact H1|]. split; [exact H2|]. split; [exact H3|].
  split; [exact H4|]. split; [exact H5|].
  destruct (title_checked_after_rewrite tree sample_data H1 H2 H3 eq_refl)
    as (out & Ho & Ht & _ & _ & Hmiss & _).
  exists out. split; [exact Ho|]. split; [rewrite Ht; reflexivity|].
  destruct (Hmiss H4 H5) as [Hc Htoc].
  split; [exact Hc|]. rewrite Htoc. reflexivity.
Defined.

(** X7.  A tree whose root is itself a heading of depth 1 to 4, with a
    container and a frontmatter that are absent or objects, so that the two
    guards before the traversal pass: the visitor is called on the root,
    which has no parent, and the search for the end of the section throws;
    the run ends in that error with the tree as it was, nothing printed and
    the ToC of the metadata as it was. *)
Theorem root_heading_has_no_parent (tree : node) (data : gmap string jsval) :
  test tree = true ->
  usable (from_option (data !! "astro")) = true ->
  usable (from_option (fields (from_option (data !! "astro")) !! "frontmatter"))
  = true ->
  exists out,
    remarkSectionTransform tree data = Some out
    /\ out_tree out = tree
    /\ out_console out = []
    /\ out_completion out = Abrupt "Expected parent node"
    /\ toc_of (out_data out) = toc_of data.
Proof.
  intros Ht Hua Huf.
  pose proof (traverse_root_heading tree Ht) as Htr.
  destruct (remarkSectionTransform_prepared _ _ _ _ _ Hua Huf Htr)
    as (out & Hout & Htree & Hc & _ & _ & Hn & Htoc).
  by exists out.
Qed.

(** The theorem of X7 on a lone title, also of depth 1 (no warning is
    printed: the error comes first). *)
Lemma root_heading_has_no_parent_witness :
  test (heading 1 "Title") = true
  /\ usable (from_option ((∅ : gmap string jsval) !! "astro")) = true
  /\ exists out,
       remarkSectionTransform (heading 1 "Title") ∅ = Some out
       /\ out_tree out = heading 1 "Title"
       /\ out_console out = []
       /\ out_completion out = Abrupt "Expected parent node".
Proof.
  assert (H1 : test (heading 1 "Title") = true) by reflexivity.
  assert (H2 : usable (from_option ((∅ : gmap string jsval) !! "astro")) = true)
    by reflexivity.
  split; [exact H1|]. split; [exact H2|].
  destruct (root_heading_has_no_parent (heading 1 "Title") ∅ H1 H2 eq_refl)
    as (out & Ho & Ht & Hc & Hn & _).
  exists out. split; [exact Ho|]. split; [exact Ht|]. split; [exact Hc|exact Hn].
Defined.

(** ** A second run *)

Lemma test_section_of c content : test (section_of c content) = false.
Proof. done. Qed.

Lemma test_sectioned n : test (sectioned n) = test n.
Proof. by destruct n. Qed.

Lemma quiet_sectioned_list l :
  Forall (fun c => well_placed c = true -> test c = false ->
                   quiet (sectioned c) = true) l ->
  forall absorbing,
    placed_list well_placed absorbing l = true ->
    forallb quiet (sectioned_list sectioned absorbing l) = true.
Proof.
  induction 1 as [|c rest Hc _ IH]; intros absorbing Hp; [done|].
  cbn [placed_list sectioned_list] in *.
  destruct (test c) eqn:Et.
  - apply andb_prop in Hp as [_ Hrest]. cbn [forallb].
    rewrite (IH true Hrest), andb_true_r.
    rewrite quiet_unfold, test_section_of. cbn [negb andb].
    unfold section_of, sectionComponent. cbn [n_children].
    rewrite placed_list_absorb in Hrest. by apply andb_prop in Hrest as [? _].
  - destruct (isEnd c).
    + apply andb_prop in Hp as [Hpc Hrest]. cbn [forallb].
      by rewrite (Hc Hpc eq_refl), (IH false Hrest).
    + destruct absorbing.
      * apply andb_prop in Hp as [_ Hrest]. by apply IH.
      * apply andb_prop in Hp as [Hpc Hrest]. cbn [forallb].
        by rewrite (Hc Hpc eq_refl), (IH false Hrest).
Qed.

Lemma quiet_sectioned n :
  well_placed n = true -> test n = false -> quiet (sectioned n) = true.
Proof.
  induction n as [n IH] using node_children_ind. intros Hp Ht.
  rewrite quiet_unfold, test_sectioned, Ht. cbn [negb andb].
  rewrite sectioned_unfold, n_children_set_children.
  apply quiet_sectioned_list; [done|]. by rewrite well_placed_unfold in Hp.
Qed.

(** X8.  A second run on what a first run left (the tree and the metadata),
    for a tree whose nodes all have a type, whose root is not a heading and
    in which no heading of depth 1 to 4 lay in the section of an earlier
    heading or inside a heading, with a container and a frontmatter that were
    absent or objects before the first run: the second run finds no heading
    to convert, so it completes, leaves the tree of the first run as it is,
    prints nothing, and replaces the ToC by the empty one. *)
Theorem second_run_empties_toc (tree : node) (data : gmap string jsval) :
  typed tree = true ->
  isHeading tree = false ->
  well_placed tree = true ->
  usable (from_option (data !! "astro")) = true ->
  usable (from_option (fields (from_option (data !! "astro")) !! "frontmatter"))
  = true ->
  exists out1 out2,
    remarkSectionTransform tree data = Some out1
    /\ remarkSectionTransform (out_tree out1) (out_data out1) = Some out2
    /\ out_tree out2 = out_tree out1
    /\ out_console out2 = []
    /\ out_completion out2 = Normal
    /\ toc_of (out_data out2) = Some (toc_array []).
Proof.
  intros Hty Hh Hp Hua Huf.
  pose proof (traverse_sectioned tree Hty (isHeading_test _ Hh)) as Htr.
  destruct (remarkSectionTransform_prepared _ _ _ _ _ Hua Huf Htr)
    as (out1 & Hout1 & Ht1 & _ & Hua1 & Huf1 & _).
  assert (Hq : quiet (out_tree out1) = true).
  { rewrite Ht1. apply quiet_sectioned; [done|]. by apply isHeading_test. }
  assert (Htr2 : traverse (out_tree out1) = Some (out_tree out1, state0, Normal))
    by (by apply visit_untested).
  destruct (remarkSectionTransform_prepared _ _ _ _ _ Hua1 Huf1 Htr2)
    as (out2 & Hout2 & Ht2 & Hc2 & _ & _ & Hn2 & Htoc2).
  by exists out1, out2.
Qed.

(** The theorem of X8 on the sample page: the first run writes a ToC of two
    entries, the second the empty one. *)
Lemma second_run_empties_toc_witness :
  typed page = true /\ isHeading page = false /\ well_placed page = true
  /\ usable (from_option (sample_data !! "astro")) = true
  /\ exists out1 out2,
       remarkSectionTransform page sample_data = Some out1
       /\ out_completion out1 = Normal
       /\ toc_of (out_data out1)
          = Some (toc_array
                    [TocNode 2 "Definition" "definition"
                       [TocNode 3 "Units" "units" []];
                     TocNode 2 "Use" "use" []])
       /\ remarkSectionTransform (out_tree out1) (out_data out1) = Some out2
       /\ out_tree out2 = out_tree out1
       /\ toc_of (out_data out2) = Some (toc_array []).
Proof.
  assert (H1 : typed page = true) by reflexivity.
  assert (H2 : isHeading page = false) by reflexivity.
  assert (H3 : well_placed page = true) by reflexivity.
  assert (H4 : usable (from_option (sample_data !! "astro")) = true) by reflexivity.
  split; [exact H1|]. split; [exact H2|]. split; [exact H3|]. split; [exact H4|].
  destruct (second_run_empties_toc page sample_data H1 H2 H3 H4 eq_refl)
    as (out1 & out2 & Ho1 & Ho2 & Ht & _ & _ & Htoc).
  exists out1, out2. split; [exact Ho1|].
  assert (E : out1 = match remarkSectionTransform page sample_data with
                     | Some o => o | None => out1 end) by (by rewrite Ho1).
  split; [rewrite E; vm_compute; reflexivity|].
  split; [rewrite E; vm_compute; reflexivity|].
  split; [exact Ho2|]. split; [exact Ht|exact Htoc].
Defined.

(** ** The headings after the transform *)

Lemma forallb_takeWhile_keep {A} (p q : A -> bool) l :
  forallb p l = true -> forallb p (takeWhile q l) = true.
Proof.
  induction l as [|a l IH]; [done|]. cbn [forallb takeWhile].
  intros [Ha Hl]%andb_prop. destruct (q a); [|done].
  cbn [forallb]. by rewrite Ha, IH.
Qed.

Lemma isHeading_sectioned n : isHeading (sectioned n) = isHeading n.
Proof. by destruct n. Qed.

Lemma headings_section_of c content :
  headings (section_of c content) = flat_map headings content.
Proof. by rewrite headings_unfold. Qed.

Lemma headings_sectioned_list l :
  Forall (fun c => well_placed c = true -> depths_in_range c = true ->
                   test c = false -> headings (sectioned c) = []) l ->
  forall absorbing,
    placed_list well_placed absorbing l = true ->
    forallb depths_in_range l = true ->
    flat_map headings (sectioned_list sectioned absorbing l) = [].
Proof.
  induction 1 as [|c rest Hc _ IH]; intros absorbing Hp Hd; [done|].
  cbn [forallb] in Hd. apply andb_prop in Hd as [Hdc Hdrest].
  cbn [placed_list sectioned_list] in *.
  destruct (test c) eqn:Et.
  - apply andb_prop in Hp as [_ Hrest]. cbn [flat_map].
    rewrite (IH true Hrest Hdrest), app_nil_r, headings_section_of.
    rewrite placed_list_absorb in Hrest. apply andb_prop in Hrest as [Hq _].
    apply quiet_list_headings; [done|]. by apply forallb_takeWhile_keep.
  - destruct (isEnd c).
    + apply andb_prop in Hp as [Hpc Hrest]. cbn [flat_map].
      by rewrite (Hc Hpc Hdc eq_refl), (IH false Hrest Hdrest).
    + destruct absorbing.
      * apply andb_prop in Hp as [_ Hrest]. by apply IH.
      * apply andb_prop in Hp as [Hpc Hrest]. cbn [flat_map].
        by rewrite (Hc Hpc Hdc eq_refl), (IH false Hrest Hdrest).
Qed.

Lemma headings_sectioned n :
  well_placed n = true -> depths_in_range n = true -> test n = false ->
  headings (sectioned n) = [].
Proof.
  induction n as [n IH] using node_children_ind. intros Hp Hd Ht.
  rewrite headings_unfold, isHeading_sectioned.
  rewrite (depths_in_range_not_heading _ Hd Ht). cbn [app].
  rewrite sectioned_unfold, n_children_set_children.
  apply headings_sectioned_list; [done| |by apply depths_in_range_children].
  by rewrite well_placed_unfold in Hp.
Qed.

(** X19.  For a tree whose nodes all have a type, whose root is not a
    heading, whose headings all have a depth from 1 to 4, and in which no
    heading lies in the section of an earlier heading or inside a heading,
    with a container that is absent or an object: the tree the transform
    leaves holds no heading node at all; every heading has become a
    section. *)
Theorem no_heading_remains (tree : node) (data : gmap string jsval) :
  typed tree = true ->
  isHeading tree = false ->
  depths_in_range tree = true ->
  well_placed tree = true ->
  usable (from_option (data !! "astro")) = true ->
  exists out,
    remarkSectionTransform tree data = Some out
    /\ headings (out_tree out) = []
    /\ length (n_children (out_tree out)) <= length (n_children tree).
Proof.
  intros Hty Hh Hd Hp Hu.
  destruct (remarkSectionTransform_usable tree data Hu)
    as (out & t & st & c & Hout & Htr & Ht & _).
  rewrite (traverse_sectioned tree Hty (isHeading_test _ Hh)) in Htr.
  injection Htr as <- _ _. exists out. split; [done|]. rewrite Ht. split.
  - apply headings_sectioned; [done|done|by apply isHeading_test].
  - rewrite sectioned_unfold, n_children_set_children.
    generalize (n_children tree). intros l. generalize false.
    induction l as [|x l IH]; intros b; [done|]. cbn [sectioned_list].
    destruct (test x); [simpl; specialize (IH true); lia|].
    destruct (isEnd x); [simpl; specialize (IH false); lia|].
    destruct b; [specialize (IH true); simpl; lia|].
    simpl. specialize (IH false). lia.
Qed.

(** The theorem of X19 on the sample page. *)
Lemma no_heading_remains_witness :
  typed page = true /\ isHeading page = false /\ depths_in_range page = true
  /\ well_placed page = true
  /\ usable (from_option ((∅ : gmap string jsval) !! "astro")) = true
  /\ length (headings page) = 4
  /\ exists out,
       remarkSectionTransform page ∅ = Some out
       /\ headings (out_tree out) = []
       /\ List.map n_name (n_children (out_tree out))
          = ["Section"; "SubSection"; "SubSubSection"; ""; ""; "SubSection"].
Proof.
  assert (H1 : typed page = true) by reflexivity.
  assert (H2 : isHeading page = false) by reflexivity.
  assert (H3 : depths_in_range page = true) by reflexivity.
  assert (H4 : well_placed page = true) by reflexivity.
  assert (H5 : usable (from_option ((∅ : gmap string jsval) !! "astro")) = true)
    by reflexivity.
  split; [exact H1|]. split; [exact H2|]. split; [exact H3|]. split; [exact H4|].
  split; [exact H5|]. split; [reflexivity|].
  destruct (no_heading_remains page ∅ H1 H2 H3 H4 H5) as (out & Ho & Hh & _).
  exists out. split; [exact Ho|]. split; [exact Hh|].
  vm_compute in Ho. injection Ho as <-. reflexivity.
Defined.

Lemma titles_headings w :
  titles w = length (List.filter (fun h => (n_depth h =? 1)%Z) w).
Proof.
  unfold titles. induction w as [|h w IH]; [done|]. cbn [List.map List.filter].
  unfold isDepth1 at 1. cbn [record_of r_depth].
  destruct (n_depth h =? 1)%Z; simpl; by rewrite IH.
Qed.

(** X20.  Under the same conditions on the tree, with a container and a
    frontmatter that are absent or objects: the records given to the nester
    are those of all the headings of the document, one for each, in document
    order.  So the run completes exactly when the document has no heading or
    exactly one heading of depth 1, and the ToC it then writes is the nesting
    of the records of the headings in document order. *)
Theorem toc_lists_headings_in_order (tree : node) (data : gmap string jsval) :
  typed tree = true ->
  isHeading tree = false ->
  depths_in_range tree = true ->
  well_placed tree = true ->
  usable (from_option (data !! "astro")) = true ->
  usable (from_option (fields (from_option (data !! "astro")) !! "frontmatter"))
  = true ->
  exists out,
    remarkSectionTransform tree data = Some out
    /\ (out_completion out = Normal
        <-> headings tree = []
            \/ length (List.filter (fun h => (n_depth h =? 1)%Z) (headings tree))
               = 1)
    /\ (out_completion out = Normal ->
        exists nested,
          nestHeadings (Some (List.map record_of (headings tree))) = Return nested
          /\ toc_of (out_data out) = Some (toc_array nested)).
Proof.
  intros Hty Hh Hd Hp Hua Huf.
  pose proof (traverse_sectioned tree Hty (isHeading_test _ Hh)) as Htr.
  rewrite (walked_headings tree Hp Hd (isHeading_test _ Hh)) in Htr.
  destruct (remarkSectionTransform_prepared _ _ _ _ _ Hua Huf Htr)
    as (out & Hout & _ & _ & _ & _ & Hend).
  exists out. split; [done|].
  rewrite toc_state0 in Hend. rewrite <- titles_headings. unfold titles.
  set (flat := List.map record_of (headings tree)) in *.
  assert (Hnil : headings tree = [] <-> flat = []).
  { subst flat. destruct (headings tree); [done|]. split; discriminate. }
  destruct (nestHeadings (Some flat)) as [nested|e] eqn:En.
  - destruct Hend as [Hn Htoc]. split; [|intros _; by exists nested].
    split; [intros _|done]. unfold nestHeadings in En.
    destruct flat as [|r flat'] eqn:Ef; [left; by apply Hnil|]. right.
    remember (length (List.filter isDepth1 (r :: flat'))) as n eqn:Hlen.
    destruct n as [|[|n]]; [done|done|done].
  - destruct Hend as [Hn Htoc]. rewrite Hn. split; [|done].
    split; [done|]. intros [H|H]; exfalso.
    + apply Hnil in H. by rewrite H in En.
    + by rewrite (nestHeadings_valid _ H) in En.
Qed.

(** The theorem of X20 on the sample page. *)
Lemma toc_lists_headings_in_order_witness :
  typed page = true /\ isHeading page = false /\ depths_in_range page = true
  /\ well_placed page = true
  /\ List.map record_of (headings page)
     = [MkRecord 1 "Wing loading" "wl"; MkRecord 2 "Definition" "definition";
        MkRecord 3 "Units" "units"; MkRecord 2 "Use" "use"]
  /\ exists out,
       remarkSectionTransform page ∅ = Some out
       /\ out_completion out = Normal
       /\ toc_of (out_data out)
          = Some (toc_array
                    [TocNode 2 "Definition" "definition"
                       [TocNode 3 "Units" "units" []];
                     TocNode 2 "Use" "use" []]).
Proof.
  assert (H1 : typed page = true) by reflexivity.
  assert (H2 : isHeading page = false) by reflexivity.
  assert (H3 : depths_in_range page = true) by reflexivity.
  assert (H4 : well_placed page = true) by reflexivity.
  split; [exact H1|]. split; [exact H2|]. split; [exact H3|]. split; [exact H4|].
  split; [reflexivity|].
  assert (H5 : usable (from_option ((∅ : gmap string jsval) !! "astro")) = true)
    by reflexivity.
  assert (H6 : usable (from_option
                   (fields (from_option ((∅ : gmap string jsval) !! "astro"))
                      !! "frontmatter")) = true) by reflexivity.
  destruct (toc_lists_headings_in_order page ∅ H1 H2 H3 H4 H5 H6)
    as (out & Ho & Hiff & Htoc).
  exists out. split; [exact Ho|].
  assert (Hn : out_completion out = Normal).
  { apply Hiff. right. reflexivity. }
  split; [exact Hn|].
  destruct (Htoc Hn) as (nested & Hnest & Ht). rewrite Ht.
  vm_compute in Hnest. injection Hnest as <-. reflexivity.
Defined.

(** ** The content outside the headings *)

Lemma outside_headings_unfold n :
  outside_headings n
  = if isHeading n then []
    else (if isBlock n then [] else [(n_type n, n_value n)])
         ++ flat_map outside_headings (n_children n).
Proof. by destruct n. Qed.

Lemma outside_headings_section_of c content :
  outside_headings (section_of c content) = flat_map outside_headings content.
Proof. by rewrite outside_headings_unfold. Qed.

Lemma outside_headings_test c : test c = true -> outside_headings c = [].
Proof.
  intros Ht. rewrite outside_headings_unfold.
  unfold test in Ht. apply andb_prop in Ht as [Ht _].
  apply andb_prop in Ht as [-> _]. done.
Qed.

Lemma isBlock_sectioned n : isBlock (sectioned n) = isBlock n.
Proof. by destruct n. Qed.

Lemma n_type_sectioned n : n_type (sectioned n) = n_type n.
Proof. by destruct n. Qed.

Lemma n_value_sectioned n : n_value (sectioned n) = n_value n.
Proof. by destruct n. Qed.

Lemma outside_headings_sectioned_list l :
  Forall (fun c => outside_headings (sectioned c) = outside_headings c) l ->
  forall absorbing,
    flat_map outside_headings (sectioned_list sectioned absorbing l)
    = flat_map outside_headings (if absorbing then dropWhile notEnd l else l).
Proof.
  induction 1 as [|c rest Hc _ IH]; intros absorbing; [by destruct absorbing|].
  cbn [sectioned_list].
  destruct (test c) eqn:Et.
  - assert (Hend : notEnd c = false).
    { unfold notEnd. by rewrite (test_isEnd _ Et). }
    cbn [flat_map]. rewrite outside_headings_section_of, (IH true).
    rewrite <- flat_map_app, takeWhile_dropWhile.
    destruct absorbing.
    + rewrite (dropWhile_stop _ _ _ Hend). cbn [flat_map].
      by rewrite (outside_headings_test _ Et).
    + cbn [flat_map]. by rewrite (outside_headings_test _ Et).
  - destruct (isEnd c) eqn:Ee.
    + assert (Hend : notEnd c = false) by (unfold notEnd; by rewrite Ee).
      cbn [flat_map]. rewrite Hc, (IH false).
      destruct absorbing; [by rewrite (dropWhile_stop _ _ _ Hend)|done].
    + assert (Hend : notEnd c = true) by (unfold notEnd; by rewrite Ee).
      destruct absorbing.
      * rewrite (IH true). cbn [dropWhile]. by rewrite Hend.
      * cbn [flat_map]. by rewrite Hc, (IH false).
Qed.

Lemma outside_headings_sectioned n :
  outside_headings (sectioned n) = outside_headings n.
Proof.
  induction n as [n IH] using node_children_ind.
  rewrite (outside_headings_unfold (sectioned n)), (outside_headings_unfold n).
  rewrite isHeading_sectioned, isBlock_sectioned, n_type_sectioned,
    n_value_sectioned.
  destruct (isHeading n); [done|]. f_equal.
  rewrite sectioned_unfold, n_children_set_children.
  by rewrite (outside_headings_sectioned_list _ IH false).
Qed.

(** X23.  The transform loses no content and keeps its order: for a tree
    whose nodes all have a type and whose root is not a heading, with a
    container that is absent or an object, the nodes that are neither
    headings, nor inside headings, nor structured blocks are, by type and
    value and in document order, the same in the tree the transform leaves as
    in the tree it was given, also when the run ends in an error of the
    nester. *)
Theorem content_outside_headings_is_kept (tree : node) (data : gmap string jsval) :
  typed tree = true ->
  isHeading tree = false ->
  usable (from_option (data !! "astro")) = true ->
  exists out,
    remarkSectionTransform tree data = Some out
    /\ outside_headings (out_tree out) = outside_headings tree.
Proof.
  intros Hty Hh Hu.
  destruct (remarkSectionTransform_usable tree data Hu)
    as (out & t & st & c & Hout & Htr & Ht & _).
  rewrite (traverse_sectioned tree Hty (isHeading_test _ Hh)) in Htr.
  injection Htr as <- _ _. exists out. split; [done|].
  rewrite Ht. apply outside_headings_sectioned.
Qed.

(** The theorem of X23 on the sample page. *)
Lemma content_outside_headings_is_kept_witness :
  typed page = true /\ isHeading page = false
  /\ usable (from_option ((∅ : gmap string jsval) !! "astro")) = true
  /\ exists out,
       remarkSectionTransform page ∅ = Some out
       /\ outside_headings (out_tree out)
          = [("root", ""); ("paragraph", ""); ("text", "intro");
             ("paragraph", ""); ("text", "a"); ("paragraph", ""); ("text", "b");
             ("export", "export const x = 1"); ("paragraph", "");
             ("text", "after")].
Proof.
  assert (H1 : typed page = true) by reflexivity.
  assert (H2 : isHeading page = false) by reflexivity.
  assert (H3 : usable (from_option ((∅ : gmap string jsval) !! "astro")) = true)
    by reflexivity.
  split; [exact H1|]. split; [exact H2|]. split; [exact H3|].
  destruct (content_outside_headings_is_kept page ∅ H1 H2 H3) as (out & Ho & Hk).
  exists out. split; [exact Ho|]. rewrite Hk. reflexivity.
Defined.

End SectionProperties.

Module CodeProperties.
Import Js Regex Toc Unist CodeTransform Samples MatcherFacts StringFacts SectionFacts CodeFacts SectionProperties.

(** ** The code transform as a function on trees *)

Lemma boxed_unfold n :
  boxed n = if isCode n then codeBoxElement n
            else set_children n (List.map boxed (n_children n)).
Proof. destruct n. unfold isCode. simpl. by destruct (String.eqb _ _). Qed.

Lemma isCode_codeBoxElement n : isCode (codeBoxElement n) = false.
Proof. done. Qed.

Lemma isCode_boxed n : isCode (boxed n) = false.
Proof.
  rewrite boxed_unfold. destruct (isCode n) eqn:E; [done|].
  by destruct n.
Qed.

Lemma take_S_insert {A} (l : list A) off x y :
  l !! off = Some y -> firstn (S off) (<[off := x]> l) = firstn off l ++ [x].
Proof.
  intros Hy. apply lookup_lt_Some in Hy.
  rewrite (take_S_r _ _ x) by (by apply list_lookup_insert_eq).
  by rewrite take_insert_ge by lia.
Qed.

Lemma drop_S_insert {A} (l : list A) off x :
  skipn (S off) (<[off := x]> l) = skipn (S off) l.
Proof. apply drop_insert_lt. lia. Qed.

(** The loop of the traversal computes [boxed] on the children from the
    offset on; the visitor does not throw below the root. *)
Lemma visit_children_boxed fuel parent off :
  nodes_size (skipn off (n_children parent)) < fuel ->
  visit_children isCode codeVisitor fuel parent off tt
  = Some (set_children parent
            (firstn off (n_children parent)
             ++ List.map boxed (skipn off (n_children parent))),
          tt, Normal).
Proof.
  revert parent off. induction fuel as [|fuel IH]; intros parent off Hsize; [lia|].
  cbn [visit_children].
  destruct (n_children parent !! off) as [child|] eqn:Hchild.
  2:{ apply lookup_ge_None in Hchild.
      rewrite drop_ge, take_ge, app_nil_r by lia. by rewrite set_children_id. }
  pose proof (nodes_size_lookup _ _ _ Hchild) as Hs.
  pose proof (node_size_children child) as Hsc.
  assert (Hin : nodes_size (skipn 0 (n_children child)) < fuel)
    by (rewrite drop_0; lia).
  rewrite (drop_S _ _ _ Hchild). cbn [List.map].
  destruct (isCode child) eqn:Ec.
  - cbn [codeVisitor]. rewrite (IH child 0 Hin).
    rewrite IH.
    2:{ rewrite n_children_set_children, drop_S_insert. lia. }
    rewrite set_children_set_children, n_children_set_children.
    rewrite (take_S_insert _ _ _ _ Hchild), drop_S_insert, <- app_assoc.
    rewrite (boxed_unfold child), Ec. done.
  - rewrite (IH child 0 Hin). rewrite drop_0, take_0. cbn [app].
    rewrite IH.
    2:{ rewrite n_children_set_children, drop_S_insert. lia. }
    rewrite set_children_set_children, n_children_set_children.
    rewrite (take_S_insert _ _ _ _ Hchild), drop_S_insert, <- app_assoc.
    rewrite (boxed_unfold child), Ec. done.
Qed.

(** X9.  The code transform replaces every code node that has a parent,
    at any depth, by its CodeBox and gives every other node the transformed
    children, keeping its other properties; the run does not throw.  The one
    exception is a tree whose root is itself a code node: the assignment into
    the missing parent throws, and the tree is left as it was. *)
Theorem code_blocks_become_boxes (tree : node) :
  (isCode tree = false -> remarkCodeTransform tree = Some (boxed tree, Normal))
  /\ (isCode tree = true ->
      remarkCodeTransform tree = Some (tree, Abrupt "TypeError")).
Proof.
  split.
  - intros Hc. unfold remarkCodeTransform, visit, visit_fuel. rewrite Hc.
    rewrite visit_children_boxed.
    + rewrite take_0, drop_0. cbn [app]. by rewrite boxed_unfold, Hc.
    + rewrite drop_0, node_size_children. lia.
  - intros Hc. unfold remarkCodeTransform, visit, visit_fuel. by rewrite Hc.
Qed.

(** The theorem of X9 on a page with a code block inside a quotation. *)
Lemma code_blocks_become_boxes_witness :
  let block := code_block "js" "" "let x" in
  let tree := root [paragraph "a"; blockquote [block]] in
  isCode tree = false /\ isCode block = true
  /\ remarkCodeTransform tree
     = Some (root [paragraph "a"; blockquote [codeBoxElement block]], Normal)
  /\ remarkCodeTransform block = Some (block, Abrupt "TypeError").
Proof.
  intros block tree.
  assert (H1 : isCode tree = false) by reflexivity.
  assert (H2 : isCode block = true) by reflexivity.
  split; [exact H1|]. split; [exact H2|]. split.
  - rewrite (proj1 (code_blocks_become_boxes tree) H1). reflexivity.
  - exact (proj2 (code_blocks_become_boxes block) H2).
Defined.

Lemma boxed_without_code n :
  forallb (fun x => negb (isCode x)) (preorder n) = true -> boxed n = n.
Proof.
  induction n as [n IH] using node_children_ind. intros Hq.
  rewrite preorder_unfold in Hq. cbn [forallb] in Hq.
  apply andb_prop in Hq as [Hn Hcs]. apply negb_true_iff in Hn.
  rewrite boxed_unfold, Hn. rewrite forallb_flat_map in Hcs.
  transitivity (set_children n (n_children n)); [|apply set_children_id].
  f_equal.
  transitivity (List.map (fun c => c) (n_children n)); [|apply List.map_id].
  apply List.map_ext_in. intros c Hc.
  rewrite Forall_forall in IH. apply IH; [by apply list_elem_of_In|].
  rewrite forallb_forall in Hcs. by apply Hcs.
Qed.

Lemma boxed_no_code n :
  forallb (fun x => negb (isCode x)) (preorder (boxed n)) = true.
Proof.
  induction n as [n IH] using node_children_ind.
  rewrite boxed_unfold. destruct (isCode n) eqn:Ec; [done|].
  rewrite preorder_unfold. cbn [forallb].
  assert (Hs : isCode (set_children n (List.map boxed (n_children n))) = false)
    by (by destruct n).
  rewrite Hs. cbn [negb andb]. rewrite n_children_set_children, forallb_flat_map.
  apply forallb_forall. intros c' Hc'.
  apply in_map_iff in Hc' as (c & <- & Hc).
  rewrite Forall_forall in IH. apply IH. by apply list_elem_of_In.
Qed.

(** X10.  After the code transform no node of the tree is a code node, so
    a second run changes nothing; and a tree without code nodes is left as
    it is by the first. *)
Theorem code_transform_runs_once (tree : node) :
  isCode tree = false ->
  exists out,
    remarkCodeTransform tree = Some (out, Normal)
    /\ forallb (fun x => negb (isCode x)) (preorder out) = true
    /\ remarkCodeTransform out = Some (out, Normal)
    /\ (forallb (fun x => negb (isCode x)) (preorder tree) = true -> out = tree).
Proof.
  intros Hc. exists (boxed tree).
  assert (Hrun : forall t, isCode t = false ->
                           remarkCodeTransform t = Some (boxed t, Normal)).
  { intros t Ht. unfold remarkCodeTransform, visit, visit_fuel. rewrite Ht.
    rewrite visit_children_boxed.
    - rewrite take_0, drop_0. cbn [app]. by rewrite boxed_unfold, Ht.
    - rewrite drop_0, node_size_children. lia. }
  split; [by apply Hrun|]. split; [apply boxed_no_code|]. split.
  - rewrite (Hrun _ (isCode_boxed tree)).
    by rewrite (boxed_without_code _ (boxed_no_code tree)).
  - apply boxed_without_code.
Qed.

(** The theorem of X10 on a page with two code blocks. *)
Lemma code_transform_runs_once_witness :
  let tree := root [code_block "js" "" "let x"; paragraph "a";
                    code_block "py" "id=run" "x = 1"] in
  isCode tree = false
  /\ exists out,
       remarkCodeTransform tree = Some (out, Normal)
       /\ remarkCodeTransform out = Some (out, Normal)
       /\ List.map n_name (n_children out) = ["CodeBox"; ""; "CodeBox"].
Proof.
  intros tree.
  assert (H : isCode tree = false) by reflexivity.
  split; [exact H|].
  destruct (code_transform_runs_once tree H) as (out & H1 & _ & H3 & _).
  exists out. split; [exact H1|]. split; [exact H3|].
  vm_compute in H1. injection H1 as <-. reflexivity.
Defined.

(** ** The string literal of the code *)

Lemma json_escape_nonempty c : json_escape c <> [].
Proof.
  pose proof (for_all_ascii (fun c => negb (length (json_escape c) =? 0)%nat)
                ltac:(vm_compute; reflexivity) c) as H.
  cbv beta in H. by destruct (json_escape c).
Qed.

Lemma json_escape_printable c :
  forallb (fun x => (32 <=? code x)%N) (json_escape c) = true.
Proof.
  apply (for_all_ascii (fun c => forallb (fun x => (32 <=? code x)%N) (json_escape c))).
  vm_compute. reflexivity.
Qed.

(** The escapes form a prefix code: the escape of one code unit does not
    begin the escape of another. *)
Lemma json_escape_prefix_free c1 c2 :
  firstn (length (json_escape c1)) (json_escape c2) = json_escape c1 -> c1 = c2.
Proof.
  pose proof (for_all_ascii
    (fun a => forallb (fun b =>
       Ascii.eqb a b
       || negb (String.eqb
                  (to_string (firstn (length (json_escape a)) (json_escape b)))
                  (to_string (json_escape a))))
       (List.map ascii_of_nat (seq 0 256)))
    ltac:(vm_compute; reflexivity) c1) as H.
  cbv beta in H. rewrite forallb_forall in H.
  specialize (H c2 (ascii_enumerated c2)).
  intros E. rewrite E, String.eqb_refl in H.
  rewrite orb_false_r in H. by apply Ascii.eqb_eq.
Qed.

Lemma json_escape_cancel c1 c2 r1 r2 :
  json_escape c1 ++ r1 = json_escape c2 ++ r2 -> c1 = c2 /\ r1 = r2.
Proof.
  intros E.
  assert (Hc : c1 = c2).
  { destruct (Nat.le_gt_cases (length (json_escape c1)) (length (json_escape c2))).
    - apply json_escape_prefix_free.
      apply (f_equal (firstn (length (json_escape c1)))) in E.
      rewrite take_app_length in E.
      rewrite take_app_le in E by done. done.
    - symmetry. apply json_escape_prefix_free.
      apply (f_equal (firstn (length (json_escape c2)))) in E.
      rewrite take_app_length in E.
      rewrite take_app_le in E by lia. done. }
  subst c2. split; [done|]. by apply app_inv_head in E.
Qed.

Lemma flat_map_json_escape_inj l1 l2 :
  flat_map json_escape l1 = flat_map json_escape l2 -> l1 = l2.
Proof.
  revert l2. induction l1 as [|c1 l1 IH]; intros [|c2 l2]; simpl; try done.
  - intros E. symmetry in E. apply app_eq_nil in E as [E _].
    by destruct (json_escape_nonempty c2).
  - intros E. apply app_eq_nil in E as [E _].
    by destruct (json_escape_nonempty c1).
  - intros [-> E]%json_escape_cancel. by rewrite (IH _ E).
Qed.

Lemma json_escape_plain c :
  (32 <=? code c)%N = true -> c <> dq -> c <> "\"%char -> json_escape c = [c].
Proof.
  intros H32 Hq Hb.
  pose proof (for_all_ascii
    (fun c => negb (32 <=? code c)%N || Ascii.eqb c dq || Ascii.eqb c "\"%char
              || String.eqb (to_string (json_escape c)) (to_string [c]))
    ltac:(vm_compute; reflexivity) c) as H.
  cbv beta in H. rewrite H32 in H. cbn [negb orb] in H.
  apply Ascii.eqb_neq in Hq, Hb. rewrite Hq, Hb in H. cbn [orb] in H.
  apply String.eqb_eq in H. apply (f_equal of_string) in H.
  by rewrite !of_to_string in H.
Qed.

(** X11.  The text [JSON.stringify(code)] put into the [code] attribute is
    one string literal: it starts and ends with a double quote, and between
    them holds no control character, so no line break, whatever the code
    holds.  A code without a double quote, a backslash or a control
    character stands between the quotes as it is.  Two different codes give
    two different literals. *)
Theorem code_literal_is_faithful (code : string) :
  (exists body,
     of_string (JSON_stringify code) = dq :: body ++ [dq]
     /\ forallb (fun x => (32 <=? Js.code x)%N) body = true
     /\ (forallb (fun x => (32 <=? Js.code x)%N && negb (Ascii.eqb x dq)
                           && negb (Ascii.eqb x "\"%char))
           (of_string code) = true ->
         body = of_string code))
  /\ (forall code', JSON_stringify code = JSON_stringify code' -> code = code').
Proof.
  split.
  - exists (flat_map json_escape (of_string code)).
    split; [unfold JSON_stringify; by rewrite of_to_string|]. split.
    + rewrite forallb_flat_map. apply forallb_forall. intros c _.
      apply json_escape_printable.
    + induction (of_string code) as [|c l IH]; [done|]. cbn [forallb flat_map].
      intros [Hc Hl]%andb_prop. apply andb_prop in Hc as [Hc Hb].
      apply andb_prop in Hc as [H32 Hq].
      apply negb_true_iff, Ascii.eqb_neq in Hq, Hb.
      by rewrite (json_escape_plain c H32 Hq Hb), (IH Hl).
  - intros code' E. apply (f_equal of_string) in E. unfold JSON_stringify in E.
    rewrite !of_to_string in E. injection E as E.
    apply app_inv_tail in E. apply flat_map_json_escape_inj in E.
    by apply of_string_inj.
Qed.

(** The theorem of X11 on a plain line of code, and the literal of a code
    with a quote and a line break. *)
Lemma code_literal_is_faithful_witness :
  forallb (fun x => (32 <=? Js.code x)%N && negb (Ascii.eqb x dq)
                    && negb (Ascii.eqb x "\"%char))
    (of_string "let x = 1;") = true
  /\ of_string (JSON_stringify "let x = 1;")
     = dq :: of_string "let x = 1;" ++ [dq]
  /\ of_string (JSON_stringify (String dq (String "010" "a")))
     = [dq; "\"%char; dq; "\"%char; "n"%char; "a"%char; dq].
Proof.
  assert (H : forallb (fun x => (32 <=? Js.code x)%N && negb (Ascii.eqb x dq)
                                && negb (Ascii.eqb x "\"%char))
                (of_string "let x = 1;") = true) by reflexivity.
  split; [exact H|]. split; [|reflexivity].
  destruct (proj1 (code_literal_is_faithful "let x = 1;")) as (body & Hb & _ & Hp).
  rewrite Hb, (Hp H). reflexivity.
Defined.

Section Entries.

(** ** The expression of [parseMeta] on well-formed entries *)

#[local] Arguments Ascii.eqb : simpl never.
#[local] Arguments isWord : simpl never.
#[local] Arguments isSpace : simpl never.
#[local] Arguments notQuote : simpl never.
#[local] Arguments notSpace : simpl never.

Lemma notQuote_not_dq a : notQuote a = true -> Ascii.eqb dq a = false.
Proof.
  unfold notQuote, isQuote. intros H%negb_true_iff.
  by rewrite Ascii.eqb_sym.
Qed.

(** The key and the equals sign: the first group takes the whole key. *)
Lemma m_reMeta_key key tail prev :
  key <> [] -> forallb isWord key = true ->
  m reMeta accept prev (key ++ "="%char :: tail) []
  = m (Alt (Cat (Chr dq) (Cat (Grp 2 (Star true notQuote)) (Chr dq)))
           (Grp 3 (Plus true notSpace)))
      accept (Some "="%char) tail [(1, key)].
Proof.
  intros Hne Hw. destruct key as [|a key']; [done|].
  cbn [forallb] in Hw. apply andb_prop in Hw as [Ha Hw].
  unfold reMeta, Plus.
  set (alt := Alt _ _).
  set (s := (a :: key') ++ "="%char :: tail).
  change (m (Cat (Grp 1 (Cat (Cls isWord) (Star true isWord))) (Cat (Chr "=") alt))
            accept prev s [])
    with (m (Cls isWord)
            (star_greedy isWord
               (fun prev' s' c' =>
                  m (Cat (Chr "=") alt) accept prev' s'
                    (cap_set 1 (firstn (length s - length s') s) c')))
            prev s []).
  subst s. cbn [m app]. rewrite Ha.
  rewrite star_greedy_skip.
  2:{ intros b s' prev' c' Hb. cbn [m]. by rewrite (word_not_equals b Hb). }
  rewrite dropWhile_app_all by done.
  rewrite (dropWhile_stop isWord "="%char tail) by done.
  cbn [m]. rewrite Ascii.eqb_refl.
  change (a :: key' ++ "="%char :: tail) with ((a :: key') ++ "="%char :: tail).
  by rewrite take_matched.
Qed.

Lemma attempt_quoted key value rest i prev :
  key <> [] -> forallb isWord key = true -> forallb notQuote value = true ->
  attempt reMeta i prev (key ++ "="%char :: dq :: value ++ dq :: rest)
  = Some (Found i (key ++ "="%char :: dq :: value ++ [dq]) rest
            [(2, value); (1, key)]).
Proof.
  intros Hne Hw Hv. unfold attempt. rewrite (m_reMeta_key _ _ _ Hne Hw).
  cbn [m]. rewrite Ascii.eqb_refl.
  rewrite star_greedy_skip.
  2:{ intros b s' prev' c' Hb. cbn [m]. by rewrite (notQuote_not_dq b Hb). }
  rewrite dropWhile_app_all by done.
  rewrite (dropWhile_stop notQuote dq rest) by done.
  rewrite Ascii.eqb_refl. unfold accept, cap_set. rewrite take_matched.
  do 3 f_equal.
  replace (key ++ "="%char :: dq :: value ++ dq :: rest)
    with ((key ++ "="%char :: dq :: value ++ [dq]) ++ rest)
    by (rewrite <- !app_assoc; simpl; by rewrite <- app_assoc).
  apply take_matched.
Qed.

Lemma attempt_bare key v0 value rest i prev :
  key <> [] -> forallb isWord key = true ->
  notQuote v0 = true -> forallb notSpace (v0 :: value) = true ->
  dropWhile notSpace rest = rest ->
  attempt reMeta i prev (key ++ "="%char :: (v0 :: value) ++ rest)
  = Some (Found i (key ++ "="%char :: v0 :: value) rest
            [(3, v0 :: value); (1, key)]).
Proof.
  intros Hne Hw Hq Hv Hrest. unfold attempt. rewrite (m_reMeta_key _ _ _ Hne Hw).
  cbn [forallb] in Hv. apply andb_prop in Hv as [Hv0 Hv].
  cbn [m app]. rewrite (notQuote_not_dq _ Hq).
  unfold Plus.
  set (s := v0 :: value ++ rest).
  change (m (Grp 3 (Cat (Cls notSpace) (Star true notSpace))) accept
            (Some "="%char) s [(1, key)])
    with (m (Cls notSpace)
            (star_greedy notSpace
               (fun prev' s' c' =>
                  accept prev' s' (cap_set 3 (firstn (length s - length s') s) c')))
            (Some "="%char) s [(1, key)]).
  subst s. cbn [m]. rewrite Hv0.
  erewrite star_greedy_longest.
  2:{ rewrite dropWhile_app_all, Hrest by done. reflexivity. }
  unfold cap_set.
  change (v0 :: value ++ rest) with ((v0 :: value) ++ rest).
  rewrite take_matched. do 3 f_equal.
  replace (key ++ "="%char :: (v0 :: value) ++ rest)
    with ((key ++ "="%char :: v0 :: value) ++ rest)
    by (rewrite <- !app_assoc; done).
  apply take_matched.
Qed.

Lemma attempt_reMeta_not_word i prev a s :
  isWord a = false -> attempt reMeta i prev (a :: s) = None.
Proof. intros Ha. unfold attempt, reMeta, Plus. cbn [m]. by rewrite Ha. Qed.

Lemma attempt_reMeta_nil i prev : attempt reMeta i prev [] = None.
Proof. done. Qed.

(** *** The text of an entry *)

Lemma of_string_quoted_entry key value :
  of_string (quoted_entry key value)
  = of_string key ++ "="%char :: dq :: of_string value ++ [dq].
Proof.
  unfold quoted_entry. rewrite !of_string_app.
  change (of_string (String dq (value +:+ String dq "")))
    with (dq :: of_string (value +:+ String dq "")).
  by rewrite of_string_app.
Qed.

Lemma of_string_bare_entry key value :
  of_string (bare_entry key value) = of_string key ++ "="%char :: of_string value.
Proof. unfold bare_entry. by rewrite !of_string_app. Qed.

Lemma well_formed_key e :
  well_formed e = true ->
  of_string (e_key e) <> [] /\ forallb isWord (of_string (e_key e)) = true.
Proof.
  unfold well_formed. intros H. apply andb_prop in H as [H _].
  apply andb_prop in H as [Hne Hw]. split; [|done].
  apply negb_true_iff, String.eqb_neq in Hne. by rewrite of_string_nil.
Qed.

(** A rest at which an entry ends: the end of the text, or white space. *)
Lemma attempt_entry e rest i prev :
  well_formed e = true ->
  dropWhile notSpace rest = rest ->
  attempt reMeta i prev (of_string (entry_text e) ++ rest)
  = Some (Found i (of_string (entry_text e)) rest
            (if e_quoted e
             then [(2, of_string (e_value e)); (1, of_string (e_key e))]
             else [(3, of_string (e_value e)); (1, of_string (e_key e))])).
Proof.
  intros Hwf Hrest. destruct (well_formed_key e Hwf) as [Hne Hw].
  unfold well_formed in Hwf. apply andb_prop in Hwf as [_ Hv].
  unfold entry_text. destruct (e_quoted e).
  - rewrite of_string_quoted_entry.
    replace ((of_string (e_key e) ++ "="%char :: dq :: of_string (e_value e) ++ [dq])
             ++ rest)
      with (of_string (e_key e) ++ "="%char :: dq :: of_string (e_value e)
            ++ dq :: rest)
      by (rewrite <- !app_assoc; simpl; by rewrite <- app_assoc).
    by apply attempt_quoted.
  - rewrite of_string_bare_entry. apply andb_prop in Hv as [Hv Hq].
    destruct (of_string (e_value e)) as [|v0 value] eqn:Ev; [done|].
    replace ((of_string (e_key e) ++ "="%char :: v0 :: value) ++ rest)
      with (of_string (e_key e) ++ "="%char :: (v0 :: value) ++ rest)
      by (rewrite <- !app_assoc; done).
    by apply attempt_bare.
Qed.

Lemma entry_text_cons e :
  well_formed e = true ->
  exists a t, of_string (entry_text e) = a :: t /\ isWord a = true.
Proof.
  intros Hwf. destruct (well_formed_key e Hwf) as [Hne Hw].
  destruct (of_string (e_key e)) as [|a k] eqn:Ek; [done|].
  cbn [forallb] in Hw. apply andb_prop in Hw as [Ha _].
  unfold entry_text. destruct (e_quoted e).
  - rewrite of_string_quoted_entry, Ek. by eexists _, _.
  - rewrite of_string_bare_entry, Ek. by eexists _, _.
Qed.

(** *** All the matches of a meta text *)

Lemma tail_ends es :
  let tail := flat_map (fun e => " "%char :: of_string (entry_text e)) es in
  dropWhile notSpace tail = tail.
Proof. by destruct es. Qed.

Lemma all_from_tail es : forall fuel i prev,
  forallb well_formed es = true -> length es <= fuel ->
  all_from fuel reMeta i prev
    (flat_map (fun e => " "%char :: of_string (entry_text e)) es)
  = List.map (fun e => of_string (entry_text e)) es.
Proof.
  induction es as [|e es IH]; intros fuel i prev Hwf Hlen.
  - by apply all_from_nil.
  - destruct fuel as [|fuel]; [simpl in Hlen; lia|].
    cbn [forallb] in Hwf. apply andb_prop in Hwf as [He Hes].
    cbn [flat_map List.map]. set (tail := flat_map _ es).
    change ((" "%char :: of_string (entry_text e)) ++ tail)
      with (" "%char :: (of_string (entry_text e) ++ tail)).
    cbn [all_from].
    rewrite search_skip by (by apply attempt_reMeta_not_word).
    rewrite (search_attempt _ _ _ _ _
               (attempt_entry e tail (S i) (Some " "%char) He (tail_ends es))).
    cbn [f_text f_rest f_index].
    destruct (entry_text_cons e He) as (a & t & Et & _). rewrite Et.
    f_equal. apply IH; [done|simpl in Hlen; lia].
Qed.

Lemma of_string_meta_text e es :
  of_string (meta_text (e :: es))
  = of_string (entry_text e)
    ++ flat_map (fun e => " "%char :: of_string (entry_text e)) es.
Proof.
  unfold meta_text. revert e. induction es as [|e' es IH]; intros e.
  - simpl. by rewrite app_nil_r.
  - change (join " " (List.map entry_text (e :: e' :: es)))
      with (entry_text e +:+ " " +:+ join " " (List.map entry_text (e' :: es))).
    rewrite !of_string_app, IH. done.
Qed.

Lemma length_tail es :
  length es
  <= length (flat_map (fun e => " "%char :: of_string (entry_text e)) es).
Proof.
  induction es as [|e es IH]; [done|]. cbn [flat_map].
  rewrite length_app. simpl. lia.
Qed.

Lemma match_all_meta_text e es :
  forallb well_formed (e :: es) = true ->
  match_all reMeta (of_string (meta_text (e :: es)))
  = Some (List.map (fun e => of_string (entry_text e)) (e :: es)).
Proof.
  intros Hwf. cbn [forallb] in Hwf. apply andb_prop in Hwf as [He Hes].
  unfold match_all. rewrite of_string_meta_text.
  set (tail := flat_map _ es).
  cbn [all_from].
  rewrite (search_attempt _ _ _ _ _
             (attempt_entry e tail 0 None He (tail_ends es))).
  cbn [f_text f_rest f_index].
  destruct (entry_text_cons e He) as (a & t & Et & _). rewrite Et.
  pose proof (length_tail es) as Hlen. subst tail.
  rewrite all_from_tail; [by rewrite <- Et|done|].
  rewrite length_app. lia.
Qed.

Lemma exec_entry e :
  well_formed e = true ->
  exec reMeta (of_string (entry_text e))
  = Some (Found 0 (of_string (entry_text e)) []
            (if e_quoted e
             then [(2, of_string (e_value e)); (1, of_string (e_key e))]
             else [(3, of_string (e_value e)); (1, of_string (e_key e))])).
Proof.
  intros Hwf. unfold exec. apply search_attempt.
  pose proof (attempt_entry e [] 0 None Hwf eq_refl) as H.
  by rewrite app_nil_r in H.
Qed.

Lemma each_match_entry attributes e :
  well_formed e = true ->
  each_match attributes (of_string (entry_text e))
  = assign attributes (e_key e) (entry_value (e_value e)).
Proof.
  intros Hwf. unfold each_match. rewrite (exec_entry e Hwf).
  unfold group. cbn [f_caps].
  unfold well_formed in Hwf. apply andb_prop in Hwf as [_ Hv].
  destruct (e_quoted e).
  - cbn [cap_get Nat.eqb]. rewrite !to_of_string. unfold or_else, entry_value.
    by destruct (String.eqb (e_value e) "").
  - cbn [cap_get Nat.eqb]. rewrite !to_of_string. unfold or_else, entry_value.
    apply andb_prop in Hv as [_ Hq].
    destruct (String.eqb_spec (e_value e) "") as [E|_]; [|done].
    by rewrite E in Hq.
Qed.

Lemma fold_each_match es : forall attributes,
  forallb well_formed es = true ->
  fold_left each_match (List.map (fun e => of_string (entry_text e)) es) attributes
  = fold_left (fun a e => assign a (e_key e) (entry_value (e_value e))) es
      attributes.
Proof.
  induction es as [|e es IH]; intros attributes Hwf; [done|].
  cbn [forallb] in Hwf. apply andb_prop in Hwf as [He Hes].
  cbn [List.map fold_left]. by rewrite (each_match_entry _ _ He), IH.
Qed.

Lemma meta_text_not_empty e es :
  well_formed e = true -> String.eqb (meta_text (e :: es)) "" = false.
Proof.
  intros He. apply String.eqb_neq. intros E%(f_equal of_string).
  rewrite of_string_meta_text in E.
  destruct (entry_text_cons e He) as (a & t & Et & _). by rewrite Et in E.
Qed.

Lemma parseMeta_meta_text es :
  forallb well_formed es = true -> parseMeta (meta_text es) = entries_object es.
Proof.
  intros Hwf. destruct es as [|e es]; [done|].
  pose proof Hwf as Hwf'. cbn [forallb] in Hwf'. apply andb_prop in Hwf' as [He _].
  unfold parseMeta. rewrite (meta_text_not_empty e es He).
  rewrite (match_all_meta_text e es Hwf). by apply fold_each_match.
Qed.

(** *** The object of the entries *)

Lemma assign_lookup_ne attributes key v k :
  key <> k -> assign attributes key v !! k = attributes !! k.
Proof.
  intros Hk. unfold assign. destruct (String.eqb key "__proto__"); [done|].
  by rewrite lookup_insert_ne.
Qed.

Lemma fold_assign_other es : forall attributes k,
  forallb (fun e => negb (String.eqb (e_key e) k)) es = true ->
  fold_left (fun a e => assign a (e_key e) (entry_value (e_value e))) es attributes
    !! k
  = attributes !! k.
Proof.
  induction es as [|e es IH]; intros attributes k Hk; [done|].
  cbn [forallb] in Hk. apply andb_prop in Hk as [He Hes].
  cbn [fold_left]. rewrite (IH _ _ Hes).
  apply assign_lookup_ne. by apply negb_true_iff, String.eqb_neq in He.
Qed.

Lemma entries_object_last es e after :
  e_key e <> "__proto__" ->
  forallb (fun x => negb (String.eqb (e_key x) (e_key e))) after = true ->
  entries_object (es ++ e :: after) !! e_key e = Some (entry_value (e_value e)).
Proof.
  intros Hp Hafter. unfold entries_object. rewrite fold_left_app. cbn [fold_left].
  rewrite (fold_assign_other _ _ _ Hafter). unfold assign.
  apply String.eqb_neq in Hp. rewrite Hp. apply lookup_insert_eq.
Qed.

(** X12.  A meta text of well-formed entries separated by single spaces
    (a key of word characters, then a quoted value without a double quote or
    a bare value without white space): [parseMeta] returns the object of the
    entries.  A key other than [__proto__] holds the value of its last
    entry, an empty quoted value gives [undefined], and a key without an
    entry is absent. *)
Theorem parseMeta_reads_entries (es : list entry) :
  forallb well_formed es = true ->
  parseMeta (meta_text es) = entries_object es
  /\ (forall before e after,
        es = before ++ e :: after ->
        e_key e <> "__proto__" ->
        forallb (fun x => negb (String.eqb (e_key x) (e_key e))) after = true ->
        parseMeta (meta_text es) !! e_key e = Some (entry_value (e_value e)))
  /\ (forall k,
        forallb (fun x => negb (String.eqb (e_key x) k)) es = true ->
        parseMeta (meta_text es) !! k = None).
Proof.
  intros Hwf. rewrite (parseMeta_meta_text es Hwf).
  split; [done|]. split.
  - intros before e after -> Hp Hafter. by apply entries_object_last.
  - intros k Hk. unfold entries_object. by rewrite (fold_assign_other _ _ _ Hk).
Qed.

(** The theorem of X12 on a meta text with a repeated key. *)
Lemma parseMeta_reads_entries_witness :
  let es := [Entry "id" "first" true; Entry "lines" "1-3" false;
             Entry "id" "run me" true] in
  forallb well_formed es = true
  /\ of_string (meta_text es)
     = of_string "id=" ++ dq :: of_string "first" ++ dq :: of_string " lines=1-3 id="
       ++ dq :: of_string "run me" ++ [dq]
  /\ parseMeta (meta_text es) !! "id" = Some (MStr "run me")
  /\ parseMeta (meta_text es) !! "lines" = Some (MStr "1-3")
  /\ parseMeta (meta_text es) !! "title" = None.
Proof.
  intros es.
  assert (H : forallb well_formed es = true) by reflexivity.
  split; [exact H|]. split; [reflexivity|].
  destruct (parseMeta_reads_entries es H) as (_ & Hlast & Hnone).
  split; [|split].
  - exact (Hlast [Entry "id" "first" true; Entry "lines" "1-3" false]
             (Entry "id" "run me" true) [] eq_refl ltac:(discriminate) eq_refl).
  - exact (Hlast [Entry "id" "first" true] (Entry "lines" "1-3" false)
             [Entry "id" "run me" true] eq_refl ltac:(discriminate) eq_refl).
  - exact (Hnone "title" eq_refl).
Defined.

Lemma codeBoxElement_attributes node :
  n_attributes (codeBoxElement node)
  = base_attributes node
    ++ match meta_id (parseMeta (n_meta node)) with
       | MStr id =>
           if String.eqb id "" then []
           else [Attribute "mdxJsxAttribute" "id" (AStr id)]
       | MUndefined => []
       end.
Proof.
  unfold codeBoxElement, base_attributes. cbn [n_attributes].
  destruct (meta_id _) as [|id]; [by rewrite app_nil_r|].
  unfold truthy. destruct (String.eqb id ""); [by rewrite app_nil_r|done].
Qed.

(** X13.  For a code node whose meta text is made of well-formed entries:
    the CodeBox gets, after [code] and [language], one [id] attribute with
    the value of the last [id] entry when that value is not empty; when the
    last [id] entry has an empty value, or there is no [id] entry, it gets
    none.  The other entries do not show in the element. *)
Theorem code_box_id_is_last_id_entry (node : Unist.node) (es : list entry) :
  n_meta node = meta_text es ->
  forallb well_formed es = true ->
  (forall before e after,
     es = before ++ e :: after ->
     e_key e = "id" ->
     forallb (fun x => negb (String.eqb (e_key x) "id")) after = true ->
     n_attributes (codeBoxElement node)
     = base_attributes node
       ++ (if String.eqb (e_value e) "" then []
           else [Attribute "mdxJsxAttribute" "id" (AStr (e_value e))]))
  /\ (forallb (fun x => negb (String.eqb (e_key x) "id")) es = true ->
      n_attributes (codeBoxElement node) = base_attributes node).
Proof.
  intros Hmeta Hwf. rewrite codeBoxElement_attributes, Hmeta.
  rewrite (parseMeta_meta_text es Hwf). unfold meta_id. split.
  - intros before e after -> Hk Hafter.
    rewrite <- Hk in Hafter |- *.
    rewrite (entries_object_last before e after); [|by rewrite Hk|done].
    unfold entry_value. destruct (String.eqb_spec (e_value e) "") as [E|E]; [done|].
    apply String.eqb_neq in E. by rewrite E.
  - intros Hk. unfold entries_object. rewrite (fold_assign_other _ _ _ Hk).
    by rewrite lookup_empty, app_nil_r.
Qed.

(** The theorem of X13 on a code block with a language option and an id. *)
Lemma code_box_id_is_last_id_entry_witness :
  let es := [Entry "id" "test1" true; Entry "wrap" "on" false] in
  let node := code_block "js" (meta_text es) "let x" in
  n_meta node = meta_text es /\ forallb well_formed es = true
  /\ n_attributes (codeBoxElement node)
     = base_attributes node ++ [Attribute "mdxJsxAttribute" "id" (AStr "test1")].
Proof.
  intros es node.
  assert (H1 : n_meta node = meta_text es) by reflexivity.
  assert (H2 : forallb well_formed es = true) by reflexivity.
  split; [exact H1|]. split; [exact H2|].
  exact (proj1 (code_box_id_is_last_id_entry node es H1 H2)
           [] (Entry "id" "test1" true) [Entry "wrap" "on" false]
           eq_refl eq_refl eq_refl).
Defined.

(** *** A meta text without an equals sign *)

Lemma attempt_reMeta_no_equals i prev s :
  forallb (fun c => negb (Ascii.eqb c "="%char)) s = true ->
  attempt reMeta i prev s = None.
Proof.
  intros Hs. unfold attempt, reMeta, Plus.
  set (alt := Alt _ _).
  change (m (Cat (Grp 1 (Cat (Cls isWord) (Star true isWord))) (Cat (Chr "=") alt))
            accept prev s [])
    with (m (Cls isWord)
            (star_greedy isWord
               (fun prev' s' c' =>
                  m (Cat (Chr "=") alt) accept prev' s'
                    (cap_set 1 (firstn (length s - length s') s) c')))
            prev s []).
  destruct s as [|a s]; [done|]. cbn [m]. destruct (isWord a); [|done].
  rewrite star_greedy_fails; [done|].
  intros s' prev' c' [t Ht]. cbn [m]. destruct s' as [|b s']; [done|].
  cbn [forallb] in Hs. apply andb_prop in Hs as [_ Hs].
  rewrite Ht, forallb_app in Hs. apply andb_prop in Hs as [_ Hs].
  cbn [forallb] in Hs. apply andb_prop in Hs as [Hb _].
  apply negb_true_iff in Hb. rewrite Ascii.eqb_sym in Hb. by rewrite Hb.
Qed.

Lemma search_reMeta_no_equals s : forall i prev,
  forallb (fun c => negb (Ascii.eqb c "="%char)) s = true ->
  search reMeta i prev s = None.
Proof.
  induction s as [|a s IH]; intros i prev Hs.
  - done.
  - rewrite search_skip by (by apply attempt_reMeta_no_equals).
    apply IH. cbn [forallb] in Hs. by apply andb_prop in Hs as [_ ?].
Qed.

(** X14.  A meta text without an equals sign (a bare word, a file name, a
    list of flags) holds no entry: [parseMeta] returns the empty object, and
    the CodeBox gets the two attributes [code] and [language] only. *)
Theorem meta_without_equals_is_ignored (node : Unist.node) :
  forallb (fun c => negb (Ascii.eqb c "="%char)) (of_string (n_meta node)) = true ->
  parseMeta (n_meta node) = ∅
  /\ n_attributes (codeBoxElement node) = base_attributes node.
Proof.
  intros Hs.
  assert (Hp : parseMeta (n_meta node) = ∅).
  { unfold parseMeta. destruct (String.eqb (n_meta node) ""); [done|].
    unfold match_all. cbn [all_from].
    by rewrite (search_reMeta_no_equals _ 0 None Hs). }
  split; [done|]. rewrite codeBoxElement_attributes, Hp. unfold meta_id.
  by rewrite lookup_empty, app_nil_r.
Qed.

(** The theorem of X14 on a code block marked with a file name. *)
Lemma meta_without_equals_is_ignored_witness :
  let node := code_block "js" "wing.js showLineNumbers" "let x" in
  forallb (fun c => negb (Ascii.eqb c "="%char)) (of_string (n_meta node)) = true
  /\ parseMeta (n_meta node) = ∅
  /\ n_attributes (codeBoxElement node) = base_attributes node.
Proof.
  intros node.
  assert (H : forallb (fun c => negb (Ascii.eqb c "="%char))
                (of_string (n_meta node)) = true) by reflexivity.
  split; [exact H|]. exact (meta_without_equals_is_ignored node H).
Defined.

End Entries.

End CodeProperties.

Module PipelineProperties.
Import Js Toc Unist TextId SectionTransform CodeTransform Samples MatcherFacts StringFacts SectionFacts CodeFacts SectionProperties CodeProperties.

(** ** The two transforms one after the other *)

Lemma n_type_boxed n :
  n_type (boxed n) = if isCode n then "mdxJsxFlowElement" else n_type n.
Proof. rewrite boxed_unfold. destruct (isCode n) eqn:E; [done|]. by destruct n. Qed.

Lemma n_depth_boxed n : isCode n = false -> n_depth (boxed n) = n_depth n.
Proof. intros E. rewrite boxed_unfold, E. by destruct n. Qed.

Lemma isCode_type n : isCode n = true -> n_type n = "code".
Proof. unfold isCode. by intros ?%String.eqb_eq. Qed.

Lemma isHeading_boxed n : isHeading (boxed n) = isHeading n.
Proof.
  unfold isHeading. rewrite n_type_boxed. destruct (isCode n) eqn:E; [|done].
  by rewrite (isCode_type _ E).
Qed.

Lemma isHeading_not_code n : isHeading n = true -> isCode n = false.
Proof.
  unfold isHeading, isCode. intros ->%String.eqb_eq. done.
Qed.

Lemma test_boxed n : SectionTransform.test (boxed n) = SectionTransform.test n.
Proof.
  unfold SectionTransform.test. rewrite isHeading_boxed.
  destruct (isHeading n) eqn:E; [|done].
  by rewrite (n_depth_boxed _ (isHeading_not_code _ E)).
Qed.

Lemma isEnd_boxed n : isEnd (boxed n) = isEnd n.
Proof.
  unfold isEnd. rewrite n_type_boxed. destruct (isCode n) eqn:E; [|done].
  by rewrite (isCode_type _ E).
Qed.

Lemma notEnd_boxed n : notEnd (boxed n) = notEnd n.
Proof. unfold notEnd. by rewrite isEnd_boxed. Qed.

Lemma isText_boxed n : isText (boxed n) = isText n.
Proof.
  unfold isText. rewrite n_type_boxed. destruct (isCode n) eqn:E; [|done].
  by rewrite (isCode_type _ E).
Qed.

Lemma isText_not_code n : isText n = true -> isCode n = false.
Proof. unfold isText, isCode. intros ->%String.eqb_eq. done. Qed.

Lemma n_value_boxed n : isCode n = false -> n_value (boxed n) = n_value n.
Proof. intros E. rewrite boxed_unfold, E. by destruct n. Qed.

Lemma text_values_boxed cs :
  List.map n_value (List.filter isText (List.map boxed cs))
  = List.map n_value (List.filter isText cs).
Proof.
  induction cs as [|c cs IH]; [done|]. cbn [List.map List.filter].
  rewrite isText_boxed. destruct (isText c) eqn:E; [|done].
  cbn [List.map]. by rewrite IH, (n_value_boxed _ (isText_not_code _ E)).
Qed.

Lemma parsed_heading_boxed n :
  isCode n = false -> parsed_heading (boxed n) = parsed_heading n.
Proof.
  intros E. unfold parsed_heading, extractTextFromHeading.
  rewrite boxed_unfold, E, n_children_set_children. by rewrite text_values_boxed.
Qed.

Lemma test_not_code n : SectionTransform.test n = true -> isCode n = false.
Proof.
  unfold SectionTransform.test. intros H.
  apply andb_prop in H as [H _]. apply andb_prop in H as [H _].
  by apply isHeading_not_code.
Qed.

Lemma record_of_boxed n :
  SectionTransform.test n = true -> record_of (boxed n) = record_of n.
Proof.
  intros Ht. pose proof (test_not_code _ Ht) as E. unfold record_of.
  by rewrite (parsed_heading_boxed _ E), (n_depth_boxed _ E).
Qed.

Lemma takeWhile_notEnd_boxed l :
  takeWhile notEnd (List.map boxed l) = List.map boxed (takeWhile notEnd l).
Proof.
  induction l as [|c l IH]; [done|]. cbn [List.map takeWhile].
  rewrite notEnd_boxed. destruct (notEnd c); [|done]. cbn [List.map]. by rewrite IH.
Qed.

Lemma boxed_section_of c content :
  SectionTransform.test c = true ->
  boxed (section_of c content) = section_of (boxed c) (List.map boxed content).
Proof.
  intros Ht. pose proof (test_not_code _ Ht) as E.
  unfold section_of. rewrite (parsed_heading_boxed _ E), (n_depth_boxed _ E). done.
Qed.

Lemma sectioned_list_boxed l :
  Forall (fun c => sectioned (boxed c) = boxed (sectioned c)) l ->
  forall absorbing,
    sectioned_list sectioned absorbing (List.map boxed l)
    = List.map boxed (sectioned_list sectioned absorbing l).
Proof.
  induction 1 as [|c rest Hc _ IH]; intros absorbing; [done|].
  cbn [List.map sectioned_list]. rewrite test_boxed, isEnd_boxed.
  destruct (SectionTransform.test c) eqn:Et.
  - cbn [List.map]. rewrite (boxed_section_of _ _ Et), takeWhile_notEnd_boxed.
    by rewrite IH.
  - destruct (isEnd c); [cbn [List.map]; by rewrite Hc, IH|].
    destruct absorbing; [done|]. cbn [List.map]. by rewrite Hc, IH.
Qed.

Lemma codeBoxElement_sectioned n : codeBoxElement (sectioned n) = codeBoxElement n.
Proof. by destruct n. Qed.

Lemma isCode_sectioned n : isCode (sectioned n) = isCode n.
Proof. by destruct n. Qed.

(** The two rewritings commute on trees. *)
Lemma sectioned_boxed n : sectioned (boxed n) = boxed (sectioned n).
Proof.
  induction n as [n IH] using node_children_ind.
  rewrite (boxed_unfold (sectioned n)), isCode_sectioned, (boxed_unfold n).
  destruct (isCode n) eqn:Ec.
  - by rewrite codeBoxElement_sectioned.
  - rewrite sectioned_unfold, n_children_set_children, set_children_set_children.
    rewrite (sectioned_unfold n), n_children_set_children, set_children_set_children.
    f_equal. by apply sectioned_list_boxed.
Qed.

Lemma code_leaves_unfold n :
  code_leaves n
  = (negb (isCode n) || (length (n_children n) =? 0)%nat)
    && forallb code_leaves (n_children n).
Proof.
  unfold code_leaves at 1. rewrite preorder_unfold. cbn [forallb].
  by rewrite forallb_flat_map.
Qed.

Lemma walked_list_boxed l :
  Forall (fun c => code_leaves c = true ->
                   List.map record_of (walked (boxed c))
                   = List.map record_of (walked c)) l ->
  forallb code_leaves l = true ->
  forall absorbing,
    List.map record_of (walked_list walked absorbing (List.map boxed l))
    = List.map record_of (walked_list walked absorbing l).
Proof.
  induction 1 as [|c rest Hc _ IH]; intros Hl absorbing; [done|].
  cbn [forallb] in Hl. apply andb_prop in Hl as [Hlc Hlrest].
  cbn [List.map walked_list]. rewrite test_boxed, isEnd_boxed.
  destruct (SectionTransform.test c) eqn:Et.
  - cbn [List.map]. rewrite !List.map_app, (record_of_boxed _ Et).
    by rewrite (Hc Hlc), (IH Hlrest).
  - destruct (isEnd c); [by rewrite !List.map_app, (Hc Hlc), (IH Hlrest)|].
    destruct absorbing; [by apply IH|].
    by rewrite !List.map_app, (Hc Hlc), (IH Hlrest).
Qed.

Lemma walked_boxed n :
  code_leaves n = true ->
  List.map record_of (walked (boxed n)) = List.map record_of (walked n).
Proof.
  induction n as [n IH] using node_children_ind. intros Hl.
  rewrite code_leaves_unfold in Hl. apply andb_prop in Hl as [Hn Hcs].
  rewrite boxed_unfold. destruct (isCode n) eqn:Ec.
  - cbn [negb orb] in Hn. apply Nat.eqb_eq in Hn.
    rewrite (walked_unfold n). destruct (n_children n); [done|discriminate].
  - rewrite walked_unfold, n_children_set_children, (walked_unfold n).
    by apply walked_list_boxed.
Qed.

Lemma typed_boxed n : typed n = true -> typed (boxed n) = true.
Proof.
  induction n as [n IH] using node_children_ind. intros Ht.
  rewrite typed_unfold in Ht. apply andb_prop in Ht as [Hn Hcs].
  rewrite boxed_unfold. destruct (isCode n) eqn:Ec; [done|].
  rewrite typed_unfold, n_type_set_children, Hn, n_children_set_children.
  cbn [andb]. apply forallb_forall. intros c' Hc'.
  apply in_map_iff in Hc' as (c & <- & Hc).
  rewrite Forall_forall in IH. apply IH; [by apply list_elem_of_In|].
  rewrite forallb_forall in Hcs. by apply Hcs.
Qed.

Lemma after_calls_records st w1 w2 :
  List.map record_of w1 = List.map record_of w2 ->
  after_calls st w1 = after_calls st w2.
Proof. unfold after_calls. by intros ->. Qed.

(** The transform is the same function of the metadata for two trees whose
    traversals end in the same accumulator, console and completion. *)
Lemma remarkSectionTransform_same_state tree1 tree2 data a1 a2 st c :
  traverse tree1 = Some (a1, st, c) ->
  traverse tree2 = Some (a2, st, c) ->
  usable (from_option (data !! "astro")) = true ->
  exists o1 o2,
    remarkSectionTransform tree1 data = Some o1
    /\ remarkSectionTransform tree2 data = Some o2
    /\ out_tree o1 = a1 /\ out_tree o2 = a2
    /\ out_data o1 = out_data o2
    /\ out_console o1 = out_console o2
    /\ out_completion o1 = out_completion o2.
Proof.
  intros H1 H2 Hu. unfold remarkSectionTransform. rewrite H1, H2.
  destruct (ensure_frontmatter_usable data Hu) as [astro2 ->].
  destruct c as [|e]; [|by eexists _, _].
  destruct (get_prop astro2 "frontmatter"); [|by eexists _, _].
  destruct (nestHeadings (Some (toc st))); [|by eexists _, _].
  destruct (set_prop _ _ _); by eexists _, _.
Qed.

(** X15.  The build runs the section transform and then the code
    transform.  For a tree whose nodes all have a type, whose root is neither
    a heading nor a code node and whose code nodes have no children, with a
    container that is absent or an object: the code transform does not throw
    on the tree the section transform leaves, and the result is the tree
    with its sections made and every code node, also one absorbed into a
    section, replaced by its CodeBox.  The order does not matter: the code
    transform first and the section transform second give the same tree, the
    same metadata, the same warnings and the same completion. *)
Theorem plugin_order_is_immaterial (tree : node) (data : gmap string jsval) :
  typed tree = true ->
  isHeading tree = false ->
  isCode tree = false ->
  code_leaves tree = true ->
  usable (from_option (data !! "astro")) = true ->
  exists s1 s2,
    remarkSectionTransform tree data = Some s1
    /\ remarkCodeTransform (out_tree s1) = Some (boxed (sectioned tree), Normal)
    /\ remarkCodeTransform tree = Some (boxed tree, Normal)
    /\ remarkSectionTransform (boxed tree) data = Some s2
    /\ out_tree s2 = boxed (sectioned tree)
    /\ out_data s2 = out_data s1
    /\ out_console s2 = out_console s1
    /\ out_completion s2 = out_completion s1.
Proof.
  intros Hty Hh Hc Hl Hu.
  pose proof (traverse_sectioned tree Hty (isHeading_test _ Hh)) as Htr1.
  assert (Hh' : isHeading (boxed tree) = false) by (by rewrite isHeading_boxed).
  pose proof (traverse_sectioned (boxed tree) (typed_boxed _ Hty)
                (isHeading_test _ Hh')) as Htr2.
  rewrite (after_calls_records _ _ _ (walked_boxed _ Hl)) in Htr2.
  destruct (remarkSectionTransform_same_state _ _ data _ _ _ _ Htr1 Htr2 Hu)
    as (s1 & s2 & Hs1 & Hs2 & Ht1 & Ht2 & Hd & Hco & Hcm).
  exists s1, s2. split; [done|].
  assert (Hrun : forall t, isCode t = false ->
                           remarkCodeTransform t = Some (boxed t, Normal)).
  { intros t Ht. unfold remarkCodeTransform, visit, visit_fuel. rewrite Ht.
    rewrite visit_children_boxed.
    - rewrite take_0, drop_0. cbn [app]. by rewrite boxed_unfold, Ht.
    - rewrite drop_0, node_size_children. lia. }
  split; [rewrite Ht1; apply Hrun; by rewrite isCode_sectioned|].
  split; [by apply Hrun|]. split; [done|].
  split; [by rewrite Ht2, sectioned_boxed|]. done.
Qed.

(** The theorem of X15 on a page whose section holds a code block. *)
Lemma plugin_order_is_immaterial_witness :
  let block := code_block "js" "id=run" "let x" in
  let tree := root [heading 1 "Title"; paragraph "a"; block] in
  typed tree = true /\ isHeading tree = false /\ isCode tree = false
  /\ code_leaves tree = true
  /\ usable (from_option ((∅ : gmap string jsval) !! "astro")) = true
  /\ exists s1 s2,
       remarkSectionTransform tree ∅ = Some s1
       /\ remarkCodeTransform (out_tree s1)
          = Some (root [sectionComponent "Section" "Title" "title"
                          [paragraph "a"; codeBoxElement block]], Normal)
       /\ remarkSectionTransform (boxed tree) ∅ = Some s2
       /\ out_tree s2
          = root [sectionComponent "Section" "Title" "title"
                    [paragraph "a"; codeBoxElement block]]
       /\ out_data s2 = out_data s1.
Proof.
  intros block tree.
  assert (H1 : typed tree = true) by reflexivity.
  assert (H2 : isHeading tree = false) by reflexivity.
  assert (H3 : isCode tree = false) by reflexivity.
  assert (H4 : code_leaves tree = true) by reflexivity.
  assert (H5 : usable (from_option ((∅ : gmap string jsval) !! "astro")) = true)
    by reflexivity.
  split; [exact H1|]. split; [exact H2|]. split; [exact H3|]. split; [exact H4|].
  split; [exact H5|].
  destruct (plugin_order_is_immaterial tree ∅ H1 H2 H3 H4 H5)
    as (s1 & s2 & K1 & K2 & _ & K4 & K5 & K6 & _).
  exists s1, s2. split; [exact K1|]. split; [rewrite K2; reflexivity|].
  split; [exact K4|]. split; [rewrite K5; reflexivity|exact K6].
Defined.

End PipelineProperties.

Module TextIdProperties.
Import Js Regex Lodash TextId MatcherFacts StringFacts TextIdFacts CodeProperties.

(** ** What the parser returns for a heading with an id *)

Lemma forallb_dropWhile {A} (p q : A -> bool) l :
  forallb p l = true -> forallb p (dropWhile q l) = true.
Proof.
  induction l as [|a l IH]; [done|]. cbn [forallb dropWhile].
  intros [Ha Hl]%andb_prop. destruct (q a); [by apply IH|].
  cbn [forallb]. by rewrite Ha, Hl.
Qed.

Lemma forallb_trimL (p : ascii -> bool) l :
  forallb p l = true -> forallb p (trimL l) = true.
Proof.
  intros H. unfold trimL, trimEndL, trimStartL.
  rewrite forallb_rev'. apply forallb_dropWhile.
  rewrite forallb_rev'. by apply forallb_dropWhile.
Qed.

Lemma dropWhile_dropWhile {A} (p : A -> bool) l :
  dropWhile p (dropWhile p l) = dropWhile p l.
Proof.
  induction l as [|a l IH]; [done|]. cbn [dropWhile].
  destruct (p a) eqn:E; [done|]. cbn [dropWhile]. by rewrite E.
Qed.

Lemma trimEndL_prefix l : exists sp, l = trimEndL l ++ sp.
Proof.
  unfold trimEndL. exists (rev (takeWhile isSpace (rev l))).
  rewrite <- rev_app_distr, takeWhile_dropWhile. by rewrite rev_involutive.
Qed.

Lemma trimL_trimL l : trimL (trimL l) = trimL l.
Proof.
  unfold trimL at 1.
  assert (Hstart : trimStartL (trimL l) = trimL l).
  { unfold trimL. set (l0 := trimStartL l).
    destruct (trimEndL_prefix l0) as [sp Hsp].
    destruct (trimEndL l0) as [|a l1] eqn:E; [done|].
    unfold trimStartL. apply dropWhile_stop.
    subst l0. unfold trimStartL in Hsp. simpl in Hsp.
    by apply dropWhile_head in Hsp. }
  rewrite Hstart. unfold trimL, trimEndL.
  by rewrite rev_involutive, dropWhile_dropWhile.
Qed.

Lemma trim_trim s : trim (trim s) = trim s.
Proof. unfold trim. by rewrite of_to_string, trimL_trimL. Qed.

(** X16.  Writing a heading as its title, white space and the suffix
    [(#id)], and reading it back: for a title that is not empty, has no line
    terminator, no white space at its ends and no ["(#"] inside, and an id
    that is not empty and has no closing parenthesis, the parser returns that
    title and that id, whatever the white space between. *)
Theorem title_and_id_read_back (title ws id : string) :
  title <> "" ->
  forallb isDot (of_string title) = true ->
  trim title = title ->
  has_marker (of_string title) = false ->
  forallb isSpace (of_string ws) = true ->
  id <> "" ->
  forallb notParen (of_string id) = true ->
  parseTextWithId (title +:+ ws +:+ "(#" +:+ id +:+ ")") = Parsed title id.
Proof.
  intros Hne Hdot Htrim Hmark Hws Hid Hparen.
  assert (Hreads : reads (title +:+ ws +:+ "(#" +:+ id +:+ ")") title ws id)
    by done.
  rewrite (parseTextWithId_earliest _ _ _ _ Hreads
             (marker_free_earliest _ _ _ _ Hreads Hmark)).
  by rewrite (trim_app_space _ _ Hws), Htrim.
Qed.

(** The theorem of X16 on a title of two words and an id with a space. *)
Lemma title_and_id_read_back_witness :
  "Wing loading" <> "" /\ trim "Wing loading" = "Wing loading"
  /\ "w l" <> ""
  /\ parseTextWithId "Wing loading   (#w l)" = Parsed "Wing loading" "w l".
Proof.
  assert (H1 : "Wing loading" <> "") by discriminate.
  assert (H2 : trim "Wing loading" = "Wing loading") by reflexivity.
  assert (H3 : "w l" <> "") by discriminate.
  split; [exact H1|]. split; [exact H2|]. split; [exact H3|].
  exact (title_and_id_read_back "Wing loading" "   " "w l" H1 eq_refl H2 eq_refl
           eq_refl H3 eq_refl).
Defined.

(** X17.  Whenever the text is made of a title text that is not empty and
    has no line terminator, then white space, then a suffix [(#id)] at the
    very end whose id is not empty and has no closing parenthesis ([reads]),
    the parser takes the explicit branch, and what it returns is well
    formed: the id is not empty and has no closing parenthesis; the text is
    some text, then ["(#"], the id and [")"]; the title is that text
    trimmed, so it has no white space at its ends, and it has no line
    terminator.  Strings are strings of code units below U+0100, whose line
    terminators are LF and CR. *)
Theorem explicit_id_is_well_formed (text t ws lit : string) :
  reads text t ws lit ->
  let p := parseTextWithId text in
  p_id p <> ""
  /\ forallb notParen (of_string (p_id p)) = true
  /\ (exists before,
        text = before +:+ "(#" +:+ p_id p +:+ ")" /\ p_title p = trim before)
  /\ trim (p_title p) = p_title p
  /\ forallb isDot (of_string (p_title p)) = true.
Proof.
  intros H p.
  destruct (exec reTextWithId (of_string text)) as [f|] eqn:E.
  2:{ rewrite exec_reTextWithId_None in E.
      apply reads_readsL in H. by destruct (E _ _ _ H). }
  subst p. rewrite (parseTextWithId_match _ _ E).
  apply exec_reTextWithId_Some in E as (t0 & ws0 & lit0 & H0 & G1 & G2 & _).
  unfold group. rewrite G1, G2. cbn [p_id p_title].
  destruct H0 as (Hs & Ht0 & Hdot & Hws0 & Hlit & Hparen).
  split; [intros E%(f_equal of_string); by rewrite of_to_string in E|].
  split; [by rewrite of_to_string|].
  assert (Htitle : trim (to_string t0) = trim (to_string (t0 ++ ws0))).
  { rewrite to_string_app. symmetry. apply trim_app_space.
    by rewrite of_to_string. }
  split; [|split].
  - exists (to_string (t0 ++ ws0)). split; [|done].
    apply of_string_inj. rewrite !of_string_app, !of_to_string, Hs.
    by rewrite <- !app_assoc.
  - apply trim_trim.
  - unfold trim. rewrite !of_to_string. by apply forallb_trimL.
Qed.

(** The theorem of X17 on a text with two suffixes: the last one gives the
    id, the first one stays in the title. *)
Lemma explicit_id_is_well_formed_witness :
  reads "Drag (#cd) (#x)" "Drag (#cd)" " " "x"
  /\ p_id (parseTextWithId "Drag (#cd) (#x)") <> ""
  /\ parseTextWithId "Drag (#cd) (#x)" = Parsed "Drag (#cd)" "x".
Proof.
  assert (H : reads "Drag (#cd) (#x)" "Drag (#cd)" " " "x").
  { repeat split; try reflexivity; discriminate. }
  split; [exact H|].
  split; [exact (proj1 (explicit_id_is_well_formed _ _ _ _ H))|].
  vm_compute. reflexivity.
Defined.

Section Slug.

(** ** The slug of a title of plain words *)

#[local] Arguments isLower : simpl never.
#[local] Arguments isUpper : simpl never.
#[local] Arguments isDigit : simpl never.
#[local] Arguments isAlpha : simpl never.
#[local] Arguments isAlnum : simpl never.
#[local] Arguments is_space : simpl never.
#[local] Arguments isAsciiWordChar : simpl never.

Lemma calm_char_facts c :
  calm_char c = true ->
  deburrLetter c = [c] /\ isApos c = false
  /\ Ascii.eqb "(" c = false
  /\ isAsciiWordChar c = negb (is_space c).
Proof.
  pose proof (for_all_ascii
    (fun c => negb (calm_char c)
              || (String.eqb (to_string (deburrLetter c)) (to_string [c])
                  && negb (isApos c) && negb (Ascii.eqb "(" c)
                  && Bool.eqb (isAsciiWordChar c) (negb (is_space c))))
    ltac:(vm_compute; reflexivity) c) as H.
  cbv beta in H. intros Hc. rewrite Hc in H. cbn [negb orb] in H.
  apply andb_prop in H as [H H4]. apply andb_prop in H as [H H3].
  apply andb_prop in H as [H1 H2].
  apply String.eqb_eq in H1. apply (f_equal of_string) in H1.
  rewrite !of_to_string in H1. apply negb_true_iff in H2, H3.
  apply Bool.eqb_prop in H4. done.
Qed.

Lemma class_facts c :
  (is_space c = true -> isAlpha c = false /\ isDigit c = false)
  /\ (isDigit c = true -> isAlpha c = false)
  /\ isAlpha c = isUpper c || isLower c
  /\ (isUpper c = true -> isLower c = false)
  /\ (isLower c = true -> lowerChar c = c)
  /\ (isDigit c = true -> lowerChar c = c).
Proof.
  pose proof (for_all_ascii
    (fun c => (negb (is_space c) || (negb (isAlpha c) && negb (isDigit c)))
              && (negb (isDigit c) || negb (isAlpha c))
              && Bool.eqb (isAlpha c) (isUpper c || isLower c)
              && (negb (isUpper c) || negb (isLower c))
              && (negb (isLower c) || Ascii.eqb (lowerChar c) c)
              && (negb (isDigit c) || Ascii.eqb (lowerChar c) c))
    ltac:(vm_compute; reflexivity) c) as H.
  cbv beta in H.
  apply andb_prop in H as [H H6]. apply andb_prop in H as [H H5].
  apply andb_prop in H as [H H4]. apply andb_prop in H as [H H3].
  apply andb_prop in H as [H1 H2]. apply Bool.eqb_prop in H3.
  split; [|split; [|split; [done|split; [|split]]]].
  - intros E. rewrite E in H1. cbn [negb orb] in H1.
    apply andb_prop in H1 as [Ha Hd]. by apply negb_true_iff in Ha, Hd.
  - intros E. rewrite E in H2. by apply negb_true_iff in H2.
  - intros E. rewrite E in H4. by apply negb_true_iff in H4.
  - intros E. rewrite E in H5. by apply Ascii.eqb_eq in H5.
  - intros E. rewrite E in H6. by apply Ascii.eqb_eq in H6.
Qed.

(** *** [hasUnicodeWord] on a calm text *)

Lemma calm_tail a s : calm (a :: s) = true -> calm s = true.
Proof. cbn [calm]. by intros [_ ?]%andb_prop. Qed.

Lemma attempt_calm i prev s :
  calm s = true -> attempt reHasUnicodeWord i prev s = None.
Proof.
  intros Hc. unfold attempt, reHasUnicodeWord.
  destruct s as [|a s]; [done|].
  cbn [calm] in Hc. apply andb_prop in Hc as [Hc _].
  apply andb_prop in Hc as [Ha Hab].
  destruct (class_facts a) as (Hsp & Hdig & Halpha & Hup & _).
  assert (Hfifth : negb (isAlnum a || (code a =? 32)%N) = false).
  { apply negb_false_iff. unfold calm_char, is_space in Ha. unfold isAlnum.
    done. }
  cbn [m]. rewrite Hfifth.
  destruct s as [|b s].
  { by destruct (isLower a), (isUpper a), (isDigit a), (isAlpha a). }
  unfold calm_pair in Hab. apply andb_prop in Hab as [Hab H3].
  apply andb_prop in Hab as [H1 H2]. apply negb_true_iff in H2, H3.
  destruct (class_facts b) as (_ & _ & Halphab & _).
  assert (Hlu : isLower a && isUpper b = false).
  { destruct (isUpper b); [|by rewrite andb_false_r]. cbn [negb orb] in H1.
    destruct (Hsp H1) as [Hna _]. rewrite Halpha in Hna.
    apply orb_false_iff in Hna as [_ ->]. done. }
  assert (Huu : isUpper a && isUpper b = false).
  { destruct (isUpper b); [|by rewrite andb_false_r]. cbn [negb orb] in H1.
    destruct (Hsp H1) as [Hna _]. rewrite Halpha in Hna.
    apply orb_false_iff in Hna as [-> _]. done. }
  destruct (isLower a) eqn:ELa, (isUpper b) eqn:EUb; try discriminate Hlu;
    destruct (isUpper a) eqn:EUa; try discriminate Huu;
    destruct (isDigit a) eqn:EDa, (isAlpha b) eqn:EAb; try discriminate H2;
    destruct (isAlpha a) eqn:EAa, (isDigit b) eqn:EDb; try discriminate H3;
    try done; destruct s; done.
Qed.

Lemma search_calm s : forall i prev,
  calm s = true -> search reHasUnicodeWord i prev s = None.
Proof.
  induction s as [|a s IH]; intros i prev Hc.
  - done.
  - rewrite search_skip by (by apply attempt_calm).
    apply IH. by eapply calm_tail.
Qed.

Lemma hasUnicodeWord_calm s : calm s = true -> hasUnicodeWord s = false.
Proof.
  intros Hc. unfold hasUnicodeWord, test, exec. by rewrite search_calm.
Qed.

Lemma calm_chars s : calm s = true -> forallb calm_char s = true.
Proof.
  induction s as [|a s IH]; [done|]. cbn [calm forallb].
  intros [H Hs]%andb_prop. apply andb_prop in H as [Ha _].
  by rewrite Ha, IH.
Qed.

Lemma deburr_calm s : forallb calm_char s = true -> deburr s = s.
Proof.
  induction s as [|a s IH]; [done|]. cbn [forallb].
  intros [Ha Hs]%andb_prop. unfold deburr in *. cbn [flat_map].
  destruct (calm_char_facts a Ha) as (-> & _). by rewrite IH.
Qed.

Lemma removeApos_calm s : forallb calm_char s = true -> removeApos s = s.
Proof.
  induction s as [|a s IH]; [done|]. cbn [forallb].
  intros [Ha Hs]%andb_prop. unfold removeApos in *. cbn [List.filter].
  destruct (calm_char_facts a Ha) as (_ & -> & _). cbn [negb]. by rewrite IH.
Qed.

Lemma has_marker_calm s : forallb calm_char s = true -> has_marker s = false.
Proof.
  induction s as [|a s IH]; [done|]. cbn [forallb].
  intros [Ha Hs]%andb_prop. cbn [has_marker]. destruct s as [|b s]; [done|].
  destruct (calm_char_facts a Ha) as (_ & _ & -> & _). cbn [andb orb].
  by apply IH.
Qed.

(** *** The text of the words *)

Lemma plain_word_cons w :
  plain_word w = true -> exists c rest, w = c :: rest.
Proof. destruct w; [done|]. by eexists _, _. Qed.

Lemma of_string_spaced w ws :
  of_string (spaced (w :: ws)) = w ++ flat_map (fun w => " "%char :: w) ws.
Proof.
  unfold spaced. revert w. induction ws as [|w' ws IH]; intros w.
  - simpl. by rewrite of_to_string, app_nil_r.
  - change (join " " (List.map to_string (w :: w' :: ws)))
      with (to_string w +:+ " " +:+ join " " (List.map to_string (w' :: ws))).
    rewrite !of_string_app, IH, of_to_string. done.
Qed.

Lemma for_all_ascii2 (p : ascii -> ascii -> bool) :
  forallb (fun a => forallb (p a) (List.map ascii_of_nat (seq 0 256)))
    (List.map ascii_of_nat (seq 0 256)) = true ->
  forall a b, p a b = true.
Proof.
  intros H a b. rewrite forallb_forall in H. specialize (H a (ascii_enumerated a)).
  rewrite forallb_forall in H. apply H, ascii_enumerated.
Qed.

Lemma calm_pair_facts a b :
  (is_space b = true -> calm_pair a b = true)
  /\ (is_space a = true -> calm_pair a b = true)
  /\ (isAlpha a = true -> isLower b = true -> calm_pair a b = true)
  /\ (isDigit a = true -> isDigit b = true -> calm_pair a b = true).
Proof.
  pose proof (for_all_ascii2
    (fun a b => (negb (is_space b) || calm_pair a b)
                && (negb (is_space a) || calm_pair a b)
                && (negb (isAlpha a && isLower b) || calm_pair a b)
                && (negb (isDigit a && isDigit b) || calm_pair a b))
    ltac:(vm_compute; reflexivity) a b) as H.
  cbv beta in H.
  apply andb_prop in H as [H H4]. apply andb_prop in H as [H H3].
  apply andb_prop in H as [H1 H2].
  split; [|split; [|split]].
  - intros E. by rewrite E in H1.
  - intros E. by rewrite E in H2.
  - intros Ea Eb. by rewrite Ea, Eb in H3.
  - intros Ea Eb. by rewrite Ea, Eb in H4.
Qed.

Lemma calm_cons a s :
  calm (a :: s)
  = calm_char a
    && match s with [] => true | b :: _ => calm_pair a b end
    && calm s.
Proof. done. Qed.

Lemma forallb_lower_calm w :
  forallb isLower w = true ->
  forall a, isAlpha a = true ->
  forall tail, calm tail = true ->
  match tail with [] => True | b :: _ => is_space b = true end ->
  calm (a :: w ++ tail) = true.
Proof.
  induction w as [|c w IH]; intros Hw a Ha tail Ht Hsp.
  - cbn [app]. rewrite calm_cons, Ht, andb_true_r. unfold calm_char. rewrite Ha.
    cbn [orb andb]. destruct tail as [|b tail]; [done|].
    exact (proj1 (calm_pair_facts a b) Hsp).
  - cbn [forallb] in Hw. apply andb_prop in Hw as [Hc Hw].
    destruct (class_facts c) as (_ & _ & Ec & _).
    assert (Hac : isAlpha c = true) by (rewrite Ec, Hc; by rewrite orb_true_r).
    change (a :: (c :: w) ++ tail) with (a :: c :: w ++ tail).
    rewrite calm_cons, (IH Hw c Hac tail Ht Hsp), andb_true_r.
    unfold calm_char. rewrite Ha. cbn [orb andb].
    exact (proj1 (proj2 (proj2 (calm_pair_facts a c))) Ha Hc).
Qed.

Lemma forallb_digit_calm w :
  forallb isDigit w = true ->
  forall a, isDigit a = true ->
  forall tail, calm tail = true ->
  match tail with [] => True | b :: _ => is_space b = true end ->
  calm (a :: w ++ tail) = true.
Proof.
  induction w as [|c w IH]; intros Hw a Ha tail Ht Hsp.
  - cbn [app]. rewrite calm_cons, Ht, andb_true_r. unfold calm_char. rewrite Ha.
    rewrite orb_true_r. cbn [orb andb]. destruct tail as [|b tail]; [done|].
    exact (proj1 (calm_pair_facts a b) Hsp).
  - cbn [forallb] in Hw. apply andb_prop in Hw as [Hc Hw].
    change (a :: (c :: w) ++ tail) with (a :: c :: w ++ tail).
    rewrite calm_cons, (IH Hw c Hc tail Ht Hsp), andb_true_r.
    unfold calm_char. rewrite Ha, orb_true_r. cbn [orb andb].
    exact (proj2 (proj2 (proj2 (calm_pair_facts a c))) Ha Hc).
Qed.

Lemma plain_word_calm w tail :
  plain_word w = true -> calm tail = true ->
  match tail with [] => True | b :: _ => is_space b = true end ->
  calm (w ++ tail) = true.
Proof.
  intros Hw Ht Hsp. destruct w as [|a w]; [done|].
  cbn [plain_word] in Hw. apply orb_prop in Hw as [Hw|Hw].
  - apply andb_prop in Hw as [Ha Hw]. by apply forallb_lower_calm.
  - cbn [forallb] in Hw. apply andb_prop in Hw as [Ha Hw].
    by apply forallb_digit_calm.
Qed.

Lemma calm_space_word tail :
  calm tail = true -> calm (" "%char :: tail) = true.
Proof.
  intros Ht. rewrite calm_cons, Ht, andb_true_r.
  change (calm_char " ") with true. cbn [andb].
  destruct tail as [|b tail]; [done|].
  exact (proj1 (proj2 (calm_pair_facts " "%char b)) eq_refl).
Qed.

Lemma calm_tail_words ws :
  forallb plain_word ws = true ->
  let tail := flat_map (fun w => " "%char :: w) ws in
  calm tail = true
  /\ match tail with [] => True | b :: _ => is_space b = true end.
Proof.
  induction ws as [|w ws IH]; intros Hws; [done|].
  cbn [forallb] in Hws. apply andb_prop in Hws as [Hw Hws].
  destruct (IH Hws) as [Ht Hsp]. cbn zeta. cbn [flat_map]. split; [|done].
  change ((" "%char :: w) ++ ?t) with (" "%char :: (w ++ t)).
  apply calm_space_word. by apply plain_word_calm.
Qed.

Lemma calm_spaced ws :
  forallb plain_word ws = true -> calm (of_string (spaced ws)) = true.
Proof.
  intros Hws. destruct ws as [|w ws]; [done|].
  cbn [forallb] in Hws. apply andb_prop in Hws as [Hw Hws].
  rewrite of_string_spaced. destruct (calm_tail_words ws Hws) as [Ht Hsp].
  by apply plain_word_calm.
Qed.

(** *** The words [asciiWords] finds *)

Lemma plain_word_chars w :
  plain_word w = true -> forallb isAsciiWordChar w = true.
Proof.
  intros Hw. pose proof (plain_word_calm w [] Hw eq_refl I) as Hc.
  rewrite app_nil_r in Hc.
  assert (Hns : forallb (fun c => negb (is_space c)) w = true).
  { destruct w as [|a w]; [done|]. cbn [plain_word] in Hw.
    apply forallb_forall. intros c Hin.
    assert (H : isAlpha c = true \/ isDigit c = true).
    { apply orb_prop in Hw as [Hw|Hw].
      - apply andb_prop in Hw as [Ha Hw]. destruct Hin as [<-|Hin]; [by left|].
        rewrite forallb_forall in Hw. specialize (Hw _ Hin).
        destruct (class_facts c) as (_ & _ & -> & _). left.
        by rewrite Hw, orb_true_r.
      - rewrite forallb_forall in Hw. right. by apply Hw. }
    destruct (class_facts c) as (Hsp & _).
    destruct (is_space c); [|done]. destruct (Hsp eq_refl). destruct H; congruence. }
  apply calm_chars in Hc. apply forallb_forall. intros c Hin.
  rewrite forallb_forall in Hc, Hns.
  destruct (calm_char_facts c (Hc _ Hin)) as (_ & _ & _ & ->). by apply Hns.
Qed.

Lemma attempt_word w tail i prev :
  plain_word w = true ->
  match tail with [] => True | b :: _ => is_space b = true end ->
  attempt reAsciiWord i prev (w ++ tail) = Some (Found i w tail []).
Proof.
  intros Hw Hsp. pose proof (plain_word_chars w Hw) as Hchars.
  destruct w as [|a w]; [done|]. cbn [forallb] in Hchars.
  apply andb_prop in Hchars as [Ha Hchars].
  unfold attempt, reAsciiWord, Plus. cbn [m app]. rewrite Ha.
  erewrite star_greedy_longest.
  2:{ rewrite dropWhile_app_all by done.
      assert (Hd : dropWhile isAsciiWordChar tail = tail).
      { destruct tail as [|b tail]; [done|]. apply dropWhile_stop.
        assert (Hcb : calm_char b = true)
          by (unfold calm_char; by rewrite Hsp, orb_true_r).
        destruct (calm_char_facts b Hcb) as (_ & _ & _ & ->). by rewrite Hsp. }
      rewrite Hd. reflexivity. }
  cbv iota beta. change (a :: w ++ tail) with ((a :: w) ++ tail).
  by rewrite take_matched.
Qed.

Lemma attempt_reAsciiWord_space i prev s :
  attempt reAsciiWord i prev (" "%char :: s) = None.
Proof. done. Qed.

Lemma all_from_words ws : forall fuel i prev,
  forallb plain_word ws = true -> length ws <= fuel ->
  all_from fuel reAsciiWord i prev (flat_map (fun w => " "%char :: w) ws) = ws.
Proof.
  induction ws as [|w ws IH]; intros fuel i prev Hws Hlen.
  - by apply all_from_nil.
  - destruct fuel as [|fuel]; [simpl in Hlen; lia|].
    cbn [forallb] in Hws. apply andb_prop in Hws as [Hw Hws].
    cbn [flat_map]. set (tail := flat_map _ ws).
    change ((" "%char :: w) ++ tail) with (" "%char :: (w ++ tail)).
    cbn [all_from].
    rewrite search_skip by apply attempt_reAsciiWord_space.
    rewrite (search_attempt _ _ _ _ _
               (attempt_word w tail (S i) (Some " "%char) Hw
                  (proj2 (calm_tail_words ws Hws)))).
    cbn [f_text f_rest f_index].
    destruct (plain_word_cons w Hw) as (c & rest & ->).
    f_equal. apply IH; [done|simpl in Hlen; lia].
Qed.

Lemma length_tail_words (ws : list chars) :
  length ws <= length (flat_map (fun w => " "%char :: w) ws).
Proof.
  induction ws as [|w ws IH]; [done|]. cbn [flat_map].
  rewrite length_app. simpl. lia.
Qed.

Lemma asciiWords_spaced ws :
  forallb plain_word ws = true -> asciiWords (of_string (spaced ws)) = ws.
Proof.
  intros Hws. destruct ws as [|w ws]; [done|].
  pose proof Hws as Hws'. cbn [forallb] in Hws'.
  apply andb_prop in Hws' as [Hw Hrest].
  unfold asciiWords, match_all. rewrite of_string_spaced.
  set (tail := flat_map _ ws). cbn [all_from].
  rewrite (search_attempt _ _ _ _ _
             (attempt_word w tail 0 None Hw (proj2 (calm_tail_words ws Hrest)))).
  cbn [f_text f_rest f_index].
  destruct (plain_word_cons w Hw) as (c & rest & ->).
  pose proof (length_tail_words ws) as Hlen. subst tail.
  rewrite all_from_words; [done|done|]. rewrite length_app. lia.
Qed.

Lemma kebabCase_spaced ws :
  forallb plain_word ws = true -> kebabCase (spaced ws) = hyphenated ws.
Proof.
  intros Hws. pose proof (calm_spaced ws Hws) as Hc.
  unfold kebabCase, hyphenated.
  rewrite (deburr_calm _ (calm_chars _ Hc)), (removeApos_calm _ (calm_chars _ Hc)).
  unfold words. by rewrite (hasUnicodeWord_calm _ Hc), (asciiWords_spaced ws Hws).
Qed.

(** X21.  A title made of plain words separated by single spaces (each
    word is made of letters of which at most the first is a capital, or of
    digits) has no id suffix, so the parser returns the title unchanged and,
    as id, the slug of lodash: the words in lower case joined by hyphens. *)
Theorem plain_title_gets_hyphenated_id (ws : list chars) :
  forallb plain_word ws = true ->
  parseTextWithId (spaced ws) = Parsed (spaced ws) (hyphenated ws)
  /\ kebabCase (spaced ws) = hyphenated ws.
Proof.
  intros Hws. split; [|by apply kebabCase_spaced].
  rewrite parseTextWithId_unread; [by rewrite kebabCase_spaced|].
  apply marker_free_unread, has_marker_calm, calm_chars.
  by apply calm_spaced.
Qed.

(** The theorem of X21 on a title of three words, one of them a number. *)
Lemma plain_title_gets_hyphenated_id_witness :
  let ws := [of_string "Lift"; of_string "curve"; of_string "2"] in
  forallb plain_word ws = true
  /\ spaced ws = "Lift curve 2"
  /\ parseTextWithId "Lift curve 2" = Parsed "Lift curve 2" "lift-curve-2".
Proof.
  intros ws.
  assert (H : forallb plain_word ws = true) by reflexivity.
  split; [exact H|]. split; [reflexivity|].
  exact (proj1 (plain_title_gets_hyphenated_id ws H)).
Defined.

End Slug.

End TextIdProperties.

Module TocProperties.
Import Js Toc TocFacts.

(** ** The depths in the nested ToC *)

Section Depths.

Implicit Types (hs : list hnode) (st : nest_state).

Lemma lookup_alter_rec hs p j i h :
  alter (push_child j) p hs !! i = Some h ->
  exists h0, hs !! i = Some h0 /\ h_rec h = h_rec h0
             /\ (h_children h = h_children h0
                 \/ (i = p /\ h_children h = h_children h0 ++ [j])).
Proof.
  destruct (decide (i = p)) as [->|Hne].
  - rewrite list_lookup_alter_eq. destruct (hs !! p) as [h0|]; [|done].
    simpl. intros [= <-]. exists h0. split; [done|]. split; [done|]. by right.
  - rewrite list_lookup_alter_ne by done. intros H. exists h. by repeat split; [|left].
Qed.

(** Each turn of the loop keeps: a tracked object has the depth it is
    tracked for, and a child is an object deeper than its parent. *)
Lemma nest_step_depths st r :
  (forall d a, parents st !! d = Some a ->
     exists h, store st !! a = Some h /\ r_depth (h_rec h) = d) ->
  (forall i h c, store st !! i = Some h -> c ∈ h_children h ->
     exists hc, store st !! c = Some hc
                /\ (r_depth (h_rec h) < r_depth (h_rec hc))%Z) ->
  let st' := nest_step st r in
  (forall d a, parents st' !! d = Some a ->
     exists h, store st' !! a = Some h /\ r_depth (h_rec h) = d)
  /\ (forall i h c, store st' !! i = Some h -> c ∈ h_children h ->
        exists hc, store st' !! c = Some hc
                   /\ (r_depth (h_rec h) < r_depth (h_rec hc))%Z).
Proof.
  intros Htrack Hdeep st'.
  set (j := length (store st)).
  set (store1 := store st ++ [MkHnode r []]).
  assert (Hnew : store1 !! j = Some (MkHnode r [])).
  { subst store1 j. rewrite lookup_app_r by lia. by rewrite Nat.sub_diag. }
  assert (Hold : forall i h, store st !! i = Some h -> store1 !! i = Some h).
  { intros i h Hi. subst store1. rewrite lookup_app_l; [done|].
    by eapply lookup_lt_Some. }
  assert (Htrack1 : forall d a,
            <[r_depth r := j]> (parents st) !! d = Some a ->
            exists h, store1 !! a = Some h /\ r_depth (h_rec h) = d).
  { intros d a. destruct (decide (d = r_depth r)) as [->|Hne].
    - rewrite lookup_insert_eq. intros [= <-]. by eexists.
    - rewrite lookup_insert_ne by done. intros (h & Hh & Hd)%Htrack.
      exists h. split; [by apply Hold|done]. }
  assert (Hdeep1 : forall i h c, store1 !! i = Some h -> c ∈ h_children h ->
            exists hc, store1 !! c = Some hc
                       /\ (r_depth (h_rec h) < r_depth (h_rec hc))%Z).
  { intros i h c Hi Hc. subst store1.
    apply lookup_app_Some in Hi as [Hi|[_ Hi]].
    - destruct (Hdeep _ _ _ Hi Hc) as (hc & Hhc & Hlt). exists hc.
      split; [by apply Hold|done].
    - apply list_lookup_singleton_Some in Hi as [_ <-]. simpl in Hc.
      by apply elem_of_nil in Hc. }
  subst st'. unfold nest_step. fold j. fold store1.
  destruct (find_parent _ _) as [p|] eqn:Ep; cbn [store parents]; [|done].
  apply find_parent_Some in Ep as (g & Hg & Hp & _).
  assert (Hgd : (Z.of_nat g < r_depth r)%Z) by lia.
  destruct (Htrack1 _ _ Hp) as (hp & Hhp & Hdp).
  split.
  - intros d a (h & Hh & Hd)%Htrack1.
    destruct (decide (a = p)) as [->|Hne].
    + rewrite list_lookup_alter_eq, Hh. simpl. by eexists.
    + rewrite list_lookup_alter_ne by done. by eexists.
  - intros i h c Hi Hc.
    apply lookup_alter_rec in Hi as (h0 & Hh0 & Hrec & Hch).
    assert (Hlook : forall c hc, store1 !! c = Some hc ->
              exists hc', alter (push_child j) p store1 !! c = Some hc'
                          /\ h_rec hc' = h_rec hc).
    { intros c' hc Hc'. destruct (decide (c' = p)) as [->|Hne].
      - rewrite list_lookup_alter_eq, Hc'. simpl. by eexists.
      - rewrite list_lookup_alter_ne by done. by eexists. }
    rewrite Hrec.
    destruct Hch as [Hch|[-> Hch]]; rewrite Hch in Hc.
    + destruct (Hdeep1 _ _ _ Hh0 Hc) as (hc & Hhc & Hlt).
      destruct (Hlook _ _ Hhc) as (hc' & Hhc' & Hr). exists hc'.
      split; [done|]. by rewrite Hr.
    + apply elem_of_app in Hc as [Hc|Hc].
      * destruct (Hdeep1 _ _ _ Hh0 Hc) as (hc & Hhc & Hlt).
        destruct (Hlook _ _ Hhc) as (hc' & Hhc' & Hr). exists hc'.
        split; [done|]. by rewrite Hr.
      * apply list_elem_of_singleton in Hc. subst c.
        destruct (Hlook _ _ Hnew) as (hc' & Hhc' & Hr). exists hc'.
        split; [done|]. rewrite Hr. simpl.
        rewrite Hh0 in Hhp. injection Hhp as ->. lia.
Qed.

Lemma nest_loop_depths_from rs : forall st,
  (forall d a, parents st !! d = Some a ->
     exists h, store st !! a = Some h /\ r_depth (h_rec h) = d) ->
  (forall i h c, store st !! i = Some h -> c ∈ h_children h ->
     exists hc, store st !! c = Some hc
                /\ (r_depth (h_rec h) < r_depth (h_rec hc))%Z) ->
  let st' := fold_left nest_step rs st in
  forall i h c, store st' !! i = Some h -> c ∈ h_children h ->
    exists hc, store st' !! c = Some hc
               /\ (r_depth (h_rec h) < r_depth (h_rec hc))%Z.
Proof.
  induction rs as [|r rs IH]; intros st H1 H2; [done|].
  destruct (nest_step_depths st r H1 H2) as [H1' H2'].
  by apply IH.
Qed.

Lemma trees_from_depth hs : forall base k t,
  trees_from base hs !! k = Some t ->
  exists h, hs !! k = Some h /\ toc_depth t = r_depth (h_rec h).
Proof.
  induction hs as [|h rest IH]; intros base k t; [done|].
  destruct k as [|k]; cbn [trees_from].
  - intros [= <-]. by exists h.
  - simpl. apply IH.
Qed.

Lemma trees_from_deeper (all : list hnode) hs : forall base,
  hs = skipn base all ->
  (forall i h c, all !! i = Some h -> c ∈ h_children h ->
     exists hc, all !! c = Some hc
                /\ (r_depth (h_rec h) < r_depth (h_rec hc))%Z) ->
  Forall (fun t => deeper t = true) (trees_from base hs).
Proof.
  induction hs as [|h rest IH]; intros base Hhs Hdeep; [constructor|].
  assert (Hh : all !! base = Some h).
  { rewrite <- (Nat.add_0_r base), <- lookup_drop, <- Hhs. done. }
  assert (Hrest : rest = skipn (S base) all).
  { rewrite (drop_S _ _ _ Hh) in Hhs. by injection Hhs. }
  specialize (IH (S base) Hrest Hdeep).
  cbn [trees_from]. constructor; [|done].
  cbn [deeper]. apply forallb_forall. intros c Hc.
  apply list_elem_of_In, list_elem_of_omap in Hc as (a & Ha & Hc).
  destruct (Nat.ltb_spec base a) as [Hlt|]; [|done].
  rewrite Forall_forall in IH.
  rewrite (IH c) by (by eapply list_elem_of_lookup_2). rewrite andb_true_r.
  destruct (trees_from_depth _ _ _ _ Hc) as (hc & Hhc & ->).
  rewrite Hrest, lookup_drop in Hhc.
  replace (S base + (a - S base)) with a in Hhc by lia.
  destruct (Hdeep _ _ _ Hh Ha) as (hc' & Hhc' & Hd).
  rewrite Hhc in Hhc'. injection Hhc' as <-. by apply Z.ltb_lt.
Qed.

Lemma read_forest_deeper hs roots :
  (forall i h c, hs !! i = Some h -> c ∈ h_children h ->
     exists hc, hs !! c = Some hc
                /\ (r_depth (h_rec h) < r_depth (h_rec hc))%Z) ->
  Forall (fun t => deeper t = true) (read_forest hs roots).
Proof.
  intros Hdeep. unfold read_forest. apply Forall_forall. intros t Ht.
  apply list_elem_of_omap in Ht as (a & _ & Ht).
  pose proof (trees_from_deeper hs hs 0 eq_refl Hdeep) as H.
  rewrite Forall_forall in H. apply H. by eapply list_elem_of_lookup_2.
Qed.

End Depths.

(** X18.  Whatever the depths of the records and their order, in every
    tree of the nested ToC a child is strictly deeper than its parent, at
    every level of the tree; and no tree of the output has the depth 1 of
    the title. *)
Theorem toc_children_are_deeper (flat : option (list SectionRecord))
    (nested : list toc_node) :
  nestHeadings flat = Return nested ->
  Forall (fun t => deeper t = true) nested
  /\ Forall (fun r => r_depth r <> 1%Z) (flat_map toc_records nested).
Proof.
  destruct flat as [flat|]; [|intros [= <-]; done].
  destruct flat as [|r0 flat0] eqn:Eflat; [intros [= <-]; done|].
  assert (Hne : flat <> []) by (by rewrite Eflat).
  rewrite <- Eflat. clear Eflat.
  destruct (decide (length (List.filter isDepth1 flat) = 1)) as [H1|H1].
  - rewrite (nestHeadings_valid _ H1). cbv zeta. intros [= <-]. split.
    + apply read_forest_deeper.
      apply (nest_loop_depths_from _ nest_init); simpl; intros; done.
    + rewrite nest_loop_records. apply Forall_forall. intros x Hx.
      apply list_elem_of_In, filter_In in Hx as [_ Hx]. unfold isDepth1 in Hx.
      destruct (Z.eqb_spec (r_depth x) 1); [done|done].
  - intros H. exfalso. unfold nestHeadings in H.
    destruct flat as [|r flat']; [done|].
    remember (length (List.filter isDepth1 (r :: flat'))) as n eqn:En.
    destruct n as [|[|n]]; [done|congruence|done].
Qed.

(** The theorem of X18 on records whose depths go down and up again. *)
Lemma toc_children_are_deeper_witness :
  let flat := [MkRecord 3 "A" "a"; MkRecord 1 "T" "t"; MkRecord 2 "B" "b";
               MkRecord 4 "C" "c"; MkRecord 4 "D" "d"] in
  exists nested,
    nestHeadings (Some flat) = Return nested
    /\ Forall (fun t => deeper t = true) nested
    /\ nested = [TocNode 3 "A" "a" [TocNode 4 "C" "c" []; TocNode 4 "D" "d" []];
                 TocNode 2 "B" "b" []].
Proof.
  intros flat. eexists. split; [reflexivity|].
  split; [|reflexivity].
  exact (proj1 (toc_children_are_deeper (Some flat) _ eq_refl)).
Defined.

(** ** The order of the nested ToC *)

Section Order.

Implicit Types (kept : list SectionRecord).

Lemma gentle_lookup kept j r r' :
  gentle kept = true -> kept !! j = Some r -> kept !! S j = Some r' ->
  (r_depth r' <= r_depth r + 1)%Z.
Proof.
  revert j. induction kept as [|x kept IH]; intros j Hg Hr Hr'; [done|].
  cbn [gentle] in Hg. apply andb_prop in Hg as [Hx Hg].
  destruct j as [|j].
  - simpl in Hr, Hr'. injection Hr as <-. destruct kept as [|y kept]; [done|].
    simpl in Hr'. injection Hr' as <-. by apply Z.leb_le.
  - simpl in Hr, Hr'. by eapply IH.
Qed.

(** Between a record shallower than [g] and a later record at least as
    deep as [g] there is a record of depth [g]. *)
Lemma gentle_crosses kept g x rx :
  gentle kept = true -> kept !! x = Some rx -> (r_depth rx < g)%Z ->
  forall z rz, x <= z -> kept !! z = Some rz -> (g <= r_depth rz)%Z ->
  exists y ry, x < y <= z /\ kept !! y = Some ry /\ r_depth ry = g.
Proof.
  intros Hg Hx Hdx z. induction z as [|z IH]; intros rz Hxz Hz Hdz.
  - assert (x = 0) by lia. subst x. rewrite Hx in Hz. injection Hz as <-. lia.
  - destruct (decide (x = S z)) as [->|Hne].
    { rewrite Hx in Hz. injection Hz as <-. lia. }
    destruct (lookup_lt_is_Some_2 kept z) as [rz' Hz'].
    { apply lookup_lt_Some in Hz. lia. }
    pose proof (gentle_lookup _ _ _ _ Hg Hz' Hz) as Hstep.
    destruct (Z_le_gt_dec g (r_depth rz')) as [Hle|Hgt].
    + destruct (IH rz') as (y & ry & Hy & Hry & Hd); [lia|done|done|].
      exists y, ry. split; [lia|done].
    + exists (S z), rz. split; [lia|]. split; [done|lia].
Qed.

Lemma most_recent_at_latest prev g i :
  most_recent_at prev g = Some i ->
  forall i' r', prev !! i' = Some r' -> r_depth r' = g -> i' <= i.
Proof.
  revert i. induction prev as [|x prev IH]; intros i; simpl; [done|].
  destruct (most_recent_at prev g) as [i0|] eqn:E.
  - intros [= <-] [|i'] r' Hr' Hd; [lia|]. simpl in Hr'.
    specialize (IH _ eq_refl _ _ Hr' Hd). lia.
  - destruct (Z.eqb_spec (r_depth x) g); [|done]. intros [= <-] [|i'] r' Hr' Hd;
      [lia|]. simpl in Hr'.
    exfalso. eapply most_recent_at_None; [exact E| |exact Hd].
    by eapply list_elem_of_lookup_2.
Qed.

(** What it means that [b] is the stated parent of [c]. *)
Lemma parent_of_Some kept c b :
  parent_of kept c = Some b ->
  exists rb rc,
    kept !! b = Some rb /\ kept !! c = Some rc /\ b < c
    /\ (r_depth rb < r_depth rc)%Z
    /\ (forall y ry, y < c -> kept !! y = Some ry ->
          (r_depth ry < r_depth rc)%Z -> (r_depth ry <= r_depth rb)%Z)
    /\ (forall y ry, b < y < c -> kept !! y = Some ry ->
          r_depth ry <> r_depth rb).
Proof.
  intros Hp. pose proof (parent_of_lt _ _ _ Hp) as Hlt.
  unfold parent_of in Hp. destruct (kept !! c) as [rc|] eqn:Hc; [|done].
  unfold stated_parent in Hp.
  pose proof (greatest_below_spec (firstn c kept) (r_depth rc)) as Hg.
  destruct (greatest_below _ _) as [g|]; [|done].
  destruct Hg as (Hgd & _ & Hmax).
  pose proof (most_recent_at_latest _ _ _ Hp) as Hlast.
  apply most_recent_at_Some in Hp as (rb & Hb & Hdb).
  rewrite lookup_take_lt in Hb by done.
  exists rb, rc. split; [done|]. split; [done|]. split; [done|].
  split; [lia|]. split.
  - intros y ry Hy Hry Hd. rewrite Hdb. apply Hmax; [|done].
    apply (list_elem_of_lookup_2 _ y). by rewrite lookup_take_lt.
  - intros y ry Hy Hry Hd. rewrite Hdb in Hd.
    assert (y <= b); [|lia].
    apply (Hlast y ry); [|done]. rewrite lookup_take_lt; [done|lia].
Qed.

Lemma parent_of_None kept c rc :
  parent_of kept c = None -> kept !! c = Some rc ->
  Forall (fun r => (1 <= r_depth r)%Z) kept ->
  forall y ry, y < c -> kept !! y = Some ry -> ~ (r_depth ry < r_depth rc)%Z.
Proof.
  intros Hp Hc Hpos y ry Hy Hry Hd. unfold parent_of in Hp. rewrite Hc in Hp.
  unfold stated_parent in Hp.
  pose proof (greatest_below_spec (firstn c kept) (r_depth rc)) as Hg.
  assert (Hin : ry ∈ firstn c kept).
  { apply (list_elem_of_lookup_2 _ y). by rewrite lookup_take_lt. }
  destruct (greatest_below _ _) as [g|].
  - destruct Hg as (_ & (r0 & Hr0 & Hd0) & _).
    destruct (most_recent_at (firstn c kept) g) eqn:E; [done|].
    by destruct (most_recent_at_None _ _ _ E Hr0).
  - by destruct (Hg _ Hin).
Qed.

(** Every record between a parent and its child is deeper than the
    parent. *)
Lemma gentle_between kept c b rb y ry :
  gentle kept = true ->
  parent_of kept c = Some b -> kept !! b = Some rb ->
  b < y < c -> kept !! y = Some ry ->
  (r_depth rb < r_depth ry)%Z.
Proof.
  intros Hg Hp Hb Hy Hry.
  destruct (parent_of_Some _ _ _ Hp) as (rb' & rc & Hb' & Hc & Hbc & Hd & Hmax & Hlast).
  rewrite Hb in Hb'. injection Hb' as <-.
  destruct (Z_lt_le_dec (r_depth rb) (r_depth ry)) as [|Hle]; [done|exfalso].
  pose proof (Hlast y ry Hy Hry) as Hne.
  destruct (lookup_lt_is_Some_2 kept (c - 1)) as [rp Hrp].
  { apply lookup_lt_Some in Hc. lia. }
  assert (Hstep : (r_depth rc <= r_depth rp + 1)%Z).
  { apply (gentle_lookup kept (c - 1)); [done|done|].
    by replace (S (c - 1)) with c by lia. }
  destruct (gentle_crosses kept (r_depth rb) y ry Hg Hry ltac:(lia)
              (c - 1) rp ltac:(lia) Hrp ltac:(lia))
    as (y' & ry' & Hy' & Hry' & Hd').
  apply (Hlast y' ry'); [lia|done|done].
Qed.

(** No record between a parent and its child hangs above the parent. *)
Lemma gentle_nested kept c b y :
  gentle kept = true ->
  Forall (fun r => (1 <= r_depth r)%Z) kept ->
  parent_of kept c = Some b -> b < y < c ->
  exists q, parent_of kept y = Some q /\ b <= q.
Proof.
  intros Hg Hpos Hp Hy.
  destruct (parent_of_Some _ _ _ Hp) as (rb & rc & Hb & Hc & Hbc & _).
  destruct (lookup_lt_is_Some_2 kept y) as [ry Hry].
  { apply lookup_lt_Some in Hc. lia. }
  pose proof (gentle_between _ _ _ _ _ _ Hg Hp Hb Hy Hry) as Hdeep.
  destruct (parent_of kept y) as [q|] eqn:Hq.
  2:{ destruct (parent_of_None _ _ _ Hq Hry Hpos b rb); [lia|done|done]. }
  exists q. split; [done|].
  destruct (le_lt_dec b q) as [|Hlt]; [done|exfalso].
  destruct (parent_of_Some _ _ _ Hq)
    as (rq & ry' & Hrq & Hry' & Hqy & Hdq & Hmax & Hlast).
  rewrite Hry in Hry'. injection Hry' as <-.
  pose proof (Hmax b rb ltac:(lia) Hb Hdeep) as Hle.
  pose proof (gentle_between kept y q rq b rb Hg Hq Hrq ltac:(lia) Hb). lia.
Qed.

End Order.

Section Ordered.

Lemma StronglySorted_filter_seq (p : nat -> bool) a n :
  StronglySorted lt (List.filter p (seq a n)).
Proof.
  revert a. induction n as [|n IH]; intros a; [constructor|].
  cbn [seq List.filter]. destruct (p a); [|apply IH].
  constructor; [apply IH|]. apply Forall_forall. intros x Hx.
  apply list_elem_of_In, filter_In in Hx as [Hx _]. apply in_seq in Hx. lia.
Qed.

(** The trees of a pending list of addresses hold the records of a suffix
    of the store in the order of the store, when the list is in increasing
    order and a child of an object comes before every later address that
    hangs above the object. *)
Lemma trees_from_ordered (all : list hnode) (roots : list nat) :
  (forall i h, all !! i = Some h -> Forall (fun c => i < c) (h_children h)) ->
  (forall i h, all !! i = Some h -> StronglySorted lt (h_children h)) ->
  (forall b hb c y, all !! b = Some hb -> c ∈ h_children hb -> b < y ->
     (y ∈ roots
      \/ exists q hq, q < b /\ all !! q = Some hq /\ y ∈ h_children hq) ->
     c < y) ->
  forall hs base R,
    hs = skipn base all ->
    StronglySorted lt R ->
    (forall y, y ∈ R ->
       y ∈ roots
       \/ exists q hq, q < base /\ all !! q = Some hq /\ y ∈ h_children hq) ->
    R ++ flat_map h_children hs ≡ₚ seq base (length hs) ->
    flat_map toc_records (omap (tree_at base hs) R) = List.map h_rec hs.
Proof.
  intros Hlater Hsorted Hnc.
  induction hs as [|h rest IH]; intros base R Hhs HR Horigin Hperm.
  - simpl in Hperm. rewrite app_nil_r in Hperm.
    apply Permutation_nil_r in Hperm. by subst R.
  - assert (Hh : all !! base = Some h).
    { rewrite <- (Nat.add_0_r base), <- lookup_drop, <- Hhs. done. }
    assert (Hrest : rest = skipn (S base) all).
    { rewrite (drop_S _ _ _ Hh) in Hhs. by injection Hhs. }
    simpl in Hperm.
    assert (Hch : Forall (fun c => base < c) (h_children h)) by by eapply Hlater.
    assert (Hge : forall y, y ∈ R -> base <= y).
    { intros y Hy.
      assert (H : y ∈ seq base (S (length rest))).
      { rewrite <- Hperm. apply elem_of_app. by left. }
      apply list_elem_of_In, in_seq in H. lia. }
    assert (Hin : base ∈ R).
    { assert (H : base ∈ R ++ h_children h ++ flat_map h_children rest).
      { rewrite Hperm. left. }
      apply elem_of_app in H as [H|H]; [done|]. exfalso.
      apply elem_of_app in H as [H|H].
      - rewrite Forall_forall in Hch. specialize (Hch _ H). lia.
      - apply list_elem_of_In, in_flat_map in H as (h' & Hh' & Hc).
        apply list_elem_of_In, list_elem_of_lookup in Hh' as [i Hi].
        rewrite Hrest, lookup_drop in Hi.
        pose proof (Hlater _ _ Hi) as Hl. rewrite Forall_forall in Hl.
        apply list_elem_of_In in Hc. specialize (Hl _ Hc). lia. }
    destruct R as [|r0 R']; [by apply elem_of_nil in Hin|].
    apply StronglySorted_inv in HR as [HR' Hr0].
    assert (r0 = base) as ->.
    { apply elem_of_cons in Hin as [->|Hin]; [done|].
      rewrite Forall_forall in Hr0. specialize (Hr0 _ Hin).
      specialize (Hge r0 ltac:(left)). lia. }
    simpl in Hperm. apply Permutation_cons_inv in Hperm.
    assert (Hnew : StronglySorted lt (h_children h ++ R')).
    { apply StronglySorted_app_2; [|by eapply Hsorted|done].
      intros c y Hc Hy. apply (Hnc base h c y Hh Hc).
      - rewrite Forall_forall in Hr0. by apply Hr0.
      - apply Horigin. by right. }
    cbn [omap list_omap]. rewrite tree_at_here. cbn [flat_map toc_records].
    replace (MkRecord (r_depth (h_rec h)) (r_title (h_rec h)) (r_id (h_rec h)))
      with (h_rec h) by by destruct (h_rec h).
    simpl. f_equal.
    rewrite (omap_agree (tree_at base (h :: rest)) (tree_at (S base) rest) R').
    2:{ eapply Forall_impl; [exact Hr0|]. intros a Ha. by apply tree_at_later. }
    rewrite <- flat_map_app, <- omap_app.
    apply IH; [done|done| |].
    + intros y [Hy|Hy]%elem_of_app.
      * right. exists base, h. split; [lia|done].
      * destruct (Horigin y ltac:(by right)) as [?|(q & hq & Hq & Hhq & Hyq)];
          [by left|].
        right. exists q, hq. split; [lia|done].
    + rewrite <- Hperm. rewrite <- !app_assoc. apply Permutation_app_swap_app.
Qed.

Lemma stated_store_lookup kept i h :
  stated_store kept !! i = Some h ->
  exists r, kept !! i = Some r
            /\ h = MkHnode r (positions_upto kept (length kept) (Some i)).
Proof.
  unfold stated_store, stated_store_upto. rewrite firstn_all.
  rewrite list_lookup_imap. destruct (kept !! i) as [r|]; [|done].
  simpl. intros [= <-]. by exists r.
Qed.

Lemma positions_upto_elem kept n p c :
  c ∈ positions_upto kept n p -> c < n /\ parent_of kept c = p.
Proof.
  unfold positions_upto. intros H.
  apply list_elem_of_In, filter_In in H as [Hc Hp].
  apply in_seq in Hc. apply bool_decide_eq_true in Hp. split; [lia|done].
Qed.

Lemma nest_loop_ordered kept :
  Forall (fun r => (1 <= r_depth r)%Z) kept ->
  gentle kept = true ->
  let st := nest_loop kept in
  flat_map toc_records (read_forest (store st) (nestedHeadings st)) = kept.
Proof.
  intros Hpos Hg st.
  destruct (nest_loop_shape kept) as (Hperm & Hlater & Hrecs).
  destruct (nest_loop_stated kept Hpos) as [Hstore Hroots].
  fold st in Hperm, Hlater, Hrecs, Hstore, Hroots.
  rewrite read_forest_tree_at.
  transitivity (List.map h_rec (store st)); [|done].
  apply (trees_from_ordered (store st) (nestedHeadings st)); try done.
  - intros i h Hi. rewrite Hstore in Hi.
    apply stated_store_lookup in Hi as (r & _ & ->). simpl.
    apply StronglySorted_filter_seq.
  - rewrite Hstore, Hroots. intros b hb c y Hb Hc Hby Hy.
    apply stated_store_lookup in Hb as (rb & _ & ->). simpl in Hc.
    apply positions_upto_elem in Hc as [_ Hpc].
    assert (Hpy : parent_of kept y = None
                  \/ exists q, q < b /\ parent_of kept y = Some q).
    { destruct Hy as [Hy|(q & hq & Hq & Hhq & Hy)].
      - left. by apply positions_upto_elem in Hy as [_ ?].
      - right. exists q. split; [done|].
        apply stated_store_lookup in Hhq as (rq & _ & ->). simpl in Hy.
        by apply positions_upto_elem in Hy as [_ ?]. }
    destruct (lt_eq_lt_dec c y) as [[Hlt|Heq]|Hgt]; [done| |]; exfalso.
    + subst y. rewrite Hpc in Hpy. destruct Hpy as [|(q & Hq & [= ->])]; [done|lia].
    + destruct (gentle_nested kept c b y Hg Hpos Hpc ltac:(lia)) as (q' & Hq' & Hle).
      rewrite Hq' in Hpy. destruct Hpy as [|(q & Hq & [= ->])]; [done|lia].
  - rewrite Hroots. apply StronglySorted_filter_seq.
  - intros y Hy. by left.
Qed.

End Ordered.

(** X22.  For a valid list (exactly one record of depth 1, no depth below
    1) in which, the title left aside, no record is more than one level
    deeper than the record before it: read depth first, each tree from its
    root through its children in order, the nested ToC lists the records in
    the order of the input, the title left out.  (Without the condition it
    does not: a record two levels deeper than the one before can land under
    an earlier branch.) *)
Theorem toc_keeps_document_order (flat : list SectionRecord) :
  length (List.filter isDepth1 flat) = 1 ->
  Forall (fun r => (1 <= r_depth r)%Z) flat ->
  let kept := List.filter (fun h => negb (isDepth1 h)) flat in
  gentle kept = true ->
  exists nested,
    nestHeadings (Some flat) = Return nested
    /\ flat_map toc_records nested = kept.
Proof.
  intros Hone Hpos kept Hg.
  rewrite (nestHeadings_valid _ Hone). cbv zeta. fold kept.
  eexists. split; [reflexivity|].
  apply nest_loop_ordered; [|done]. by apply Forall_filter_keep.
Qed.

(** The theorem of X22 on a page that goes down two levels and comes back,
    and the order lost on a list that skips a level. *)
Lemma toc_keeps_document_order_witness :
  let flat := [MkRecord 1 "T" "t"; MkRecord 2 "A" "a"; MkRecord 3 "B" "b";
               MkRecord 4 "C" "c"; MkRecord 2 "D" "d"; MkRecord 3 "E" "e"] in
  let skipping := [MkRecord 1 "T" "t"; MkRecord 3 "A" "a"; MkRecord 2 "B" "b";
                   MkRecord 4 "C" "c"] in
  length (List.filter isDepth1 flat) = 1
  /\ Forall (fun r => (1 <= r_depth r)%Z) flat
  /\ gentle (List.filter (fun h => negb (isDepth1 h)) flat) = true
  /\ (exists nested,
        nestHeadings (Some flat) = Return nested
        /\ flat_map toc_records nested
           = [MkRecord 2 "A" "a"; MkRecord 3 "B" "b"; MkRecord 4 "C" "c";
              MkRecord 2 "D" "d"; MkRecord 3 "E" "e"])
  /\ gentle (List.filter (fun h => negb (isDepth1 h)) skipping) = false
  /\ (exists nested,
        nestHeadings (Some skipping) = Return nested
        /\ flat_map toc_records nested
           = [MkRecord 3 "A" "a"; MkRecord 4 "C" "c"; MkRecord 2 "B" "b"]).
Proof.
  intros flat skipping.
  assert (H1 : length (List.filter isDepth1 flat) = 1) by reflexivity.
  assert (H2 : Forall (fun r => (1 <= r_depth r)%Z) flat)
    by (repeat constructor; simpl; lia).
  assert (H3 : gentle (List.filter (fun h => negb (isDepth1 h)) flat) = true)
    by reflexivity.
  split; [exact H1|]. split; [exact H2|]. split; [exact H3|].
  split; [exact (toc_keeps_document_order flat H1 H2 H3)|].
  split; [reflexivity|]. eexists. split; reflexivity.
Defined.

End TocProperties.
